(** * IPP: independent point projections between genomes

    A shallow embedding of [src/ipp.cpp] (class [Ipp]) and the properties
    of its natural-language specification.

    Conventions of the embedding:
    - [uint32_t], [uint16_t] and [unsigned] values are [Z] within their range,
      with the wrap-around of the C++ arithmetic written out ([u32], [to_int]);
    - C++ exceptions, failed [assert]s and out-of-range vector reads are the
      non-[Ok] constructors of [outcome];
    - [std::unordered_map] is an association list whose order is the
      iteration order of the container;
    - memory is unbounded: no allocation fails, and [std::bad_alloc] is not
      among the outcomes;
    - IEEE-754 doubles that are compared and multiplied only (the scores) are
      an abstract carrier [ScoreArith], with the laws binary64 and libm meet
      for scores between 0 and 1 ([ScoreLaws]) and the binary64 instance
      [ieeeScores], in which a score can be a NaN; the double arithmetic of
      the linear interpolation is evaluated with the primitive binary64
      floats. *)

From Stdlib Require Import Strings.String Strings.Ascii Strings.Byte.
From Stdlib Require Import ZArith List Bool Lia Arith PeanoNat.
From Stdlib Require Import Permutation Sorted.
From Stdlib Require Import Floats Uint63.
From Stdlib Require Import QArith Qround.
From Stdlib Require Decimal DecimalString DecimalN.
Import ListNotations.

Local Open Scope Z_scope.

(** ** Machine integers *)

Module MachineInt.

Definition two32 : Z := 4294967296.
Definition two31 : Z := 2147483648.
Definition two16 : Z := 65536.

(** Arithmetic on [uint32_t] is modulo 2^32. *)
Definition u32 (z : Z) : Z := z mod two32.

(** Conversion of a [uint32_t] to [int] (two's complement narrowing). *)
Definition to_int (z : Z) : Z := (z + two31) mod two32 - two31.

(** [-1 * (int)x]. *)
Definition neg_int (z : Z) : Z := to_int (- to_int z).

Definition is_u32 (z : Z) : Prop := 0 <= z < two32.
Definition is_u16 (z : Z) : Prop := 0 <= z < two16.

End MachineInt.
Export MachineInt.

(** ** Outcomes of a C++ call *)

Inductive exn : Type :=
| OutOfRange                 (* std::out_of_range of map::at / vector::at *)
| RuntimeError (msg : string) (* std::runtime_error *)
| StdException.              (* a plain std::exception object *)

Inductive outcome (A : Type) : Type :=
| Ok (a : A)
| Throw (e : exn)            (* a C++ exception leaves the function *)
| AssertFail                 (* assert() failed: the process aborts *)
| OutOfBounds                (* unchecked read past the end of a vector *)
| OutOfFuel.                 (* the model's loop bound was exhausted *)
Arguments Ok {A} a.
Arguments Throw {A} e.
Arguments AssertFail {A}.
Arguments OutOfBounds {A}.
Arguments OutOfFuel {A}.

Definition bind {A B : Type} (m : outcome A) (f : A -> outcome B) : outcome B :=
  match m with
  | Ok a => f a
  | Throw e => Throw e
  | AssertFail => AssertFail
  | OutOfBounds => OutOfBounds
  | OutOfFuel => OutOfFuel
  end.

Notation "x <- m ;; k" := (bind m (fun x => k))
  (at level 61, m at next level, right associativity).

Definition assert (b : bool) : outcome unit :=
  if b then Ok tt else AssertFail.

(** ** Data model (declared in ipp.h) *)

(** Modelled from the spec: [struct PwalnEntry] of ipp.h, a 20-byte record
    of four [uint32_t] and two [uint16_t] fields in this order. *)
Record PwalnEntry : Type := mkEntry {
  refStart : Z;
  refEnd : Z;
  qryStart : Z;
  qryEnd : Z;
  refChrom : Z;
  qryChrom : Z
}.

(** Modelled from the spec: [PwalnEntry::isQryReversed], the alignment is to
    the reverse strand when [qry_start > qry_end]. *)
Definition isQryReversed (e : PwalnEntry) : bool := qryEnd e <? qryStart e.

(** Modelled from the spec: [PwalnEntry::operator==], field-wise equality. *)
Definition entry_eqb (a b : PwalnEntry) : bool :=
  (refStart a =? refStart b) && (refEnd a =? refEnd b) &&
  (qryStart a =? qryStart b) && (qryEnd a =? qryEnd b) &&
  (refChrom a =? refChrom b) && (qryChrom a =? qryChrom b).

Definition dummyEntry : PwalnEntry := mkEntry 0 0 0 0 0 0.

(** The data-model invariant of an entry and the range of its fields. *)
Definition wf_entry (e : PwalnEntry) : Prop :=
  is_u32 (refStart e) /\ is_u32 (refEnd e) /\
  is_u32 (qryStart e) /\ is_u32 (qryEnd e) /\
  is_u16 (refChrom e) /\ is_u16 (qryChrom e) /\
  refStart e < refEnd e /\ qryStart e <> qryEnd e.

(** Neither strand is excluded: [qry_start <> qry_end]. *)
Definition strand_ok (e : PwalnEntry) : Prop := qryStart e <> qryEnd e.

(** Query coordinates that survive the narrowing to [int]. *)
Definition qry_in_int (e : PwalnEntry) : Prop :=
  0 <= qryStart e < two31 /\ 0 <= qryEnd e < two31.

Record Coords : Type := mkCoords { chrom : Z; loc : Z }.

Record Anchors : Type := mkAnchors {
  upstream : PwalnEntry;
  downstream : PwalnEntry
}.

(** [Pwaln]: ref chromosome -> entries sorted by [refStart]. *)
Definition Pwaln : Type := list (Z * list PwalnEntry).

(** ** Longest collinear subsequence (anonymous-namespace helper) *)

Module Lis.
Section Helper.

Variable seq : list PwalnEntry.
Variable filter : PwalnEntry -> bool.
Variable qryStartOf qryEndOf : PwalnEntry -> Z.

Definition at_seq (i : nat) : PwalnEntry := nth i seq dummyEntry.
Definition hi_at (i : nat) : Z := qryEndOf (at_seq i).
Definition lo_at (i : nat) : Z := qryStartOf (at_seq i).

(** [vector::operator[]] on [m] and [prev]; the surrounding code keeps the
    indices in range (lemmas [scan_inv] and [bsearch_range]). *)
Definition rd (l : list nat) (k : nat) : nat := nth k l 0%nat.

Fixpoint wr (l : list nat) (k : nat) (x : nat) : list nat :=
  match l, k with
  | [], _ => []
  | _ :: t, O => x :: t
  | h :: t, S k' => h :: wr t k' x
  end.

(** [m.back()]. *)
Definition back (m : list nat) : nat := last m 0%nat.

(** The binary search [while (u < v)] over [m]. *)
Fixpoint bsearch (fuel : nat) (m : list nat) (i u v : nat) : nat :=
  match fuel with
  | O => u
  | S fuel' =>
      if (u <? v)%nat then
        let mid := ((u + v) / 2)%nat in
        if hi_at (rd m mid) <=? lo_at i
        then bsearch fuel' m i (mid + 1)%nat v
        else bsearch fuel' m i u mid
      else u
  end.

(** One iteration of the [for] loop over [i]. *)
Definition scan_step (st : list nat * list nat) (i : nat)
  : list nat * list nat :=
  let '(m, prev) := st in
  if negb (filter (at_seq i)) then (m, prev)
  else if (length m =? 0)%nat then (m ++ [i], prev)
  else if hi_at (back m) <=? lo_at i then (m ++ [i], wr prev i (back m))
  else
    let u := bsearch (length m) m i 0%nat (length m - 1)%nat in
    if hi_at i <? hi_at (rd m u) then
      let prev' := if (0 <? u)%nat then wr prev i (rd m (u - 1)%nat)
                   else prev in
      (wr m u i, prev')
    else (m, prev).

Definition scan_from (st : list nat * list nat) (idxs : list nat)
  : list nat * list nat :=
  fold_left scan_step idxs st.

Definition scan : list nat * list nat :=
  scan_from ([], repeat 0%nat (length seq)) (List.seq 0 (length seq)).

(** The backtrace [for (u = m.size(); u; --u)]: [k] steps from [v]. *)
Fixpoint backtrace (prev : list nat) (k : nat) (v : nat) : list PwalnEntry :=
  match k with
  | O => []
  | S k' => backtrace prev k' (rd prev v) ++ [at_seq v]
  end.

(** [::longestSubsequence(seq, filter, qryStart, qryEnd)].  When no element
    passes [filter], [m] is empty and [m.back()] reads before the start of
    the vector; the value read is not used, as the loop runs [m.size()]
    times. *)
Definition longestSubsequence_helper : list PwalnEntry :=
  match seq with
  | [] => []
  | _ =>
      let '(m, prev) := scan in
      backtrace prev (length m) (back m)
  end.

(** Specification predicates of the helper: [chain_ok prev k v] says that
    the [k] backtrace steps from [v] visit decreasing indices of [seq]
    whose elements pass [filter] and are linked by [qryEnd <= qryStart]. *)
Fixpoint chain_ok (prev : list nat) (k : nat) (v : nat) : Prop :=
  match k with
  | O => True
  | S k' =>
      (v < length seq)%nat /\ filter (at_seq v) = true /\
      match k' with
      | O => True
      | S _ =>
          (rd prev v < v)%nat /\
          qryEndOf (at_seq (rd prev v)) <= qryStartOf (at_seq v) /\
          chain_ok prev k' (rd prev v)
      end
  end.

(** Loop invariant of the scan after the indices below [i]. *)
Definition scan_inv (i : nat) (st : list nat * list nat) : Prop :=
  length (snd st) = length seq /\
  forall pos, (pos < length (fst st))%nat ->
    (rd (fst st) pos < i)%nat /\ chain_ok (snd st) (S pos) (rd (fst st) pos).

(** Consecutive elements are linked: [qryEnd a <= qryStart b]. *)
Definition linked (l : list PwalnEntry) : Prop :=
  Sorted (fun a b => qryEndOf a <= qryStartOf b) l.

(** The read [m.back()] of the backtrace is within the vector. *)
Definition back_in_range : bool :=
  match seq with
  | [] => true
  | _ => negb (length (fst scan) =? 0)%nat
  end.

End Helper.
End Lis.

(** ** Ipp::longestSubsequence (public wrapper) *)

Definition fwd_filter (e : PwalnEntry) : bool := negb (isQryReversed e).
Definition fwd_lo (e : PwalnEntry) : Z := to_int (qryStart e).
Definition fwd_hi (e : PwalnEntry) : Z := to_int (qryEnd e).
Definition rev_filter (e : PwalnEntry) : bool := isQryReversed e.
Definition rev_lo (e : PwalnEntry) : Z := neg_int (qryStart e).
Definition rev_hi (e : PwalnEntry) : Z := neg_int (qryEnd e).

Definition inc_of (seq : list PwalnEntry) : list PwalnEntry :=
  Lis.longestSubsequence_helper seq fwd_filter fwd_lo fwd_hi.
Definition dec_of (seq : list PwalnEntry) : list PwalnEntry :=
  Lis.longestSubsequence_helper seq rev_filter rev_lo rev_hi.

(** The sanity loop over [inc]: [loc] starts at 0. *)
Fixpoint check_inc (loc : Z) (l : list PwalnEntry) : bool :=
  match l with
  | [] => true
  | e :: t =>
      (loc <=? qryStart e) && (qryStart e <? qryEnd e) && check_inc (qryEnd e) t
  end.

(** The sanity loop over [dec]: [loc] starts at [UINT32_MAX]. *)
Fixpoint check_dec (loc : Z) (l : list PwalnEntry) : bool :=
  match l with
  | [] => true
  | e :: t =>
      (qryEnd e <=? loc) && (qryEnd e <? qryStart e) && check_dec (qryStart e) t
  end.

Definition longestSubsequence (seq : list PwalnEntry)
  : outcome (list PwalnEntry) :=
  let inc := inc_of seq in
  let dec := dec_of seq in
  _ <- assert (check_inc 0 inc) ;;
  _ <- assert (check_dec (two32 - 1) dec) ;;
  Ok (if (length dec <=? length inc)%nat then inc else dec).

(** The wrapper as the specification words it: both runs over the signed
    query coordinates themselves, the longer one returned, the forward one on
    a tie. *)
Definition spec_forward (seq : list PwalnEntry) : list PwalnEntry :=
  Lis.longestSubsequence_helper seq (fun e => negb (isQryReversed e))
    qryStart qryEnd.
Definition spec_reverse (seq : list PwalnEntry) : list PwalnEntry :=
  Lis.longestSubsequence_helper seq isQryReversed
    (fun e => - qryStart e) (fun e => - qryEnd e).
Definition spec_longestSubsequence (seq : list PwalnEntry) : list PwalnEntry :=
  if (length (spec_reverse seq) <=? length (spec_forward seq))%nat
  then spec_forward seq else spec_reverse seq.

(** ** Library behaviour the C++ standard leaves open *)

(** [compLessRefStart] of [getAnchors]: [std::tie(refStart, refEnd)] order. *)
Definition compLessRefStart (a b : PwalnEntry) : bool :=
  (refStart a <? refStart b) ||
  ((refStart a =? refStart b) && (refEnd a <? refEnd b)).

(** [std::sort] is not stable and [std::unordered_map] iterates in an order
    of the implementation's choosing: both are operations of the standard
    library in use, constrained by what the standard guarantees. *)
Class StdLib : Type := {
  std_sort : list PwalnEntry -> list PwalnEntry;
  umap_order : list (Z * nat) -> list (Z * nat)
}.

Class StdLibLaws (L : StdLib) : Prop := {
  std_sort_perm : forall l, Permutation (std_sort l) l;
  std_sort_sorted : forall l,
    StronglySorted (fun a b => compLessRefStart b a = false) (std_sort l);
  umap_order_perm : forall l, Permutation (umap_order l) l
}.

(** One admissible library: insertion sort, and iteration in the order of
    first insertion. *)
Fixpoint sort_insert (e : PwalnEntry) (l : list PwalnEntry) : list PwalnEntry :=
  match l with
  | [] => [e]
  | x :: t => if compLessRefStart e x then e :: x :: t
              else x :: sort_insert e t
  end.

Definition insertion_sort (l : list PwalnEntry) : list PwalnEntry :=
  fold_right sort_insert [] l.

#[export] Instance simpleLib : StdLib := {|
  std_sort := insertion_sort;
  umap_order := fun l => l
|}.

(** ** Ipp::getAnchors *)

Definition minn : nat := 5.
Definition topn : nat := 20.

(** [std::set<PwalnEntry, compGreaterRefEnd>::insert]: the set is kept by
    decreasing [refEnd]; an element equivalent to one already present
    (same [refEnd]) is not inserted. *)
Fixpoint set_insert (e : PwalnEntry) (s : list PwalnEntry) : list PwalnEntry :=
  match s with
  | [] => [e]
  | x :: t =>
      if refEnd x <? refEnd e then e :: x :: t
      else if refEnd e <? refEnd x then x :: set_insert e t
      else x :: t
  end.

Record ScanState : Type := mkScan {
  anchorsUpstream : list PwalnEntry;
  ovAln : list PwalnEntry;
  anchorsDownstream : list PwalnEntry
}.

(** The neighbour scan over [pwaln.at(refCoords.chrom)], with its [break]. *)
Fixpoint neighbourScan (refLoc : Z) (bucket : list PwalnEntry) (st : ScanState)
  : ScanState :=
  match bucket with
  | [] => st
  | e :: rest =>
      if refEnd e <=? refLoc then
        let up1 := set_insert e (anchorsUpstream st) in
        let up2 := if (10 * topn <? length up1)%nat
                   then firstn topn up1 else up1 in
        neighbourScan refLoc rest
          (mkScan up2 (ovAln st) (anchorsDownstream st))
      else if refLoc <? refStart e then
        let down1 := anchorsDownstream st ++ [e] in
        if (length down1 =? topn)%nat
        then mkScan (anchorsUpstream st) (ovAln st) down1
        else neighbourScan refLoc rest
               (mkScan (anchorsUpstream st) (ovAln st) down1)
      else
        neighbourScan refLoc rest
          (mkScan (anchorsUpstream st) (ovAln st ++ [e]) (anchorsDownstream st))
  end.

(** The scan followed by the trim of [anchorsUpstream] to [topn]. *)
Definition scanAndTrim (refLoc : Z) (bucket : list PwalnEntry) : ScanState :=
  let st := neighbourScan refLoc bucket (mkScan [] [] []) in
  let up := anchorsUpstream st in
  mkScan (if (topn <? length up)%nat then firstn topn up else up)
         (ovAln st) (anchorsDownstream st).

(** [++chromCount[entry.qryChrom]]. *)
Fixpoint bump (c : Z) (counts : list (Z * nat)) : list (Z * nat) :=
  match counts with
  | [] => [(c, 1%nat)]
  | (k, n) :: t => if k =? c then (k, S n) :: t else (k, n) :: bump c t
  end.

Definition updateChromCount (counts : list (Z * nat)) (v : list PwalnEntry)
  : list (Z * nat) :=
  fold_left (fun acc e => bump (qryChrom e) acc) v counts.

Definition computeMajorChrom `{StdLib} (a b c : list PwalnEntry) : Z :=
  let chromCount := updateChromCount (updateChromCount
                      (updateChromCount [] a) b) c in
  fst (fold_left
         (fun (best : Z * nat) (kv : Z * nat) =>
            if (snd best <? snd kv)%nat then kv else best)
         (umap_order chromCount) (0, 0%nat)).

Definition removeEntriesWithNonMajorQryChromosome
  (anchors : list PwalnEntry) (majorChrom : Z) : list PwalnEntry :=
  List.filter (fun e => qryChrom e =? majorChrom) anchors.

Definition absDiff (a b : Z) : Z := if b <? a then a - b else b - a.

Record Closest : Type := mkClosest {
  closestUpstreamAnchor : option PwalnEntry;
  closestOvAlnAnchor : option PwalnEntry;
  closestDownstreamAnchor : option PwalnEntry
}.

(** The selection loop over the collinear anchors, with its [break]. *)
Fixpoint closestLoop (refLoc : Z) (l : list PwalnEntry) (st : Closest)
  : Closest :=
  match l with
  | [] => st
  | anchor :: rest =>
      if refEnd anchor <=? refLoc then
        let take :=
          match closestUpstreamAnchor st with
          | None => true
          | Some u => refEnd u <? refEnd anchor
          end in
        closestLoop refLoc rest
          (if take
           then mkClosest (Some anchor) (closestOvAlnAnchor st)
                          (closestDownstreamAnchor st)
           else st)
      else if refLoc <? refStart anchor then
        let take :=
          match closestDownstreamAnchor st with
          | None => true
          | Some d => refStart anchor <? refStart d
          end in
        if take
        then mkClosest (closestUpstreamAnchor st) (closestOvAlnAnchor st)
                       (Some anchor)
        else closestLoop refLoc rest st
      else
        match closestOvAlnAnchor st with
        | None =>
            closestLoop refLoc rest
              (mkClosest (closestUpstreamAnchor st) (Some anchor)
                         (closestDownstreamAnchor st))
        | Some o =>
            let minDistNew := Z.min (absDiff (refStart o) refLoc)
                                    (absDiff (refEnd o) refLoc) in
            let minDistOld := Z.min (absDiff (refStart anchor) refLoc)
                                    (absDiff (refEnd anchor) refLoc) in
            closestLoop refLoc rest
              (if minDistNew <? minDistOld
               then mkClosest (closestUpstreamAnchor st) (Some anchor)
                              (closestDownstreamAnchor st)
               else st)
        end
  end.

Definition selectAnchors (refLoc : Z) (closestAnchors : list PwalnEntry)
  : option Anchors :=
  let st := closestLoop refLoc closestAnchors (mkClosest None None None) in
  match closestOvAlnAnchor st with
  | Some o => Some (mkAnchors o o)
  | None =>
      match closestUpstreamAnchor st, closestDownstreamAnchor st with
      | Some u, Some d => Some (mkAnchors u d)
      | _, _ => None
      end
  end.

(** [pwaln.at(chrom)] and [map::find]. *)
Fixpoint lookupZ {A : Type} (k : Z) (m : list (Z * A)) : option A :=
  match m with
  | [] => None
  | (k', v) :: t => if k' =? k then Some v else lookupZ k t
  end.

(** *** Specification of the upstream set *)

(** The first entry in scan order that lies upstream of [refLoc] and ends
    at [k]. *)
Definition firstUpstream (refLoc k : Z) (scanned : list PwalnEntry)
  : option PwalnEntry :=
  find (fun x => (refEnd x <=? refLoc) && (refEnd x =? k)) scanned.

(** Number of set elements that end after [k]. *)
Definition closer (k : Z) (s : list PwalnEntry) : nat :=
  length (List.filter (fun y => k <? refEnd y) s).

Definition byRefEndDesc (s : list PwalnEntry) : Prop :=
  StronglySorted (fun a b => refEnd b < refEnd a) s.

(** Invariant of [anchorsUpstream] after the entries [scanned]. *)
Definition upstream_inv (refLoc : Z) (scanned s : list PwalnEntry) : Prop :=
  byRefEndDesc s /\
  (forall e, In e s -> In e scanned /\ refEnd e <= refLoc) /\
  (forall x, In x scanned -> refEnd x <= refLoc ->
     (exists f, firstUpstream refLoc (refEnd x) scanned = Some f /\ In f s)
     \/ (topn <= closer (refEnd x) s)%nat).

Definition entry_eq_dec (a b : PwalnEntry) : {a = b} + {a <> b}.
Proof. decide equality; apply Z.eq_dec. Defined.

(** The candidates handed to the collinearity filter. *)
Definition candidates `{StdLib} (refLoc : Z) (bucket : list PwalnEntry)
  : option (list PwalnEntry) :=
  let st := scanAndTrim refLoc bucket in
  let majorChrom :=
    computeMajorChrom (ovAln st) (anchorsUpstream st) (anchorsDownstream st) in
  let up := removeEntriesWithNonMajorQryChromosome (anchorsUpstream st)
              majorChrom in
  let ov := removeEntriesWithNonMajorQryChromosome (ovAln st) majorChrom in
  let down := removeEntriesWithNonMajorQryChromosome (anchorsDownstream st)
                majorChrom in
  if ((length up =? 0) || (length down =? 0))%nat then None
  else Some (std_sort (up ++ ov ++ down)).

Definition getAnchors `{StdLib} (pwaln : Pwaln) (refCoords : Coords)
  : outcome (option Anchors) :=
  match lookupZ (chrom refCoords) pwaln with
  | None => Throw OutOfRange
  | Some bucket =>
      match candidates (loc refCoords) bucket with
      | None => Ok None
      | Some sorted =>
          closestAnchors <- longestSubsequence sorted ;;
          if (length closestAnchors <? minn)%nat then Ok None
          else Ok (selectAnchors (loc refCoords) closestAnchors)
      end
  end.

(** ** Scores *)

(** The [double] scores are compared and multiplied; [std::log] and
    [std::exp] of libm enter through [getScalingFactor] and
    [projectionScore].  [scaling h g] stands for
    [-1.0 * h / (g * std::log(0.5))] and [decay d g s] for
    [std::exp(-1.0 * d / (g * s))]. *)
Class ScoreArith : Type := {
  score : Type;
  szero : score;
  sone : score;
  smul : score -> score -> score;
  sleb : score -> score -> bool;
  sltb : score -> score -> bool;
  scaling : Z -> Z -> score;
  decay : Z -> Z -> score -> score
}.

(** A score between 0 and 1.  Every comparison with a NaN is false, so
    such a score is a number. *)
Definition in_unit `{ScoreArith} (a : score) : Prop :=
  sleb szero a = true /\ sleb a sone = true.

(** What binary64 arithmetic gives for the scores between 0 and 1 (the
    comparisons order them, a product of two of them is the rounding of a
    number below either factor), and what libm gives for the decay when the
    distance, the genome sizes and the half-life distance are [unsigned]
    values with positive sizes and half-life: the scaling factor is a
    positive number, the argument of [std::exp] a number that is not
    positive, and the result lies between 0 and 1.  Nothing is required of
    other scores: with a genome size or a half-life distance of 0 the
    quotients are infinite or NaN, and no comparison holds for a NaN. *)
Class ScoreLaws (SA : ScoreArith) : Prop := {
  sleb_total : forall a b,
    in_unit a -> in_unit b -> sleb a b = true \/ sleb b a = true;
  sleb_trans : forall a b c,
    sleb a b = true -> sleb b c = true -> sleb a c = true;
  sltb_def : forall a b,
    in_unit a -> in_unit b -> sltb a b = negb (sleb b a);
  szero_le_sone : sleb szero sone = true;
  sone_le_sone : sleb sone sone = true;
  smul_one_l : forall a, in_unit a -> smul sone a = a;
  smul_nonneg : forall a b,
    in_unit a -> in_unit b -> sleb szero (smul a b) = true;
  smul_le : forall a b,
    in_unit a -> in_unit b -> sleb (smul a b) a = true;
  decay_range : forall d g h g0,
    0 <= d < two32 -> 0 < g < two32 -> 0 < h < two32 -> 0 < g0 < two32 ->
    in_unit (decay d g (scaling h g0))
}.

(** A carrier that computes and meets the laws, for running the search on
    examples: rational scores, with the decay rounded down to a power of
    one half per half-life distance ([g * s] is the half-life when
    [s = scaling h g]).  Its scores are not the doubles of the code. *)
Definition dyadicDecay (d g : Z) (s : Q) : Q :=
  let k := Qfloor (Qdiv (inject_Z d) (Qmult (inject_Z g) s)) in
  if k <=? 0 then 1%Q else (1 # Pos.pow 2 (Z.to_pos k))%Q.

#[export] Instance dyadicScores : ScoreArith := {|
  score := Q;
  szero := 0%Q;
  sone := 1%Q;
  smul := Qmult;
  sleb := Qle_bool;
  sltb := fun a b => negb (Qle_bool b a);
  scaling := fun h g => Qdiv (inject_Z h) (inject_Z g);
  decay := dyadicDecay
|}.

(** ** The store *)

(** The containers keyed by species.  The code reaches them through [find],
    [at], [operator[]], [insert] and range-for only: an association list
    with distinct keys, whose order is the order of iteration. *)
Definition SpeciesMap (A : Type) : Type := list (string * A).

Fixpoint lookupS {A : Type} (k : string) (m : SpeciesMap A) : option A :=
  match m with
  | [] => None
  | (k', v) :: t => if String.eqb k' k then Some v else lookupS k t
  end.

(** [m[k] = v]. *)
Fixpoint assignS {A : Type} (k : string) (v : A) (m : SpeciesMap A)
  : SpeciesMap A :=
  match m with
  | [] => [(k, v)]
  | (k', v') :: t =>
      if String.eqb k' k then (k', v) :: t else (k', v') :: assignS k v t
  end.

Record Ipp : Type := mkIpp {
  chroms_ : list string;
  pwalns_ : SpeciesMap (SpeciesMap Pwaln);
  genomeSizes_ : SpeciesMap Z;
  halfLifeDistance_ : Z
}.

(** The half-life distance and every genome size are positive [unsigned]
    values. *)
Definition sized_store (ipp : Ipp) : Prop :=
  0 < halfLifeDistance_ ipp < two32 /\
  forall species genomeSize,
    lookupS species (genomeSizes_ ipp) = Some genomeSize ->
    0 < genomeSize < two32.

(** ** Ipp::projectGenomicLocation *)

Definition getScalingFactor `{ScoreArith} (ipp : Ipp) (genomeSize : Z) : score :=
  scaling (halfLifeDistance_ ipp) genomeSize.

Definition projectionScore `{ScoreArith}
  (loc leftBound rightBound genomeSize : Z) (scalingFactor : score) : score :=
  decay (Z.min (u32 (loc - leftBound)) (u32 (rightBound - loc)))
        genomeSize scalingFactor.

Definition double_of_u32 (z : Z) : float :=
  PrimFloat.of_uint63 (Uint63.of_Z z).

(** Conversion of a [double] to [uint32_t]: truncation toward zero. *)
Definition u32_of_double (f : float) : Z :=
  match Prim2SF f with
  | S754_finite false m e =>
      u32 (if 0 <=? e then Z.shiftl (Zpos m) e else Z.shiftr (Zpos m) (- e))
  | _ => 0
  end.

(** [qryLeftBound + relativeRefLoc*(qryRightBound - qryLeftBound)] with
    [relativeRefLoc = 1.0d*(refLoc - refLeftBound) /
    (refRightBound - refLeftBound)], in binary64 arithmetic. *)
Definition interpolate (refLoc refLeftBound refRightBound
                        qryLeftBound qryRightBound : Z) : Z :=
  let relativeRefLoc :=
    ((1.0 * double_of_u32 (u32 (refLoc - refLeftBound)))
     / double_of_u32 (u32 (refRightBound - refLeftBound)))%float in
  u32_of_double
    (double_of_u32 qryLeftBound
     + relativeRefLoc * double_of_u32 (u32 (qryRightBound - qryLeftBound)))%float.

Record GenomicProjectionResult `{ScoreArith} : Type := mkGPR {
  gpr_score : score;
  nextCoords : Coords;
  gpr_anchors : Anchors
}.
Arguments mkGPR {_} _ _ _.

(** The query bounds of the upstream anchor, in increasing order. *)
Definition qryUpStartOf (a : Anchors) : Z :=
  if negb (isQryReversed (upstream a))
  then qryStart (upstream a) else qryEnd (downstream a).
Definition qryUpEndOf (a : Anchors) : Z :=
  if negb (isQryReversed (upstream a))
  then qryEnd (upstream a) else qryStart (downstream a).
Definition qryDownStartOf (a : Anchors) : Z :=
  if negb (isQryReversed (upstream a))
  then qryStart (downstream a) else qryEnd (upstream a).
Definition qryDownEndOf (a : Anchors) : Z :=
  if negb (isQryReversed (upstream a))
  then qryEnd (downstream a) else qryStart (upstream a).

(** The body of [projectGenomicLocation] once the anchors are known. *)
Definition projectWithAnchors `{ScoreArith} (ipp : Ipp) (refSpecies : string)
  (refCoords : Coords) (scalingFactor : score) (anchors : Anchors)
  : outcome GenomicProjectionResult :=
  let refLoc := loc refCoords in
  let qryUpStart := qryUpStartOf anchors in
  let qryUpEnd := qryUpEndOf anchors in
  _ <- assert (qryUpStart <? qryUpEnd) ;;
  bounds <-
    (if entry_eqb (upstream anchors) (downstream anchors) then
       Ok (refStart (upstream anchors), refEnd (upstream anchors),
           qryUpStart, qryUpEnd, sone)
     else
       let qryDownStart := qryDownStartOf anchors in
       let qryDownEnd := qryDownEndOf anchors in
       _ <- assert ((qryUpEnd <=? qryDownStart)
                    && (qryDownStart <? qryDownEnd)) ;;
       let refLeftBound := refEnd (upstream anchors) in
       let refRightBound := refStart (downstream anchors) in
       match lookupS refSpecies (genomeSizes_ ipp) with
       | None => Throw OutOfRange
       | Some genomeSize =>
           Ok (refLeftBound, refRightBound, qryUpEnd, qryDownStart,
               projectionScore refLoc refLeftBound refRightBound
                 genomeSize scalingFactor)
       end) ;;
  let '(refLeftBound, refRightBound, qryLeftBound, qryRightBound, sc) :=
    bounds in
  _ <- assert ((refLeftBound <=? refLoc) && (refLoc <? refRightBound)) ;;
  Ok (mkGPR sc
        (mkCoords (qryChrom (upstream anchors))
           (interpolate refLoc refLeftBound refRightBound
              qryLeftBound qryRightBound))
        anchors).

Definition projectGenomicLocation `{StdLib} `{ScoreArith} (ipp : Ipp)
  (refSpecies qrySpecies : string) (refCoords : Coords)
  (scalingFactor : score) : outcome (option GenomicProjectionResult) :=
  match lookupS refSpecies (pwalns_ ipp) with
  | None => Ok None
  | Some bySpecies =>
      match lookupS qrySpecies bySpecies with
      | None => Ok None
      | Some pwaln =>
          anchors <- getAnchors pwaln refCoords ;;
          match anchors with
          | None => Ok None
          | Some a =>
              r <- projectWithAnchors ipp refSpecies refCoords
                     scalingFactor a ;;
              Ok (Some r)
          end
      end
  end.

(** ** Ipp::projectCoord *)

Record ShortestPathEntry `{ScoreArith} : Type := mkSPE {
  spe_score : score;
  prevSpecies : string;
  spe_coords : Coords;
  spe_anchors : Anchors
}.
Arguments mkSPE {_} _ _ _ _.

Record CoordProjection `{ScoreArith} : Type := mkCP {
  direct : option GenomicProjectionResult;
  multiShortestPath : SpeciesMap ShortestPathEntry
}.
Arguments mkCP {_} _ _.

Record OrangeEntry `{ScoreArith} : Type := mkOrange {
  o_score : score;
  o_species : string;
  o_coords : Coords
}.
Arguments mkOrange {_} _ _ _.

(** Modelled from the spec: [Coords::operator<] of ipp.h, the lexicographic
    order on [(chrom, loc)]. *)
Definition coords_ltb (a b : Coords) : bool :=
  (chrom a <? chrom b) || ((chrom a =? chrom b) && (loc a <? loc b)).

(** [OrangeEntry::operator<]: [std::tie(score, species, coords)]. *)
Definition orange_ltb `{ScoreArith} (a b : OrangeEntry) : bool :=
  sltb (o_score a) (o_score b) ||
  (negb (sltb (o_score b) (o_score a)) &&
   (String.ltb (o_species a) (o_species b) ||
    (negb (String.ltb (o_species b) (o_species a)) &&
     coords_ltb (o_coords a) (o_coords b)))).

(** [orange.top()] followed by [orange.pop()]: a greatest element of the
    queue and the remaining ones. *)
Fixpoint pq_pop `{ScoreArith} (q : list OrangeEntry)
  : option (OrangeEntry * list OrangeEntry) :=
  match q with
  | [] => None
  | e :: t =>
      match pq_pop t with
      | None => Some (e, [])
      | Some (b, rest) =>
          if orange_ltb e b then Some (b, e :: rest) else Some (e, b :: rest)
      end
  end.

Record SearchState `{ScoreArith} : Type := mkSearch {
  shortestPath : SpeciesMap ShortestPathEntry;
  orange : list OrangeEntry;
  directRes : option GenomicProjectionResult;
  pops : nat   (* number of [orange.pop()] executed so far *)
}.
Arguments mkSearch {_} _ _ _ _.

(** The body of the [for (auto const& nxt : pwalns_.at(current.species))]
    loop for one [nxtSpecies]. *)
Definition relax `{StdLib} `{ScoreArith} (ipp : Ipp)
  (refSpecies qrySpecies : string) (scalingFactor : score)
  (current : OrangeEntry) (st : SearchState) (nxtSpecies : string)
  : outcome SearchState :=
  let it := lookupS nxtSpecies (shortestPath st) in
  if match it with
     | Some e => sleb (o_score current) (spe_score e)
     | None => false
     end
  then Ok st
  else
    proj <- projectGenomicLocation ipp (o_species current) nxtSpecies
              (o_coords current) scalingFactor ;;
    match proj with
    | None => Ok st
    | Some p =>
        let direct' :=
          if String.eqb (o_species current) refSpecies
             && String.eqb nxtSpecies qrySpecies
          then Some p else directRes st in
        let nxtScore := smul (o_score current) (gpr_score p) in
        if match it with
           | Some e => sleb nxtScore (spe_score e)
           | None => false
           end
        then Ok (mkSearch (shortestPath st) (orange st) direct' (pops st))
        else
          Ok (mkSearch
                (assignS nxtSpecies
                   (mkSPE nxtScore (o_species current) (nextCoords p)
                      (gpr_anchors p))
                   (shortestPath st))
                (mkOrange nxtScore nxtSpecies (nextCoords p) :: orange st)
                direct' (pops st))
    end.

Fixpoint relaxAll `{StdLib} `{ScoreArith} (ipp : Ipp)
  (refSpecies qrySpecies : string) (scalingFactor : score)
  (current : OrangeEntry) (st : SearchState) (nxts : list string)
  : outcome SearchState :=
  match nxts with
  | [] => Ok st
  | nxt :: rest =>
      st' <- relax ipp refSpecies qrySpecies scalingFactor current st nxt ;;
      relaxAll ipp refSpecies qrySpecies scalingFactor current st' rest
  end.

(** One iteration of [while (!orange.empty())]. *)
Inductive iteration `{ScoreArith} : Type :=
| Continue (st : SearchState)
| Break (st : SearchState).

Definition searchStep `{StdLib} `{ScoreArith} (ipp : Ipp)
  (refSpecies qrySpecies : string) (scalingFactor : score)
  (current : OrangeEntry) (st : SearchState) : outcome iteration :=
  if match lookupS (o_species current) (shortestPath st) with
     | Some e => sltb (o_score current) (spe_score e)
     | None => false
     end
  then Ok (Continue st)
  else if String.eqb (o_species current) qrySpecies then Ok (Break st)
  else
    match lookupS (o_species current) (pwalns_ ipp) with
    | None => Throw OutOfRange
    | Some nxts =>
        st' <- relaxAll ipp refSpecies qrySpecies scalingFactor current st
                 (map fst nxts) ;;
        Ok (Continue st')
    end.

Fixpoint searchLoop `{StdLib} `{ScoreArith} (fuel : nat) (ipp : Ipp)
  (refSpecies qrySpecies : string) (scalingFactor : score)
  (st : SearchState) : outcome SearchState :=
  match pq_pop (orange st) with
  | None => Ok st
  | Some (current, rest) =>
      match fuel with
      | O => OutOfFuel
      | S fuel' =>
          r <- searchStep ipp refSpecies qrySpecies scalingFactor current
                 (mkSearch (shortestPath st) rest (directRes st)
                    (S (pops st))) ;;
          match r with
          | Continue st' =>
              searchLoop fuel' ipp refSpecies qrySpecies scalingFactor st'
          | Break st' => Ok st'
          end
      end
  end.

(** The species of a store. *)
Definition speciesOf (ipp : Ipp) : list string :=
  nodup string_dec
    (map fst (genomeSizes_ ipp) ++ map fst (pwalns_ ipp)
     ++ concat (map (fun kv => map fst (snd kv)) (pwalns_ ipp))).

Definition searchBound (ipp : Ipp) : nat :=
  (length (speciesOf ipp) * length (speciesOf ipp))%nat.

Definition initialSearch `{ScoreArith} (refSpecies : string)
  (refCoords : Coords) : SearchState :=
  mkSearch
    [(refSpecies,
      mkSPE sone EmptyString refCoords (mkAnchors dummyEntry dummyEntry))]
    [mkOrange sone refSpecies refCoords]
    None 0%nat.

(** [projectCoord] up to the end of its loop. *)
Definition projectCoordRun `{StdLib} `{ScoreArith} (fuel : nat) (ipp : Ipp)
  (refSpecies qrySpecies : string) (refCoords : Coords)
  : outcome SearchState :=
  match lookupS refSpecies (genomeSizes_ ipp) with
  | None => Throw OutOfRange
  | Some genomeSize =>
      searchLoop fuel ipp refSpecies qrySpecies
        (getScalingFactor ipp genomeSize)
        (initialSearch refSpecies refCoords)
  end.

Definition projectCoord `{StdLib} `{ScoreArith} (ipp : Ipp)
  (refSpecies qrySpecies : string) (refCoords : Coords)
  : outcome CoordProjection :=
  st <- projectCoordRun (searchBound ipp) ipp refSpecies qrySpecies
          refCoords ;;
  Ok (mkCP (directRes st) (shortestPath st)).

(** ** Ipp::projectCoords *)

Record WorkerState `{ScoreArith} : Type := mkWorker {
  jobs : list Coords;
  hadWorkerException : bool;
  workerException : option exn;   (* [None]: never assigned *)
  callbacks : list (Coords * CoordProjection)   (* calls of onJobDoneCallback *)
}.
Arguments mkWorker {_} _ _ _ _.

(** [jobs.back()] and [jobs.pop_back()]. *)
Definition pop_back {A : Type} (l : list A) : option (A * list A) :=
  match rev l with
  | [] => None
  | x :: r => Some (x, rev r)
  end.

(** One iteration of the [worker] lambda for a thread that runs alone. *)
Definition workerStep `{ScoreArith}
  (job : Coords -> outcome CoordProjection) (w : WorkerState)
  : outcome (WorkerState * bool) :=
  match pop_back (jobs w) with
  | None => Ok (w, true)
  | Some (refCoord, rest) =>
      match job refCoord with
      | Ok cp =>
          Ok (mkWorker rest (hadWorkerException w) (workerException w)
                (callbacks w ++ [(refCoord, cp)]), false)
      | Throw _ =>
          (* catch (std::exception const& e): [workerException = e] copies
             the [std::exception] base of [e] only *)
          Ok (mkWorker rest true (Some StdException) (callbacks w), true)
      | AssertFail => AssertFail
      | OutOfBounds => OutOfBounds
      | OutOfFuel => OutOfFuel
      end
  end.

Fixpoint worker `{ScoreArith} (fuel : nat)
  (job : Coords -> outcome CoordProjection) (w : WorkerState)
  : outcome WorkerState :=
  match fuel with
  | O => OutOfFuel
  | S fuel' =>
      r <- workerStep job w ;;
      let '(w', finished) := r in
      if finished then Ok w' else worker fuel' job w'
  end.

(** The threads of [nCores > 1], interleaved by a schedule: each entry names
    the thread that runs its next [worker] iteration; once the schedule is
    used up the threads still running finish one after the other.  Popping a
    job and delivering its result are separate critical sections; as
    [projectCoord] reads the store only, an iteration is run here in one
    step. *)
Fixpoint drainThreads `{ScoreArith} (remaining : nat)
  (job : Coords -> outcome CoordProjection) (w : WorkerState)
  : outcome WorkerState :=
  match remaining with
  | O => Ok w
  | S k =>
      w' <- worker (S (length (jobs w))) job w ;;
      drainThreads k job w'
  end.

Fixpoint runThreads `{ScoreArith} (nCores : nat)
  (job : Coords -> outcome CoordProjection) (schedule : list nat)
  (finished : list nat) (w : WorkerState) : outcome WorkerState :=
  match schedule with
  | [] => drainThreads (nCores - length finished) job w
  | t :: rest =>
      if (nCores <=? t)%nat || existsb (Nat.eqb t) finished
      then runThreads nCores job rest finished w
      else
        r <- workerStep job w ;;
        let '(w', fin) := r in
        runThreads nCores job rest (if fin then t :: finished else finished) w'
  end.

Definition projectCoordsWith `{ScoreArith}
  (job : Coords -> outcome CoordProjection) (refCoords : list Coords)
  (nCores : nat) (schedule : list nat) : outcome WorkerState :=
  let w0 := mkWorker refCoords false None [] in
  if (nCores <=? 1)%nat then
    (* Just execute the worker in this thread. *)
    worker (S (length refCoords)) job w0
  else
    w <- runThreads nCores job schedule [] w0 ;;
    (* Forward any exception that occured in a thread:
       [throw workerException] throws the [std::exception] object. *)
    if hadWorkerException w then
      match workerException w with
      | Some e => Throw e
      | None => Throw StdException
      end
    else Ok w.

Definition projectCoords `{StdLib} `{ScoreArith} (ipp : Ipp)
  (refSpecies qrySpecies : string) (refCoords : list Coords)
  (nCores : nat) (schedule : list nat) : outcome WorkerState :=
  projectCoordsWith (projectCoord ipp refSpecies qrySpecies) refCoords
    nCores schedule.

(** ** Loaders *)

Definition msgEOF : string := "Unexpected EOF".
Definition msgOpen : string := "could not open the file".
Definition msgRemaining : string := "Remaining data at EOF".

(** The state a load works on: the unread bytes of the [std::ifstream] and
    the members it fills. *)
Record LoadState : Type := mkLoad {
  unread : list byte;
  chromsL : list string;
  pwalnsL : SpeciesMap (SpeciesMap Pwaln)
}.

(** A computation that may throw; the state at the throw stays visible. *)
Definition Loader (A : Type) : Type := LoadState -> outcome A * LoadState.

Definition retL {A : Type} (a : A) : Loader A := fun s => (Ok a, s).

Definition bindL {A B : Type} (m : Loader A) (f : A -> Loader B) : Loader B :=
  fun s =>
    match m s with
    | (Ok a, s') => f a s'
    | (Throw e, s') => (Throw e, s')
    | (AssertFail, s') => (AssertFail, s')
    | (OutOfBounds, s') => (OutOfBounds, s')
    | (OutOfFuel, s') => (OutOfFuel, s')
    end.

Notation "x <~ m ;; k" := (bindL m (fun x => k))
  (at level 61, m at next level, right associativity).

Definition throwL {A : Type} (e : exn) : Loader A := fun s => (Throw e, s).

(** Little-endian value of a byte string. *)
Fixpoint le_value (bs : list byte) : Z :=
  match bs with
  | [] => 0
  | b :: t => Z.of_N (Byte.to_N b) + 256 * le_value t
  end.

(** [readInt<T>] with [sizeof(T) = width]. *)
Definition readInt (width : nat) : Loader Z :=
  fun s =>
    if (length (unread s) <? width)%nat
    then (Throw (RuntimeError msgEOF), s)
    else (Ok (le_value (firstn width (unread s))),
          mkLoad (skipn width (unread s)) (chromsL s) (pwalnsL s)).

(** [std::getline(file, s, '\0')]: the bytes before the next NUL. *)
Fixpoint split_nul (bs : list byte) : option (list byte * list byte) :=
  match bs with
  | [] => None
  | b :: t =>
      if Byte.eqb b x00 then Some ([], t)
      else match split_nul t with
           | None => None
           | Some (str, rest) => Some (b :: str, rest)
           end
  end.

Definition readString : Loader string :=
  fun s =>
    match split_nul (unread s) with
    | None => (Throw (RuntimeError msgEOF), s)
    | Some (str, rest) =>
        (Ok (string_of_list_byte str), mkLoad rest (chromsL s) (pwalnsL s))
    end.

(** A [PwalnEntry] as it lies in the file: [u32 u32 u32 u32 u16 u16]. *)
Definition entry_of_bytes (bs : list byte) : PwalnEntry :=
  mkEntry (le_value (firstn 4 bs))
          (le_value (firstn 4 (skipn 4 bs)))
          (le_value (firstn 4 (skipn 8 bs)))
          (le_value (firstn 4 (skipn 12 bs)))
          (le_value (firstn 2 (skipn 16 bs)))
          (le_value (firstn 2 (skipn 18 bs))).

Fixpoint entries_of_bytes (n : nat) (bs : list byte) : list PwalnEntry :=
  match n with
  | O => []
  | S k => entry_of_bytes (firstn 20 bs) :: entries_of_bytes k (skipn 20 bs)
  end.

(** The bulk read of [numPwalnEntries * sizeof(PwalnEntry)] bytes.  The
    vector the bytes are read into is allocated before the read; the
    allocation is taken to succeed (a [std::bad_alloc] of the host has no
    outcome in this embedding). *)
Definition readEntries (n : nat) : Loader (list PwalnEntry) :=
  fun s =>
    if (length (unread s) <? 20 * n)%nat
    then (Throw (RuntimeError msgEOF), s)
    else (Ok (entries_of_bytes n (unread s)),
          mkLoad (skipn (20 * n) (unread s)) (chromsL s) (pwalnsL s)).

(** [unordered_map::insert]: no effect when the key is present. *)
Fixpoint insertZ {A : Type} (k : Z) (v : A) (m : list (Z * A)) : list (Z * A) :=
  match m with
  | [] => [(k, v)]
  | (k', v') :: t =>
      if k' =? k then (k', v') :: t else (k', v') :: insertZ k v t
  end.

(** [m[k]] used for its side effect: the key is created when missing. *)
Definition touchS {A : Type} (k : string) (dflt : A) (m : SpeciesMap A)
  : SpeciesMap A :=
  match lookupS k m with
  | Some _ => m
  | None => m ++ [(k, dflt)]
  end.

Definition getS {A : Type} (k : string) (dflt : A) (m : SpeciesMap A) : A :=
  match lookupS k m with
  | Some v => v
  | None => dflt
  end.

Definition pushChrom (name : string) : Loader unit :=
  fun s => (Ok tt, mkLoad (unread s) (chromsL s ++ [name]) (pwalnsL s)).

(** [auto& pwalnsSp1(pwalns_[sp1])]. *)
Definition touchSp1 (sp1 : string) : Loader unit :=
  fun s => (Ok tt, mkLoad (unread s) (chromsL s) (touchS sp1 [] (pwalnsL s))).

(** [auto& pwaln(pwalnsSp1[sp2])]. *)
Definition touchSp2 (sp1 sp2 : string) : Loader unit :=
  fun s =>
    (Ok tt,
     mkLoad (unread s) (chromsL s)
       (assignS sp1 (touchS sp2 [] (getS sp1 [] (pwalnsL s))) (pwalnsL s))).

(** [pwaln.insert({pwalnEntries[0].refChrom, std::move(pwalnEntries)})];
    [pwalnEntries[0]] does not exist when the bucket is empty. *)
Definition insertBucket (sp1 sp2 : string) (entries : list PwalnEntry)
  : Loader unit :=
  fun s =>
    match entries with
    | [] => (OutOfBounds, s)
    | e0 :: _ =>
        let bySp2 := getS sp1 [] (pwalnsL s) in
        let pwaln := getS sp2 [] bySp2 in
        (Ok tt,
         mkLoad (unread s) (chromsL s)
           (assignS sp1
              (assignS sp2 (insertZ (refChrom e0) entries pwaln) bySp2)
              (pwalnsL s)))
    end.

Fixpoint readChroms (n : nat) : Loader unit :=
  match n with
  | O => retL tt
  | S k => name <~ readString ;; _ <~ pushChrom name ;; readChroms k
  end.

Fixpoint readBuckets (sp1 sp2 : string) (n : nat) : Loader unit :=
  match n with
  | O => retL tt
  | S k =>
      numPwalnEntries <~ readInt 4 ;;
      pwalnEntries <~ readEntries (Z.to_nat numPwalnEntries) ;;
      _ <~ insertBucket sp1 sp2 pwalnEntries ;;
      readBuckets sp1 sp2 k
  end.

Fixpoint readSp2 (sp1 : string) (n : nat) : Loader unit :=
  match n with
  | O => retL tt
  | S k =>
      sp2 <~ readString ;;
      _ <~ touchSp2 sp1 sp2 ;;
      numRefChromEntries <~ readInt 4 ;;
      _ <~ readBuckets sp1 sp2 (Z.to_nat numRefChromEntries) ;;
      readSp2 sp1 k
  end.

Fixpoint readSp1 (n : nat) : Loader unit :=
  match n with
  | O => retL tt
  | S k =>
      sp1 <~ readString ;;
      _ <~ touchSp1 sp1 ;;
      numSp2 <~ readInt 1 ;;
      _ <~ readSp2 sp1 (Z.to_nat numSp2) ;;
      readSp1 k
  end.

(** Everything [loadPwalns] reads before it looks for trailing data. *)
Definition readBody : Loader unit :=
  numChromosomes <~ readInt 2 ;;
  _ <~ readChroms (Z.to_nat numChromosomes) ;;
  numSp1 <~ readInt 1 ;;
  readSp1 (Z.to_nat numSp1).

(** [file.peek() != eof]. *)
Definition expectEOF : Loader unit :=
  fun s =>
    match unread s with
    | [] => (Ok tt, s)
    | _ :: _ => (Throw (RuntimeError msgRemaining), s)
    end.

Definition storeOf (ipp : Ipp) (s : LoadState) : Ipp :=
  mkIpp (chromsL s) (pwalnsL s) (genomeSizes_ ipp) (halfLifeDistance_ ipp).

(** [Ipp::loadPwalns]; [file] is the content of [fileName], [None] when it
    cannot be opened.  The result is the outcome of the call and the store
    it leaves behind. *)
Definition loadPwalns (file : option (list byte)) (ipp : Ipp)
  : outcome unit * Ipp :=
  match file with
  | None =>
      (Throw (RuntimeError msgOpen), storeOf ipp (mkLoad [] [] []))
  | Some bytes =>
      let '(r, s) := (_ <~ readBody ;; expectEOF) (mkLoad bytes [] []) in
      (r, storeOf ipp s)
  end.

(** [std::getline(file, line)]: the lines of a text file. *)
Fixpoint lines_from (cur : string) (s : string) : list string :=
  match s with
  | EmptyString =>
      match cur with
      | EmptyString => []
      | _ => [cur]
      end
  | String c t =>
      if Ascii.eqb c "010"%char then cur :: lines_from EmptyString t
      else lines_from (cur ++ String c EmptyString)%string t
  end.

(** [line.find('\t')]: the part of the line from the first tab on. *)
Fixpoint from_tab (line : string) : option string :=
  match line with
  | EmptyString => None
  | String c t => if Ascii.eqb c "009"%char then Some line else from_tab t
  end.

Definition is_space (c : ascii) : bool :=
  let n := nat_of_ascii c in
  ((n =? 32) || ((9 <=? n) && (n <=? 13)))%nat.

Fixpoint skip_spaces (s : string) : string :=
  match s with
  | String c t => if is_space c then skip_spaces t else s
  | EmptyString => s
  end.

Fixpoint digits_value (acc : Z) (s : string) : Z :=
  match s with
  | String c t =>
      let n := Z.of_nat (nat_of_ascii c) in
      if (48 <=? n) && (n <=? 57) then digits_value (10 * acc + (n - 48)) t
      else acc
  | EmptyString => acc
  end.

(** [strtol] saturates at [LONG_MIN] and [LONG_MAX]. *)
Definition long_sat (z : Z) : Z :=
  Z.max (- 9223372036854775808) (Z.min 9223372036854775807 z).

(** [std::atoi] as glibc has it, [(int) strtol(s, NULL, 10)]: the value is
    saturated to [long] and its low 32 bits are kept.  (For a value outside
    of [int] the C standard leaves the result of [atoi] undefined.) *)
Definition atoi (s : string) : Z :=
  match skip_spaces s with
  | String "-"%char t => to_int (long_sat (- digits_value 0 t))
  | String "+"%char t => to_int (long_sat (digits_value 0 t))
  | t => to_int (long_sat (digits_value 0 t))
  end.

Fixpoint sumSizes (fileName : string) (genomeSize : Z) (ls : list string)
  : outcome Z :=
  match ls with
  | [] => Ok genomeSize
  | line :: rest =>
      match from_tab line with
      | None =>
          Throw (RuntimeError ("line with no tabstop in " ++ fileName)%string)
      | Some tail => sumSizes fileName (u32 (genomeSize + atoi tail)) rest
      end
  end.

Definition sizesFileName (dirName species : string) : string :=
  (dirName ++ "/" ++ species ++ ".sizes")%string.

Definition readSizes (fs : string -> option string) (dirName species : string)
  : outcome Z :=
  let fileName := sizesFileName dirName species in
  match fs fileName with
  | None =>
      Throw (RuntimeError ("could not open the file " ++ fileName)%string)
  | Some content => sumSizes fileName 0 (lines_from EmptyString content)
  end.

(** The loop of [loadGenomeSizes] over the species still to visit. *)
Fixpoint sizesLoop (fs : string -> option string) (dirName : string)
  (todo : list string) (sizes : SpeciesMap Z) : outcome unit * SpeciesMap Z :=
  match todo with
  | [] => (Ok tt, sizes)
  | species :: rest =>
      match readSizes fs dirName species with
      | Ok genomeSize =>
          sizesLoop fs dirName rest (assignS species genomeSize sizes)
      | Throw e => (Throw e, sizes)
      | AssertFail => (AssertFail, sizes)
      | OutOfBounds => (OutOfBounds, sizes)
      | OutOfFuel => (OutOfFuel, sizes)
      end
  end.

(** [Ipp::loadGenomeSizes]; [fs] maps a file name to its content. *)
Definition loadGenomeSizes (fs : string -> option string) (dirName : string)
  (ipp : Ipp) : outcome unit * Ipp :=
  let '(r, sizes) := sizesLoop fs dirName (map fst (pwalns_ ipp)) [] in
  (r, mkIpp (chroms_ ipp) (pwalns_ ipp) sizes (halfLifeDistance_ ipp)).

(** ** Example stores *)

Definition fwdEntry (rs re qs qe : Z) : PwalnEntry := mkEntry rs re qs qe 0 0.

(** Five collinear forward blocks on chromosome 0; the gap between the
    second and the third spans 100 reference and 600 query positions. *)
Definition exBucket : list PwalnEntry :=
  [fwdEntry 600 700 10 40; fwdEntry 800 1000 50 100;
   fwdEntry 1100 1200 700 800; fwdEntry 1300 1400 900 1000;
   fwdEntry 1500 1600 1100 1200].

Definition exPwaln : Pwaln := [(0, exBucket)].

Definition exIpp : Ipp :=
  mkIpp ["chr1"%string]
        [("A"%string, [("B"%string, exPwaln)])]
        [("A"%string, 100000)]
        10000.

Definition exAnchors : Anchors :=
  mkAnchors (fwdEntry 800 1000 50 100) (fwdEntry 1100 1200 700 800).

(** Outcome of the selection loop over [rest] after the anchors [seen]: the
    upstream choice ends at or before [refLoc] and was met before the
    downstream choice, which starts after [refLoc]. *)
Definition selects (refLoc : Z) (rest seen : list PwalnEntry) (r : Closest)
  : Prop :=
  match closestDownstreamAnchor r with
  | Some d =>
      refLoc < refStart d /\
      exists r1 r2, rest = r1 ++ d :: r2 /\
        forall u, closestUpstreamAnchor r = Some u ->
                  In u (seen ++ r1) /\ refEnd u <= refLoc
  | None =>
      forall u, closestUpstreamAnchor r = Some u ->
                In u (seen ++ rest) /\ refEnd u <= refLoc
  end.

(** The interpolation as the specification words it:
    [qry_left + floor(frac * (qry_right - qry_left))] with the exact
    [frac = (loc - ref_left) / (ref_right - ref_left)]. *)
Definition spec_interpolate (refLoc refLeft refRight qryLeft qryRight : Z) : Z :=
  qryLeft + ((refLoc - refLeft) * (qryRight - qryLeft)) / (refRight - refLeft).

(** The same formula with [frac] and the product rounded to binary64, the
    floor taken before [qry_left] is added. *)
Definition spec_interpolate_binary64
  (refLoc refLeft refRight qryLeft qryRight : Z) : Z :=
  qryLeft +
  u32_of_double
    ((double_of_u32 (refLoc - refLeft) / double_of_u32 (refRight - refLeft))
     * double_of_u32 (qryRight - qryLeft))%float.

(** ** Specification of the path search *)

Definition sle `{ScoreArith} (a b : score) : Prop := sleb a b = true.

(** The test [it->second.score > current.score] of the loop head. *)
Definition staleb `{ScoreArith} (sp : SpeciesMap ShortestPathEntry)
  (e : OrangeEntry) : bool :=
  match lookupS (o_species e) sp with
  | Some x => sltb (o_score e) (spe_score x)
  | None => false
  end.

(** Invariant of the search on the recorded paths [sp] and the queue [q]:
    [species] are the species of the store and [done] the species whose
    neighbours have been relaxed. *)
Record dijkstra_inv `{ScoreArith} (species done : list string)
  (sp : SpeciesMap ShortestPathEntry) (q : list OrangeEntry) : Prop :=
  mkDijkstraInv {
  di_bound : forall e, In e q ->
    exists x, lookupS (o_species e) sp = Some x /\
              sle (o_score e) (spe_score x);
  di_queued : forall e, In e q -> in_unit (o_score e);
  di_recorded : forall y x, lookupS y sp = Some x -> in_unit (spe_score x);
  di_done : forall y, In y done ->
    exists x, lookupS y sp = Some x /\
              forall e, In e q -> sle (o_score e) (spe_score x);
  di_stale : forall y e, In y done -> In e q ->
    o_species e = y -> staleb sp e = true;
  di_fresh : NoDup (map o_species
               (List.filter (fun e => negb (staleb sp e)) q));
  di_species : forall e, In e q -> In (o_species e) species;
  di_done_nodup : NoDup done;
  di_done_incl : incl done species
}.

(** Iterations the loop can still make. *)
Definition remaining (species done : list string) (queued : nat) : nat :=
  (queued + (length species - length done) * (length species - 1))%nat.

(** The scaling factor of a search: [getScalingFactor] of a genome size of
    the store. *)
Definition scaling_of `{ScoreArith} (ipp : Ipp) (scalingFactor : score)
  : Prop :=
  exists species genomeSize,
    lookupS species (genomeSizes_ ipp) = Some genomeSize /\
    scalingFactor = getScalingFactor ipp genomeSize.

(** Every map of neighbours has distinct keys, as a C++ map does. *)
Definition wf_store (ipp : Ipp) : Prop :=
  forall sp1 nxts, In (sp1, nxts) (pwalns_ ipp) -> NoDup (map fst nxts).

(** The state in which the neighbours of the entry of score [c] are
    relaxed. *)
Definition relaxing `{ScoreArith} (species done : list string) (c : score)
  (sp : SpeciesMap ShortestPathEntry) (q : list OrangeEntry) : Prop :=
  dijkstra_inv species done sp q /\
  in_unit c /\
  forall y, In y done ->
    exists x, lookupS y sp = Some x /\ sle c (spe_score x).

(** Invariant relating the direct result to the recorded path of the query
    species. *)
Record direct_inv `{ScoreArith} (refSpecies qrySpecies : string)
  (st : SearchState) : Prop := mkDirectInv {
  dr_range : forall e, In e (orange st) -> in_unit (o_score e);
  dr_recorded : forall s e, lookupS s (shortestPath st) = Some e ->
    in_unit (spe_score e);
  dr_ref : exists x, lookupS refSpecies (shortestPath st) = Some x /\
                     sle sone (spe_score x);
  dr_ref_queue : forall e, In e (orange st) ->
    o_species e = refSpecies -> o_score e = sone;
  dr_direct : forall d, directRes st = Some d ->
    exists x, lookupS qrySpecies (shortestPath st) = Some x /\
              sle (gpr_score d) (spe_score x)
}.

(** Three species: the direct alignment of A to C has a wide gap around
    position 1250, the alignments through B cover it. *)
Definition hopAC : list PwalnEntry :=
  [fwdEntry 800 900 800 900; fwdEntry 900 1000 900 1000;
   fwdEntry 1500 1600 1500 1600; fwdEntry 1700 1800 1700 1800;
   fwdEntry 1900 2000 1900 2000].

Definition hopAB : list PwalnEntry :=
  [fwdEntry 1000 1100 5000 5100; fwdEntry 1200 1300 5200 5300;
   fwdEntry 1400 1500 5400 5500; fwdEntry 1600 1700 5600 5700;
   fwdEntry 1800 1900 5800 5900].

Definition hopBC : list PwalnEntry :=
  [fwdEntry 5000 5100 1000 1100; fwdEntry 5200 5300 1200 1300;
   fwdEntry 5400 5500 1400 1500; fwdEntry 5600 5700 1600 1700;
   fwdEntry 5800 5900 1800 1900].

Definition hopIpp : Ipp :=
  mkIpp ["chr1"%string]
        [("A"%string, [("B"%string, [(0, hopAB)]); ("C"%string, [(0, hopAC)])]);
         ("B"%string, [("C"%string, [(0, hopBC)])])]
        [("A"%string, 100000); ("B"%string, 100000)]
        100.

(** ** Specification of the loaders *)

(** The same load state with more bytes behind the unread ones. *)
Definition extend (s : LoadState) (extra : list byte) : LoadState :=
  mkLoad (unread s ++ extra) (chromsL s) (pwalnsL s).

(** A reader is stable when bytes appended to the file change neither what
    it returns nor what it stores, and when it throws only for lack of
    bytes. *)
Definition stable {A : Type} (m : Loader A) : Prop :=
  forall s extra,
    match m s with
    | (Ok a, s') => m (extend s extra) = (Ok a, extend s' extra)
    | (Throw e, _) => e = RuntimeError msgEOF
    | (OutOfBounds, _) => fst (m (extend s extra)) = OutOfBounds
    | (AssertFail, _) => False
    | (OutOfFuel, _) => False
    end.

(** The bucket of a species pair and a reference chromosome. *)
Definition bucketOf (sp1 sp2 : string) (c : Z)
  (m : SpeciesMap (SpeciesMap Pwaln)) : option (list PwalnEntry) :=
  match lookupS sp1 m with
  | None => None
  | Some bySp2 =>
      match lookupS sp2 bySp2 with
      | None => None
      | Some pwaln => lookupZ c pwaln
      end
  end.

(** [chroms] and [pwalns] are part of [chroms'] and [pwalns']: the names are
    the first names of [chroms'] and every bucket is a bucket of
    [pwalns']. *)
Definition part_of (chroms : list string)
  (pwalns : SpeciesMap (SpeciesMap Pwaln)) (chroms' : list string)
  (pwalns' : SpeciesMap (SpeciesMap Pwaln)) : Prop :=
  (exists more, chroms' = chroms ++ more) /\
  forall sp1 sp2 c es,
    bucketOf sp1 sp2 c pwalns = Some es ->
    bucketOf sp1 sp2 c pwalns' = Some es.

Definition stored_part (s s' : LoadState) : Prop :=
  part_of (chromsL s) (pwalnsL s) (chromsL s') (pwalnsL s').

(** A reader only adds to what is stored. *)
Definition grows {A : Type} (m : Loader A) : Prop :=
  forall s, stored_part s (snd (m s)).

(** What a reader has stored on a file is part of what it stores on any
    longer file. *)
Definition monotone {A : Type} (m : Loader A) : Prop :=
  forall s extra, stored_part (snd (m s)) (snd (m (extend s extra))).

(** The failed load left the store empty or holding the whole file. *)
Definition atomic_load (bytes : list byte) (ipp : Ipp) : Prop :=
  let st := snd (loadPwalns (Some bytes) ipp) in
  (chroms_ st = [] /\ pwalns_ st = []) \/
  fst (readBody (mkLoad bytes [] [])) = Ok tt.

Definition byteOf (z : Z) : byte :=
  match Byte.of_N (Z.to_N z) with
  | Some b => b
  | None => x00
  end.

(** One chromosome name, one species pair, two buckets announced, the file
    ends after the first. *)
Definition truncatedFile : list byte :=
  map byteOf
    [1; 0;  99; 0;            (* 1 chromosome: "c" *)
     1;  65; 0;               (* 1 reference species: "A" *)
     1;  66; 0;               (* 1 query species: "B" *)
     2; 0; 0; 0;              (* 2 buckets *)
     1; 0; 0; 0;              (* bucket of 1 entry *)
     10; 0; 0; 0;  20; 0; 0; 0;  30; 0; 0; 0;  40; 0; 0; 0;  0; 0;  0; 0].

(** A complete file whose only entry names chromosomes 7 and 9, with one
    name in the table. *)
Definition unknownChromFile : list byte :=
  map byteOf
    [1; 0;  99; 0;
     1;  65; 0;
     1;  66; 0;
     1; 0; 0; 0;
     1; 0; 0; 0;
     10; 0; 0; 0;  20; 0; 0; 0;  30; 0; 0; 0;  40; 0; 0; 0;  7; 0;  9; 0].

(** A directory with the sizes of A only. *)
Definition sizesOfA (fileName : string) : option string :=
  if String.eqb fileName "dir/A.sizes"
  then Some ("chr1" ++ String "009"%char "1000" ++ String "010"%char
             ("chr2" ++ String "009"%char "500" ++ String "010"%char ""))%string
  else None.

(** Two forward entries of ten bases; on the query the first one lies
    across [INT_MAX], behind the second one. *)
Definition wideSeq : list PwalnEntry :=
  [fwdEntry 0 10 2147483643 2147483653; fwdEntry 20 30 10 20].

(** An entry with [qry_start = qry_end]. *)
Definition degenerateSeq : list PwalnEntry := [fwdEntry 0 10 5 5].

(** The projection of position 1250 of A to C in [hopIpp]. *)
Definition hopDirect : GenomicProjectionResult :=
  mkGPR (1 # 4)%Q (mkCoords 0 1250)
    (mkAnchors (fwdEntry 900 1000 900 1000) (fwdEntry 1500 1600 1500 1600)).

Definition hopEntryC : ShortestPathEntry :=
  mkSPE 1%Q "B" (mkCoords 0 1250)
    (mkAnchors (fwdEntry 5200 5300 1200 1300) (fwdEntry 5200 5300 1200 1300)).

Definition hopProjection : CoordProjection :=
  mkCP (Some hopDirect)
    [("A"%string,
      mkSPE 1%Q "" (mkCoords 0 1250) (mkAnchors dummyEntry dummyEntry));
     ("B"%string,
      mkSPE 1%Q "A" (mkCoords 0 5250)
        (mkAnchors (fwdEntry 1200 1300 5200 5300)
                   (fwdEntry 1200 1300 5200 5300)));
     ("C"%string, hopEntryC)].

(** *** Specification of the helper *)

Section Chains.

Variable seq : list PwalnEntry.
Variable filter : PwalnEntry -> bool.
Variable qryStartOf qryEndOf : PwalnEntry -> Z.

(** A chain of [seq]: increasing indices of elements that pass [filter],
    each element ending, by [qryEndOf], where the next one starts, by
    [qryStartOf], or before. *)
Fixpoint is_chain (idxs : list nat) : Prop :=
  match idxs with
  | [] => True
  | j :: rest =>
      (j < length seq)%nat /\ filter (Lis.at_seq seq j) = true /\
      match rest with
      | [] => True
      | j' :: _ =>
          (j < j')%nat /\
          qryEndOf (Lis.at_seq seq j) <= qryStartOf (Lis.at_seq seq j')
      end /\
      is_chain rest
  end.

(** A chain listed from its last index down, all indices below [bound]. *)
Fixpoint chain_below (bound : nat) (c : list nat) : Prop :=
  match c with
  | [] => True
  | j :: c' =>
      (j < bound)%nat /\ filter (Lis.at_seq seq j) = true /\
      match c' with
      | [] => True
      | j' :: _ =>
          qryEndOf (Lis.at_seq seq j') <= qryStartOf (Lis.at_seq seq j)
      end /\
      chain_below j c'
  end.

(** The indices the backtrace visits, in the order of the result. *)
Fixpoint trace_idx (prev : list nat) (k v : nat) : list nat :=
  match k with
  | O => []
  | S k' => trace_idx prev k' (Lis.rd prev v) ++ [v]
  end.

(** Invariant of [m] after the indices below [i]: the ends of the elements
    [m] refers to do not decrease, and [m[k]] refers to an element that
    ends no later than the last element of any chain of [k + 1] indices
    below [i]. *)
Definition smallest_ends (i : nat) (m : list nat) : Prop :=
  (forall p q, (p <= q < length m)%nat ->
     Lis.hi_at seq qryEndOf (Lis.rd m p) <= Lis.hi_at seq qryEndOf (Lis.rd m q))
  /\
  (forall j c, chain_below i (j :: c) ->
     (length c < length m)%nat /\
     Lis.hi_at seq qryEndOf (Lis.rd m (length c)) <= Lis.hi_at seq qryEndOf j).

End Chains.

(** *** Specification of the neighbour scan *)

(** The three tests of the scan: an entry is downstream when it is not
    upstream and starts after [refLoc], overlapping when it is neither. *)
Definition isDownstream (refLoc : Z) (e : PwalnEntry) : bool :=
  negb (refEnd e <=? refLoc) && (refLoc <? refStart e).

Definition isOverlapping (refLoc : Z) (e : PwalnEntry) : bool :=
  negb (refEnd e <=? refLoc) && negb (refLoc <? refStart e).

(** A bucket as the file holds it: by increasing [refStart], no entry
    ending before it starts. *)
Definition sortedByRefStart (bucket : list PwalnEntry) : Prop :=
  StronglySorted (fun a b => refStart a <= refStart b) bucket /\
  Forall (fun e => refStart e <= refEnd e) bucket.

(** The entries of [l] on the query chromosome [c] and the strand [r]. *)
Definition onChromStrand (c : Z) (r : bool) (l : list PwalnEntry)
  : list PwalnEntry :=
  List.filter (fun e => (qryChrom e =? c) && Bool.eqb (isQryReversed e) r) l.

(** *** Specification of the majority chromosome *)

(** [chromCount[c]] read without creating the key. *)
Definition countOf (c : Z) (counts : list (Z * nat)) : nat :=
  match lookupZ c counts with
  | Some n => n
  | None => 0%nat
  end.

(** The number of entries of [l] on the query chromosome [c]. *)
Definition onChrom (c : Z) (l : list PwalnEntry) : nat :=
  length (List.filter (fun e => qryChrom e =? c) l).

(** ** Chromosome names and the half-life distance *)

(** [Ipp::setHalfLifeDistance]. *)
Definition setHalfLifeDistance (halfLifeDistance : Z) (ipp : Ipp) : Ipp :=
  mkIpp (chroms_ ipp) (pwalns_ ipp) (genomeSizes_ ipp) halfLifeDistance.

(** [std::find(chroms_.begin(), chroms_.end(), chromName)] followed by
    [std::distance]: the index of the first occurrence. *)
Fixpoint find_index (name : string) (l : list string) : option nat :=
  match l with
  | [] => None
  | x :: t =>
      if String.eqb x name then Some O
      else match find_index name t with
           | Some i => Some (S i)
           | None => None
           end
  end.

(** [Ipp::chromIdFromName]; the distance is returned as a [uint16_t]. *)
Definition chromIdFromName (ipp : Ipp) (chromName : string) : outcome Z :=
  match find_index chromName (chroms_ ipp) with
  | None => Throw (RuntimeError ("Unknown chromosome: " ++ chromName)%string)
  | Some i => Ok (Z.of_nat i mod two16)
  end.

(** [Ipp::chromName]: [chroms_.at(chromId)]. *)
Definition chromName (ipp : Ipp) (chromId : Z) : outcome string :=
  match nth_error (chroms_ ipp) (Z.to_nat chromId) with
  | Some name => Ok name
  | None => Throw OutOfRange
  end.

(** A reader that leaves the chromosome table alone. *)
Definition keeps_chroms {A : Type} (m : Loader A) : Prop :=
  forall s, chromsL (snd (m s)) = chromsL s.

(** *** Specification of the job queue *)

(** When [projectCoords] holds an exception, a job of the batch threw and
    what is held is the [std::exception] copy; the jobs left are jobs of the
    batch. *)
Definition queue_ok `{ScoreArith} (job : Coords -> outcome CoordProjection)
  (batch : list Coords) (w : WorkerState) : Prop :=
  incl (jobs w) batch /\
  (hadWorkerException w = true ->
   workerException w = Some StdException /\
   exists e c, In c batch /\ job c = Throw e).

(** [w'] is reached from [w] by threads that have all returned: without a
    recorded exception no job is left and every job that was left had a
    result. *)
Definition drained `{ScoreArith} (job : Coords -> outcome CoordProjection)
  (batch : list Coords) (w w' : WorkerState) : Prop :=
  queue_ok job batch w' /\
  (hadWorkerException w' = false ->
   hadWorkerException w = false /\ jobs w' = [] /\
   forall c, In c (jobs w) -> exists cp, job c = Ok cp).

(** ** The file format of loadPwalns *)

(** The format as the comment at the head of [Ipp::loadPwalns] lays it
    out.  [le_bytes width v] are the [width] bytes of [v], least
    significant first. *)
Fixpoint le_bytes (width : nat) (v : Z) : list byte :=
  match width with
  | O => []
  | S w => byteOf (v mod 256) :: le_bytes w (v / 256)
  end.

(** A null-terminated string. *)
Definition encodeString (s : string) : list byte :=
  list_byte_of_string s ++ [x00].

Definition encodeEntry (e : PwalnEntry) : list byte :=
  le_bytes 4 (refStart e) ++ le_bytes 4 (refEnd e) ++
  le_bytes 4 (qryStart e) ++ le_bytes 4 (qryEnd e) ++
  le_bytes 2 (refChrom e) ++ le_bytes 2 (qryChrom e).

(** [num_pwaln_entries] and the entries. *)
Definition encodeBucket (b : Z * list PwalnEntry) : list byte :=
  le_bytes 4 (Z.of_nat (length (snd b))) ++ concat (map encodeEntry (snd b)).

(** [sp2_name], [num_ref_chrom_entries] and the buckets. *)
Definition encodePwaln (p : string * Pwaln) : list byte :=
  encodeString (fst p) ++ le_bytes 4 (Z.of_nat (length (snd p))) ++
  concat (map encodeBucket (snd p)).

(** [sp1_name], [num_sp2] and the pwalns of the query species. *)
Definition encodeSpecies (p : string * SpeciesMap Pwaln) : list byte :=
  encodeString (fst p) ++ le_bytes 1 (Z.of_nat (length (snd p))) ++
  concat (map encodePwaln (snd p)).

Definition encodeStore (chroms : list string)
  (pwalns : SpeciesMap (SpeciesMap Pwaln)) : list byte :=
  le_bytes 2 (Z.of_nat (length chroms)) ++ concat (map encodeString chroms) ++
  le_bytes 1 (Z.of_nat (length pwalns)) ++ concat (map encodeSpecies pwalns).

(** What the format can hold. *)
Definition no_nul (s : string) : Prop :=
  Forall (fun b => b <> x00) (list_byte_of_string s).

Definition entry_in_range (e : PwalnEntry) : Prop :=
  is_u32 (refStart e) /\ is_u32 (refEnd e) /\
  is_u32 (qryStart e) /\ is_u32 (qryEnd e) /\
  is_u16 (refChrom e) /\ is_u16 (qryChrom e).

(** A bucket is stored under the reference chromosome of its first
    entry. *)
Definition bucket_ok (b : Z * list PwalnEntry) : Prop :=
  (exists e es, snd b = e :: es /\ fst b = refChrom e) /\
  Z.of_nat (length (snd b)) < two32 /\
  Forall entry_in_range (snd b).

Definition pwaln_ok (p : string * Pwaln) : Prop :=
  no_nul (fst p) /\ Z.of_nat (length (snd p)) < two32 /\
  NoDup (map fst (snd p)) /\ Forall bucket_ok (snd p).

Definition species_ok (p : string * SpeciesMap Pwaln) : Prop :=
  no_nul (fst p) /\ Z.of_nat (length (snd p)) < 256 /\
  NoDup (map fst (snd p)) /\ Forall pwaln_ok (snd p).

Definition encodable (chroms : list string)
  (pwalns : SpeciesMap (SpeciesMap Pwaln)) : Prop :=
  Z.of_nat (length chroms) < two16 /\ Forall no_nul chroms /\
  Z.of_nat (length pwalns) < 256 /\
  NoDup (map fst pwalns) /\ Forall species_ok pwalns.

(** *** Specification of the recorded paths *)

(** The entry [projectCoord] records for the reference species. *)
Definition startEntry `{ScoreArith} (refCoords : Coords) : ShortestPathEntry :=
  mkSPE sone EmptyString refCoords (mkAnchors dummyEntry dummyEntry).

(** The entry [e] recorded for the species [s] is one hop away from the
    entry recorded for its predecessor: its coordinates and anchors are the
    projection of the predecessor's coordinates, its score the product of
    the predecessor's score and the score of the projection. *)
Definition hop_ok `{StdLib} `{ScoreArith} (ipp : Ipp) (scalingFactor : score)
  (sp : SpeciesMap ShortestPathEntry) (s : string) (e : ShortestPathEntry)
  : Prop :=
  exists pe g,
    lookupS (prevSpecies e) sp = Some pe /\
    projectGenomicLocation ipp (prevSpecies e) s (spe_coords pe) scalingFactor
    = Ok (Some (mkGPR g (spe_coords e) (spe_anchors e))) /\
    spe_score e = smul (spe_score pe) g.

Definition path_tree `{StdLib} `{ScoreArith} (ipp : Ipp)
  (scalingFactor : score) (refSpecies : string) (refCoords : Coords)
  (sp : SpeciesMap ShortestPathEntry) : Prop :=
  lookupS refSpecies sp = Some (startEntry refCoords) /\
  forall s e, lookupS s sp = Some e -> s <> refSpecies ->
              hop_ok ipp scalingFactor sp s e.

(** Invariant of the search on the recorded paths: [done] are the species
    whose neighbours have been relaxed; a queued entry is the recorded one
    of its species or has a lower score. *)
Record tree_inv `{StdLib} `{ScoreArith} (ipp : Ipp) (scalingFactor : score)
  (refSpecies : string) (refCoords : Coords) (done : list string)
  (sp : SpeciesMap ShortestPathEntry) (q : list OrangeEntry) : Prop :=
  mkTreeInv {
  ti_ref : lookupS refSpecies sp = Some (startEntry refCoords);
  ti_start : In refSpecies done \/
             forall e, In e q -> o_species e = refSpecies;
  ti_queue : forall e, In e q ->
    exists x, lookupS (o_species e) sp = Some x /\
      ((o_score e = spe_score x /\ o_coords e = spe_coords x) \/
       sltb (o_score e) (spe_score x) = true);
  ti_hop : forall s e, lookupS s sp = Some e -> s <> refSpecies ->
    In (prevSpecies e) done /\ hop_ok ipp scalingFactor sp s e;
  ti_rank : forall d1 s d2 e, done = d1 ++ s :: d2 -> s <> refSpecies ->
    lookupS s sp = Some e -> In (prevSpecies e) d2
}.

(** Following the predecessors from [s] for at most [n] steps leads to the
    reference species. *)
Fixpoint leadsToRef `{ScoreArith} (n : nat)
  (sp : SpeciesMap ShortestPathEntry) (refSpecies s : string) : bool :=
  if String.eqb s refSpecies then true
  else match n with
       | O => false
       | S n' =>
           match lookupS s sp with
           | Some e => leadsToRef n' sp refSpecies (prevSpecies e)
           | None => false
           end
       end.

(** Recorded and queued scores lie between 0 and 1. *)
Definition scores_in_range `{ScoreArith} (sp : SpeciesMap ShortestPathEntry)
  (q : list OrangeEntry) : Prop :=
  (forall s e, lookupS s sp = Some e ->
     sle szero (spe_score e) /\ sle (spe_score e) sone) /\
  (forall e, In e q -> sle szero (o_score e) /\ sle (o_score e) sone).

(** ** The genome sizes files

    A sizes file has one line per chromosome: the name, a tabulator and the
    size in decimal digits. *)

Definition decimal (n : Z) : string :=
  DecimalString.NilEmpty.string_of_uint (N.to_uint (Z.to_N n)).

Definition sizesLine (row : string * Z) : string :=
  (fst row ++ String "009"%char (decimal (snd row)))%string.

Fixpoint sizesFile (rows : list (string * Z)) : string :=
  match rows with
  | [] => EmptyString
  | row :: rest =>
      (sizesLine row ++ String "010"%char (sizesFile rest))%string
  end.

(** A chromosome name holds neither a tabulator nor a line feed. *)
Fixpoint plain_name (s : string) : bool :=
  match s with
  | EmptyString => true
  | String c t =>
      negb (Ascii.eqb c "009"%char) && negb (Ascii.eqb c "010"%char)
      && plain_name t
  end.

Definition totalSize (rows : list (string * Z)) : Z :=
  fold_right (fun row acc => snd row + acc) 0 rows.

(** ** Binary64 scores

    The scores as the code computes them, in Rocq's primitive binary64
    floats.  [std::log(0.5)] is the double nearest to [- ln 2].  Of
    [std::exp] the value on a NaN is fixed (a NaN, C17 F.10.3.1); its value
    on numbers is that of [libm_exp]. *)
Definition log_half : float := (-0x1.62e42fefa39efp-1)%float.

Definition ieee_exp (libm_exp : float -> float) (x : float) : float :=
  if PrimFloat.is_nan x then x else libm_exp x.

Definition ieeeScores (libm_exp : float -> float) : ScoreArith := {|
  score := float;
  szero := 0%float;
  sone := 1%float;
  smul := PrimFloat.mul;
  sleb := PrimFloat.leb;
  sltb := PrimFloat.ltb;
  scaling := fun h g =>
    (-1 * double_of_u32 h / (double_of_u32 g * log_half))%float;
  decay := fun d g s =>
    ieee_exp libm_exp (-1 * double_of_u32 d / (double_of_u32 g * s))%float
|}.

(** The store [exIpp] with a genome size of 0 for A, as an empty sizes
    file gives it. *)
Definition nanIpp : Ipp :=
  mkIpp ["chr1"%string]
        [("A"%string, [("B"%string, exPwaln)])]
        [("A"%string, 0)]
        10000.

(** The blocks of [exBucket] seen from the query species. *)
Definition exBucketBack : list PwalnEntry :=
  [fwdEntry 10 40 600 700; fwdEntry 50 100 800 1000;
   fwdEntry 700 800 1100 1200; fwdEntry 900 1000 1300 1400;
   fwdEntry 1100 1200 1500 1600].

(** Two species aligned to each other, both with a genome size of 0. *)
Definition loopIpp : Ipp :=
  mkIpp ["chr1"%string]
        [("A"%string, [("B"%string, exPwaln)]);
         ("B"%string, [("A"%string, [(0, exBucketBack)])])]
        [("A"%string, 0); ("B"%string, 0)]
        10000.

(** The recorded paths the search on [loopIpp] comes back to. *)
Definition loopPaths (libm_exp : float -> float)
  : SpeciesMap (@ShortestPathEntry (ieeeScores libm_exp)) :=
  [("A"%string,
    @mkSPE (ieeeScores libm_exp) nan "B" (mkCoords 0 1056)
      (mkAnchors (fwdEntry 50 100 800 1000) (fwdEntry 700 800 1100 1200)));
   ("B"%string,
    @mkSPE (ieeeScores libm_exp) nan "A" (mkCoords 0 436)
      (mkAnchors (fwdEntry 800 1000 50 100) (fwdEntry 1100 1200 700 800)))].

Definition loopStateA (libm_exp : float -> float) (n : nat)
  : @SearchState (ieeeScores libm_exp) :=
  @mkSearch (ieeeScores libm_exp) (loopPaths libm_exp)
    [@mkOrange (ieeeScores libm_exp) nan "A" (mkCoords 0 1056)] None n.

Definition loopStateB (libm_exp : float -> float) (n : nat)
  : @SearchState (ieeeScores libm_exp) :=
  @mkSearch (ieeeScores libm_exp) (loopPaths libm_exp)
    [@mkOrange (ieeeScores libm_exp) nan "B" (mkCoords 0 436)] None n.

(* ================================================================== *)
(** * Properties *)

Local Open Scope Z_scope.

(** ** The collinear-subsequence helper *)

Module LisFacts.
Import Lis.
Section Facts.

Variable seq : list PwalnEntry.
Variable filter : PwalnEntry -> bool.
Variable lo hi : PwalnEntry -> Z.

Local Abbreviation at_seq := (at_seq seq).
Local Abbreviation chain_ok := (chain_ok seq filter lo hi).
Local Abbreviation scan_inv := (scan_inv seq filter lo hi).
Local Abbreviation scan_step := (scan_step seq filter lo hi).
Local Abbreviation bsearch := (bsearch seq lo hi).
Local Abbreviation backtrace := (backtrace seq).
Local Abbreviation linked := (linked lo hi).

Lemma wr_length (l : list nat) k x : length (wr l k x) = length l.
Proof.
  revert k; induction l as [|h t IH]; intros [|k]; simpl; auto.
Qed.

Lemma rd_wr_same (l : list nat) k x :
  (k < length l)%nat -> rd (wr l k x) k = x.
Proof.
  unfold rd; revert k; induction l as [|h t IH]; intros [|k] Hk;
    simpl in *; try lia; auto.
  apply IH; lia.
Qed.

Lemma rd_wr_other (l : list nat) k j x :
  j <> k -> rd (wr l k x) j = rd l j.
Proof.
  unfold rd; revert k j; induction l as [|h t IH]; intros [|k] [|j] Hjk;
    simpl; auto; try congruence.
Qed.

Lemma rd_app_left (l : list nat) x pos :
  (pos < length l)%nat -> rd (l ++ [x]) pos = rd l pos.
Proof. intros H; unfold rd; now rewrite app_nth1. Qed.

Lemma rd_app_last (l : list nat) x : rd (l ++ [x]) (length l) = x.
Proof. unfold rd; rewrite app_nth2 by lia. now rewrite Nat.sub_diag. Qed.

Lemma back_rd (m : list nat) :
  m <> [] -> back m = rd m (length m - 1).
Proof.
  intros Hm; unfold back, rd.
  destruct (exists_last Hm) as [l [x ->]].
  rewrite last_last, length_app; simpl length.
  rewrite Nat.add_sub.
  rewrite app_nth2 by lia. now rewrite Nat.sub_diag.
Qed.

(** The binary search stays within [u, v] and, when it moved [u], the
    element just below the result passed the test. *)
Lemma mid_range (u v : nat) :
  (u < v)%nat -> (u <= (u + v) / 2 < v)%nat.
Proof.
  intros H; split.
  - apply Nat.div_le_lower_bound; lia.
  - apply Nat.Div0.div_lt_upper_bound; lia.
Qed.

(** The binary search stays within [u, v] and, when it moved [u], the
    element just below the result passed the test. *)
Lemma bsearch_spec m i fuel : forall u v,
  (u <= v)%nat ->
  let r := bsearch fuel m i u v in
  (u <= r <= v)%nat /\
  (r = u \/ hi (at_seq (rd m (r - 1))) <= lo (at_seq i)).
Proof.
  induction fuel as [|fuel IH]; intros u v Huv; cbv zeta; cbn [Lis.bsearch].
  - split; [lia | now left].
  - destruct (u <? v)%nat eqn:Hlt.
    + apply Nat.ltb_lt in Hlt.
      pose proof (mid_range u v Hlt) as Hmid.
      set (mid := ((u + v) / 2)%nat) in *.
      unfold hi_at, lo_at.
      destruct (hi (at_seq (rd m mid)) <=? lo (at_seq i)) eqn:Ht.
      * assert (Hx : (mid + 1 <= v)%nat) by lia.
        destruct (IH (mid + 1)%nat v Hx) as [Hr Hp].
        split; [lia|]. right.
        destruct Hp as [-> | Hp]; auto.
        replace (mid + 1 - 1)%nat with mid by lia.
        now apply Z.leb_le.
      * assert (Hx : (u <= mid)%nat) by lia.
        destruct (IH u mid Hx) as [Hr Hp].
        split; [lia | exact Hp].
    + split; [lia | now left].
Qed.

(** With fuel [v - u] the loop leaves through its condition. *)
Lemma bsearch_fuel m i : forall fuel fuel' u v,
  (v - u <= fuel)%nat -> (v - u <= fuel')%nat ->
  bsearch fuel m i u v = bsearch fuel' m i u v.
Proof.
  induction fuel as [|fuel IH]; intros fuel' u v H1 H2.
  - destruct fuel'; cbn [Lis.bsearch]; auto.
    replace (u <? v)%nat with false; auto.
    symmetry; apply Nat.ltb_ge; lia.
  - destruct fuel'; cbn [Lis.bsearch].
    + replace (u <? v)%nat with false; auto.
      symmetry; apply Nat.ltb_ge; lia.
    + destruct (u <? v)%nat eqn:Hlt; auto.
      apply Nat.ltb_lt in Hlt.
      pose proof (mid_range u v Hlt) as Hmid.
      set (mid := ((u + v) / 2)%nat) in *.
      destruct (hi_at seq hi (rd m mid) <=? lo_at seq lo i);
        apply IH; lia.
Qed.

Lemma chain_ok_stable prev prev' i k : forall v,
  (v < i)%nat ->
  (forall j, (j < i)%nat -> rd prev' j = rd prev j) ->
  chain_ok prev k v -> chain_ok prev' k v.
Proof.
  induction k as [|k IH]; intros v Hv Hagree; [simpl; auto|].
  cbn [Lis.chain_ok].
  intros (Hlen & Hf & Hrest); split; [|split]; auto.
  destruct k as [|k']; auto.
  destruct Hrest as (Hlt & Hlink & Hc).
  rewrite (Hagree v Hv).
  split; [|split]; auto.
  apply IH; auto; lia.
Qed.

Lemma chain_ok_one prev v :
  (v < length seq)%nat -> filter (at_seq v) = true -> chain_ok prev 1 v.
Proof. intros; cbn [Lis.chain_ok]; auto. Qed.

Lemma chain_ok_step prev k v :
  (0 < k)%nat -> (v < length seq)%nat -> filter (at_seq v) = true ->
  (rd prev v < v)%nat ->
  hi (at_seq (rd prev v)) <= lo (at_seq v) ->
  chain_ok prev k (rd prev v) ->
  chain_ok prev (S k) v.
Proof.
  intros Hk Hv Hf Hlt Hlink Hc.
  destruct k as [|k]; [lia|].
  cbn [Lis.chain_ok] in *. tauto.
Qed.

Lemma scan_step_inv i st :
  (i < length seq)%nat -> scan_inv i st -> scan_inv (S i) (scan_step st i).
Proof.
  destruct st as [m prev]; unfold Lis.scan_inv, Lis.scan_step; cbn [fst snd].
  intros Hi (Hlen & Hm).
  assert (Hweak : forall pos, (pos < length m)%nat ->
            (rd m pos < S i)%nat /\ chain_ok prev (S pos) (rd m pos)).
  { intros pos Hpos; destruct (Hm pos Hpos); split; auto. }
  destruct (filter (at_seq i)) eqn:Hf; cbn [negb fst snd]; [|split; auto].
  destruct (length m =? 0)%nat eqn:Hm0; cbn [fst snd].
  { apply Nat.eqb_eq in Hm0. destruct m; [|discriminate].
    split; auto. intros [|pos] Hpos; [|simpl in Hpos; lia].
    split; [unfold rd; simpl; lia|]. now apply chain_ok_one. }
  apply Nat.eqb_neq in Hm0.
  assert (Hne : m <> []) by (destruct m; simpl in *; congruence).
  assert (Hstab : forall x pos, (pos < length m)%nat ->
            chain_ok (wr prev i x) (S pos) (rd m pos)).
  { intros x pos Hpos. destruct (Hm pos Hpos) as [Hlt Hc].
    apply (chain_ok_stable prev (wr prev i x) i); auto.
    intros j Hj; apply rd_wr_other; lia. }
  unfold hi_at, lo_at.
  destruct (hi (at_seq (back m)) <=? lo (at_seq i)) eqn:Hpush; cbn [fst snd].
  { split; [now rewrite wr_length|].
    intros pos Hpos. rewrite length_app in Hpos; cbn [length] in Hpos.
    destruct (Nat.eq_dec pos (length m)) as [->|Hneq].
    - rewrite rd_app_last. split; [lia|].
      assert (Hl : (length m - 1 < length m)%nat) by lia.
      destruct (Hm _ Hl) as [Hlt Hc].
      rewrite back_rd in * by auto.
      apply chain_ok_step; rewrite ?rd_wr_same by lia;
        [lia | lia | exact Hf | exact Hlt | now apply Z.leb_le | ].
      pose proof (Hstab (rd m (length m - 1)) _ Hl) as Hs.
      now replace (S (length m - 1)) with (length m) in Hs by lia.
    - assert (Hpos' : (pos < length m)%nat) by lia.
      rewrite rd_app_left by lia.
      destruct (Hm pos Hpos'); split; [lia|].
      apply Hstab; lia. }
  set (u := bsearch (length m) m i 0%nat (length m - 1)%nat).
  destruct (bsearch_spec m i (length m) 0%nat (length m - 1)%nat
              (Nat.le_0_l _)) as [Hu Hp]. fold u in Hu, Hp.
  destruct (hi (at_seq i) <? hi (at_seq (rd m u))) eqn:Hless; cbn [fst snd];
    [|split; auto].
  split.
  { destruct (0 <? u)%nat; auto. now rewrite wr_length. }
  rewrite wr_length. intros pos Hpos.
  destruct (Nat.eq_dec pos u) as [->|Hneq].
  - rewrite rd_wr_same by lia. split; [lia|].
    destruct (0 <? u)%nat eqn:Hu0.
    + apply Nat.ltb_lt in Hu0.
      assert (Hu1 : (u - 1 < length m)%nat) by lia.
      destruct (Hm _ Hu1) as [Hlt Hc].
      apply chain_ok_step; rewrite ?rd_wr_same by lia;
        [lia | lia | exact Hf | exact Hlt | | ].
      * destruct Hp as [Hp|Hp]; [lia | exact Hp].
      * pose proof (Hstab (rd m (u - 1)) _ Hu1) as Hs.
        now replace (S (u - 1)) with u in Hs by lia.
    + apply Nat.ltb_ge in Hu0. replace u with 0%nat by lia.
      now apply chain_ok_one.
  - rewrite rd_wr_other by auto.
    destruct (Hm pos Hpos); split; [lia|].
    destruct (0 <? u)%nat; [apply Hstab|]; auto.
Qed.

Lemma scan_from_inv : forall idxs i st,
  idxs = List.seq i (length idxs) ->
  (i + length idxs <= length seq)%nat ->
  scan_inv i st ->
  scan_inv (i + length idxs) (scan_from seq filter lo hi st idxs).
Proof.
  induction idxs as [|j idxs IH]; intros i st Hseq Hle Hinv; simpl in *.
  - now rewrite Nat.add_0_r.
  - injection Hseq as -> Hseq'.
    replace (i + S (length idxs))%nat with (S i + length idxs)%nat by lia.
    apply IH; auto; [lia|].
    apply scan_step_inv; auto; lia.
Qed.

Lemma scan_final_inv : scan_inv (length seq) (scan seq filter lo hi).
Proof.
  unfold scan.
  pose proof (scan_from_inv (List.seq 0 (length seq)) 0%nat
                ([], repeat 0%nat (length seq))) as H.
  rewrite length_seq in H. apply H; auto.
  split; simpl; [apply repeat_length | intros pos Hpos; lia].
Qed.

Lemma backtrace_length prev k : forall v, length (backtrace prev k v) = k.
Proof.
  induction k; intros v; simpl; auto.
  rewrite length_app, IHk; simpl; lia.
Qed.

Lemma linked_snoc l x :
  linked l ->
  (forall y, l <> [] -> last l dummyEntry = y -> hi y <= lo x) ->
  linked (l ++ [x]).
Proof.
  unfold linked; induction l as [|a l IH]; simpl; intros Hs Hlast.
  - repeat constructor.
  - inversion Hs as [|? ? Hs' Hhd]; subst.
    constructor.
    + apply IH; auto. intros y Hne Hy.
      apply Hlast; [discriminate|]. destruct l; [congruence | exact Hy].
    + destruct l as [|b l]; simpl.
      * constructor. apply Hlast; [discriminate | reflexivity].
      * inversion Hhd; subst. now constructor.
Qed.

Lemma backtrace_last prev k v :
  last (backtrace prev (S k) v) dummyEntry = at_seq v.
Proof. simpl. apply last_last. Qed.

Lemma backtrace_ok prev k : forall v,
  chain_ok prev k v ->
  Forall (fun e => In e seq /\ filter e = true) (backtrace prev k v) /\
  linked (backtrace prev k v).
Proof.
  induction k as [|k IH]; intros v Hc.
  - simpl; split; constructor.
  - destruct Hc as (Hlen & Hf & Hrest).
    change (backtrace prev (S k) v)
      with (backtrace prev k (rd prev v) ++ [at_seq v]).
    destruct k as [|k'].
    + simpl. split; repeat constructor; auto.
      apply nth_In; auto.
    + destruct Hrest as (Hlt & Hlink & Hc').
      destruct (IH _ Hc') as [HF HL].
      split.
      * apply Forall_app; split; auto.
        repeat constructor; auto. apply nth_In; auto.
      * apply linked_snoc; auto.
        intros y _ Hy. rewrite backtrace_last in Hy. now subst y.
Qed.

(** The helper returns elements of [seq] that pass [filter] and are
    linked. *)
Lemma helper_ok :
  let res := longestSubsequence_helper seq filter lo hi in
  Forall (fun e => In e seq /\ filter e = true) res /\ linked res.
Proof.
  unfold longestSubsequence_helper.
  destruct seq as [|e0 seq'] eqn:Hseq; [split; constructor|].
  rewrite <- Hseq.
  pose proof scan_final_inv as Hinv.
  destruct (scan seq filter lo hi) as [m prev].
  destruct Hinv as [Hlen Hm]; simpl in *.
  apply backtrace_ok.
  destruct (length m) as [|n] eqn:Hn; [exact I|].
  assert (Hne : m <> []) by (destruct m; simpl in *; congruence).
  rewrite back_rd, Hn by auto.
  replace (S n - 1)%nat with n by lia.
  apply (Hm n); lia.
Qed.

End Facts.
End LisFacts.

(** ** The public wrapper *)

Lemma to_int_small z : 0 <= z < two31 -> to_int z = z.
Proof.
  intros H; unfold to_int, two31, two32 in *.
  rewrite Z.mod_small; lia.
Qed.

Lemma neg_int_small z : 0 <= z < two31 -> neg_int z = - z.
Proof.
  intros H; unfold neg_int. rewrite (to_int_small z H).
  unfold to_int, two31, two32 in *.
  rewrite Z.mod_small; lia.
Qed.

Section HelperExt.
Variable seq : list PwalnEntry.
Variable filter : PwalnEntry -> bool.
Variables lo hi lo' hi' : PwalnEntry -> Z.
Hypothesis lo_eq : forall i, lo (Lis.at_seq seq i) = lo' (Lis.at_seq seq i).
Hypothesis hi_eq : forall i, hi (Lis.at_seq seq i) = hi' (Lis.at_seq seq i).

Lemma bsearch_ext m i fuel : forall u v,
  Lis.bsearch seq lo hi fuel m i u v = Lis.bsearch seq lo' hi' fuel m i u v.
Proof.
  induction fuel as [|fuel IH]; intros u v; cbn [Lis.bsearch]; auto.
  unfold Lis.hi_at, Lis.lo_at. rewrite lo_eq, hi_eq.
  destruct (u <? v)%nat; auto.
  destruct (_ <=? _); apply IH.
Qed.

Lemma scan_step_ext st i :
  Lis.scan_step seq filter lo hi st i = Lis.scan_step seq filter lo' hi' st i.
Proof.
  destruct st as [m prev]; unfold Lis.scan_step, Lis.hi_at, Lis.lo_at.
  rewrite bsearch_ext, !lo_eq, !hi_eq. reflexivity.
Qed.

Lemma scan_from_ext idxs : forall st,
  Lis.scan_from seq filter lo hi st idxs
  = Lis.scan_from seq filter lo' hi' st idxs.
Proof.
  unfold Lis.scan_from.
  induction idxs as [|i idxs IH]; intros st; simpl; auto.
  rewrite scan_step_ext. apply IH.
Qed.

Lemma helper_ext :
  Lis.longestSubsequence_helper seq filter lo hi
  = Lis.longestSubsequence_helper seq filter lo' hi'.
Proof.
  unfold Lis.longestSubsequence_helper, Lis.scan.
  now rewrite scan_from_ext.
Qed.

End HelperExt.

Lemma at_seq_cases seq i :
  In (Lis.at_seq seq i) seq \/ Lis.at_seq seq i = dummyEntry.
Proof.
  unfold Lis.at_seq. destruct (Nat.lt_ge_cases i (length seq)) as [H|H].
  - left; now apply nth_In.
  - right; now apply nth_overflow.
Qed.

Lemma Sorted_weaken {A} (P : A -> Prop) (R R' : A -> A -> Prop) l :
  (forall a b, P a -> P b -> R a b -> R' a b) ->
  Forall P l -> Sorted R l -> Sorted R' l.
Proof.
  intros HR HP HS; induction HS as [|a l HS IH Hhd]; constructor.
  - apply IH. now inversion HP.
  - inversion HP as [|? ? Pa Pl]; subst.
    destruct Hhd; constructor. inversion Pl; subst. now apply HR.
Qed.

Lemma check_inc_linked l : forall loc,
  Forall (fun e => qryStart e < qryEnd e) l ->
  Sorted (fun a b => qryEnd a <= qryStart b) l ->
  (forall e, head l = Some e -> loc <= qryStart e) ->
  check_inc loc l = true.
Proof.
  induction l as [|e l IH]; intros loc HF HS Hhd; simpl; auto.
  inversion HF as [|? ? He HF']; subst.
  inversion HS as [|? ? HS' Hrel]; subst.
  rewrite (proj2 (Z.leb_le _ _) (Hhd e eq_refl)).
  rewrite (proj2 (Z.ltb_lt _ _) He). simpl.
  apply IH; auto.
  intros e' He'. destruct l; simpl in He'; [discriminate|].
  injection He' as ->. now inversion Hrel.
Qed.

Lemma check_dec_linked l : forall loc,
  Forall (fun e => qryEnd e < qryStart e) l ->
  Sorted (fun a b => qryEnd b <= qryStart a) l ->
  (forall e, head l = Some e -> qryEnd e <= loc) ->
  check_dec loc l = true.
Proof.
  induction l as [|e l IH]; intros loc HF HS Hhd; simpl; auto.
  inversion HF as [|? ? He HF']; subst.
  inversion HS as [|? ? HS' Hrel]; subst.
  rewrite (proj2 (Z.leb_le _ _) (Hhd e eq_refl)).
  rewrite (proj2 (Z.ltb_lt _ _) He). simpl.
  apply IH; auto.
  intros e' He'. destruct l; simpl in He'; [discriminate|].
  injection He' as ->. now inversion Hrel.
Qed.

Lemma inc_of_spec seq :
  Forall qry_in_int seq -> inc_of seq = spec_forward seq.
Proof.
  intros Hr. unfold inc_of, spec_forward. apply helper_ext; intros i;
    unfold fwd_lo, fwd_hi;
    (destruct (at_seq_cases seq i) as [Hin| ->];
     [ rewrite Forall_forall in Hr; destruct (Hr _ Hin);
       now apply to_int_small
     | reflexivity ]).
Qed.

Lemma dec_of_spec seq :
  Forall qry_in_int seq -> dec_of seq = spec_reverse seq.
Proof.
  intros Hr. unfold dec_of, spec_reverse. apply helper_ext; intros i;
    unfold rev_lo, rev_hi;
    (destruct (at_seq_cases seq i) as [Hin| ->];
     [ rewrite Forall_forall in Hr; destruct (Hr _ Hin);
       now apply neg_int_small
     | reflexivity ]).
Qed.

Lemma inc_check seq :
  Forall strand_ok seq -> Forall qry_in_int seq ->
  check_inc 0 (inc_of seq) = true.
Proof.
  intros Hs Hr. rewrite inc_of_spec by auto. unfold spec_forward.
  destruct (LisFacts.helper_ok seq (fun e => negb (isQryReversed e))
              qryStart qryEnd) as [HF HL].
  set (res := Lis.longestSubsequence_helper _ _ _ _) in *.
  rewrite Forall_forall in Hs, Hr.
  assert (HP : Forall (fun e => qryStart e < qryEnd e /\ 0 <= qryStart e) res).
  { eapply Forall_impl; [|exact HF]. simpl; intros e [Hin Hf].
    specialize (Hs _ Hin); specialize (Hr _ Hin).
    unfold strand_ok, qry_in_int, isQryReversed in *.
    apply negb_true_iff, Z.ltb_ge in Hf. lia. }
  apply check_inc_linked.
  - eapply Forall_impl; [|exact HP]; simpl; tauto.
  - exact HL.
  - intros e He. destruct res; [discriminate|]. injection He as ->.
    inversion HP; subst; tauto.
Qed.

Lemma dec_check seq :
  Forall strand_ok seq -> Forall qry_in_int seq ->
  check_dec (two32 - 1) (dec_of seq) = true.
Proof.
  intros Hs Hr. rewrite dec_of_spec by auto. unfold spec_reverse.
  destruct (LisFacts.helper_ok seq isQryReversed
              (fun e => - qryStart e) (fun e => - qryEnd e)) as [HF HL].
  set (res := Lis.longestSubsequence_helper _ _ _ _) in *.
  rewrite Forall_forall in Hs, Hr.
  assert (HP : Forall (fun e => qryEnd e < qryStart e /\ qry_in_int e) res).
  { eapply Forall_impl; [|exact HF]. simpl; intros e [Hin Hf].
    specialize (Hs _ Hin); specialize (Hr _ Hin).
    unfold isQryReversed in Hf. apply Z.ltb_lt in Hf. tauto. }
  apply check_dec_linked.
  - eapply Forall_impl; [|exact HP]; simpl; tauto.
  - refine (Sorted_weaken _ _ _ _ _ HP HL).
    simpl; intros a b Ha Hb Hab. lia.
  - intros e He. destruct res; [discriminate|]. injection He as ->.
    inversion HP as [|? ? [_ [_ Hq]] _]; subst.
    unfold two31, two32 in *. lia.
Qed.

Lemma wrapper_ok seq :
  Forall strand_ok seq -> Forall qry_in_int seq ->
  longestSubsequence seq = Ok (spec_longestSubsequence seq).
Proof.
  intros Hs Hr. unfold longestSubsequence, spec_longestSubsequence.
  rewrite inc_check, dec_check by auto. simpl.
  now rewrite inc_of_spec, dec_of_spec by auto.
Qed.

(** ** The upstream candidate set *)

Section UpstreamSet.

Variable refLoc : Z.

Lemma set_insert_in e x s :
  In e (set_insert x s) -> e = x \/ In e s.
Proof.
  induction s as [|a s IH]; simpl.
  - intros [->|[]]; auto.
  - destruct (refEnd a <? refEnd x).
    + simpl; intros [->|[->|H]]; auto.
    + destruct (refEnd x <? refEnd a); simpl; auto.
      intros [->|H]; auto. destruct (IH H); auto.
Qed.

Lemma set_insert_keeps e x s : In e s -> In e (set_insert x s).
Proof.
  induction s as [|a s IH]; simpl; [tauto|].
  destruct (refEnd a <? refEnd x); [simpl; tauto|].
  destruct (refEnd x <? refEnd a); simpl; tauto.
Qed.

Lemma set_insert_new x s :
  (forall e, In e s -> refEnd e <> refEnd x) -> In x (set_insert x s).
Proof.
  induction s as [|a s IH]; simpl; auto.
  intros Hne.
  destruct (refEnd a <? refEnd x) eqn:H1; [simpl; auto|].
  destruct (refEnd x <? refEnd a) eqn:H2; simpl.
  - right; apply IH; auto.
  - apply Z.ltb_ge in H1, H2. exfalso. apply (Hne a); auto; lia.
Qed.

Lemma set_insert_sorted x s : byRefEndDesc s -> byRefEndDesc (set_insert x s).
Proof.
  unfold byRefEndDesc.
  induction s as [|a s IH]; simpl; intros Hs.
  - repeat constructor.
  - inversion Hs as [|? ? Hs' Ha]; subst.
    destruct (refEnd a <? refEnd x) eqn:H1.
    + apply Z.ltb_lt in H1. constructor; auto.
      constructor; auto.
      rewrite Forall_forall in *; intros b Hb. specialize (Ha b Hb). lia.
    + destruct (refEnd x <? refEnd a) eqn:H2; auto.
      apply Z.ltb_lt in H2. constructor; auto.
      rewrite Forall_forall in *; intros b Hb.
      destruct (set_insert_in _ _ _ Hb) as [->|Hb']; auto.
Qed.

Lemma firstn_in {A} n (l : list A) x : In x (firstn n l) -> In x l.
Proof.
  revert n; induction l; intros [|n]; simpl; try tauto.
  intros [->|H]; eauto.
Qed.

Lemma sorted_firstn n s : byRefEndDesc s -> byRefEndDesc (firstn n s).
Proof.
  unfold byRefEndDesc. revert n; induction s as [|a s IH]; intros [|n] Hs;
    simpl; try constructor.
  - apply IH. now inversion Hs.
  - inversion Hs; subst. rewrite Forall_forall in *.
    intros b Hb. apply H2. eapply firstn_in; eauto.
Qed.

Lemma closer_zero k s :
  (forall e, In e s -> refEnd e <= k) -> closer k s = 0%nat.
Proof.
  unfold closer; induction s as [|a s IH]; simpl; auto; intros H.
  replace (k <? refEnd a) with false.
  - apply IH; auto.
  - symmetry; apply Z.ltb_ge; auto.
Qed.

Lemma closer_cons k a s :
  closer k (a :: s) = ((if (k <? refEnd a)%Z then 1 else 0) + closer k s)%nat.
Proof. unfold closer; simpl. destruct (k <? refEnd a); reflexivity. Qed.

Lemma closer_firstn k s : forall n,
  byRefEndDesc s -> closer k (firstn n s) = Nat.min n (closer k s).
Proof.
  induction s as [|a s IH]; intros n Hs.
  - rewrite firstn_nil. unfold closer; simpl. lia.
  - inversion Hs as [|? ? Hs' Ha]; subst.
    destruct n as [|n]; [reflexivity|].
    rewrite firstn_cons, !closer_cons.
    destruct (k <? refEnd a) eqn:Hk.
    + rewrite IH by auto. lia.
    + apply Z.ltb_ge in Hk. rewrite Forall_forall in Ha.
      rewrite !closer_zero; [lia| |].
      * intros e He. specialize (Ha e He). lia.
      * intros e He. apply firstn_in in He. specialize (Ha e He). lia.
Qed.

Lemma closer_beyond f s : forall n,
  byRefEndDesc s -> In f s -> ~ In f (firstn n s) ->
  (n <= closer (refEnd f) s)%nat.
Proof.
  induction s as [|a s IH]; intros n Hs Hin Hout; [destruct Hin|].
  destruct n as [|n]; [lia|].
  inversion Hs as [|? ? Hs' Ha]; subst.
  rewrite firstn_cons in Hout. simpl in Hout.
  destruct Hin as [->|Hin]; [tauto|].
  rewrite closer_cons. rewrite Forall_forall in Ha.
  specialize (Ha f Hin).
  replace (refEnd f <? refEnd a) with true
    by (symmetry; apply Z.ltb_lt; lia).
  assert (n <= closer (refEnd f) s)%nat by (apply IH; tauto). lia.
Qed.

Lemma closer_insert k x s : (closer k s <= closer k (set_insert x s))%nat.
Proof.
  induction s as [|a s IH]; simpl.
  - unfold closer; simpl; lia.
  - destruct (refEnd a <? refEnd x).
    + rewrite (closer_cons k x). lia.
    + destruct (refEnd x <? refEnd a); [|lia].
      rewrite !closer_cons. lia.
Qed.

Lemma closer_lt e s : In e s -> (closer (refEnd e) s < length s)%nat.
Proof.
  induction s as [|a s IH]; [intros []|].
  intros Hin. rewrite closer_cons. simpl length.
  assert (Hle : (closer (refEnd e) s <= length s)%nat)
    by (unfold closer; apply filter_length_le).
  destruct Hin as [->|Hin].
  - rewrite Z.ltb_irrefl. lia.
  - specialize (IH Hin). destruct (refEnd e <? refEnd a); lia.
Qed.

Lemma firstUpstream_app_some k p q f :
  firstUpstream refLoc k p = Some f -> firstUpstream refLoc k (p ++ q) = Some f.
Proof.
  unfold firstUpstream. induction p as [|a p IH]; simpl; [discriminate|].
  destruct (_ && _); auto.
Qed.

Lemma firstUpstream_app_none k p q :
  firstUpstream refLoc k p = None ->
  firstUpstream refLoc k (p ++ q) = firstUpstream refLoc k q.
Proof.
  unfold firstUpstream. induction p as [|a p IH]; simpl; auto.
  destruct (_ && _); [discriminate | auto].
Qed.

Lemma firstUpstream_none k p :
  firstUpstream refLoc k p = None ->
  forall e, In e p -> refEnd e <= refLoc -> refEnd e <> k.
Proof.
  unfold firstUpstream; intros Hnone e Hin Hup Hk.
  pose proof (find_none _ _ Hnone e Hin) as H; simpl in H.
  apply andb_false_iff in H. destruct H as [H|H].
  - apply Z.leb_gt in H; lia.
  - apply Z.eqb_neq in H; lia.
Qed.

Lemma upstream_inv_skip scanned s x :
  refLoc < refEnd x ->
  upstream_inv refLoc scanned s -> upstream_inv refLoc (scanned ++ [x]) s.
Proof.
  intros Hx (Hs & Hsub & Hfirst). split; [|split]; auto.
  - intros e He. destruct (Hsub e He). split; auto. apply in_or_app; auto.
  - intros y Hy Hup. apply in_app_or in Hy. destruct Hy as [Hy|[->|[]]]; [|lia].
    destruct (Hfirst y Hy Hup) as [(f & Hf & Hin)|Hc]; [left|right; auto].
    exists f; split; auto. now apply firstUpstream_app_some.
Qed.

Lemma upstream_inv_insert scanned s x :
  refEnd x <= refLoc ->
  upstream_inv refLoc scanned s ->
  upstream_inv refLoc (scanned ++ [x]) (set_insert x s).
Proof.
  intros Hx (Hs & Hsub & Hfirst). split; [|split].
  - now apply set_insert_sorted.
  - intros e He. destruct (set_insert_in _ _ _ He) as [->|He'].
    + split; auto. apply in_or_app; simpl; auto.
    + destruct (Hsub e He'). split; auto. apply in_or_app; auto.
  - assert (Hold : forall y, In y scanned -> refEnd y <= refLoc ->
        (exists f, firstUpstream refLoc (refEnd y) (scanned ++ [x]) = Some f
                   /\ In f (set_insert x s))
        \/ (topn <= closer (refEnd y) (set_insert x s))%nat).
    { intros y Hy Hup.
      destruct (Hfirst y Hy Hup) as [(f & Hf & Hin)|Hc]; [left|right].
      - exists f; split; [now apply firstUpstream_app_some|].
        now apply set_insert_keeps.
      - pose proof (closer_insert (refEnd y) x s). lia. }
    intros y Hy Hup. apply in_app_or in Hy.
    destruct Hy as [Hy|[->|[]]]; [now apply Hold|].
    destruct (firstUpstream refLoc (refEnd y) scanned) as [f|] eqn:Hf.
    + pose proof (find_some _ _ Hf) as [Hfin Hfp]. simpl in Hfp.
      apply andb_true_iff in Hfp. destruct Hfp as [Hf1 Hf2].
      apply Z.leb_le in Hf1. apply Z.eqb_eq in Hf2.
      rewrite <- Hf2. apply Hold; auto.
    + left. exists y. split.
      * rewrite firstUpstream_app_none by auto.
        unfold firstUpstream; simpl.
        rewrite (proj2 (Z.leb_le _ _) Hx), Z.eqb_refl. reflexivity.
      * apply set_insert_new. intros e He.
        destruct (Hsub e He). eapply firstUpstream_none; eauto.
Qed.

Lemma upstream_inv_firstn scanned s :
  upstream_inv refLoc scanned s ->
  upstream_inv refLoc scanned (firstn topn s).
Proof.
  intros (Hs & Hsub & Hfirst). split; [|split].
  - now apply sorted_firstn.
  - intros e He. apply Hsub. eapply firstn_in; eauto.
  - intros y Hy Hup. rewrite closer_firstn by auto.
    destruct (Hfirst y Hy Hup) as [(f & Hf & Hin)|Hc].
    + destruct (in_dec entry_eq_dec f (firstn topn s)) as [Hi|Hn].
      * left; eauto.
      * right. pose proof (closer_beyond f s topn Hs Hin Hn) as Hb.
        pose proof (find_some _ _ Hf) as [_ Hfp]. simpl in Hfp.
        apply andb_true_iff in Hfp. destruct Hfp as [_ Hf2].
        apply Z.eqb_eq in Hf2. rewrite Hf2 in Hb. lia.
    + right. lia.
Qed.

Lemma neighbourScan_inv : forall rest scanned st,
  upstream_inv refLoc scanned (anchorsUpstream st) ->
  exists scanned' rest',
    scanned ++ rest = scanned' ++ rest' /\
    upstream_inv refLoc scanned'
      (anchorsUpstream (neighbourScan refLoc rest st)).
Proof.
  induction rest as [|e rest IH]; intros scanned st Hinv; simpl.
  - exists scanned, []; auto.
  - destruct (refEnd e <=? refLoc) eqn:Hup.
    + apply Z.leb_le in Hup.
      pose proof (upstream_inv_insert _ _ e Hup Hinv) as Hins.
      edestruct (IH (scanned ++ [e])) as (p' & r' & Heq & Hres);
        [|exists p', r'; split; [|exact Hres]].
      * simpl. destruct (_ <? _)%nat; auto.
        now apply upstream_inv_firstn.
      * now rewrite <- Heq, <- app_assoc.
    + apply Z.leb_gt in Hup.
      pose proof (upstream_inv_skip _ _ e Hup Hinv) as Hskip.
      destruct (refLoc <? refStart e).
      * destruct (_ =? _)%nat.
        -- exists (scanned ++ [e]), rest; split; auto.
           now rewrite <- app_assoc.
        -- edestruct (IH (scanned ++ [e])) as (p' & r' & Heq & Hres);
             [|exists p', r'; split; [|exact Hres]]; simpl; auto.
           now rewrite <- Heq, <- app_assoc.
      * edestruct (IH (scanned ++ [e])) as (p' & r' & Heq & Hres);
          [|exists p', r'; split; [|exact Hres]]; simpl; auto.
        now rewrite <- Heq, <- app_assoc.
Qed.

Lemma scanAndTrim_inv bucket :
  exists scanned rest,
    bucket = scanned ++ rest /\
    upstream_inv refLoc scanned (anchorsUpstream (scanAndTrim refLoc bucket)) /\
    (length (anchorsUpstream (scanAndTrim refLoc bucket)) <= topn)%nat.
Proof.
  destruct (neighbourScan_inv bucket [] (mkScan [] [] [])) as
    (p & r & Heq & Hinv).
  { split; [constructor|split]; simpl; [tauto|intros x []]. }
  exists p, r. split; [exact Heq|].
  unfold scanAndTrim; cbn [anchorsUpstream].
  destruct (topn <? _)%nat eqn:Hlen.
  - split; [now apply upstream_inv_firstn|]. apply firstn_le_length.
  - apply Nat.ltb_ge in Hlen. split; auto.
Qed.

Lemma sorted_unique s e f :
  byRefEndDesc s -> In e s -> In f s -> refEnd e = refEnd f -> e = f.
Proof.
  induction s as [|a s IH]; [intros _ []|].
  intros Hs He Hf Heq. inversion Hs as [|? ? Hs' Ha]; subst.
  rewrite Forall_forall in Ha.
  destruct He as [->|He], Hf as [->|Hf]; auto.
  - specialize (Ha f Hf); lia.
  - specialize (Ha e He); lia.
Qed.

Lemma sorted_nodup s : byRefEndDesc s -> NoDup (map refEnd s).
Proof.
  induction 1 as [|a s Hs IH Ha]; simpl; constructor; auto.
  rewrite in_map_iff. intros (b & Hb & Hin).
  rewrite Forall_forall in Ha. specialize (Ha b Hin). lia.
Qed.

End UpstreamSet.

(** C10: the upstream candidates are ordered by [refEnd] alone.  Of the
    scanned entries upstream of [refLoc] that share a [refEnd], at most one
    is among the candidates handed to the major-chromosome filter, and it is
    the first of them in scan order. *)
Theorem upstream_first_per_refEnd (refLoc : Z) (bucket : list PwalnEntry) :
  let up := anchorsUpstream (scanAndTrim refLoc bucket) in
  NoDup (map refEnd up) /\
  forall e, In e up -> firstUpstream refLoc (refEnd e) bucket = Some e.
Proof.
  destruct (scanAndTrim_inv refLoc bucket) as (p & r & Heq & Hinv & Hlen).
  destruct Hinv as (Hs & Hsub & Hfirst). cbv zeta. split.
  - now apply sorted_nodup.
  - intros e He. destruct (Hsub e He) as [Hin Hup].
    destruct (Hfirst e Hin Hup) as [(f & Hf & Hfin)|Hc].
    + rewrite Heq. apply firstUpstream_app_some.
      pose proof (find_some _ _ Hf) as [_ Hfp]. simpl in Hfp.
      apply andb_true_iff in Hfp. destruct Hfp as [_ Hf2].
      apply Z.eqb_eq in Hf2.
      assert (Hef : e = f) by (apply (sorted_unique _ e f Hs He Hfin); lia).
      now subst f.
    + pose proof (closer_lt e _ He). lia.
Qed.

(** ** Anchor selection *)

Lemma assert_ok b : assert b = Ok tt -> b = true.
Proof. destruct b; simpl; congruence. Qed.

Lemma bind_ok {A B} (m : outcome A) (f : A -> outcome B) b :
  bind m f = Ok b -> exists a, m = Ok a /\ f a = Ok b.
Proof. destruct m; simpl; try discriminate. eauto. Qed.

(** What the sanity loops establish. *)
Lemma check_inc_chain l : forall loc,
  check_inc loc l = true ->
  Forall (fun e => loc <= qryStart e /\ qryStart e < qryEnd e) l /\
  StronglySorted (fun a b => qryEnd a <= qryStart b) l.
Proof.
  induction l as [|e l IH]; intros loc H; simpl in H.
  - split; constructor.
  - apply andb_true_iff in H. destruct H as [H H3].
    apply andb_true_iff in H. destruct H as [H1 H2].
    apply Z.leb_le in H1. apply Z.ltb_lt in H2.
    destruct (IH _ H3) as [HF HS]. split.
    + constructor; [lia|]. eapply Forall_impl; [|exact HF].
      simpl; intros; lia.
    + constructor; auto. eapply Forall_impl; [|exact HF].
      simpl; intros; lia.
Qed.

Lemma check_dec_strand l : forall loc,
  check_dec loc l = true -> Forall (fun e => qryEnd e < qryStart e) l.
Proof.
  induction l as [|e l IH]; intros loc H; simpl in H; constructor.
  - apply andb_true_iff in H. destruct H as [H _].
    apply andb_true_iff in H. destruct H as [_ H]. now apply Z.ltb_lt.
  - apply andb_true_iff in H. destruct H as [_ H]. eauto.
Qed.

Lemma linked_strongly {A} (lo hi : A -> Z) l :
  Forall (fun e => lo e <= hi e) l ->
  Sorted (fun a b => hi a <= lo b) l ->
  StronglySorted (fun a b => hi a <= lo b) l.
Proof.
  intros HF HS; induction HS as [|a l HS IH Hhd]; constructor.
  - apply IH. now inversion HF.
  - inversion HF as [|? ? _ HF']; subst. specialize (IH HF').
    destruct Hhd as [|b l Hab]; constructor; auto.
    inversion IH as [|? ? _ Hb]; subst. inversion HF'; subst.
    eapply Forall_impl; [|exact Hb]. simpl; intros; lia.
Qed.

Lemma strongly_sorted_before {A} (R : A -> A -> Prop) l1 d l2 u :
  StronglySorted R (l1 ++ d :: l2) -> In u l1 -> R u d.
Proof.
  induction l1 as [|a l1 IH]; simpl; intros HS Hin; [destruct Hin|].
  inversion HS as [|? ? HS' Ha]; subst.
  destruct Hin as [->|Hin]; auto.
  rewrite Forall_forall in Ha. apply Ha. apply in_or_app; simpl; auto.
Qed.


Lemma selects_shift refLoc a rest seen r :
  selects refLoc rest (seen ++ [a]) r -> selects refLoc (a :: rest) seen r.
Proof.
  unfold selects. destruct (closestDownstreamAnchor r) as [d|].
  - intros (H2 & r1 & r2 & -> & H3). split; auto.
    exists (a :: r1), r2. split; auto.
    intros u Hsome. destruct (H3 u Hsome) as [Hin Hle].
    split; auto. rewrite <- app_assoc in Hin. exact Hin.
  - intros H u Hsome. destruct (H u Hsome) as [Hin Hle].
    split; auto. rewrite <- app_assoc in Hin. exact Hin.
Qed.

Lemma closestLoop_spec refLoc : forall rest seen st,
  closestDownstreamAnchor st = None ->
  (forall u, closestUpstreamAnchor st = Some u ->
             In u seen /\ refEnd u <= refLoc) ->
  selects refLoc rest seen (closestLoop refLoc rest st).
Proof.
  induction rest as [|a rest IH]; intros seen st Hd Hu; cbn [closestLoop].
  - unfold selects. rewrite Hd, app_nil_r. exact Hu.
  - assert (Hkeep : forall u, closestUpstreamAnchor st = Some u ->
                      In u (seen ++ [a]) /\ refEnd u <= refLoc).
    { intros u Hsome. destruct (Hu u Hsome). split; auto.
      apply in_or_app; auto. }
    destruct (refEnd a <=? refLoc) eqn:Hup.
    + apply Z.leb_le in Hup. apply selects_shift, IH.
      * destruct (match closestUpstreamAnchor st with
                  | Some u => refEnd u <? refEnd a | None => true end); auto.
      * destruct (match closestUpstreamAnchor st with
                  | Some u => refEnd u <? refEnd a | None => true end); auto.
        intros u [= <-]. split; auto. apply in_or_app; simpl; auto.
    + destruct (refLoc <? refStart a) eqn:Hdown.
      * rewrite Hd. unfold selects; simpl.
        apply Z.ltb_lt in Hdown. split; auto.
        exists [], rest. split; auto. rewrite app_nil_r. exact Hu.
      * destruct (closestOvAlnAnchor st) as [o|];
          apply selects_shift, IH; auto;
          match goal with
          | |- context [if ?c then _ else _] => destruct c; auto
          end.
Qed.

Lemma entry_eqb_refl e : entry_eqb e e = true.
Proof. unfold entry_eqb. now rewrite !Z.eqb_refl. Qed.

(** Distinct flanks returned by the selection. *)
Lemma selectAnchors_flanks refLoc l a :
  selectAnchors refLoc l = Some a ->
  entry_eqb (upstream a) (downstream a) = false ->
  refEnd (upstream a) <= refLoc /\ refLoc < refStart (downstream a) /\
  exists r1 r2, l = r1 ++ downstream a :: r2 /\ In (upstream a) r1.
Proof.
  unfold selectAnchors.
  assert (H : selects refLoc l []
                (closestLoop refLoc l (mkClosest None None None))).
  { apply closestLoop_spec; simpl; [reflexivity | discriminate]. }
  unfold selects in H.
  destruct (closestOvAlnAnchor _) as [o|].
  { intros [= <-]; simpl. now rewrite entry_eqb_refl. }
  destruct (closestUpstreamAnchor _) as [u|]; [|discriminate].
  destruct (closestDownstreamAnchor _) as [d|]; [|discriminate].
  intros [= <-] _; simpl.
  destruct H as (H2 & r1 & r2 & -> & H3).
  destruct (H3 u eq_refl) as [Hin Hle]. simpl in Hin. eauto 8.
Qed.

(** ** Where the candidates come from *)

Lemma neighbourScan_in refLoc : forall rest st e,
  In e (anchorsUpstream (neighbourScan refLoc rest st)
        ++ ovAln (neighbourScan refLoc rest st)
        ++ anchorsDownstream (neighbourScan refLoc rest st)) ->
  In e (anchorsUpstream st ++ ovAln st ++ anchorsDownstream st) \/ In e rest.
Proof.
  induction rest as [|a rest IH]; intros st e; cbn [neighbourScan]; auto.
  assert (Hstep : forall st',
    (forall x, In x (anchorsUpstream st' ++ ovAln st' ++ anchorsDownstream st')
       -> x = a \/
          In x (anchorsUpstream st ++ ovAln st ++ anchorsDownstream st)) ->
    In e (anchorsUpstream (neighbourScan refLoc rest st')
          ++ ovAln (neighbourScan refLoc rest st')
          ++ anchorsDownstream (neighbourScan refLoc rest st')) ->
    In e (anchorsUpstream st ++ ovAln st ++ anchorsDownstream st)
    \/ In e (a :: rest)).
  { intros st' Hst' Hin. destruct (IH st' e Hin) as [H|H]; simpl; auto.
    destruct (Hst' e H) as [->|H']; auto. }
  destruct (refEnd a <=? refLoc).
  - apply Hstep. cbn [anchorsUpstream ovAln anchorsDownstream].
    intros x Hx. rewrite !in_app_iff in *.
    destruct Hx as [Hx|Hx]; [|tauto].
    assert (Hx' : In x (set_insert a (anchorsUpstream st))).
    { destruct (_ <? _)%nat; auto. eapply firstn_in; eauto. }
    destruct (set_insert_in _ _ _ Hx'); auto.
  - destruct (refLoc <? refStart a).
    + assert (Hd : forall x,
        In x (anchorsUpstream st ++ ovAln st ++ (anchorsDownstream st ++ [a]))
        -> x = a \/
           In x (anchorsUpstream st ++ ovAln st ++ anchorsDownstream st)).
      { intros x. rewrite !in_app_iff. simpl. intuition. }
      destruct (_ =? _)%nat.
      * cbn [anchorsUpstream ovAln anchorsDownstream].
        intros Hin. destruct (Hd e Hin) as [->|H]; simpl; auto.
      * apply Hstep. exact Hd.
    + apply Hstep. cbn [anchorsUpstream ovAln anchorsDownstream].
      intros x. rewrite !in_app_iff. simpl. intuition.
Qed.

Lemma scanAndTrim_in refLoc bucket e :
  In e (anchorsUpstream (scanAndTrim refLoc bucket)
        ++ ovAln (scanAndTrim refLoc bucket)
        ++ anchorsDownstream (scanAndTrim refLoc bucket)) ->
  In e bucket.
Proof.
  unfold scanAndTrim; cbn [anchorsUpstream ovAln anchorsDownstream].
  intros H.
  destruct (neighbourScan_in refLoc bucket (mkScan [] [] []) e) as [[]|Hin];
    auto.
  rewrite !in_app_iff in *. destruct H as [H|H]; auto.
  left. destruct (_ <? _)%nat; auto. eapply firstn_in; eauto.
Qed.

Lemma candidates_in `{L : StdLib} `{!StdLibLaws L} refLoc bucket sorted e :
  candidates refLoc bucket = Some sorted -> In e sorted -> In e bucket.
Proof.
  unfold candidates. destruct (_ || _)%bool; [discriminate|].
  intros [= <-] Hin.
  apply (Permutation_in _ (std_sort_perm _)) in Hin.
  apply (scanAndTrim_in refLoc).
  unfold removeEntriesWithNonMajorQryChromosome in Hin.
  rewrite !in_app_iff in *. rewrite !filter_In in Hin. tauto.
Qed.

Lemma getAnchors_some `{L : StdLib} pwaln refCoords a :
  getAnchors pwaln refCoords = Ok (Some a) ->
  exists bucket sorted res,
    lookupZ (chrom refCoords) pwaln = Some bucket /\
    candidates (loc refCoords) bucket = Some sorted /\
    longestSubsequence sorted = Ok res /\
    selectAnchors (loc refCoords) res = Some a.
Proof.
  unfold getAnchors.
  destruct (lookupZ _ _) as [bucket|] eqn:Hb; [|discriminate].
  destruct (candidates _ _) as [sorted|] eqn:Hc; [|discriminate].
  intros H. apply bind_ok in H. destruct H as (res & Hres & H).
  destruct (_ <? _)%nat; [discriminate|].
  injection H as H. exists bucket, sorted, res. repeat split; auto.
Qed.

Lemma longestSubsequence_ok seq res :
  longestSubsequence seq = Ok res ->
  check_inc 0 (inc_of seq) = true /\
  check_dec (two32 - 1) (dec_of seq) = true /\
  res = (if (length (dec_of seq) <=? length (inc_of seq))%nat
         then inc_of seq else dec_of seq).
Proof.
  unfold longestSubsequence. intros H.
  apply bind_ok in H. destruct H as ([] & H1 & H).
  apply bind_ok in H. destruct H as ([] & H2 & H).
  apply assert_ok in H1, H2. injection H as <-. auto.
Qed.

(** The reverse run orders its result by decreasing query position. *)
Lemma dec_of_chain seq :
  Forall qry_in_int seq ->
  check_dec (two32 - 1) (dec_of seq) = true ->
  StronglySorted (fun a b => qryStart b <= qryEnd a) (dec_of seq).
Proof.
  intros Hr Hc. apply check_dec_strand in Hc.
  destruct (LisFacts.helper_ok seq rev_filter rev_lo rev_hi) as [HF HL].
  fold (dec_of seq) in HF, HL.
  assert (HP : Forall (fun e => qry_in_int e /\ qryEnd e < qryStart e)
                 (dec_of seq)).
  { rewrite Forall_forall in *. intros e He. split; auto.
    apply Hr. now destruct (HF e He). }
  assert (HS : Sorted (fun a b => - qryEnd a <= - qryStart b) (dec_of seq)).
  { refine (Sorted_weaken _ _ _ _ _ HP HL). simpl.
    intros a b [[_ Ha] _] [[Hb _] _]. unfold rev_hi, rev_lo.
    now rewrite !neg_int_small by auto. }
  apply linked_strongly in HS.
  - eapply StronglySorted_ind with (P := fun l =>
      StronglySorted (fun a b => qryStart b <= qryEnd a) l) in HS; auto.
    + constructor.
    + intros a l _ IH Ha. constructor; auto.
      eapply Forall_impl; [|exact Ha]. simpl; intros; lia.
  - eapply Forall_impl; [|exact HP]. simpl; intros; lia.
Qed.

(** ** Single-hop projection between distinct flanks *)

Lemma caseB_asserts `{L : StdLib} `{!StdLibLaws L} pwaln bucket refCoords a :
  lookupZ (chrom refCoords) pwaln = Some bucket ->
  Forall qry_in_int bucket ->
  getAnchors pwaln refCoords = Ok (Some a) ->
  entry_eqb (upstream a) (downstream a) = false ->
  refEnd (upstream a) <= loc refCoords < refStart (downstream a) /\
  qryUpStartOf a < qryUpEndOf a /\
  qryUpEndOf a <= qryDownStartOf a < qryDownEndOf a.
Proof.
  intros Hb Hr Hget Hneq.
  destruct (getAnchors_some _ _ _ Hget) as
    (bucket' & sorted & res & Hb' & Hcand & Hlis & Hsel).
  rewrite Hb in Hb'. injection Hb' as <-.
  destruct (selectAnchors_flanks _ _ _ Hsel Hneq) as
    (Hup & Hdown & r1 & r2 & Hres & Hin).
  destruct (longestSubsequence_ok _ _ Hlis) as (Hinc & Hdec & Hpick).
  assert (Hsr : Forall qry_in_int sorted).
  { rewrite Forall_forall in *. intros e He. apply Hr.
    eapply candidates_in; eauto. }
  split; [lia|].
  unfold qryUpStartOf, qryUpEndOf, qryDownStartOf, qryDownEndOf.
  assert (Hu : In (upstream a) res).
  { rewrite Hres. apply in_or_app; auto. }
  assert (Hd : In (downstream a) res).
  { rewrite Hres. apply in_or_app; simpl; auto. }
  destruct (length (dec_of sorted) <=? length (inc_of sorted))%nat.
  - (* forward strand *)
    destruct (check_inc_chain _ _ Hinc) as [HF HS]. rewrite <- Hpick in HF, HS.
    rewrite Forall_forall in HF.
    pose proof (HF _ Hu) as [_ Hu']. pose proof (HF _ Hd) as [_ Hd'].
    rewrite Hres in HS.
    pose proof (strongly_sorted_before _ _ _ _ _ HS Hin) as Hlink.
    simpl in Hlink.
    unfold isQryReversed.
    replace (qryEnd (upstream a) <? qryStart (upstream a)) with false
      by (symmetry; apply Z.ltb_ge; lia).
    simpl. lia.
  - (* reverse strand *)
    pose proof (check_dec_strand _ _ Hdec) as HF.
    pose proof (dec_of_chain _ Hsr Hdec) as HS.
    rewrite <- Hpick in HF, HS. rewrite Forall_forall in HF.
    pose proof (HF _ Hu) as Hu'. pose proof (HF _ Hd) as Hd'.
    rewrite Hres in HS.
    pose proof (strongly_sorted_before _ _ _ _ _ HS Hin) as Hlink.
    simpl in Hlink.
    unfold isQryReversed.
    replace (qryEnd (upstream a) <? qryStart (upstream a)) with true
      by (symmetry; apply Z.ltb_lt; lia).
    simpl. lia.
Qed.

(** C4 (amended): between distinct flanks the result is the truncation to
    [uint32_t] of [qry_left + frac * (qry_right - qry_left)] evaluated in
    binary64, with [ref_left = upstream.ref_end],
    [ref_right = downstream.ref_start] and the query bounds taken from the
    upstream anchor on the forward strand and from the swapped fields on
    the reverse strand; [ref_left <= loc < ref_right] and
    [qry_up_start < qry_up_end] hold there. *)
Theorem caseB_projection `{L : StdLib} `{!StdLibLaws L} `{SA : ScoreArith}
  (ipp : Ipp) (refSpecies qrySpecies : string) (refCoords : Coords)
  (scalingFactor : score) bySpecies pwaln bucket genomeSize (a : Anchors) :
  lookupS refSpecies (pwalns_ ipp) = Some bySpecies ->
  lookupS qrySpecies bySpecies = Some pwaln ->
  lookupZ (chrom refCoords) pwaln = Some bucket ->
  Forall qry_in_int bucket ->
  lookupS refSpecies (genomeSizes_ ipp) = Some genomeSize ->
  getAnchors pwaln refCoords = Ok (Some a) ->
  entry_eqb (upstream a) (downstream a) = false ->
  let refLeft := refEnd (upstream a) in
  let refRight := refStart (downstream a) in
  refLeft <= loc refCoords < refRight /\
  qryUpStartOf a < qryUpEndOf a /\
  projectGenomicLocation ipp refSpecies qrySpecies refCoords scalingFactor
  = Ok (Some (mkGPR
         (projectionScore (loc refCoords) refLeft refRight genomeSize
            scalingFactor)
         (mkCoords (qryChrom (upstream a))
            (interpolate (loc refCoords) refLeft refRight
               (qryUpEndOf a) (qryDownStartOf a)))
         a)).
Proof.
  intros H1 H2 Hb Hr Hg Hget Hneq.
  destruct (caseB_asserts _ _ _ _ Hb Hr Hget Hneq) as (Href & Hq & Hq').
  cbv zeta. split; [|split]; auto.
  unfold projectGenomicLocation. rewrite H1, H2, Hget. simpl bind.
  unfold projectWithAnchors.
  rewrite (proj2 (Z.ltb_lt _ _) Hq). simpl bind.
  rewrite Hneq.
  replace ((qryUpEndOf a <=? qryDownStartOf a)
           && (qryDownStartOf a <? qryDownEndOf a)) with true.
  2:{ symmetry. apply andb_true_iff. split;
      [apply Z.leb_le | apply Z.ltb_lt]; lia. }
  simpl bind. rewrite Hg. simpl bind.
  replace ((refEnd (upstream a) <=? loc refCoords)
           && (loc refCoords <? refStart (downstream a))) with true.
  2:{ symmetry. apply andb_true_iff. split;
      [apply Z.leb_le | apply Z.ltb_lt]; lia. }
  reflexivity.
Qed.

(** ** The library instance *)

Lemma compLess_spec a b :
  compLessRefStart a b = true <->
  refStart a < refStart b \/ (refStart a = refStart b /\ refEnd a < refEnd b).
Proof.
  unfold compLessRefStart.
  rewrite orb_true_iff, andb_true_iff, !Z.ltb_lt, Z.eqb_eq. tauto.
Qed.

Lemma compLess_false a b :
  compLessRefStart a b = false <->
  refStart b < refStart a \/ (refStart a = refStart b /\ refEnd b <= refEnd a).
Proof.
  rewrite <- not_true_iff_false, compLess_spec. lia.
Qed.

Lemma sort_insert_perm e l : Permutation (sort_insert e l) (e :: l).
Proof.
  induction l as [|x l IH]; simpl; auto.
  destruct (compLessRefStart e x); auto.
  rewrite IH. apply perm_swap.
Qed.

Lemma insertion_sort_perm l : Permutation (insertion_sort l) l.
Proof.
  induction l as [|x l IH]; simpl; auto.
  rewrite sort_insert_perm. now constructor.
Qed.

Lemma sort_insert_sorted e l :
  StronglySorted (fun a b => compLessRefStart b a = false) l ->
  StronglySorted (fun a b => compLessRefStart b a = false) (sort_insert e l).
Proof.
  induction 1 as [|x l Hs IH Hx]; simpl.
  - repeat constructor.
  - destruct (compLessRefStart e x) eqn:Hex.
    + constructor; [now constructor|].
      apply compLess_spec in Hex.
      constructor; [apply compLess_false; lia|].
      eapply Forall_impl; [|exact Hx]. simpl; intros y Hy.
      apply compLess_false in Hy. apply compLess_false. lia.
    + constructor; auto.
      rewrite Forall_forall in *. intros y Hy.
      apply (Permutation_in _ (sort_insert_perm e l)) in Hy.
      destruct Hy as [<-|Hy]; auto.
Qed.

Lemma insertion_sort_sorted l :
  StronglySorted (fun a b => compLessRefStart b a = false) (insertion_sort l).
Proof.
  induction l as [|x l IH]; simpl; [constructor|].
  now apply sort_insert_sorted.
Qed.

#[export] Instance simpleLib_laws : StdLibLaws simpleLib.
Proof.
  constructor; simpl.
  - apply insertion_sort_perm.
  - apply insertion_sort_sorted.
  - intros l. apply Permutation_refl.
Qed.

Lemma caseB_projection_witness :
  1000 <= 1057 < 1100 /\
  qryUpStartOf exAnchors < qryUpEndOf exAnchors /\
  projectGenomicLocation exIpp "A" "B" (mkCoords 0 1057)
    (getScalingFactor exIpp 100000)
  = Ok (Some (mkGPR
         (projectionScore 1057 1000 1100 100000 (getScalingFactor exIpp 100000))
         (mkCoords 0 (interpolate 1057 1000 1100 100 700))
         exAnchors)).
Proof.
  apply (caseB_projection (L := simpleLib) (SA := dyadicScores)
           exIpp "A" "B" (mkCoords 0 1057) (getScalingFactor exIpp 100000)
           [("B"%string, exPwaln)] exPwaln exBucket 100000 exAnchors).
  - reflexivity.
  - reflexivity.
  - reflexivity.
  - unfold exBucket, qry_in_int, two31; repeat constructor; simpl; lia.
  - reflexivity.
  - vm_compute; reflexivity.
  - reflexivity.
Defined.

(** ** The path search *)

Section ScoreFacts.
Context {SA : ScoreArith} {SL : ScoreLaws SA}.

Lemma unit_one : in_unit sone.
Proof. split; [apply szero_le_sone | apply sone_le_sone]. Qed.

Lemma sle_refl a : in_unit a -> sle a a.
Proof. intros Ha. unfold sle. destruct (sleb_total a a Ha Ha); auto. Qed.

Lemma sle_trans a b c : sle a b -> sle b c -> sle a c.
Proof. apply sleb_trans. Qed.

Lemma sleb_false a b : in_unit a -> in_unit b -> sleb a b = false -> sle b a.
Proof.
  intros Ha Hb H. destruct (sleb_total a b Ha Hb); [congruence | auto].
Qed.

Lemma sltb_false a b : in_unit a -> in_unit b -> sltb a b = false -> sle b a.
Proof.
  intros Ha Hb. rewrite sltb_def by auto. intros H.
  apply negb_false_iff in H. exact H.
Qed.

Lemma sltb_true a b : in_unit a -> in_unit b -> sltb a b = true -> sle a b.
Proof.
  intros Ha Hb. rewrite sltb_def by auto. intros H.
  apply negb_true_iff in H. now apply sleb_false.
Qed.

Lemma sltb_irrefl a : in_unit a -> sltb a a = false.
Proof.
  intros Ha. rewrite sltb_def by auto. apply negb_false_iff.
  now apply sle_refl.
Qed.

Lemma sle_sltb_trans a b c :
  in_unit a -> in_unit b -> in_unit c ->
  sle a b -> sltb b c = true -> sltb a c = true.
Proof.
  intros Ha Hb Hc. rewrite !sltb_def by auto. intros Hab Hbc.
  apply negb_true_iff in Hbc.
  apply negb_true_iff. destruct (sleb c a) eqn:Hca; auto.
  rewrite (sleb_trans _ _ _ Hca Hab) in Hbc. discriminate.
Qed.

Lemma product_unit a b : in_unit a -> in_unit b -> in_unit (smul a b).
Proof.
  intros Ha Hb. split.
  - now apply smul_nonneg.
  - apply (sle_trans _ a); [now apply smul_le | apply Ha].
Qed.

End ScoreFacts.

Section MapFacts.
Context {A : Type}.

Lemma lookupS_assignS_same k (v : A) m : lookupS k (assignS k v m) = Some v.
Proof.
  induction m as [|[k' v'] m IH]; simpl.
  - now rewrite String.eqb_refl.
  - destruct (String.eqb k' k) eqn:H; simpl; rewrite H; auto.
Qed.

Lemma lookupS_assignS_other k k' (v : A) m :
  k' <> k -> lookupS k' (assignS k v m) = lookupS k' m.
Proof.
  intros Hne. induction m as [|[k0 v0] m IH]; simpl.
  - destruct (String.eqb k k') eqn:H; auto.
    apply String.eqb_eq in H. congruence.
  - destruct (String.eqb k0 k) eqn:H; simpl.
    + apply String.eqb_eq in H. subst k0.
      destruct (String.eqb k k') eqn:H'; auto.
      apply String.eqb_eq in H'. congruence.
    + now rewrite IH.
Qed.

Lemma lookupS_in k (v : A) m : lookupS k m = Some v -> In k (map fst m).
Proof.
  induction m as [|[k' v'] m IH]; simpl; [discriminate|].
  destruct (String.eqb k' k) eqn:H; auto.
  apply String.eqb_eq in H. auto.
Qed.

End MapFacts.

Section QueueFacts.
Context {SA : ScoreArith} {SL : ScoreLaws SA}.

Lemma orange_ltb_false a b :
  in_unit (o_score a) -> in_unit (o_score b) ->
  orange_ltb a b = false -> sle (o_score b) (o_score a).
Proof.
  unfold orange_ltb. intros Ha Hb H. apply orb_false_iff in H.
  destruct H as [H _]. now apply sltb_false.
Qed.

Lemma orange_ltb_true a b :
  in_unit (o_score a) -> in_unit (o_score b) ->
  orange_ltb a b = true -> sle (o_score a) (o_score b).
Proof.
  unfold orange_ltb. intros Ha Hb H. apply orb_true_iff in H.
  destruct H as [H|H].
  - now apply sltb_true.
  - apply andb_true_iff in H. destruct H as [H _].
    apply negb_true_iff in H. now apply sltb_false.
Qed.

(** [top]/[pop] hand out an element of the queue and keep the rest. *)
Lemma pq_pop_perm q : forall b rest,
  pq_pop q = Some (b, rest) -> Permutation q (b :: rest).
Proof.
  induction q as [|e q IH]; intros b rest; simpl; [discriminate|].
  destruct (pq_pop q) as [[b' rest']|] eqn:Hq.
  - pose proof (IH _ _ eq_refl) as Hperm.
    destruct (orange_ltb e b'); intros [= <- <-].
    + rewrite Hperm. apply perm_swap.
    + now constructor.
  - intros [= <- <-]. destruct q; [|simpl in Hq; destruct (pq_pop q);
      [destruct p; destruct (orange_ltb _ _)|]; discriminate].
    auto.
Qed.

(** Among scores between 0 and 1 the element handed out is one of greatest
    score. *)
Lemma pq_pop_spec q : forall b rest,
  (forall e, In e q -> in_unit (o_score e)) ->
  pq_pop q = Some (b, rest) ->
  Permutation q (b :: rest) /\
  forall x, In x rest -> sle (o_score x) (o_score b).
Proof.
  intros b rest Hu Hpop. split; [now apply pq_pop_perm|].
  revert b rest Hu Hpop.
  induction q as [|e q IH]; intros b rest Hu; simpl; [discriminate|].
  destruct (pq_pop q) as [[b' rest']|] eqn:Hq.
  - assert (Hu' : forall x, In x q -> in_unit (o_score x))
      by (intros x Hx; apply Hu; now right).
    pose proof (IH _ _ Hu' eq_refl) as Hmax.
    pose proof (pq_pop_perm _ _ _ Hq) as Hperm.
    assert (Hb' : in_unit (o_score b')).
    { apply Hu'. apply (Permutation_in _ (Permutation_sym Hperm)). now left. }
    assert (He : in_unit (o_score e)) by (apply Hu; now left).
    destruct (orange_ltb e b') eqn:Hlt; intros [= <- <-].
    + intros x [<-|Hx]; auto. now apply orange_ltb_true.
    + intros x [<-|Hx].
      * now apply orange_ltb_false.
      * eapply sle_trans; [apply Hmax; auto|]. now apply orange_ltb_false.
  - intros [= <- <-]. destruct q; [|simpl in Hq; destruct (pq_pop q);
      [destruct p; destruct (orange_ltb _ _)|]; discriminate].
    intros x [].
Qed.

Lemma pq_pop_none q : pq_pop q = None -> q = [].
Proof.
  destruct q as [|e q]; auto. simpl.
  destruct (pq_pop q) as [[b rest]|]; [destruct (orange_ltb e b)|];
    discriminate.
Qed.

End QueueFacts.

Section SearchFacts.
Context {L : StdLib} {SA : ScoreArith} {SL : ScoreLaws SA}.
Variable ipp : Ipp.
Variables refSpecies qrySpecies : string.
Variable scalingFactor : score.
Hypothesis Hsized : sized_store ipp.
Hypothesis Hscaling : scaling_of ipp scalingFactor.

Lemma projectionScore_unit refLoc leftBound rightBound genomeSize :
  0 < genomeSize < two32 ->
  in_unit (projectionScore refLoc leftBound rightBound genomeSize
             scalingFactor).
Proof.
  intros Hg. destruct Hscaling as (sp & g0 & Hg0 & ->).
  destruct Hsized as [Hh Hsizes].
  unfold projectionScore, getScalingFactor. apply decay_range; auto.
  - assert (Ha : 0 <= u32 (refLoc - leftBound) < two32)
      by (apply Z.mod_pos_bound; reflexivity).
    assert (Hb : 0 <= u32 (rightBound - refLoc) < two32)
      by (apply Z.mod_pos_bound; reflexivity).
    lia.
  - now apply (Hsizes sp).
Qed.

Lemma projectWithAnchors_range sp c a r :
  projectWithAnchors ipp sp c scalingFactor a = Ok r ->
  in_unit (gpr_score r).
Proof.
  unfold projectWithAnchors. intros H.
  apply bind_ok in H. destruct H as (u1 & _ & H).
  apply bind_ok in H. destruct H as (bounds & Hb & H).
  destruct bounds as [[[[rl rr] ql] qr] sc].
  apply bind_ok in H. destruct H as (u2 & _ & H). injection H as <-. simpl.
  destruct (entry_eqb _ _).
  - injection Hb as _ _ _ _ <-. apply unit_one.
  - apply bind_ok in Hb. destruct Hb as (u3 & _ & Hb).
    destruct (lookupS sp (genomeSizes_ ipp)) as [g|] eqn:Hg; [|discriminate].
    injection Hb as _ _ _ _ <-. apply projectionScore_unit.
    now apply (proj2 Hsized sp).
Qed.

Lemma project_range sp1 sp2 c p :
  projectGenomicLocation ipp sp1 sp2 c scalingFactor = Ok (Some p) ->
  in_unit (gpr_score p).
Proof.
  unfold projectGenomicLocation.
  destruct (lookupS sp1 _); [|discriminate].
  destruct (lookupS sp2 _); [|discriminate].
  intros H. apply bind_ok in H. destruct H as ([a|] & Ha & H); [|discriminate].
  apply bind_ok in H. destruct H as (r & Hr & H). injection H as <-.
  eapply projectWithAnchors_range; eauto.
Qed.

(** What one [relax] does to the recorded paths and the queue. *)
Lemma relax_cases current st nxt st' :
  relax ipp refSpecies qrySpecies scalingFactor current st nxt = Ok st' ->
  pops st' = pops st /\
  ((shortestPath st' = shortestPath st /\ orange st' = orange st) \/
   exists p,
     in_unit (gpr_score p) /\
     (forall x, lookupS nxt (shortestPath st) = Some x ->
        sleb (o_score current) (spe_score x) = false /\
        sleb (smul (o_score current) (gpr_score p)) (spe_score x) = false) /\
     shortestPath st'
     = assignS nxt
         (mkSPE (smul (o_score current) (gpr_score p)) (o_species current)
            (nextCoords p) (gpr_anchors p))
         (shortestPath st) /\
     orange st'
     = mkOrange (smul (o_score current) (gpr_score p)) nxt (nextCoords p)
       :: orange st).
Proof.
  unfold relax.
  destruct (match lookupS nxt (shortestPath st) with
            | Some e => sleb (o_score current) (spe_score e)
            | None => false end) eqn:Hfirst.
  { intros [= <-]. auto. }
  intros H. apply bind_ok in H. destruct H as ([p|] & Hp & H).
  2:{ injection H as <-. auto. }
  destruct (match lookupS nxt (shortestPath st) with
            | Some e => sleb (smul (o_score current) (gpr_score p)) (spe_score e)
            | None => false end) eqn:Hsecond.
  { injection H as <-. simpl. auto. }
  injection H as <-. simpl. split; auto. right. exists p.
  split; [exact (project_range _ _ _ _ Hp)|]. split; [|split; reflexivity].
  intros x Hx. rewrite Hx in Hfirst, Hsecond. auto.
Qed.

End SearchFacts.

Lemma NoDup_map_filter_and {A B} (f : A -> B) (p q : A -> bool) l :
  NoDup (map f (List.filter p l)) ->
  NoDup (map f (List.filter (fun e => p e && q e) l)).
Proof.
  induction l as [|a l IH]; simpl; auto.
  destruct (p a); simpl; auto.
  intros H. inversion H as [|? ? Hn Hd]; subst.
  destruct (q a); simpl; auto.
  constructor; auto.
  intros Hin. apply Hn. rewrite in_map_iff in *.
  destruct Hin as (x & Hx & Hin). exists x. split; auto.
  rewrite filter_In in *. destruct Hin as [Hin Hpq].
  apply andb_true_iff in Hpq. tauto.
Qed.

Lemma Permutation_filter' {A} (p : A -> bool) l l' :
  Permutation l l' -> Permutation (List.filter p l) (List.filter p l').
Proof.
  induction 1 as [|x l l' H IH|x y l|l l' l'' H1 IH1 H2 IH2]; simpl; auto.
  - destruct (p x); auto.
  - destruct (p x), (p y); auto. apply perm_swap.
  - now rewrite IH1.
Qed.

Lemma filter_ext_in' {A} (p q : A -> bool) l :
  (forall x, In x l -> p x = q x) -> List.filter p l = List.filter q l.
Proof.
  induction l as [|a l IH]; simpl; auto. intros H.
  rewrite (H a) by auto. rewrite IH; auto.
Qed.

Lemma nodup_cons_length {A} (x : A) l s :
  NoDup l -> incl l s -> In x s -> ~ In x l -> (length l + 1 <= length s)%nat.
Proof.
  intros Hnd Hincl Hx Hnx.
  assert (H : NoDup (x :: l)) by (constructor; auto).
  pose proof (NoDup_incl_length H (l' := s)) as Hlen. simpl in Hlen.
  rewrite Nat.add_1_r. apply Hlen.
  intros y [<-|Hy]; auto.
Qed.

Section Dijkstra.
Context {L : StdLib} {SA : ScoreArith} {SL : ScoreLaws SA}.
Variable ipp : Ipp.
Variables refSpecies qrySpecies : string.
Variable scalingFactor : score.
Variable species : list string.
Hypothesis Hsized : sized_store ipp.
Hypothesis Hscaling : scaling_of ipp scalingFactor.

(** Dropping queue entries keeps the invariant. *)
Lemma dijkstra_inv_pop done sp q b rest :
  Permutation q (b :: rest) ->
  dijkstra_inv species done sp q ->
  dijkstra_inv species done sp rest.
Proof.
  intros Hperm [H1 H2 Hrec H3 H4 H5 H6 H7 H8].
  assert (Hin : forall e, In e rest -> In e q).
  { intros e He. apply (Permutation_in _ (Permutation_sym Hperm)).
    simpl; auto. }
  constructor; auto.
  - intros y Hy. destruct (H3 y Hy) as (x & Hx & Hle). eauto.
  - intros y e Hy He. apply H4; auto.
  - assert (Hp : Permutation
        (map o_species (List.filter (fun e => negb (staleb sp e)) q))
        (map o_species (List.filter (fun e => negb (staleb sp e)) (b :: rest)))).
    { apply Permutation_map. now apply Permutation_filter'. }
    apply (Permutation_NoDup Hp) in H5. simpl in H5.
    destruct (negb (staleb sp b)); auto. now inversion H5.
Qed.

Lemma relaxing_start done sp q current rest :
  pq_pop q = Some (current, rest) ->
  staleb sp current = false ->
  dijkstra_inv species done sp q ->
  ~ In (o_species current) done /\
  In (o_species current) species /\
  relaxing species (o_species current :: done) (o_score current) sp rest.
Proof.
  intros Hpop Hfresh Hinv.
  destruct (pq_pop_spec _ _ _ (di_queued _ _ _ _ Hinv) Hpop) as [Hperm Hmax].
  pose proof (dijkstra_inv_pop _ _ _ _ _ Hperm Hinv) as Hrest.
  destruct Hinv as [H1 H2 Hrec H3 H4 H5 H6 H7 H8].
  assert (Hcur : In current q).
  { apply (Permutation_in _ (Permutation_sym Hperm)). simpl; auto. }
  assert (Hnot : ~ In (o_species current) done).
  { intros Hd. rewrite (H4 _ _ Hd Hcur eq_refl) in Hfresh. discriminate. }
  destruct (H1 _ Hcur) as (x & Hx & Hle).
  split; [auto|]. split; [auto|].
  destruct Hrest as [R1 R2 Rrec R3 R4 R5 R6 R7 R8].
  split; [constructor; auto|split; auto].
  - intros y [<-|Hy]; auto.
    exists x. split; auto. intros e He.
    eapply sle_trans; [apply Hmax; exact He | exact Hle].
  - intros y e [<-|Hy] He Hsp; [|eapply R4; eauto].
    destruct (staleb sp e) eqn:Hst; auto. exfalso.
    assert (Hp : Permutation
        (map o_species (List.filter (fun e => negb (staleb sp e)) q))
        (map o_species (List.filter (fun e => negb (staleb sp e))
                          (current :: rest)))).
    { apply Permutation_map. now apply Permutation_filter'. }
    apply (Permutation_NoDup Hp) in H5. simpl in H5.
    rewrite Hfresh in H5. simpl in H5. inversion H5 as [|? ? Hn _]; subst.
    apply Hn. rewrite in_map_iff. exists e. split; auto.
    rewrite filter_In, Hst. auto.
  - constructor; auto.
  - intros y [<-|Hy]; auto.
  - intros y [<-|Hy]; eauto.
    destruct (H3 y Hy) as (xy & Hxy & Hall). eauto.
Qed.

Lemma relaxing_push done c sp q nxt p pc pa prevSp :
  relaxing species done c sp q ->
  In nxt species ->
  in_unit (gpr_score p) ->
  (forall x, lookupS nxt sp = Some x ->
     sleb c (spe_score x) = false /\
     sleb (smul c (gpr_score p)) (spe_score x) = false) ->
  ~ In nxt done /\
  relaxing species done c
    (assignS nxt (mkSPE (smul c (gpr_score p)) prevSp pc pa) sp)
    (mkOrange (smul c (gpr_score p)) nxt pc :: q).
Proof.
  intros ([H1 H2 Hrec H3 H4 H5 H6 H7 H8] & Hc & Hdone) Hnxt Hp Hfar.
  pose proof (product_unit _ _ Hc Hp) as Hnsu.
  assert (Hns : sle (smul c (gpr_score p)) c) by (apply smul_le; auto).
  set (ns := smul c (gpr_score p)) in *.
  assert (Hnot : ~ In nxt done).
  { intros Hd. destruct (Hdone _ Hd) as (x & Hx & Hle).
    destruct (Hfar x Hx) as [Hf _]. unfold sle in Hle. congruence. }
  assert (Hother : forall y, y <> nxt ->
            lookupS y (assignS nxt (mkSPE ns prevSp pc pa) sp) = lookupS y sp).
  { intros y Hy. now apply lookupS_assignS_other. }
  assert (Hold : forall e, In e q -> o_species e = nxt -> sltb (o_score e) ns = true).
  { intros e He Hsp. destruct (H1 e He) as (x & Hx & Hle). rewrite Hsp in Hx.
    destruct (Hfar x Hx) as [_ Hf].
    pose proof (Hrec _ _ Hx) as Hxu.
    apply (sle_sltb_trans _ (spe_score x)); auto.
    rewrite sltb_def by auto. rewrite Hf. reflexivity. }
  split; [exact Hnot|]. split; [constructor|split]; auto.
  - intros e [<-|He]; simpl.
    + rewrite lookupS_assignS_same. eexists; split; eauto. now apply sle_refl.
    + destruct (string_dec (o_species e) nxt) as [Heq|Hne].
      * rewrite Heq, lookupS_assignS_same. eexists; split; eauto. simpl.
        apply sltb_true; auto.
      * rewrite Hother by auto. auto.
  - intros e [<-|He]; simpl; auto.
  - intros y x. destruct (string_dec y nxt) as [->|Hne].
    + rewrite lookupS_assignS_same. intros [= <-]. exact Hnsu.
    + rewrite Hother by auto. apply Hrec.
  - intros y Hy. assert (y <> nxt) by congruence.
    rewrite Hother by auto.
    destruct (H3 y Hy) as (x & Hx & Hall). exists x. split; auto.
    intros e [<-|He]; simpl; auto.
    destruct (Hdone y Hy) as (x' & Hx' & Hle). rewrite Hx in Hx'.
    injection Hx' as <-. eapply sle_trans; eauto.
  - intros y e Hy [<-|He] Hsp; simpl in *; [congruence|].
    assert (y <> nxt) by congruence.
    unfold staleb. rewrite Hsp, Hother by auto.
    specialize (H4 y e Hy He Hsp). unfold staleb in H4. now rewrite Hsp in H4.
  - simpl. unfold staleb at 1. simpl. rewrite lookupS_assignS_same. simpl.
    rewrite sltb_irrefl by auto. simpl.
    rewrite (filter_ext_in'
               (fun e => negb (staleb (assignS nxt (mkSPE ns prevSp pc pa) sp) e))
               (fun e => negb (staleb sp e)
                         && negb (String.eqb (o_species e) nxt))).
    + constructor.
      * rewrite in_map_iff. intros (e & He & Hin).
        rewrite filter_In in Hin. destruct Hin as [_ Hin].
        apply andb_true_iff in Hin. destruct Hin as [_ Hin].
        apply negb_true_iff, String.eqb_neq in Hin. congruence.
      * now apply NoDup_map_filter_and.
    + intros e He. unfold staleb.
      destruct (String.eqb (o_species e) nxt) eqn:Heq.
      * apply String.eqb_eq in Heq.
        rewrite Heq, lookupS_assignS_same. simpl.
        rewrite (Hold e He Heq). simpl. now rewrite andb_false_r.
      * apply String.eqb_neq in Heq. rewrite Hother by auto.
        simpl. now rewrite andb_true_r.
  - intros e [<-|He]; simpl; auto.
  - intros y Hy. assert (y <> nxt) by congruence. rewrite Hother by auto. auto.
Qed.

(** One [relax] keeps the state and queues at most one entry, none for a
    species already done. *)
Lemma relax_relaxing done current st nxt st' :
  relaxing species done (o_score current) (shortestPath st) (orange st) ->
  In nxt species ->
  relax ipp refSpecies qrySpecies scalingFactor current st nxt = Ok st' ->
  relaxing species done (o_score current) (shortestPath st') (orange st') /\
  pops st' = pops st /\
  (length (orange st')
   <= length (orange st) + (if in_dec string_dec nxt done then 0 else 1))%nat.
Proof.
  intros Hrel Hnxt Hr.
  destruct (relax_cases ipp refSpecies qrySpecies scalingFactor Hsized
              Hscaling _ _ _ _ Hr) as
    [Hpops [[-> ->]|(p & Hp & Hfar & -> & ->)]].
  - split; [exact Hrel|]. split; [exact Hpops|].
    destruct (in_dec string_dec nxt done); lia.
  - destruct (relaxing_push _ _ _ _ _ p (nextCoords p) (gpr_anchors p)
                (o_species current) Hrel Hnxt Hp Hfar) as [Hnot Hrel'].
    split; [exact Hrel'|]. split; [exact Hpops|].
    simpl. destruct (in_dec string_dec nxt done); [tauto | lia].
Qed.

Lemma relaxAll_relaxing done current : forall nxts st st',
  relaxing species done (o_score current) (shortestPath st) (orange st) ->
  incl nxts species ->
  relaxAll ipp refSpecies qrySpecies scalingFactor current st nxts = Ok st' ->
  relaxing species done (o_score current) (shortestPath st') (orange st') /\
  pops st' = pops st /\
  (length (orange st')
   <= length (orange st)
      + length (List.filter
                  (fun n => if in_dec string_dec n done then false else true)
                  nxts))%nat.
Proof.
  induction nxts as [|nxt nxts IH]; intros st st' Hrel Hincl; simpl.
  - intros [= <-]. split; [exact Hrel|]. split; [reflexivity|]. lia.
  - intros H. apply bind_ok in H. destruct H as (st1 & H1 & H).
    destruct (relax_relaxing _ _ _ _ _ Hrel (Hincl nxt (or_introl eq_refl)) H1)
      as (Hrel1 & Hp1 & Hlen1).
    destruct (IH st1 st' Hrel1 (fun x Hx => Hincl x (or_intror Hx)) H)
      as (Hrel' & Hp' & Hlen').
    split; [exact Hrel'|]. split; [congruence|].
    destruct (in_dec string_dec nxt done); simpl in *; lia.
Qed.

End Dijkstra.

(** ** No call of the projection consumes fuel *)

Lemma bind_fuel {A B} (m : outcome A) (f : A -> outcome B) :
  m <> OutOfFuel -> (forall a, f a <> OutOfFuel) -> bind m f <> OutOfFuel.
Proof. destruct m; simpl; auto; intros; discriminate. Qed.

Lemma assert_fuel b : assert b <> OutOfFuel.
Proof. destruct b; discriminate. Qed.

Lemma longestSubsequence_fuel seq : longestSubsequence seq <> OutOfFuel.
Proof.
  unfold longestSubsequence.
  apply bind_fuel; [apply assert_fuel|intros _].
  apply bind_fuel; [apply assert_fuel|intros _]. discriminate.
Qed.

Lemma getAnchors_fuel `{StdLib} pwaln c : getAnchors pwaln c <> OutOfFuel.
Proof.
  unfold getAnchors. destruct (lookupZ _ _); [|discriminate].
  destruct (candidates _ _); [|discriminate].
  apply bind_fuel; [apply longestSubsequence_fuel|].
  intros a. destruct (_ <? _)%nat; discriminate.
Qed.

Lemma projectWithAnchors_fuel `{ScoreArith} ipp sp c s a :
  projectWithAnchors ipp sp c s a <> OutOfFuel.
Proof.
  unfold projectWithAnchors.
  apply bind_fuel; [apply assert_fuel|intros _].
  apply bind_fuel.
  - destruct (entry_eqb _ _); [discriminate|].
    apply bind_fuel; [apply assert_fuel|intros _].
    destruct (lookupS _ _); discriminate.
  - intros [[[[rl rr] ql] qr] sc].
    apply bind_fuel; [apply assert_fuel|intros _]. discriminate.
Qed.

Lemma projectGenomicLocation_fuel `{StdLib} `{ScoreArith} ipp a b c s :
  projectGenomicLocation ipp a b c s <> OutOfFuel.
Proof.
  unfold projectGenomicLocation.
  destruct (lookupS a _); [|discriminate].
  destruct (lookupS b _); [|discriminate].
  apply bind_fuel; [apply getAnchors_fuel|].
  intros [x|]; [|discriminate].
  apply bind_fuel; [apply projectWithAnchors_fuel|]. discriminate.
Qed.

Lemma relax_fuel `{StdLib} `{ScoreArith} ipp r q s cur st nxt :
  relax ipp r q s cur st nxt <> OutOfFuel.
Proof.
  unfold relax. destruct (match lookupS nxt _ with Some _ => _ | None => _ end);
    [discriminate|].
  apply bind_fuel; [apply projectGenomicLocation_fuel|].
  intros [p|]; [|discriminate].
  destruct (match lookupS nxt _ with Some _ => _ | None => _ end); discriminate.
Qed.

Lemma relaxAll_fuel `{StdLib} `{ScoreArith} ipp r q s cur : forall nxts st,
  relaxAll ipp r q s cur st nxts <> OutOfFuel.
Proof.
  induction nxts as [|n nxts IH]; intros st; simpl; [discriminate|].
  apply bind_fuel; [apply relax_fuel | auto].
Qed.

Lemma searchStep_fuel `{StdLib} `{ScoreArith} ipp r q s cur st :
  searchStep ipp r q s cur st <> OutOfFuel.
Proof.
  unfold searchStep.
  destruct (match lookupS _ _ with Some _ => _ | None => _ end);
    [discriminate|].
  destruct (String.eqb _ _); [discriminate|].
  destruct (lookupS _ (pwalns_ ipp)); [|discriminate].
  apply bind_fuel; [apply relaxAll_fuel | discriminate].
Qed.

(** ** The species of the store *)

Lemma lookupS_pair {A} k (v : A) m : lookupS k m = Some v -> In (k, v) m.
Proof.
  induction m as [|[k' v'] m IH]; simpl; [discriminate|].
  destruct (String.eqb k' k) eqn:H; auto.
  apply String.eqb_eq in H. intros [= ->]. subst. auto.
Qed.

Lemma sized_species ipp r g :
  lookupS r (genomeSizes_ ipp) = Some g -> In r (speciesOf ipp).
Proof.
  intros H. unfold speciesOf. apply nodup_In, in_or_app. left.
  eapply lookupS_in; eauto.
Qed.

Lemma neighbour_species ipp x nxts :
  lookupS x (pwalns_ ipp) = Some nxts ->
  incl (map fst nxts) (speciesOf ipp).
Proof.
  intros H n Hn. unfold speciesOf. apply nodup_In, in_or_app. right.
  apply in_or_app. right. apply in_concat.
  exists (map fst nxts). split; auto.
  apply in_map_iff. exists (x, nxts). split; auto. now apply lookupS_pair.
Qed.

Section Termination.
Context {L : StdLib} {SA : ScoreArith} {SL : ScoreLaws SA}.
Variable ipp : Ipp.
Variables refSpecies qrySpecies : string.
Variable scalingFactor : score.
Hypothesis Hwf : wf_store ipp.
Hypothesis Hsized : sized_store ipp.
Hypothesis Hscaling : scaling_of ipp scalingFactor.

Lemma pushes_bound x done nxts :
  NoDup nxts -> incl nxts (speciesOf ipp) -> In x (speciesOf ipp) ->
  (length (List.filter
             (fun n => if in_dec string_dec n (x :: done) then false else true)
             nxts) + 1
   <= length (speciesOf ipp))%nat.
Proof.
  intros Hnd Hincl Hx.
  apply (nodup_cons_length x).
  - now apply NoDup_filter.
  - intros n Hn. apply filter_In in Hn. apply Hincl, Hn.
  - exact Hx.
  - intros Hn. apply filter_In in Hn. destruct Hn as [_ Hn].
    destruct (in_dec string_dec x (x :: done)) as [|Hno]; [discriminate|].
    apply Hno. simpl; auto.
Qed.

(** One iteration either leaves the loop or strictly lowers [remaining]. *)
Lemma searchStep_progress done sp q d n current rest r :
  dijkstra_inv (speciesOf ipp) done sp q ->
  pq_pop q = Some (current, rest) ->
  searchStep ipp refSpecies qrySpecies scalingFactor current
    (mkSearch sp rest d (S n)) = Ok r ->
  match r with
  | Continue st' =>
      pops st' = S n /\
      exists done',
        dijkstra_inv (speciesOf ipp) done' (shortestPath st') (orange st') /\
        (remaining (speciesOf ipp) done' (length (orange st'))
         < remaining (speciesOf ipp) done (length q))%nat
  | Break st' => pops st' = S n
  end.
Proof.
  intros Hinv Hpop. unfold searchStep. cbn [shortestPath].
  pose proof (pq_pop_perm _ _ _ Hpop) as Hperm.
  pose proof (Permutation_length Hperm) as Hlen. simpl in Hlen.
  fold (staleb sp current).
  destruct (staleb sp current) eqn:Hstale.
  { intros [= <-]. cbn [orange shortestPath pops]. split; auto.
    exists done. split.
    - eapply dijkstra_inv_pop; eauto.
    - unfold remaining. rewrite Hlen.
      generalize ((length (speciesOf ipp) - length done)
                  * (length (speciesOf ipp) - 1))%nat. intros z.
      apply Nat.add_lt_mono_r, Nat.lt_succ_diag_r. }
  destruct (String.eqb _ _); [intros [= <-]; reflexivity|].
  destruct (lookupS (o_species current) (pwalns_ ipp)) as [nxts|] eqn:Hnx;
    [|discriminate].
  intros H. apply bind_ok in H. destruct H as (st' & Hall & H).
  injection H as <-.
  destruct (relaxing_start _ _ _ _ _ _ Hpop Hstale Hinv) as (Hnot & Hin & Hrel).
  pose proof (neighbour_species _ _ _ Hnx) as Hincl.
  destruct (relaxAll_relaxing ipp refSpecies qrySpecies scalingFactor
              (speciesOf ipp) Hsized Hscaling (o_species current :: done)
              current
              (map fst nxts) (mkSearch sp rest d (S n)) st' Hrel Hincl Hall)
    as (Hrel' & Hpops & Hcount).
  cbn [orange pops] in *. split; auto.
  exists (o_species current :: done). split; [apply Hrel'|].
  pose proof (pushes_bound (o_species current) done (map fst nxts)
                (Hwf _ _ (lookupS_pair _ _ _ Hnx)) Hincl Hin) as Hpush.
  destruct Hinv as [_ _ _ _ _ _ _ Hnd Hsub].
  pose proof (nodup_cons_length _ _ _ Hnd Hsub Hin Hnot) as Hdone.
  unfold remaining. simpl length.
  set (s := length (speciesOf ipp)) in *.
  set (k := length done) in *.
  replace ((s - k) * (s - 1))%nat
    with ((s - 1) + (s - S k) * (s - 1))%nat by nia.
  lia.
Qed.

(** With fuel for [remaining] iterations the loop ends by itself, after at
    most that many [pop]s. *)
Lemma searchLoop_terminates : forall fuel st done,
  dijkstra_inv (speciesOf ipp) done (shortestPath st) (orange st) ->
  (remaining (speciesOf ipp) done (length (orange st)) <= fuel)%nat ->
  searchLoop fuel ipp refSpecies qrySpecies scalingFactor st <> OutOfFuel /\
  forall st',
    searchLoop fuel ipp refSpecies qrySpecies scalingFactor st = Ok st' ->
    (pops st'
     <= pops st + remaining (speciesOf ipp) done (length (orange st)))%nat.
Proof.
  induction fuel as [|fuel IH]; intros st done Hinv Hfuel;
    cbn [searchLoop];
    destruct (pq_pop (orange st)) as [[current rest]|] eqn:Hpop.
  - pose proof (pq_pop_perm _ _ _ Hpop) as Hperm.
    apply Permutation_length in Hperm. simpl in Hperm.
    unfold remaining in Hfuel. rewrite Hperm in Hfuel. simpl in Hfuel.
    exfalso. exact (Nat.nle_succ_0 _ Hfuel).
  - split; [discriminate|]. intros st' [= <-]. lia.
  - destruct (searchStep ipp refSpecies qrySpecies scalingFactor current _)
      as [r| | | |] eqn:Hstep; cbn [bind];
      try (split; [discriminate | intros; discriminate]).
    + pose proof (searchStep_progress _ _ _ _ _ _ _ _ Hinv Hpop Hstep) as Hr.
      destruct r as [st1|st1].
      * destruct Hr as (Hp & done' & Hinv' & Hlt).
        assert (Hx : (remaining (speciesOf ipp) done' (length (orange st1))
                      <= fuel)%nat) by lia.
        destruct (IH st1 done' Hinv' Hx) as [Hno Hle].
        split; auto. intros st' Hst'. specialize (Hle _ Hst'). lia.
      * split; [discriminate|]. intros st' [= <-].
        pose proof (pq_pop_perm _ _ _ Hpop) as Hperm.
        apply Permutation_length in Hperm. simpl in Hperm.
        unfold remaining. rewrite Hperm, Hr.
        generalize ((length (speciesOf ipp) - length done)
                    * (length (speciesOf ipp) - 1))%nat. intros z.
        cbn [length]. lia.
    + exfalso. eapply searchStep_fuel; eauto.
  - split; [discriminate|]. intros st' [= <-]. lia.
Qed.

End Termination.

Section Bound.
Context {L : StdLib} {SA : ScoreArith} {SL : ScoreLaws SA}.
Variable ipp : Ipp.
Variables refSpecies qrySpecies : string.
Hypothesis Hwf : wf_store ipp.
Hypothesis Hsized : sized_store ipp.

Lemma initial_inv refCoords g :
  lookupS refSpecies (genomeSizes_ ipp) = Some g ->
  dijkstra_inv (speciesOf ipp) []
    (shortestPath (initialSearch refSpecies refCoords))
    (orange (initialSearch refSpecies refCoords)).
Proof.
  intros Hg. unfold initialSearch; simpl.
  constructor; simpl; try tauto.
  - intros e [<-|[]]; simpl. rewrite String.eqb_refl.
    eexists; split; eauto. apply sle_refl, unit_one.
  - intros e [<-|[]]; simpl. apply unit_one.
  - intros y x. destruct (String.eqb refSpecies y); [|discriminate].
    intros [= <-]. apply unit_one.
  - unfold staleb; simpl. rewrite String.eqb_refl. simpl.
    rewrite sltb_irrefl by apply unit_one. simpl.
    repeat constructor. simpl; tauto.
  - intros e [<-|[]]; simpl. eapply sized_species; eauto.
  - constructor.
  - intros x [].
Qed.

Lemma projectCoordRun_bounded refCoords fuel :
  (searchBound ipp <= fuel)%nat ->
  projectCoordRun fuel ipp refSpecies qrySpecies refCoords <> OutOfFuel /\
  forall st,
    projectCoordRun fuel ipp refSpecies qrySpecies refCoords = Ok st ->
    (pops st <= searchBound ipp)%nat.
Proof.
  intros Hfuel. unfold projectCoordRun.
  destruct (lookupS refSpecies (genomeSizes_ ipp)) as [g|] eqn:Hg.
  2:{ split; [discriminate | intros; discriminate]. }
  pose proof (sized_species _ _ _ Hg) as Hin.
  assert (Hpos : (1 <= length (speciesOf ipp))%nat).
  { destruct (speciesOf ipp); [destruct Hin | simpl; lia]. }
  assert (Hrem : (remaining (speciesOf ipp) []
                    (length (orange (initialSearch refSpecies refCoords)))
                  <= searchBound ipp)%nat).
  { unfold remaining, searchBound. simpl. nia. }
  assert (Hx : (remaining (speciesOf ipp) []
                  (length (orange (initialSearch refSpecies refCoords)))
                <= fuel)%nat) by lia.
  assert (Hscaling : scaling_of ipp (getScalingFactor ipp g))
    by (exists refSpecies, g; auto).
  destruct (searchLoop_terminates ipp refSpecies qrySpecies
              (getScalingFactor ipp g) Hwf Hsized Hscaling fuel
              (initialSearch refSpecies refCoords) []
              (initial_inv refCoords g Hg) Hx) as [Hno Hle].
  split; auto. intros st Hst. specialize (Hle _ Hst).
  change (pops (initialSearch refSpecies refCoords)) with 0%nat in Hle. lia.
Qed.

End Bound.

Section Direct.
Context {L : StdLib} {SA : ScoreArith} {SL : ScoreLaws SA}.
Variable ipp : Ipp.
Variables refSpecies qrySpecies : string.
Variable scalingFactor : score.
Hypothesis Hsized : sized_store ipp.
Hypothesis Hscaling : scaling_of ipp scalingFactor.

(** Recording a new entry for a species other than the reference one. *)
Lemma direct_inv_record st nxt ns prevSp pc pa direct' :
  direct_inv refSpecies qrySpecies st ->
  nxt <> refSpecies -> in_unit ns ->
  (forall d, direct' = Some d ->
     (qrySpecies = nxt /\ sle (gpr_score d) ns) \/
     (qrySpecies <> nxt /\ directRes st = Some d)) ->
  direct_inv refSpecies qrySpecies
    (mkSearch (assignS nxt (mkSPE ns prevSp pc pa) (shortestPath st))
       (mkOrange ns nxt pc :: orange st) direct' (pops st)).
Proof.
  intros [K0 Krec K2 K3 K4] Hnref Hns Hd. constructor; simpl.
  - intros e [<-|He]; simpl; auto.
  - intros s e. destruct (string_dec s nxt) as [->|Hne].
    + rewrite lookupS_assignS_same. now intros [= <-].
    + rewrite lookupS_assignS_other by auto. apply Krec.
  - rewrite lookupS_assignS_other by auto. exact K2.
  - intros e [<-|He]; simpl; auto. congruence.
  - intros d Hdd. destruct (Hd d Hdd) as [[-> Hle]|[Hne Hold]].
    + rewrite lookupS_assignS_same. eexists; split; eauto.
    + rewrite lookupS_assignS_other by auto. auto.
Qed.

Lemma relax_direct current st nxt st' :
  in_unit (o_score current) ->
  (o_species current = refSpecies -> o_score current = sone) ->
  direct_inv refSpecies qrySpecies st ->
  relax ipp refSpecies qrySpecies scalingFactor current st nxt = Ok st' ->
  direct_inv refSpecies qrySpecies st'.
Proof.
  intros Hc Hcref Hinv. pose proof Hinv as [K0 Krec K2 K3 K4]. unfold relax.
  destruct (match lookupS nxt (shortestPath st) with
            | Some e => sleb (o_score current) (spe_score e)
            | None => false
            end) eqn:Hfirst.
  { now intros [= <-]. }
  intros H. apply bind_ok in H. destruct H as ([p|] & Hp & H).
  2:{ now injection H as <-. }
  pose proof (project_range ipp scalingFactor Hsized Hscaling _ _ _ _ Hp)
    as Hpu.
  pose proof (product_unit _ _ Hc Hpu) as Hnsu.
  assert (Hns : sle (smul (o_score current) (gpr_score p)) (o_score current))
    by (apply smul_le; auto).
  set (ns := smul (o_score current) (gpr_score p)) in *.
  assert (Hnref : nxt <> refSpecies).
  { intros ->. destruct K2 as (y & Hy & Hle). rewrite Hy in Hfirst.
    pose proof (sle_trans _ _ _ (proj2 Hc) Hle) as Hbad. unfold sle in Hbad.
    congruence. }
  set (direct' := if String.eqb (o_species current) refSpecies
                     && String.eqb nxt qrySpecies
                  then Some p else directRes st) in *.
  assert (Hdirect : forall d, direct' = Some d ->
            (qrySpecies = nxt /\ gpr_score d = ns) \/ directRes st = Some d).
  { intros d. unfold direct'.
    destruct (String.eqb (o_species current) refSpecies
              && String.eqb nxt qrySpecies) eqn:Hcond; auto.
    apply andb_true_iff in Hcond. destruct Hcond as [Hr Hq].
    apply String.eqb_eq in Hr, Hq. intros [= <-]. left. split; auto.
    unfold ns. rewrite (Hcref Hr). symmetry. now apply smul_one_l. }
  destruct (match lookupS nxt (shortestPath st) with
            | Some e => sleb ns (spe_score e)
            | None => false
            end) eqn:Hsecond.
  - injection H as <-. constructor; simpl; auto.
    intros d Hd. destruct (Hdirect d Hd) as [[-> Hg]|Hold]; auto.
    destruct (lookupS nxt (shortestPath st)) as [x|]; [|discriminate].
    exists x. split; auto. now rewrite Hg.
  - injection H as <-. apply direct_inv_record; auto.
    intros d Hd. destruct (Hdirect d Hd) as [[-> Hg]|Hold].
    + left. split; auto. rewrite Hg. now apply sle_refl.
    + destruct (string_dec qrySpecies nxt) as [->|Hne]; [left|right; auto].
      split; auto. destruct (K4 d Hold) as (y & Hy & Hle).
      rewrite Hy in Hsecond. apply (sle_trans _ (spe_score y)); auto.
      apply sleb_false; auto. now apply (Krec nxt).
Qed.

Lemma relaxAll_direct current : forall nxts st st',
  in_unit (o_score current) ->
  (o_species current = refSpecies -> o_score current = sone) ->
  direct_inv refSpecies qrySpecies st ->
  relaxAll ipp refSpecies qrySpecies scalingFactor current st nxts = Ok st' ->
  direct_inv refSpecies qrySpecies st'.
Proof.
  induction nxts as [|n nxts IH]; intros st st' Hc Hr Hinv; simpl.
  - now intros [= <-].
  - intros H. apply bind_ok in H. destruct H as (st1 & Hs1 & H).
    apply (IH st1 st' Hc Hr); auto.
    apply (relax_direct current st n st1 Hc Hr Hinv Hs1).
Qed.

Lemma searchLoop_direct : forall fuel st st',
  direct_inv refSpecies qrySpecies st ->
  searchLoop fuel ipp refSpecies qrySpecies scalingFactor st = Ok st' ->
  direct_inv refSpecies qrySpecies st'.
Proof.
  induction fuel as [|fuel IH]; intros st st' Hinv; cbn [searchLoop];
    destruct (pq_pop (orange st)) as [[current rest]|] eqn:Hpop;
    try discriminate; try (now intros [= <-]).
  intros H. apply bind_ok in H. destruct H as (r & Hstep & H).
  pose proof (pq_pop_perm _ _ _ Hpop) as Hperm.
  assert (Hin : forall e, In e (current :: rest) -> In e (orange st)).
  { intros e He. apply (Permutation_in _ (Permutation_sym Hperm) He). }
  destruct Hinv as [K0 Krec K2 K3 K4].
  assert (Hinv1 : direct_inv refSpecies qrySpecies
            (mkSearch (shortestPath st) rest (directRes st) (S (pops st)))).
  { constructor; simpl; auto.
    - intros e He. apply K0, Hin. simpl; auto.
    - intros e He. apply K3, Hin. simpl; auto. }
  assert (Hr : direct_inv refSpecies qrySpecies
                 match r with Continue s => s | Break s => s end).
  { revert Hstep. unfold searchStep.
    destruct (match lookupS _ _ with Some _ => _ | None => _ end);
      [now intros [= <-]|].
    destruct (String.eqb _ _); [now intros [= <-]|].
    destruct (lookupS _ (pwalns_ ipp)); [|discriminate].
    intros Hb. apply bind_ok in Hb. destruct Hb as (s1 & Hs1 & Hb).
    injection Hb as <-.
    apply (relaxAll_direct current _ _ _
             (K0 current (Hin _ (or_introl eq_refl)))
             (K3 current (Hin _ (or_introl eq_refl))) Hinv1 Hs1). }
  destruct r as [s|s]; [apply (IH s st' Hr H) | now injection H as <-].
Qed.

End Direct.

Lemma initial_direct {SA : ScoreArith} {SL : ScoreLaws SA}
  refSpecies qrySpecies refCoords :
  direct_inv refSpecies qrySpecies (initialSearch refSpecies refCoords).
Proof.
  constructor; simpl.
  - intros e [<-|[]]; simpl. apply unit_one.
  - intros s e. destruct (String.eqb refSpecies s); [|discriminate].
    intros [= <-]. apply unit_one.
  - rewrite String.eqb_refl. eexists; split; eauto. apply sle_refl, unit_one.
  - intros e [<-|[]]; auto.
  - discriminate.
Qed.

(** ** Rational scores *)

Lemma dyadicDecay_range d g s :
  (0 <= dyadicDecay d g s)%Q /\ (dyadicDecay d g s <= 1)%Q.
Proof.
  unfold dyadicDecay. destruct (_ <=? 0).
  - split; unfold Qle; simpl; lia.
  - split; unfold Qle; simpl; lia.
Qed.

#[export] Instance dyadicScores_laws : ScoreLaws dyadicScores.
Proof.
  constructor; unfold in_unit; simpl.
  - intros a b _ _. rewrite !Qle_bool_iff.
    destruct (Qlt_le_dec a b) as [H|H]; [left; now apply Qlt_le_weak | now right].
  - intros a b c. rewrite !Qle_bool_iff. apply Qle_trans.
  - reflexivity.
  - reflexivity.
  - reflexivity.
  - intros [n d] _. unfold Qmult; simpl. now destruct n.
  - intros a b [Ha _] [Hb _]. rewrite Qle_bool_iff in *.
    now apply Qmult_le_0_compat.
  - intros a b [Ha _] [_ Hb]. rewrite Qle_bool_iff in *.
    rewrite Qmult_comm. rewrite <- (Qmult_1_l a) at 2.
    now apply Qmult_le_compat_r.
  - intros d g h g0 _ _ _ _. rewrite !Qle_bool_iff. apply dyadicDecay_range.
Qed.

(** ** The loaders *)

(** ** Readers and appended bytes *)

Lemma extend_nil s : extend s [] = s.
Proof. destruct s; unfold extend; simpl. now rewrite app_nil_r. Qed.

Lemma stable_ret {A} (a : A) : stable (retL a).
Proof. intros s extra; reflexivity. Qed.

Lemma stable_bind {A B} (m : Loader A) (f : A -> Loader B) :
  stable m -> (forall a, stable (f a)) -> stable (bindL m f).
Proof.
  intros Hm Hf s extra. unfold bindL.
  specialize (Hm s extra).
  destruct (m s) as [[a|e| | |] s']; auto.
  - rewrite Hm. apply Hf.
  - destruct (m (extend s extra)) as [[a|e| | |] s'']; simpl in *;
      congruence.
Qed.

Lemma stable_readInt w : stable (readInt w).
Proof.
  intros s extra. unfold readInt, extend; simpl.
  destruct (length (unread s) <? w)%nat eqn:Hlen; auto.
  apply Nat.ltb_ge in Hlen.
  replace (length (unread s ++ extra) <? w)%nat with false.
  - rewrite firstn_app, skipn_app.
    replace (w - length (unread s))%nat with 0%nat by lia.
    simpl. now rewrite app_nil_r.
  - symmetry. apply Nat.ltb_ge. rewrite length_app. lia.
Qed.

Lemma split_nul_app bs extra str rest :
  split_nul bs = Some (str, rest) ->
  split_nul (bs ++ extra) = Some (str, rest ++ extra).
Proof.
  revert str rest. induction bs as [|b bs IH]; simpl; [discriminate|].
  intros str rest. destruct (Byte.eqb b x00).
  - now intros [= <- <-].
  - destruct (split_nul bs) as [[str' rest']|]; [|discriminate].
    intros [= <- <-]. now rewrite (IH _ _ eq_refl).
Qed.

Lemma stable_readString : stable readString.
Proof.
  intros s extra. unfold readString, extend; simpl.
  destruct (split_nul (unread s)) as [[str rest]|] eqn:Hs; auto.
  now rewrite (split_nul_app _ _ _ _ Hs).
Qed.

Lemma entries_of_bytes_app n : forall bs extra,
  (20 * n <= length bs)%nat ->
  entries_of_bytes n (bs ++ extra) = entries_of_bytes n bs.
Proof.
  induction n as [|n IH]; intros bs extra Hlen; cbn [entries_of_bytes]; auto.
  rewrite firstn_app, skipn_app.
  replace (20 - length bs)%nat with 0%nat by lia.
  rewrite firstn_0, skipn_O, app_nil_r.
  f_equal. apply IH. rewrite length_skipn. lia.
Qed.

Lemma stable_readEntries n : stable (readEntries n).
Proof.
  intros s extra. unfold readEntries, extend; cbn [unread chromsL pwalnsL].
  destruct (length (unread s) <? 20 * n)%nat eqn:Hlen; [reflexivity|].
  apply Nat.ltb_ge in Hlen.
  replace (length (unread s ++ extra) <? 20 * n)%nat with false.
  - rewrite entries_of_bytes_app by auto. rewrite skipn_app.
    replace (20 * n - length (unread s))%nat with 0%nat by lia.
    now rewrite skipn_O.
  - symmetry. apply Nat.ltb_ge. rewrite length_app. lia.
Qed.

Lemma stable_pushChrom name : stable (pushChrom name).
Proof. intros s extra; reflexivity. Qed.

Lemma stable_touchSp1 sp1 : stable (touchSp1 sp1).
Proof. intros s extra; reflexivity. Qed.

Lemma stable_touchSp2 sp1 sp2 : stable (touchSp2 sp1 sp2).
Proof. intros s extra; reflexivity. Qed.

Lemma stable_insertBucket sp1 sp2 entries :
  stable (insertBucket sp1 sp2 entries).
Proof. intros s extra; destruct entries; reflexivity. Qed.

Lemma stable_readChroms n : stable (readChroms n).
Proof.
  induction n; simpl; [apply stable_ret|].
  apply stable_bind; [apply stable_readString|intros name].
  apply stable_bind; [apply stable_pushChrom|auto].
Qed.

Lemma stable_readBuckets sp1 sp2 n : stable (readBuckets sp1 sp2 n).
Proof.
  induction n; simpl; [apply stable_ret|].
  apply stable_bind; [apply stable_readInt|intros k].
  apply stable_bind; [apply stable_readEntries|intros es].
  apply stable_bind; [apply stable_insertBucket|auto].
Qed.

Lemma stable_readSp2 sp1 n : stable (readSp2 sp1 n).
Proof.
  induction n; simpl; [apply stable_ret|].
  apply stable_bind; [apply stable_readString|intros sp2].
  apply stable_bind; [apply stable_touchSp2|intros _].
  apply stable_bind; [apply stable_readInt|intros k].
  apply stable_bind; [apply stable_readBuckets|auto].
Qed.

Lemma stable_readSp1 n : stable (readSp1 n).
Proof.
  induction n; simpl; [apply stable_ret|].
  apply stable_bind; [apply stable_readString|intros sp1].
  apply stable_bind; [apply stable_touchSp1|intros _].
  apply stable_bind; [apply stable_readInt|intros k].
  apply stable_bind; [apply stable_readSp2|auto].
Qed.

Lemma stable_readBody : stable readBody.
Proof.
  unfold readBody.
  apply stable_bind; [apply stable_readInt|intros k].
  apply stable_bind; [apply stable_readChroms|intros _].
  apply stable_bind; [apply stable_readInt|intros k'].
  apply stable_readSp1.
Qed.

(** ** Ipp::loadPwalns *)

Lemma loadPwalns_unfold bytes ipp :
  loadPwalns (Some bytes) ipp =
  match readBody (mkLoad bytes [] []) with
  | (Ok _, s) =>
      (match unread s with
       | [] => Ok tt
       | _ :: _ => Throw (RuntimeError msgRemaining)
       end, storeOf ipp s)
  | (Throw e, s) => (Throw e, storeOf ipp s)
  | (AssertFail, s) => (AssertFail, storeOf ipp s)
  | (OutOfBounds, s) => (OutOfBounds, storeOf ipp s)
  | (OutOfFuel, s) => (OutOfFuel, storeOf ipp s)
  end.
Proof.
  unfold loadPwalns, bindL, expectEOF.
  destruct (readBody (mkLoad bytes [] [])) as [[[]|e| | |] s]; auto.
  destruct (unread s); reflexivity.
Qed.

Lemma loadPwalns_ok bytes ipp :
  fst (loadPwalns (Some bytes) ipp) = Ok tt ->
  exists s, readBody (mkLoad bytes [] []) = (Ok tt, s) /\ unread s = [].
Proof.
  rewrite loadPwalns_unfold.
  destruct (readBody (mkLoad bytes [] [])) as [[[]|e| | |] s]; simpl;
    try discriminate.
  destruct (unread s) eqn:Hu; [eauto | discriminate].
Qed.

Lemma trailing_bytes_rejected bytes extra ipp :
  fst (loadPwalns (Some bytes) ipp) = Ok tt -> extra <> [] ->
  fst (loadPwalns (Some (bytes ++ extra)) ipp)
  = Throw (RuntimeError msgRemaining).
Proof.
  intros Hok Hextra. destruct (loadPwalns_ok _ _ Hok) as (s & Hs & Hu).
  pose proof (stable_readBody (mkLoad bytes [] []) extra) as Hst.
  rewrite Hs in Hst. unfold extend in Hst; simpl in Hst.
  rewrite loadPwalns_unfold, Hst. simpl. rewrite Hu. simpl.
  destruct extra; [congruence | reflexivity].
Qed.

Lemma truncation_rejected bytes extra ipp :
  fst (loadPwalns (Some (bytes ++ extra)) ipp) = Ok tt -> extra <> [] ->
  fst (loadPwalns (Some bytes) ipp) = Throw (RuntimeError msgEOF).
Proof.
  intros Hok Hextra. destruct (loadPwalns_ok _ _ Hok) as (s & Hs & Hu).
  pose proof (stable_readBody (mkLoad bytes [] []) extra) as Hst.
  unfold extend in Hst; simpl in Hst. rewrite Hs in Hst.
  rewrite loadPwalns_unfold.
  destruct (readBody (mkLoad bytes [] [])) as [[[]|e| | |] s'];
    simpl in *; try tauto; try discriminate.
  - injection Hst as ->. simpl in Hu.
    apply app_eq_nil in Hu. tauto.
  - now subst e.
Qed.

Lemma loadPwalns_outcomes bytes ipp :
  let r := fst (loadPwalns (Some bytes) ipp) in
  r = Ok tt \/ r = Throw (RuntimeError msgEOF) \/
  r = Throw (RuntimeError msgRemaining) \/ r = OutOfBounds.
Proof.
  cbv zeta. rewrite loadPwalns_unfold.
  pose proof (stable_readBody (mkLoad bytes [] []) []) as Hst.
  destruct (readBody (mkLoad bytes [] [])) as [[[]|e| | |] s'];
    simpl in *; try tauto.
  - destruct (unread s'); auto.
  - subst e; auto.
Qed.

(** ** What a failed load leaves behind *)

Lemma stored_part_refl s : stored_part s s.
Proof. split; [exists []; now rewrite app_nil_r | auto]. Qed.

Lemma stored_part_trans s1 s2 s3 :
  stored_part s1 s2 -> stored_part s2 s3 -> stored_part s1 s3.
Proof.
  intros [[m1 H1] B1] [[m2 H2] B2]. split; auto.
  exists (m1 ++ m2). now rewrite H2, H1, app_assoc.
Qed.

Lemma stored_part_same s s' :
  chromsL s' = chromsL s -> pwalnsL s' = pwalnsL s -> stored_part s s'.
Proof.
  intros Hc Hp. unfold stored_part. rewrite Hc, Hp.
  split; [exists []; now rewrite app_nil_r | auto].
Qed.

Lemma grows_ret {A} (a : A) : grows (retL a).
Proof. intros s; apply stored_part_refl. Qed.

Lemma grows_bind {A B} (m : Loader A) (f : A -> Loader B) :
  grows m -> (forall a, grows (f a)) -> grows (bindL m f).
Proof.
  intros Hm Hf s. unfold bindL. specialize (Hm s).
  destruct (m s) as [[a|e| | |] s']; simpl in *; auto.
  eapply stored_part_trans; [exact Hm | apply Hf].
Qed.

Lemma monotone_ret {A} (a : A) : monotone (retL a).
Proof. intros s extra; now apply stored_part_same. Qed.

Lemma monotone_bind {A B} (m : Loader A) (f : A -> Loader B) :
  stable m -> monotone m ->
  (forall a, monotone (f a)) -> (forall a, grows (f a)) ->
  monotone (bindL m f).
Proof.
  intros Hst Hm Hf Hg s extra. unfold bindL.
  specialize (Hst s extra). specialize (Hm s extra).
  destruct (m s) as [[a|e| | |] s1]; simpl in *.
  - rewrite Hst. apply Hf.
  - destruct (m (extend s extra)) as [[a'|e'| | |] s1']; simpl in *; auto.
    eapply stored_part_trans; [exact Hm | apply Hg].
  - tauto.
  - destruct (m (extend s extra)) as [[a'|e'| | |] s1']; simpl in *; auto.
    discriminate.
  - tauto.
Qed.

(** Readers that leave the store alone. *)
Lemma readInt_store w s :
  chromsL (snd (readInt w s)) = chromsL s /\
  pwalnsL (snd (readInt w s)) = pwalnsL s.
Proof. unfold readInt. destruct (_ <? _)%nat; auto. Qed.

Lemma readString_store s :
  chromsL (snd (readString s)) = chromsL s /\
  pwalnsL (snd (readString s)) = pwalnsL s.
Proof. unfold readString. destruct (split_nul _) as [[? ?]|]; auto. Qed.

Lemma readEntries_store n s :
  chromsL (snd (readEntries n s)) = chromsL s /\
  pwalnsL (snd (readEntries n s)) = pwalnsL s.
Proof. unfold readEntries. destruct (_ <? _)%nat; auto. Qed.

Lemma grows_readInt w : grows (readInt w).
Proof. intros s. apply stored_part_same; apply readInt_store. Qed.

Lemma grows_readString : grows readString.
Proof. intros s. apply stored_part_same; apply readString_store. Qed.

Lemma grows_readEntries n : grows (readEntries n).
Proof. intros s. apply stored_part_same; apply readEntries_store. Qed.

Lemma monotone_readInt w : monotone (readInt w).
Proof.
  intros s extra. apply stored_part_same.
  - rewrite (proj1 (readInt_store w (extend s extra))).
    now rewrite (proj1 (readInt_store w s)).
  - rewrite (proj2 (readInt_store w (extend s extra))).
    now rewrite (proj2 (readInt_store w s)).
Qed.

Lemma monotone_readString : monotone readString.
Proof.
  intros s extra. apply stored_part_same.
  - rewrite (proj1 (readString_store (extend s extra))).
    now rewrite (proj1 (readString_store s)).
  - rewrite (proj2 (readString_store (extend s extra))).
    now rewrite (proj2 (readString_store s)).
Qed.

Lemma monotone_readEntries n : monotone (readEntries n).
Proof.
  intros s extra. apply stored_part_same.
  - rewrite (proj1 (readEntries_store n (extend s extra))).
    now rewrite (proj1 (readEntries_store n s)).
  - rewrite (proj2 (readEntries_store n (extend s extra))).
    now rewrite (proj2 (readEntries_store n s)).
Qed.

(** The operations on the store. *)
Lemma lookupS_app_some {A} k (v : A) m more :
  lookupS k m = Some v -> lookupS k (m ++ more) = Some v.
Proof.
  induction m as [|[k' v'] m IH]; simpl; [discriminate|].
  destruct (String.eqb k' k); auto.
Qed.

Lemma lookupS_touchS {A} k k' (d v : A) m :
  lookupS k m = Some v -> lookupS k (touchS k' d m) = Some v.
Proof.
  intros H. unfold touchS. destruct (lookupS k' m); auto.
  now apply lookupS_app_some.
Qed.

Lemma lookupZ_insertZ {A} c k (v es : A) m :
  lookupZ c m = Some es -> lookupZ c (insertZ k v m) = Some es.
Proof.
  induction m as [|[k' v'] m IH]; simpl; [discriminate|].
  destruct (k' =? k) eqn:Hk; simpl; auto.
  destruct (k' =? c); auto.
Qed.

Lemma bucketOf_assign sp1 sp2 c es (by1 by1' : SpeciesMap Pwaln)
  (m : SpeciesMap (SpeciesMap Pwaln)) :
  lookupS sp1 m = Some by1 ->
  (forall sp2' c' es', 
     match lookupS sp2' by1 with
     | Some pw => lookupZ c' pw | None => None end = Some es' ->
     match lookupS sp2' by1' with
     | Some pw => lookupZ c' pw | None => None end = Some es') ->
  forall sp1',
  bucketOf sp1' sp2 c m = Some es ->
  bucketOf sp1' sp2 c (assignS sp1 by1' m) = Some es.
Proof.
  intros Hl Hin sp1'. unfold bucketOf.
  destruct (string_dec sp1' sp1) as [->|Hne].
  - rewrite Hl, lookupS_assignS_same. apply Hin.
  - now rewrite lookupS_assignS_other.
Qed.

Lemma getS_lookup {A} k (d v : A) (m : SpeciesMap A) :
  lookupS k m = Some v -> getS k d m = v.
Proof. unfold getS. now intros ->. Qed.

Lemma grows_pushChrom name : grows (pushChrom name).
Proof. intros s. split; simpl; eauto. Qed.

Lemma grows_touchSp1 sp1 : grows (touchSp1 sp1).
Proof.
  intros s. split; simpl; [exists []; now rewrite app_nil_r|].
  intros a b c es. unfold bucketOf.
  destruct (lookupS a (pwalnsL s)) as [by2|] eqn:Ha; [|discriminate].
  now rewrite (lookupS_touchS _ _ _ _ _ Ha).
Qed.

Lemma grows_touchSp2 sp1 sp2 : grows (touchSp2 sp1 sp2).
Proof.
  intros s. split; simpl; [exists []; now rewrite app_nil_r|].
  intros a b c es Hb.
  destruct (lookupS sp1 (pwalnsL s)) as [by1|] eqn:H1.
  - apply (bucketOf_assign sp1 b c es by1); auto.
    erewrite getS_lookup by exact H1. intros b' c' es'.
    destruct (lookupS b' by1) as [pw|] eqn:Hb'; [|discriminate].
    now rewrite (lookupS_touchS _ _ _ _ _ Hb').
  - unfold bucketOf in *.
    destruct (string_dec a sp1) as [->|Hne].
    + now rewrite H1 in Hb.
    + now rewrite lookupS_assignS_other.
Qed.

Lemma grows_insertBucket sp1 sp2 entries : grows (insertBucket sp1 sp2 entries).
Proof.
  intros s. destruct entries as [|e0 entries]; [apply stored_part_refl|].
  split; simpl; [exists []; now rewrite app_nil_r|].
  intros a b c es Hb.
  destruct (lookupS sp1 (pwalnsL s)) as [by1|] eqn:H1.
  - apply (bucketOf_assign sp1 b c es by1); auto.
    assert (Hg : getS sp1 [] (pwalnsL s) = by1) by now apply getS_lookup.
    cbv zeta. rewrite Hg. intros b' c' es'.
    destruct (string_dec b' sp2) as [->|Hne].
    + rewrite lookupS_assignS_same.
      destruct (lookupS sp2 by1) as [pw|] eqn:H2; [|discriminate].
      erewrite (getS_lookup sp2) by exact H2. apply lookupZ_insertZ.
    + now rewrite lookupS_assignS_other.
  - unfold bucketOf in *.
    destruct (string_dec a sp1) as [->|Hne].
    + now rewrite H1 in Hb.
    + now rewrite lookupS_assignS_other.
Qed.

Lemma monotone_pushChrom name : monotone (pushChrom name).
Proof. intros s extra; now apply stored_part_same. Qed.

Lemma monotone_touchSp1 sp1 : monotone (touchSp1 sp1).
Proof. intros s extra; now apply stored_part_same. Qed.

Lemma monotone_touchSp2 sp1 sp2 : monotone (touchSp2 sp1 sp2).
Proof. intros s extra; now apply stored_part_same. Qed.

Lemma monotone_insertBucket sp1 sp2 entries :
  monotone (insertBucket sp1 sp2 entries).
Proof. intros s extra; destruct entries; now apply stored_part_same. Qed.

Lemma grows_readChroms n : grows (readChroms n).
Proof.
  induction n; simpl; [apply grows_ret|].
  apply grows_bind; [apply grows_readString|intros name].
  apply grows_bind; [apply grows_pushChrom|auto].
Qed.

Lemma grows_readBuckets sp1 sp2 n : grows (readBuckets sp1 sp2 n).
Proof.
  induction n; simpl; [apply grows_ret|].
  apply grows_bind; [apply grows_readInt|intros k].
  apply grows_bind; [apply grows_readEntries|intros es].
  apply grows_bind; [apply grows_insertBucket|auto].
Qed.

Lemma grows_readSp2 sp1 n : grows (readSp2 sp1 n).
Proof.
  induction n; simpl; [apply grows_ret|].
  apply grows_bind; [apply grows_readString|intros sp2].
  apply grows_bind; [apply grows_touchSp2|intros _].
  apply grows_bind; [apply grows_readInt|intros k].
  apply grows_bind; [apply grows_readBuckets|auto].
Qed.

Lemma grows_readSp1 n : grows (readSp1 n).
Proof.
  induction n; simpl; [apply grows_ret|].
  apply grows_bind; [apply grows_readString|intros sp1].
  apply grows_bind; [apply grows_touchSp1|intros _].
  apply grows_bind; [apply grows_readInt|intros k].
  apply grows_bind; [apply grows_readSp2|auto].
Qed.

Lemma monotone_readChroms n : monotone (readChroms n).
Proof.
  induction n; simpl; [apply monotone_ret|].
  apply monotone_bind;
    [apply stable_readString | apply monotone_readString | |].
  - intros name. apply monotone_bind;
      [apply stable_pushChrom | apply monotone_pushChrom | auto |].
    intros _. apply grows_readChroms.
  - intros name. apply grows_bind; [apply grows_pushChrom|].
    intros _. apply grows_readChroms.
Qed.

Lemma monotone_readBuckets sp1 sp2 n : monotone (readBuckets sp1 sp2 n).
Proof.
  induction n; simpl; [apply monotone_ret|].
  assert (G2 : forall es, grows (_ <~ insertBucket sp1 sp2 es ;;
                                 readBuckets sp1 sp2 n)).
  { intros es. apply grows_bind; [apply grows_insertBucket|].
    intros _. apply grows_readBuckets. }
  assert (G1 : forall k : Z, grows (es <~ readEntries (Z.to_nat k) ;;
                                _ <~ insertBucket sp1 sp2 es ;;
                                readBuckets sp1 sp2 n)).
  { intros k. apply grows_bind; [apply grows_readEntries | exact G2]. }
  apply monotone_bind;
    [apply stable_readInt | apply monotone_readInt | | exact G1].
  intros k. apply monotone_bind;
    [apply stable_readEntries | apply monotone_readEntries | | exact G2].
  intros es. apply monotone_bind;
    [apply stable_insertBucket | apply monotone_insertBucket | auto |].
  intros _. apply grows_readBuckets.
Qed.

Lemma monotone_readSp2 sp1 n : monotone (readSp2 sp1 n).
Proof.
  induction n; simpl; [apply monotone_ret|].
  assert (Gb : forall sp2 (k : Z),
            grows (_ <~ readBuckets sp1 sp2 (Z.to_nat k) ;; readSp2 sp1 n)).
  { intros sp2 k. apply grows_bind; [apply grows_readBuckets|].
    intros _. apply grows_readSp2. }
  assert (Gi : forall sp2,
            grows (k <~ readInt 4 ;;
                   _ <~ readBuckets sp1 sp2 (Z.to_nat k) ;; readSp2 sp1 n)).
  { intros sp2. apply grows_bind; [apply grows_readInt | apply Gb]. }
  assert (Gt : forall sp2,
            grows (_ <~ touchSp2 sp1 sp2 ;; k <~ readInt 4 ;;
                   _ <~ readBuckets sp1 sp2 (Z.to_nat k) ;; readSp2 sp1 n)).
  { intros sp2. apply grows_bind; [apply grows_touchSp2|].
    intros _. apply Gi. }
  apply monotone_bind;
    [apply stable_readString | apply monotone_readString | | exact Gt].
  intros sp2. apply monotone_bind;
    [apply stable_touchSp2 | apply monotone_touchSp2 | |intros _; apply Gi].
  intros _. apply monotone_bind;
    [apply stable_readInt | apply monotone_readInt | | apply Gb].
  intros k. apply monotone_bind;
    [apply stable_readBuckets | apply monotone_readBuckets | auto |].
  intros _. apply grows_readSp2.
Qed.

Lemma monotone_readSp1 n : monotone (readSp1 n).
Proof.
  induction n; simpl; [apply monotone_ret|].
  assert (Gb : forall sp1 (k : Z),
            grows (_ <~ readSp2 sp1 (Z.to_nat k) ;; readSp1 n)).
  { intros sp1 k. apply grows_bind; [apply grows_readSp2|].
    intros _. apply grows_readSp1. }
  assert (Gi : forall sp1,
            grows (k <~ readInt 1 ;;
                   _ <~ readSp2 sp1 (Z.to_nat k) ;; readSp1 n)).
  { intros sp1. apply grows_bind; [apply grows_readInt | apply Gb]. }
  assert (Gt : forall sp1,
            grows (_ <~ touchSp1 sp1 ;; k <~ readInt 1 ;;
                   _ <~ readSp2 sp1 (Z.to_nat k) ;; readSp1 n)).
  { intros sp1. apply grows_bind; [apply grows_touchSp1|].
    intros _. apply Gi. }
  apply monotone_bind;
    [apply stable_readString | apply monotone_readString | | exact Gt].
  intros sp1. apply monotone_bind;
    [apply stable_touchSp1 | apply monotone_touchSp1 | |intros _; apply Gi].
  intros _. apply monotone_bind;
    [apply stable_readInt | apply monotone_readInt | | apply Gb].
  intros k. apply monotone_bind;
    [apply stable_readSp2 | apply monotone_readSp2 | auto |].
  intros _. apply grows_readSp1.
Qed.

Lemma monotone_readBody : monotone readBody.
Proof.
  unfold readBody.
  assert (G3 : forall k : Z, grows (readSp1 (Z.to_nat k)))
    by (intros; apply grows_readSp1).
  assert (G2 : grows (k <~ readInt 1 ;; readSp1 (Z.to_nat k))).
  { apply grows_bind; [apply grows_readInt | exact G3]. }
  assert (G1 : forall c : Z,
            grows (_ <~ readChroms (Z.to_nat c) ;;
                   k <~ readInt 1 ;; readSp1 (Z.to_nat k))).
  { intros c. apply grows_bind; [apply grows_readChroms|]. intros _; exact G2. }
  apply monotone_bind;
    [apply stable_readInt | apply monotone_readInt | | exact G1].
  intros c. apply monotone_bind;
    [apply stable_readChroms | apply monotone_readChroms |
     | intros _; exact G2].
  intros _. apply monotone_bind;
    [apply stable_readInt | apply monotone_readInt | | exact G3].
  intros k. apply monotone_readSp1.
Qed.

Lemma loadPwalns_store bytes ipp :
  snd (loadPwalns (Some bytes) ipp)
  = storeOf ipp (snd (readBody (mkLoad bytes [] []))).
Proof.
  rewrite loadPwalns_unfold.
  destruct (readBody (mkLoad bytes [] [])) as [[[]|e| | |] s]; reflexivity.
Qed.

(** What [loadPwalns] leaves on a file is part of what it leaves on any
    file that continues it. *)
Lemma loadPwalns_part bytes extra ipp :
  part_of (chroms_ (snd (loadPwalns (Some bytes) ipp)))
          (pwalns_ (snd (loadPwalns (Some bytes) ipp)))
          (chroms_ (snd (loadPwalns (Some (bytes ++ extra)) ipp)))
          (pwalns_ (snd (loadPwalns (Some (bytes ++ extra)) ipp))).
Proof.
  rewrite !loadPwalns_store. simpl.
  exact (monotone_readBody (mkLoad bytes [] []) extra).
Qed.

(** ** Ipp::loadGenomeSizes *)

Lemma sizesLoop_failure fs dirName : forall todo acc e sizes,
  sizesLoop fs dirName todo acc = (Throw e, sizes) ->
  exists pre species post,
    todo = pre ++ species :: post /\
    readSizes fs dirName species = Throw e /\
    sizesLoop fs dirName pre acc = (Ok tt, sizes).
Proof.
  induction todo as [|sp todo IH]; intros acc e sizes; simpl; [discriminate|].
  destruct (readSizes fs dirName sp) as [g|e'| | |] eqn:Hr; try discriminate.
  - intros H. destruct (IH _ _ _ H) as (pre & sp' & post & -> & Hf & Hpre).
    exists (sp :: pre), sp', post. simpl. rewrite Hr. auto.
  - intros [= <- <-]. exists [], sp, todo. auto.
Qed.

(** ** Scores that are not numbers *)

Section NanLoop.
Variable libm_exp : float -> float.
Local Abbreviation SAf := (ieeeScores libm_exp).
Local Abbreviation sf := (@getScalingFactor SAf loopIpp 0).

Lemma loop_step_A n fuel :
  @searchLoop simpleLib SAf (S fuel) loopIpp "A" "C" sf (loopStateA libm_exp n)
  = @searchLoop simpleLib SAf fuel loopIpp "A" "C" sf
      (loopStateB libm_exp (S n)).
Proof. reflexivity. Qed.

Lemma loop_step_B n fuel :
  @searchLoop simpleLib SAf (S fuel) loopIpp "A" "C" sf (loopStateB libm_exp n)
  = @searchLoop simpleLib SAf fuel loopIpp "A" "C" sf
      (loopStateA libm_exp (S n)).
Proof. reflexivity. Qed.

Lemma loop_never_ends : forall fuel n,
  @searchLoop simpleLib SAf fuel loopIpp "A" "C" sf (loopStateA libm_exp n)
  = OutOfFuel /\
  @searchLoop simpleLib SAf fuel loopIpp "A" "C" sf (loopStateB libm_exp n)
  = OutOfFuel.
Proof.
  induction fuel as [|fuel IH]; intros n.
  - split; reflexivity.
  - rewrite loop_step_A, loop_step_B. split; apply IH.
Qed.

Lemma loop_reached fuel :
  @searchLoop simpleLib SAf (S (S (S fuel))) loopIpp "A" "C" sf
    (@initialSearch SAf "A" (mkCoords 0 1057))
  = @searchLoop simpleLib SAf fuel loopIpp "A" "C" sf (loopStateB libm_exp 3).
Proof. reflexivity. Qed.

Lemma nan_search_never_ends fuel :
  @projectCoordRun simpleLib SAf fuel loopIpp "A" "C" (mkCoords 0 1057)
  = OutOfFuel.
Proof.
  unfold projectCoordRun.
  change (lookupS "A" (genomeSizes_ loopIpp)) with (Some 0).
  destruct fuel as [|[|[|fuel]]]; try reflexivity.
  rewrite loop_reached. apply loop_never_ends.
Qed.

End NanLoop.

(** * The claims *)

(** C1 (fails on the code): [getAnchors] is not total on well-formed input.
    For a chromosome without bucket [pwaln.at] throws [std::out_of_range];
    and on a slice of forward blocks, where [getAnchors] does return
    anchors, the run for the reverse strand keeps [m] empty, so that the
    [m.back()] of its backtrace reads outside the vector. *)
Theorem getAnchors_throws_without_bucket :
  (forall L : StdLib,
     @getAnchors L exPwaln (mkCoords 1 1057) = Throw OutOfRange) /\
  getAnchors exPwaln (mkCoords 0 1057) = Ok (Some exAnchors) /\
  candidates 1057 exBucket = Some exBucket /\
  Lis.back_in_range exBucket rev_filter rev_lo rev_hi = false.
Proof.
  split; [intros L; reflexivity|].
  vm_compute. repeat split.
Qed.

(** C2 (counterexample): after a truncated file the store holds the one
    chromosome name and the one bucket read before the error, and after a
    missing sizes file the size of the species visited before it (here A,
    iterated before B): neither empty nor complete. *)
Lemma failed_load_leaves_partial_state :
  fst (loadPwalns (Some truncatedFile) exIpp) = Throw (RuntimeError msgEOF) /\
  ~ atomic_load truncatedFile exIpp /\
  fst (loadGenomeSizes sizesOfA "dir" hopIpp)
  = Throw (RuntimeError "could not open the file dir/B.sizes") /\
  genomeSizes_ (snd (loadGenomeSizes sizesOfA "dir" hopIpp))
  = [("A"%string, 1500)].
Proof.
  split; [vm_compute; reflexivity|].
  split; [|split; vm_compute; reflexivity].
  unfold atomic_load. vm_compute. intros [[H _]|H]; discriminate.
Qed.

(** C2 (amended): a load that throws has discarded what the members held
    before the call, and leaves what it stored up to the error.  The result
    of [loadPwalns] does not depend on the previous chromosome table and
    pwaln map; what it leaves on a file is part of what it leaves on every
    file that continues it (the chromosome names are the first names, every
    bucket is a bucket of the longer file); when the error is the
    trailing-bytes one every record has been stored; and after a failure
    of [loadGenomeSizes] the genome sizes are those of the species visited
    before the failing one. *)
Theorem failed_load_state (ipp : Ipp) :
  (forall file ipp',
     genomeSizes_ ipp' = genomeSizes_ ipp ->
     halfLifeDistance_ ipp' = halfLifeDistance_ ipp ->
     loadPwalns file ipp' = loadPwalns file ipp) /\
  (forall bytes extra,
     part_of (chroms_ (snd (loadPwalns (Some bytes) ipp)))
             (pwalns_ (snd (loadPwalns (Some bytes) ipp)))
             (chroms_ (snd (loadPwalns (Some (bytes ++ extra)) ipp)))
             (pwalns_ (snd (loadPwalns (Some (bytes ++ extra)) ipp)))) /\
  (forall bytes,
     fst (loadPwalns (Some bytes) ipp) = Throw (RuntimeError msgRemaining) ->
     fst (readBody (mkLoad bytes [] [])) = Ok tt) /\
  (forall fs dirName e,
     fst (loadGenomeSizes fs dirName ipp) = Throw e ->
     exists pre species post,
       map fst (pwalns_ ipp) = pre ++ species :: post /\
       readSizes fs dirName species = Throw e /\
       sizesLoop fs dirName pre []
       = (Ok tt, genomeSizes_ (snd (loadGenomeSizes fs dirName ipp)))).
Proof.
  split; [|split; [|split]].
  - intros file ipp' Hg Hh. unfold loadPwalns, storeOf.
    rewrite Hg, Hh. reflexivity.
  - intros bytes extra. apply loadPwalns_part.
  - intros bytes. rewrite loadPwalns_unfold.
    pose proof (stable_readBody (mkLoad bytes [] []) []) as Hst.
    destruct (readBody (mkLoad bytes [] [])) as [[[]|e| | |] s];
      simpl in *; try discriminate; auto.
    subst e. discriminate.
  - intros fs dirName e. unfold loadGenomeSizes.
    destruct (sizesLoop fs dirName (map fst (pwalns_ ipp)) [])
      as [r sizes] eqn:Hloop.
    simpl. intros ->.
    destruct (sizesLoop_failure _ _ _ _ _ _ Hloop)
      as (pre & sp & post & Hsplit & Hfail & Hpre).
    exists pre, sp, post. auto.
Qed.

Lemma failed_load_state_witness :
  fst (readBody (mkLoad (unknownChromFile ++ [x00]) [] [])) = Ok tt /\
  exists pre species post,
    map fst (pwalns_ hopIpp) = pre ++ species :: post /\
    readSizes sizesOfA "dir" species
    = Throw (RuntimeError "could not open the file dir/B.sizes") /\
    sizesLoop sizesOfA "dir" pre []
    = (Ok tt, genomeSizes_ (snd (loadGenomeSizes sizesOfA "dir" hopIpp))).
Proof.
  split.
  - apply (proj1 (proj2 (proj2 (failed_load_state exIpp)))).
    vm_compute. reflexivity.
  - apply (proj2 (proj2 (proj2 (failed_load_state hopIpp)))).
    vm_compute. reflexivity.
Defined.

(** C3 (counterexample): a complete file whose entry names chromosomes 7
    and 9, with a single name in the table, loads. *)
Lemma loadPwalns_accepts_unknown_chrom :
  loadPwalns (Some unknownChromFile) exIpp
  = (Ok tt,
     mkIpp ["c"%string]
       [("A"%string, [("B"%string, [(7, [mkEntry 10 20 30 40 7 9])])])]
       (genomeSizes_ exIpp) (halfLifeDistance_ exIpp)).
Proof. vm_compute. reflexivity. Qed.

(** C3 (amended): [loadPwalns] throws on truncated input and on trailing
    bytes: every proper prefix of a file that loads fails with
    "Unexpected EOF", every proper extension with "Remaining data at EOF";
    and a [std::runtime_error] it throws on an opened file is one of these
    two.  Chromosome ids are not checked. *)
Theorem loadPwalns_failures (bytes : list byte) (ipp : Ipp) :
  (forall msg,
     fst (loadPwalns (Some bytes) ipp) = Throw (RuntimeError msg) ->
     msg = msgEOF \/ msg = msgRemaining) /\
  (fst (loadPwalns (Some bytes) ipp) = Ok tt ->
   (forall p q, bytes = p ++ q -> q <> [] ->
      fst (loadPwalns (Some p) ipp) = Throw (RuntimeError msgEOF)) /\
   (forall extra, extra <> [] ->
      fst (loadPwalns (Some (bytes ++ extra)) ipp)
      = Throw (RuntimeError msgRemaining))).
Proof.
  split.
  { intros msg Hmsg.
    destruct (loadPwalns_outcomes bytes ipp) as [H|[H|[H|H]]];
      rewrite H in Hmsg; [discriminate | left | right | discriminate];
      congruence. }
  intros Hok. split.
  - intros p q -> Hq. eapply truncation_rejected; eauto.
  - intros extra Hextra. now apply trailing_bytes_rejected.
Qed.

Lemma loadPwalns_failures_witness :
  fst (loadPwalns (Some unknownChromFile) exIpp) = Ok tt /\
  fst (loadPwalns (Some (firstn 30 unknownChromFile)) exIpp)
  = Throw (RuntimeError msgEOF) /\
  fst (loadPwalns (Some (unknownChromFile ++ [x00])) exIpp)
  = Throw (RuntimeError msgRemaining).
Proof.
  assert (Hok : fst (loadPwalns (Some unknownChromFile) exIpp) = Ok tt)
    by (vm_compute; reflexivity).
  destruct (proj2 (loadPwalns_failures unknownChromFile exIpp) Hok)
    as [Hpre Hext].
  split; [exact Hok|]. split.
  - apply (Hpre (firstn 30 unknownChromFile) (skipn 30 unknownChromFile)).
    + symmetry. apply firstn_skipn.
    + vm_compute. discriminate.
  - apply Hext. discriminate.
Defined.

(** C4 (counterexample): between the flanks [ref 1000 / qry 100] and
    [ref 1100 / qry 700] the position 1057 is projected to 441, the exact
    formula gives 442; and with flanks [1000 / 2] and [1010 / 92] position
    1007 is projected to 65 where the formula evaluated in binary64 with
    the floor taken first gives 64. *)
Lemma interpolation_not_exact :
  projectGenomicLocation exIpp "A" "B" (mkCoords 0 1057)
    (getScalingFactor exIpp 100000)
  = Ok (Some (mkGPR 1%Q (mkCoords 0 441) exAnchors)) /\
  spec_interpolate 1057 1000 1100 100 700 = 442 /\
  interpolate 1007 1000 1010 2 92 = 65 /\
  spec_interpolate_binary64 1007 1000 1010 2 92 = 64.
Proof. vm_compute. repeat split. Qed.

(** C5 (counterexample): with a genome size of 0 for the reference
    species, as an empty sizes file gives it, the scaling factor is
    infinite and the score of a projection between two blocks is NaN,
    whatever [std::exp] returns on numbers.  The returned projection holds
    a direct result and a recorded path to the query species, and the
    recorded score is not greater than or equal to the direct one. *)
Lemma nan_score_not_above_direct :
  readSizes (fun _ => Some EmptyString) "dir" "A" = Ok 0 /\
  lookupS "A" (genomeSizes_ nanIpp) = Some 0 /\
  forall libm_exp : float -> float,
    exists cp d e,
      @projectCoord simpleLib (ieeeScores libm_exp) nanIpp "A" "B"
        (mkCoords 0 1057) = Ok cp /\
      direct cp = Some d /\
      lookupS "B" (multiShortestPath cp) = Some e /\
      sleb (gpr_score d) (spe_score e) = false.
Proof.
  split; [reflexivity|]. split; [reflexivity|].
  intros libm_exp. eexists _, _, _.
  split; [vm_compute; reflexivity|].
  split; [reflexivity|]. split; reflexivity.
Qed.

(** C5 (amended): on a store whose half-life distance and genome sizes are
    positive, when the returned projection holds both a direct result and
    a recorded path to the query species, the recorded score is at least
    the direct score. *)
Theorem recorded_score_ge_direct {L : StdLib} {SA : ScoreArith}
  {SL : ScoreLaws SA} (ipp : Ipp) (refSpecies qrySpecies : string)
  (refCoords : Coords) (cp : CoordProjection)
  (d : GenomicProjectionResult) (e : ShortestPathEntry) :
  sized_store ipp ->
  projectCoord ipp refSpecies qrySpecies refCoords = Ok cp ->
  direct cp = Some d ->
  lookupS qrySpecies (multiShortestPath cp) = Some e ->
  sleb (gpr_score d) (spe_score e) = true.
Proof.
  unfold projectCoord, projectCoordRun. intros Hsized H Hd He.
  apply bind_ok in H. destruct H as (st & Hrun & H). injection H as <-.
  simpl in Hd, He.
  destruct (lookupS refSpecies (genomeSizes_ ipp)) as [g|] eqn:Hg;
    [|discriminate].
  assert (Hscaling : scaling_of ipp (getScalingFactor ipp g))
    by (exists refSpecies, g; auto).
  pose proof (searchLoop_direct ipp refSpecies qrySpecies _ Hsized Hscaling
                _ _ _
                (initial_direct refSpecies qrySpecies refCoords) Hrun) as Hinv.
  destruct (dr_direct _ _ _ Hinv d Hd) as (x & Hx & Hle).
  rewrite He in Hx. injection Hx as <-. exact Hle.
Qed.

Lemma sized_store_hopIpp : sized_store hopIpp.
Proof.
  split; [unfold two32; simpl; lia|].
  intros species genomeSize. unfold hopIpp. cbn [genomeSizes_ lookupS].
  destruct (String.eqb "A" species);
    [intros H; injection H as <-; unfold two32; lia|].
  destruct (String.eqb "B" species);
    [intros H; injection H as <-; unfold two32; lia|].
  discriminate.
Qed.

Lemma recorded_score_ge_direct_witness :
  projectCoord hopIpp "A" "C" (mkCoords 0 1250) = Ok hopProjection /\
  Qle_bool (1 # 4) 1 = true.
Proof.
  split; [vm_compute; reflexivity|].
  apply (recorded_score_ge_direct (L := simpleLib) (SA := dyadicScores)
           hopIpp "A" "C" (mkCoords 0 1250) hopProjection hopDirect hopEntryC).
  - exact sized_store_hopIpp.
  - vm_compute; reflexivity.
  - reflexivity.
  - reflexivity.
Defined.

Lemma wf_store_hopIpp : wf_store hopIpp.
Proof.
  intros sp1 nxts Hin. simpl in Hin.
  destruct Hin as [[= <- <-]|[[= <- <-]|[]]]; simpl;
    repeat constructor; simpl; intuition discriminate.
Qed.

(** C6 (counterexample): two species aligned to each other, both with a
    genome size of 0, and a query species that is not in the store.  Every
    score after the first is NaN, no comparison of the loop holds, and the
    search goes from one species to the other for ever: no number of
    iterations suffices, whatever [std::exp] returns on numbers. *)
Lemma search_never_ends_on_nan :
  wf_store loopIpp /\
  lookupS "A" (genomeSizes_ loopIpp) = Some 0 /\
  lookupS "B" (genomeSizes_ loopIpp) = Some 0 /\
  forall (libm_exp : float -> float) (fuel : nat),
    @projectCoordRun simpleLib (ieeeScores libm_exp) fuel loopIpp "A" "C"
      (mkCoords 0 1057)
    = OutOfFuel.
Proof.
  split.
  { intros sp1 nxts Hin. simpl in Hin.
    destruct Hin as [[= <- <-]|[[= <- <-]|[]]]; simpl;
      repeat constructor; simpl; intuition discriminate. }
  split; [reflexivity|]. split; [reflexivity|].
  intros libm_exp fuel. apply nan_search_never_ends.
Qed.

(** C6 (amended): on a store whose half-life distance and genome sizes are
    positive, the loop of [projectCoord] ends by itself, after at most
    [|species|^2] pops of the priority queue, whatever fuel beyond that
    bound the model is given. *)
Theorem search_within_species_squared {L : StdLib} {SA : ScoreArith}
  {SL : ScoreLaws SA} (ipp : Ipp) (refSpecies qrySpecies : string)
  (refCoords : Coords) (fuel : nat) :
  wf_store ipp -> sized_store ipp ->
  (length (speciesOf ipp) * length (speciesOf ipp) <= fuel)%nat ->
  projectCoordRun fuel ipp refSpecies qrySpecies refCoords <> OutOfFuel /\
  forall st,
    projectCoordRun fuel ipp refSpecies qrySpecies refCoords = Ok st ->
    (pops st <= length (speciesOf ipp) * length (speciesOf ipp))%nat.
Proof.
  intros Hwf Hsized Hfuel.
  exact (projectCoordRun_bounded ipp refSpecies qrySpecies Hwf Hsized
           refCoords fuel Hfuel).
Qed.

Lemma search_within_species_squared_witness :
  projectCoordRun 20 hopIpp "A" "C" (mkCoords 0 1250) <> OutOfFuel /\
  forall st,
    projectCoordRun 20 hopIpp "A" "C" (mkCoords 0 1250) = Ok st ->
    (pops st <= 3 * 3)%nat.
Proof.
  apply (search_within_species_squared (L := simpleLib) (SA := dyadicScores)
           hopIpp "A" "C" (mkCoords 0 1250) 20).
  - exact wf_store_hopIpp.
  - exact sized_store_hopIpp.
  - vm_compute. lia.
Defined.

Lemma worker_never_throws {SA : ScoreArith} job : forall fuel w e,
  worker fuel job w <> Throw e.
Proof.
  induction fuel as [|fuel IH]; intros w e; simpl; [discriminate|].
  unfold workerStep. destruct (pop_back (jobs w)) as [[c rest]|]; simpl;
    [|discriminate].
  destruct (job c); simpl; try discriminate; apply IH.
Qed.

(** In the inline case no exception of a job reaches the caller. *)
Lemma inline_never_throws {SA : ScoreArith}
  (job : Coords -> outcome CoordProjection) (coords : list Coords)
  (nCores : nat) (schedule : list nat) (e : exn) :
  (nCores <= 1)%nat ->
  projectCoordsWith job coords nCores schedule <> Throw e.
Proof.
  intros Hn. unfold projectCoordsWith.
  replace (nCores <=? 1)%nat with true by (symmetry; now apply Nat.leb_le).
  apply worker_never_throws.
Qed.

(** C7 (fails on the code): with [nCores <= 1] the exception of a job is
    recorded and dropped: [projectCoords] returns to its caller, where the
    same batch on two threads re-raises (the [std::exception] copy of what
    the job threw). *)
Theorem inline_exception_not_rethrown :
  (forall (L : StdLib) (SA : ScoreArith),
     projectCoords exIpp "Z" "B" [mkCoords 0 1057] 1 []
     = Ok (mkWorker [] true (Some StdException) [])) /\
  (forall (L : StdLib) (SA : ScoreArith),
     projectCoords exIpp "Z" "B" [mkCoords 0 1057] 2 [] = Throw StdException).
Proof. split; intros; reflexivity. Qed.

(** C8 (counterexample): on an entry with [qry_start = qry_end], and on
    well-formed entries one of which lies across [INT_MAX] on the query,
    the wrapper aborts on its sanity check and returns nothing. *)
Lemma wrapper_aborts_on_degenerate_entry :
  longestSubsequence degenerateSeq = AssertFail /\
  longestSubsequence degenerateSeq
  <> Ok (spec_longestSubsequence degenerateSeq) /\
  longestSubsequence wideSeq = AssertFail /\
  longestSubsequence wideSeq <> Ok (spec_longestSubsequence wideSeq).
Proof.
  split; [reflexivity|]. split; [discriminate|].
  split; [vm_compute; reflexivity|].
  replace (longestSubsequence wideSeq) with (@AssertFail (list PwalnEntry))
    by (vm_compute; reflexivity).
  discriminate.
Qed.

(** C8 (amended): on entries with [qry_start <> qry_end] whose query
    coordinates fit in [int], the wrapper returns what the specification
    describes: the longer of the forward and the reverse run, the forward
    one on a tie. *)
Theorem longestSubsequence_returns_longer (seq : list PwalnEntry) :
  Forall strand_ok seq -> Forall qry_in_int seq ->
  longestSubsequence seq = Ok (spec_longestSubsequence seq).
Proof. apply wrapper_ok. Qed.

Lemma longestSubsequence_returns_longer_witness :
  longestSubsequence exBucket = Ok (spec_longestSubsequence exBucket).
Proof.
  apply (longestSubsequence_returns_longer exBucket).
  - unfold exBucket, strand_ok; repeat constructor; simpl; lia.
  - unfold exBucket, qry_in_int, two31; repeat constructor; simpl; lia.
Defined.

(** C9 (fails on the code): two well-formed forward entries, the first
    across [INT_MAX] on the query and behind the second one: the narrowing
    to [int] makes the helper chain them, and the sanity check of the
    forward result fails. *)
Theorem sanity_assert_fails_beyond_int_max :
  Forall wf_entry wideSeq /\
  inc_of wideSeq = wideSeq /\
  spec_forward wideSeq = [fwdEntry 20 30 10 20] /\
  longestSubsequence wideSeq = AssertFail.
Proof.
  split; [|vm_compute; repeat split].
  unfold wideSeq, wf_entry, is_u32, is_u16, two32, two16;
    repeat constructor; simpl; lia.
Qed.

(* ================================================================== *)
(** * Further properties of the code *)

(** ** The helper returns a longest chain *)

Section Longest.

Variable seq : list PwalnEntry.
Variable filter : PwalnEntry -> bool.
Variable lo hi : PwalnEntry -> Z.

Local Abbreviation at_seq := (Lis.at_seq seq).
Local Abbreviation chain := (is_chain seq filter lo hi).
Local Abbreviation below := (chain_below seq filter lo hi).
Local Abbreviation ends := (smallest_ends seq filter lo hi).
Local Abbreviation hi_at := (Lis.hi_at seq hi).
Local Abbreviation lo_at := (Lis.lo_at seq lo).

Lemma chain_below_bound c : forall b b',
  below b c ->
  (forall j, hd_error c = Some j -> (j < b')%nat) ->
  below b' c.
Proof.
  destruct c as [|j c]; simpl; auto.
  intros b b' (Hj & Hf & Hl & Hc) Hb. repeat split; auto.
Qed.

Lemma chain_below_succ i j c :
  below (S i) (j :: c) ->
  below i (j :: c) \/
  (j = i /\ filter (at_seq i) = true /\ below i c /\
   match c with
   | [] => True
   | j' :: _ => hi (at_seq j') <= lo (at_seq i)
   end).
Proof.
  intros (Hj & Hf & Hl & Hc).
  destruct (Nat.eq_dec j i) as [->|Hne].
  - right. split; [reflexivity|]. split; [exact Hf|]. split; [|exact Hl].
    apply (chain_below_bound c i i Hc).
    destruct c as [|j' c']; simpl; [discriminate|].
    intros ? [= <-]. now destruct Hc.
  - left. simpl. repeat split; auto. lia.
Qed.

Lemma is_chain_rev_append : forall idxs c,
  chain idxs ->
  below (length seq) c ->
  (forall j' j, hd_error c = Some j' -> hd_error idxs = Some j ->
     (j' < j)%nat /\ hi (at_seq j') <= lo (at_seq j)) ->
  below (length seq) (rev_append idxs c).
Proof.
  induction idxs as [|j rest IH]; intros c Hi Hc Hlink; simpl; auto.
  destruct Hi as (Hj & Hf & Hnext & Hrest).
  apply IH; auto.
  - cbn [chain_below]. repeat split; auto.
    + destruct c as [|j' c']; auto.
      now destruct (Hlink j' j eq_refl eq_refl).
    + apply (chain_below_bound c (length seq) j Hc).
      intros j' Hj'. now destruct (Hlink j' j Hj' eq_refl).
  - intros j1 j2 [= <-] Hhd. destruct rest as [|j'' rest']; [discriminate|].
    injection Hhd as <-. exact Hnext.
Qed.

Lemma is_chain_below idxs :
  chain idxs -> below (length seq) (rev idxs).
Proof.
  intros H. rewrite rev_alt. apply is_chain_rev_append; simpl; auto.
  intros; discriminate.
Qed.

Lemma is_chain_snoc l x :
  chain l -> (x < length seq)%nat -> filter (at_seq x) = true ->
  (forall y, l <> [] -> last l 0%nat = y ->
     (y < x)%nat /\ hi (at_seq y) <= lo (at_seq x)) ->
  chain (l ++ [x]).
Proof.
  induction l as [|a l IH]; intros Hc Hx Hf Hlast.
  - simpl. auto.
  - destruct Hc as (Ha & Hfa & Hnext & Hrest).
    change ((a :: l) ++ [x]) with (a :: (l ++ [x])).
    cbn [is_chain]. repeat split; auto.
    + destruct l as [|b l']; simpl.
      * apply Hlast; [discriminate | reflexivity].
      * exact Hnext.
    + apply IH; auto. intros y Hne Hy.
      apply Hlast; [discriminate|]. destruct l; [congruence | exact Hy].
Qed.

Lemma trace_idx_last prev k v : last (trace_idx prev (S k) v) 0%nat = v.
Proof. simpl. apply last_last. Qed.

Lemma trace_idx_chain prev k : forall v,
  Lis.chain_ok seq filter lo hi prev k v -> chain (trace_idx prev k v).
Proof.
  induction k as [|k IH]; intros v Hc; [exact I|].
  destruct Hc as (Hlen & Hf & Hrest).
  change (trace_idx prev (S k) v) with (trace_idx prev k (Lis.rd prev v) ++ [v]).
  destruct k as [|k'].
  - simpl. auto.
  - destruct Hrest as (Hlt & Hlink & Hc').
    apply is_chain_snoc; auto.
    intros y _ Hy. rewrite trace_idx_last in Hy. subst y. auto.
Qed.

Lemma backtrace_trace prev k : forall v,
  Lis.backtrace seq prev k v = map at_seq (trace_idx prev k v).
Proof.
  induction k as [|k IH]; intros v; simpl; auto.
  now rewrite map_app, IH.
Qed.

(** The elements of the result are the elements of a chain of [seq]. *)
Lemma helper_chain :
  exists idxs,
    chain idxs /\
    Lis.longestSubsequence_helper seq filter lo hi = map at_seq idxs.
Proof.
  unfold Lis.longestSubsequence_helper.
  destruct seq as [|e0 seq'] eqn:Hseq; [exists []; split; [exact I | reflexivity]|].
  rewrite <- Hseq.
  pose proof (LisFacts.scan_final_inv seq filter lo hi) as Hinv.
  destruct (Lis.scan seq filter lo hi) as [m prev].
  destruct Hinv as [Hlen Hm]; simpl in *.
  exists (trace_idx prev (length m) (Lis.back m)).
  split; [|apply backtrace_trace].
  apply trace_idx_chain.
  destruct (length m) as [|n] eqn:Hn; [exact I|].
  assert (Hne : m <> []) by (destruct m; simpl in *; congruence).
  rewrite LisFacts.back_rd, Hn by auto.
  replace (S n - 1)%nat with n by lia.
  apply (Hm n); lia.
Qed.

(** *** The binary search finds the first element that ends after the start
    of [seq[i]] *)

Lemma bsearch_upper m i : forall fuel u v,
  (u <= v)%nat -> (v - u <= fuel)%nat ->
  lo_at i < hi_at (Lis.rd m v) ->
  lo_at i < hi_at (Lis.rd m (Lis.bsearch seq lo hi fuel m i u v)).
Proof.
  induction fuel as [|fuel IH]; intros u v Huv Hfuel Hv; cbn [Lis.bsearch].
  - now replace u with v by lia.
  - destruct (u <? v)%nat eqn:Hlt.
    + apply Nat.ltb_lt in Hlt.
      pose proof (LisFacts.mid_range u v Hlt) as Hmid.
      set (mid := ((u + v) / 2)%nat) in *.
      destruct (Lis.hi_at seq hi (Lis.rd m mid) <=? Lis.lo_at seq lo i) eqn:Ht.
      * apply IH; auto; lia.
      * apply Z.leb_gt in Ht. apply IH; auto; lia.
    + apply Nat.ltb_ge in Hlt. now replace u with v by lia.
Qed.

Hypothesis lo_le_hi : forall j,
  (j < length seq)%nat -> filter (at_seq j) = true -> lo_at j <= hi_at j.

Lemma smallest_ends_skip i m :
  filter (at_seq i) = false -> ends i m -> ends (S i) m.
Proof.
  intros Hf [Hmono Hmin]. split; auto.
  intros j c Hc. destruct (chain_below_succ i j c Hc) as [H|(-> & Hfi & _)].
  - now apply Hmin.
  - congruence.
Qed.

Lemma smallest_ends_step i st :
  (i < length seq)%nat ->
  ends i (fst st) ->
  ends (S i) (fst (Lis.scan_step seq filter lo hi st i)).
Proof.
  destruct st as [m prev]. unfold Lis.scan_step. cbn [fst].
  intros Hi Hinv.
  destruct (filter (at_seq i)) eqn:Hf; cbn [negb fst];
    [|now apply smallest_ends_skip].
  pose proof (lo_le_hi i Hi Hf) as Hlohi.
  destruct Hinv as [Hmono Hmin].
  destruct (length m =? 0)%nat eqn:Hm0; cbn [fst].
  { apply Nat.eqb_eq in Hm0. destruct m; [|discriminate]. split.
    - intros p q Hpq. simpl in Hpq. replace p with q by lia. lia.
    - intros j c Hc.
      destruct (chain_below_succ i j c Hc) as [H|(-> & _ & Hc' & _)].
      + destruct (Hmin j c H) as [Hl _]. simpl in Hl. lia.
      + destruct c as [|j' c'].
        * simpl. split; [lia|]. unfold Lis.rd; simpl. lia.
        * destruct (Hmin j' c' Hc') as [Hl _]. simpl in Hl. lia. }
  apply Nat.eqb_neq in Hm0.
  assert (Hne : m <> []) by (destruct m; simpl in *; congruence).
  assert (Hback : Lis.back m = Lis.rd m (length m - 1)) by now apply LisFacts.back_rd.
  destruct (Lis.hi_at seq hi (Lis.back m) <=? Lis.lo_at seq lo i) eqn:Hpush;
    cbn [fst].
  { apply Z.leb_le in Hpush. rewrite Hback in Hpush.
    assert (Hall : forall p, (p < length m)%nat -> hi_at (Lis.rd m p) <= hi_at i).
    { intros p Hp.
      assert (Hpq : (p <= length m - 1 < length m)%nat) by lia.
      specialize (Hmono p (length m - 1)%nat Hpq). lia. }
    split.
    - intros p q Hpq. rewrite length_app in Hpq; cbn [length] in Hpq.
      destruct (Nat.eq_dec q (length m)) as [->|Hq].
      + rewrite LisFacts.rd_app_last.
        destruct (Nat.eq_dec p (length m)) as [->|Hp].
        * rewrite LisFacts.rd_app_last. lia.
        * rewrite LisFacts.rd_app_left by lia. apply Hall; lia.
      + rewrite !LisFacts.rd_app_left by lia. apply Hmono; lia.
    - intros j c Hc. rewrite length_app; cbn [length].
      destruct (chain_below_succ i j c Hc) as [H|(-> & _ & Hc' & Hl)].
      + destruct (Hmin j c H) as [Hlen Hle]. split; [lia|].
        now rewrite LisFacts.rd_app_left by lia.
      + assert (Hlen : (length c <= length m)%nat).
        { destruct c as [|j' c']; [simpl; lia|].
          destruct (Hmin j' c' Hc') as [Hl' _]. simpl. lia. }
        split; [lia|].
        destruct (Nat.eq_dec (length c) (length m)) as [He|Hn].
        * rewrite He, LisFacts.rd_app_last. lia.
        * rewrite LisFacts.rd_app_left by lia. apply Hall; lia. }
  apply Z.leb_gt in Hpush. rewrite Hback in Hpush.
  set (u := Lis.bsearch seq lo hi (length m) m i 0%nat (length m - 1)%nat).
  destruct (LisFacts.bsearch_spec seq lo hi m i (length m) 0%nat
              (length m - 1)%nat (Nat.le_0_l _)) as [Hu Hp]. fold u in Hu, Hp.
  assert (Hup : lo_at i < hi_at (Lis.rd m u)).
  { apply bsearch_upper; auto; lia. }
  assert (Hbelow : forall p, (p < u)%nat -> hi_at (Lis.rd m p) <= lo_at i).
  { intros p Hpu. destruct Hp as [Hp|Hp]; [lia|].
    assert (Hpq : (p <= u - 1 < length m)%nat) by lia.
    specialize (Hmono p (u - 1)%nat Hpq). unfold Lis.hi_at, Lis.lo_at in *. lia. }
  assert (Hlen_c : forall c, below i c ->
            match c with
            | [] => True
            | j' :: _ => hi (at_seq j') <= lo (at_seq i)
            end -> (length c <= u)%nat).
  { intros c Hc Hl. destruct c as [|j' c']; [simpl; lia|].
    destruct (Hmin j' c' Hc) as [Hl' Hle]. simpl.
    destruct (Nat.le_gt_cases u (length c')) as [Hge|Hlt]; [|lia].
    assert (Hpq : (u <= length c' < length m)%nat) by lia.
    specialize (Hmono u (length c') Hpq). unfold Lis.hi_at, Lis.lo_at in *. lia. }
  destruct (Lis.hi_at seq hi i <? Lis.hi_at seq hi (Lis.rd m u)) eqn:Hless;
    cbn [fst].
  - apply Z.ltb_lt in Hless. split.
    + rewrite LisFacts.wr_length. intros p q Hpq.
      destruct (Nat.eq_dec q u) as [->|Hq].
      * rewrite LisFacts.rd_wr_same by lia.
        destruct (Nat.eq_dec p u) as [->|Hpne].
        -- rewrite LisFacts.rd_wr_same by lia. lia.
        -- rewrite LisFacts.rd_wr_other by auto.
           assert (Hpu : (p < u)%nat) by lia. specialize (Hbelow p Hpu). lia.
      * rewrite (LisFacts.rd_wr_other m u q) by auto.
        destruct (Nat.eq_dec p u) as [->|Hpne].
        -- rewrite LisFacts.rd_wr_same by lia.
           assert (Hpq' : (u <= q < length m)%nat) by lia.
           specialize (Hmono u q Hpq'). lia.
        -- rewrite LisFacts.rd_wr_other by auto. apply Hmono; lia.
    + rewrite LisFacts.wr_length. intros j c Hc.
      destruct (chain_below_succ i j c Hc) as [H|(-> & _ & Hc' & Hl)].
      * destruct (Hmin j c H) as [Hlen Hle]. split; [lia|].
        destruct (Nat.eq_dec (length c) u) as [He|Hn].
        -- rewrite He, LisFacts.rd_wr_same by lia. rewrite He in Hle. lia.
        -- now rewrite LisFacts.rd_wr_other by auto.
      * pose proof (Hlen_c c Hc' Hl) as Hcu. split; [lia|].
        destruct (Nat.eq_dec (length c) u) as [He|Hn].
        -- rewrite He, LisFacts.rd_wr_same by lia. lia.
        -- rewrite LisFacts.rd_wr_other by auto.
           assert (Hpu : (length c < u)%nat) by lia.
           specialize (Hbelow _ Hpu). lia.
  - apply Z.ltb_ge in Hless. split; auto.
    intros j c Hc.
    destruct (chain_below_succ i j c Hc) as [H|(-> & _ & Hc' & Hl)].
    + now apply Hmin.
    + pose proof (Hlen_c c Hc' Hl) as Hcu. split; [lia|].
      assert (Hpq : (length c <= u < length m)%nat) by lia.
      specialize (Hmono _ _ Hpq). lia.
Qed.

Lemma smallest_ends_from : forall idxs i st,
  idxs = List.seq i (length idxs) ->
  (i + length idxs <= length seq)%nat ->
  ends i (fst st) ->
  ends (i + length idxs)
    (fst (Lis.scan_from seq filter lo hi st idxs)).
Proof.
  induction idxs as [|j idxs IH]; intros i st Hseq Hle Hinv; simpl in *.
  - now rewrite Nat.add_0_r.
  - injection Hseq as -> Hseq'.
    replace (i + S (length idxs))%nat with (S i + length idxs)%nat by lia.
    apply IH; auto; [lia|].
    apply smallest_ends_step; auto; lia.
Qed.

Lemma smallest_ends_final :
  ends (length seq) (fst (Lis.scan seq filter lo hi)).
Proof.
  unfold Lis.scan.
  pose proof (smallest_ends_from (List.seq 0 (length seq)) 0%nat
                ([], repeat 0%nat (length seq))) as H.
  rewrite length_seq in H. apply H; auto.
  split; simpl.
  - intros p q Hpq. lia.
  - intros j c (Hj & _). lia.
Qed.

Lemma helper_length :
  length (Lis.longestSubsequence_helper seq filter lo hi)
  = length (fst (Lis.scan seq filter lo hi)).
Proof.
  unfold Lis.longestSubsequence_helper.
  destruct seq as [|e0 seq'] eqn:Hseq; [reflexivity|].
  rewrite <- Hseq.
  destruct (Lis.scan seq filter lo hi) as [m prev]. simpl.
  apply LisFacts.backtrace_length.
Qed.

(** No chain of [seq] is longer than the result. *)
Lemma helper_longest idxs :
  chain idxs ->
  (length idxs <= length (Lis.longestSubsequence_helper seq filter lo hi))%nat.
Proof.
  intros Hc. rewrite helper_length.
  pose proof (is_chain_below idxs Hc) as Hb.
  rewrite <- length_rev.
  destruct (rev idxs) as [|j c]; [simpl; lia|].
  destruct smallest_ends_final as [_ Hmin].
  destruct (Hmin j c Hb) as [Hl _]. simpl. lia.
Qed.

End Longest.

(** ** The wrapper returns a longest collinear subsequence of one strand *)

Lemma fwd_lo_le_hi seq j :
  (j < length seq)%nat ->
  negb (isQryReversed (Lis.at_seq seq j)) = true ->
  Lis.lo_at seq qryStart j <= Lis.hi_at seq qryEnd j.
Proof.
  intros _ H. unfold Lis.lo_at, Lis.hi_at, isQryReversed in *.
  apply negb_true_iff, Z.ltb_ge in H. exact H.
Qed.

Lemma rev_lo_le_hi seq j :
  (j < length seq)%nat ->
  isQryReversed (Lis.at_seq seq j) = true ->
  Lis.lo_at seq (fun e => - qryStart e) j
  <= Lis.hi_at seq (fun e => - qryEnd e) j.
Proof.
  intros _ H. unfold Lis.lo_at, Lis.hi_at, isQryReversed in *.
  apply Z.ltb_lt in H. lia.
Qed.

(** ** What the neighbour scan keeps *)

Section ScanFacts.

Variable refLoc : Z.

Lemma scan_downstream : forall rest st,
  (length (anchorsDownstream st) < topn)%nat ->
  anchorsDownstream (neighbourScan refLoc rest st)
  = firstn topn (anchorsDownstream st
                 ++ List.filter (isDownstream refLoc) rest).
Proof.
  induction rest as [|e rest IH]; intros st Hlen; cbn [neighbourScan List.filter].
  - rewrite app_nil_r. symmetry. apply firstn_all2. lia.
  - destruct (refEnd e <=? refLoc) eqn:Hup.
    + replace (isDownstream refLoc e) with false
        by (unfold isDownstream; now rewrite Hup).
      rewrite IH by exact Hlen. reflexivity.
    + destruct (refLoc <? refStart e) eqn:Hdown.
      * replace (isDownstream refLoc e) with true
          by (unfold isDownstream; now rewrite Hup, Hdown).
        destruct (length (anchorsDownstream st ++ [e]) =? topn)%nat eqn:Hfull.
        -- apply Nat.eqb_eq in Hfull. cbn [anchorsDownstream].
           change (e :: List.filter (isDownstream refLoc) rest)
             with ([e] ++ List.filter (isDownstream refLoc) rest).
           rewrite app_assoc, <- Hfull.
           rewrite firstn_app, Nat.sub_diag, firstn_all. simpl.
           now rewrite app_nil_r.
        -- apply Nat.eqb_neq in Hfull.
           rewrite length_app in Hfull; cbn [length] in Hfull.
           rewrite IH; cbn [anchorsDownstream].
           ++ now rewrite <- app_assoc.
           ++ rewrite length_app; cbn [length]. lia.
      * replace (isDownstream refLoc e) with false
          by (unfold isDownstream; now rewrite Hup, Hdown).
        rewrite IH by exact Hlen. reflexivity.
Qed.

Lemma upstream_inv_skip_all l : forall scanned s,
  Forall (fun e => refLoc < refEnd e) l ->
  upstream_inv refLoc scanned s -> upstream_inv refLoc (scanned ++ l) s.
Proof.
  induction l as [|x l IH]; intros scanned s Hl Hinv.
  - now rewrite app_nil_r.
  - inversion Hl; subst.
    replace (scanned ++ x :: l) with ((scanned ++ [x]) ++ l)
      by now rewrite <- app_assoc.
    apply IH; auto. now apply upstream_inv_skip.
Qed.

Lemma sorted_after_downstream e rest :
  sortedByRefStart (e :: rest) -> refLoc < refStart e ->
  Forall (fun x => refLoc < refEnd x) (e :: rest) /\
  List.filter (isOverlapping refLoc) (e :: rest) = [].
Proof.
  intros [Hs Hwf] He.
  inversion Hs as [|? ? _ Hall]; subst.
  assert (H : Forall (fun x => refLoc < refStart x /\ refLoc < refEnd x)
                (e :: rest)).
  { rewrite Forall_forall in *. intros x Hx.
    pose proof (Hwf x Hx) as Hw. destruct Hx as [Hx|Hx].
    - subst x. lia.
    - specialize (Hall x Hx). lia. }
  split.
  - eapply Forall_impl; [|exact H]. simpl; tauto.
  - clear -H. induction H as [|x l [H1 H2] _ IH]; auto.
    simpl. unfold isOverlapping.
    replace (refLoc <? refStart x) with true
      by (symmetry; now apply Z.ltb_lt).
    now rewrite andb_false_r.
Qed.

Lemma sortedByRefStart_tail e rest :
  sortedByRefStart (e :: rest) -> sortedByRefStart rest.
Proof.
  intros [Hs Hwf]. inversion Hs; inversion Hwf; subst. split; auto.
Qed.

Lemma scan_sorted : forall rest scanned st,
  sortedByRefStart rest ->
  upstream_inv refLoc scanned (anchorsUpstream st) ->
  upstream_inv refLoc (scanned ++ rest)
    (anchorsUpstream (neighbourScan refLoc rest st)) /\
  ovAln (neighbourScan refLoc rest st)
  = ovAln st ++ List.filter (isOverlapping refLoc) rest.
Proof.
  induction rest as [|e rest IH]; intros scanned st Hsorted Hinv.
  - simpl. now rewrite !app_nil_r.
  - pose proof (sortedByRefStart_tail _ _ Hsorted) as Htail.
    cbn [neighbourScan].
    replace (scanned ++ e :: rest) with ((scanned ++ [e]) ++ rest)
      by now rewrite <- app_assoc.
    cbn [List.filter].
    destruct (refEnd e <=? refLoc) eqn:Hup.
    + replace (isOverlapping refLoc e) with false
        by (unfold isOverlapping; now rewrite Hup).
      apply Z.leb_le in Hup.
      pose proof (upstream_inv_insert refLoc _ _ e Hup Hinv) as Hins.
      match goal with
      | |- context [neighbourScan refLoc rest ?s] => set (st' := s)
      end.
      assert (Hst' : upstream_inv refLoc (scanned ++ [e]) (anchorsUpstream st')).
      { unfold st'. cbn [anchorsUpstream].
        destruct (_ <? _)%nat; auto. now apply upstream_inv_firstn. }
      destruct (IH (scanned ++ [e]) st' Htail Hst') as [H1 H2].
      split; auto.
    + destruct (refLoc <? refStart e) eqn:Hdown.
      * replace (isOverlapping refLoc e) with false
          by (unfold isOverlapping; now rewrite Hup, Hdown).
        apply Z.leb_gt in Hup.
        pose proof (upstream_inv_skip refLoc _ _ e Hup Hinv) as Hskip.
        apply Z.ltb_lt in Hdown.
        destruct (sorted_after_downstream e rest Hsorted Hdown) as [Hall Hov].
        destruct (_ =? _)%nat.
        -- cbn [anchorsUpstream ovAln]. split.
           ++ inversion Hall; subst. now apply upstream_inv_skip_all.
           ++ cbn [List.filter] in Hov.
              destruct (isOverlapping refLoc e); [discriminate|].
              rewrite Hov. now rewrite app_nil_r.
        -- match goal with
           | |- context [neighbourScan refLoc rest ?s] => set (st' := s)
           end.
           destruct (IH (scanned ++ [e]) st' Htail Hskip) as [H1 H2].
           split; auto.
      * replace (isOverlapping refLoc e) with true
          by (unfold isOverlapping; now rewrite Hup, Hdown).
        apply Z.leb_gt in Hup.
        pose proof (upstream_inv_skip refLoc _ _ e Hup Hinv) as Hskip.
        destruct (IH (scanned ++ [e])
                    (mkScan (anchorsUpstream st) (ovAln st ++ [e])
                       (anchorsDownstream st)) Htail Hskip) as [H1 H2].
        split; auto. rewrite H2. cbn [ovAln]. now rewrite <- app_assoc.
Qed.

(** Counting: the scan hands over no more entries of a kind than the bucket
    holds. *)
Lemma filter_set_insert (Q : PwalnEntry -> bool) e s :
  (length (List.filter Q (set_insert e s))
   <= length (List.filter Q (e :: s)))%nat.
Proof.
  induction s as [|a s IH]; simpl; [lia|].
  destruct (refEnd a <? refEnd e).
  - simpl. lia.
  - destruct (refEnd e <? refEnd a); simpl in *.
    + destruct (Q e), (Q a); simpl in *; lia.
    + destruct (Q e), (Q a); simpl; lia.
Qed.

Lemma filter_firstn_le (Q : PwalnEntry -> bool) n : forall s,
  (length (List.filter Q (firstn n s)) <= length (List.filter Q s))%nat.
Proof.
  induction n as [|n IH]; intros [|a s]; simpl; try lia.
  specialize (IH s). destruct (Q a); simpl; lia.
Qed.

Lemma scan_count (Q : PwalnEntry -> bool) : forall rest st,
  (length (List.filter Q (anchorsUpstream (neighbourScan refLoc rest st)))
   + length (List.filter Q (ovAln (neighbourScan refLoc rest st)))
   + length (List.filter Q (anchorsDownstream (neighbourScan refLoc rest st)))
   <= length (List.filter Q (anchorsUpstream st))
      + length (List.filter Q (ovAln st))
      + length (List.filter Q (anchorsDownstream st))
      + length (List.filter Q rest))%nat.
Proof.
  induction rest as [|e rest IH]; intros st; cbn [neighbourScan].
  - simpl. lia.
  - cbn [List.filter].
    assert (He : (length (List.filter Q [e]) + length (List.filter Q rest)
                  = length (if Q e then e :: List.filter Q rest
                            else List.filter Q rest))%nat).
    { simpl. destruct (Q e); simpl; lia. }
    rewrite <- He. clear He.
    destruct (refEnd e <=? refLoc).
    + etransitivity; [apply IH|]. cbn [anchorsUpstream ovAln anchorsDownstream].
      pose proof (filter_set_insert Q e (anchorsUpstream st)) as H1.
      pose proof (filter_firstn_le Q topn (set_insert e (anchorsUpstream st)))
        as H2.
      cbn [List.filter] in H1.
      assert (H3 : (length (if Q e then e :: List.filter Q (anchorsUpstream st)
                            else List.filter Q (anchorsUpstream st))
                    = length (List.filter Q [e])
                      + length (List.filter Q (anchorsUpstream st)))%nat).
      { simpl. destruct (Q e); simpl; lia. }
      destruct (_ <? _)%nat; lia.
    + destruct (refLoc <? refStart e).
      * assert (Hd : (length (List.filter Q (anchorsDownstream st ++ [e]))
                      = length (List.filter Q (anchorsDownstream st))
                        + length (List.filter Q [e]))%nat).
        { now rewrite filter_app, length_app. }
        destruct (_ =? _)%nat.
        -- cbn [anchorsUpstream ovAln anchorsDownstream]. lia.
        -- etransitivity; [apply IH|].
           cbn [anchorsUpstream ovAln anchorsDownstream]. lia.
      * etransitivity; [apply IH|].
        cbn [anchorsUpstream ovAln anchorsDownstream].
        rewrite filter_app, length_app. lia.
Qed.

Lemma scanAndTrim_count (Q : PwalnEntry -> bool) bucket :
  (length (List.filter Q (anchorsUpstream (scanAndTrim refLoc bucket)
                          ++ ovAln (scanAndTrim refLoc bucket)
                          ++ anchorsDownstream (scanAndTrim refLoc bucket)))
   <= length (List.filter Q bucket))%nat.
Proof.
  unfold scanAndTrim. cbn [anchorsUpstream ovAln anchorsDownstream].
  pose proof (scan_count Q bucket (mkScan [] [] [])) as H.
  cbn [anchorsUpstream ovAln anchorsDownstream] in H. simpl in H.
  rewrite !filter_app, !length_app.
  set (st := neighbourScan refLoc bucket (mkScan [] [] [])) in *.
  pose proof (filter_firstn_le Q topn (anchorsUpstream st)) as H2.
  destruct (_ <? _)%nat; lia.
Qed.

End ScanFacts.

(** ** What the anchors are *)

Lemma candidates_chrom `{L : StdLib} `{!StdLibLaws L} refLoc bucket sorted :
  candidates refLoc bucket = Some sorted ->
  exists c, Forall (fun e => qryChrom e = c) sorted.
Proof.
  unfold candidates. destruct (_ || _)%bool; [discriminate|].
  intros [= <-].
  set (st := scanAndTrim refLoc bucket).
  exists (computeMajorChrom (ovAln st) (anchorsUpstream st)
            (anchorsDownstream st)).
  apply Forall_forall. intros e Hin.
  apply (Permutation_in _ (std_sort_perm _)) in Hin.
  unfold removeEntriesWithNonMajorQryChromosome in Hin.
  rewrite !in_app_iff, !filter_In in Hin.
  destruct Hin as [[_ H]|[[_ H]|[_ H]]]; now apply Z.eqb_eq in H.
Qed.

Lemma filter_filter_le {A} (Q P : A -> bool) l :
  (length (List.filter Q (List.filter P l)) <= length (List.filter Q l))%nat.
Proof.
  induction l as [|a l IH]; simpl; auto.
  destruct (P a); simpl; destruct (Q a); simpl; lia.
Qed.

Lemma candidates_count `{L : StdLib} `{!StdLibLaws L} refLoc bucket sorted
  (Q : PwalnEntry -> bool) :
  candidates refLoc bucket = Some sorted ->
  (length (List.filter Q sorted) <= length (List.filter Q bucket))%nat.
Proof.
  unfold candidates. cbv zeta.
  set (st := scanAndTrim refLoc bucket).
  set (c := computeMajorChrom _ _ _).
  destruct (_ || _)%bool; [discriminate|].
  intros H. injection H as <-.
  rewrite (Permutation_length
             (Permutation_filter' Q _ _ (std_sort_perm _))).
  etransitivity; [|apply (scanAndTrim_count refLoc Q bucket)]. fold st.
  unfold removeEntriesWithNonMajorQryChromosome.
  rewrite <- !filter_app. apply filter_filter_le.
Qed.

(** Increasing indices of elements that pass a test are no more than the
    elements that pass it. *)
Lemma chain_count filter lo hi (Q : PwalnEntry -> bool) :
  forall seq idxs base,
  (forall e, In e seq -> filter e = true -> Q e = true) ->
  is_chain seq filter lo hi idxs ->
  (forall j, hd_error idxs = Some j -> (base <= j)%nat) ->
  (length idxs <= length (List.filter Q (skipn base seq)))%nat.
Proof.
  intros seq idxs. induction idxs as [|j rest IH]; intros base HQ Hc Hb.
  - simpl. lia.
  - destruct Hc as (Hj & Hf & Hnext & Hrest).
    specialize (Hb j eq_refl).
    assert (Hsplit : skipn base seq
                     = firstn (j - base) (skipn base seq)
                       ++ Lis.at_seq seq j :: skipn (S j) seq).
    { rewrite <- (firstn_skipn (j - base) (skipn base seq)) at 1.
      f_equal. rewrite skipn_skipn.
      replace (j - base + base)%nat with j by lia.
      clear -Hj. unfold Lis.at_seq. revert j Hj.
      induction seq as [|a s IHs]; intros [|j] Hj; simpl in *; try lia; auto.
      apply IHs. lia. }
    rewrite Hsplit, filter_app, length_app. cbn [List.filter].
    rewrite (HQ (Lis.at_seq seq j)); auto; [|now apply nth_In].
    cbn [length].
    assert (Hr : (length rest
                  <= length (List.filter Q (skipn (S j) seq)))%nat).
    { apply IH; auto. intros j' Hj'. destruct rest as [|j'' rest']; [discriminate|].
      injection Hj' as <-. destruct Hnext. lia. }
    lia.
Qed.

Lemma closestLoop_overlap refLoc : forall rest seen st,
  (forall o, closestOvAlnAnchor st = Some o ->
     In o seen /\ refStart o <= refLoc < refEnd o) ->
  forall o, closestOvAlnAnchor (closestLoop refLoc rest st) = Some o ->
    In o (seen ++ rest) /\ refStart o <= refLoc < refEnd o.
Proof.
  induction rest as [|a rest IH]; intros seen st Hst o; cbn [closestLoop].
  - rewrite app_nil_r. apply Hst.
  - assert (Hkeep : forall o, closestOvAlnAnchor st = Some o ->
              In o (seen ++ [a]) /\ refStart o <= refLoc < refEnd o).
    { intros o' Ho'. destruct (Hst o' Ho'). split; auto.
      apply in_or_app; auto. }
    replace (seen ++ a :: rest) with ((seen ++ [a]) ++ rest)
      by now rewrite <- app_assoc.
    destruct (refEnd a <=? refLoc) eqn:Hup.
    + apply IH.
      destruct (match closestUpstreamAnchor st with
                | Some u => refEnd u <? refEnd a | None => true end); auto.
    + destruct (refLoc <? refStart a) eqn:Hdown.
      * destruct (match closestDownstreamAnchor st with
                  | Some d => refStart a <? refStart d | None => true end).
        -- cbn [closestOvAlnAnchor]. intros Ho. destruct (Hkeep o Ho).
           split; auto. apply in_or_app. now left.
        -- apply IH; auto.
      * apply Z.leb_gt in Hup. apply Z.ltb_ge in Hdown.
        assert (Ha : forall o, Some a = Some o ->
                  In o (seen ++ [a]) /\ refStart o <= refLoc < refEnd o).
        { intros o' [= <-]. split; [apply in_or_app; simpl; auto | lia]. }
        destruct (closestOvAlnAnchor st) as [o'|] eqn:Hov.
        -- apply IH.
           match goal with
           | |- context [if ?c then _ else _] => destruct c
           end; cbn [closestOvAlnAnchor]; auto.
           rewrite Hov. exact Hkeep.
        -- apply IH. cbn [closestOvAlnAnchor]. exact Ha.
Qed.

(** The anchors the selection returns, among the collinear anchors [l]. *)
Lemma selectAnchors_cases refLoc l a :
  selectAnchors refLoc l = Some a ->
  In (upstream a) l /\ In (downstream a) l /\
  ((upstream a = downstream a /\
    refStart (upstream a) <= refLoc < refEnd (upstream a)) \/
   (refEnd (upstream a) <= refLoc /\ refLoc < refStart (downstream a))).
Proof.
  unfold selectAnchors.
  assert (Hov : forall o,
            closestOvAlnAnchor
              (closestLoop refLoc l (mkClosest None None None)) = Some o ->
            In o l /\ refStart o <= refLoc < refEnd o).
  { apply (closestLoop_overlap refLoc l [] (mkClosest None None None)).
    simpl. discriminate. }
  assert (H : selects refLoc l []
                (closestLoop refLoc l (mkClosest None None None))).
  { apply closestLoop_spec; simpl; [reflexivity | discriminate]. }
  unfold selects in H.
  destruct (closestOvAlnAnchor _) as [o|].
  { intros [= <-]; simpl.
    destruct (Hov o eq_refl) as [Hin Hr]. auto. }
  destruct (closestUpstreamAnchor _) as [u|]; [|discriminate].
  destruct (closestDownstreamAnchor _) as [d|]; [|discriminate].
  intros [= <-]; simpl.
  destruct H as (H2 & r1 & r2 & -> & H3).
  destruct (H3 u eq_refl) as [Hin Hle]. simpl in Hin.
  repeat split; auto; rewrite in_app_iff; simpl; auto.
Qed.

(** What the wrapper returns lies on one strand. *)
Lemma longestSubsequence_strand seq res :
  longestSubsequence seq = Ok res ->
  exists r, Forall (fun e => In e seq /\ isQryReversed e = r) res /\
    exists idxs,
      res = map (Lis.at_seq seq) idxs /\
      ((r = false /\ is_chain seq fwd_filter fwd_lo fwd_hi idxs) \/
       (r = true /\ is_chain seq rev_filter rev_lo rev_hi idxs)).
Proof.
  intros Hres.
  destruct (longestSubsequence_ok seq res Hres) as (_ & _ & ->).
  destruct (length (dec_of seq) <=? length (inc_of seq))%nat.
  - exists false. split.
    + destruct (LisFacts.helper_ok seq fwd_filter fwd_lo fwd_hi) as [HF _].
      eapply Forall_impl; [|exact HF]. simpl. intros e [Hin Hf].
      split; auto. unfold fwd_filter in Hf. now apply negb_true_iff in Hf.
    + destruct (helper_chain seq fwd_filter fwd_lo fwd_hi) as (idxs & Hc & He).
      exists idxs. split; [exact He | now left].
  - exists true. split.
    + destruct (LisFacts.helper_ok seq rev_filter rev_lo rev_hi) as [HF _].
      eapply Forall_impl; [|exact HF]. simpl. tauto.
    + destruct (helper_chain seq rev_filter rev_lo rev_hi) as (idxs & Hc & He).
      exists idxs. split; [exact He | now right].
Qed.

(** ** The majority chromosome *)

Lemma countOf_bump c k counts :
  countOf c (bump k counts)
  = (countOf c counts + if (k =? c)%Z then 1 else 0)%nat.
Proof.
  unfold countOf. induction counts as [|[k' n] t IH]; simpl.
  - destruct (k =? c); reflexivity.
  - destruct (k' =? k) eqn:Hk; simpl.
    + apply Z.eqb_eq in Hk. subst k'.
      destruct (k =? c); lia.
    + destruct (k' =? c) eqn:Hc; auto.
      apply Z.eqb_eq in Hc. subst k'.
      rewrite Z.eqb_sym, Hk. lia.
Qed.

Lemma bump_keys k counts :
  NoDup (map fst counts) ->
  NoDup (map fst (bump k counts)) /\
  forall x, In x (map fst (bump k counts)) -> x = k \/ In x (map fst counts).
Proof.
  induction counts as [|[k' n] t IH]; simpl; intros Hnd.
  - split; [repeat constructor; auto | intros x [<-|[]]; auto].
  - inversion Hnd as [|? ? Hni Hnd']; subst.
    destruct (k' =? k) eqn:Hk; simpl.
    + split; [exact Hnd | auto].
    + destruct (IH Hnd') as [H1 H2]. split.
      * constructor; auto. intros Hin. destruct (H2 _ Hin) as [->|Hin']; auto.
        rewrite Z.eqb_refl in Hk. discriminate.
      * intros x [<-|Hx]; auto. destruct (H2 _ Hx); auto.
Qed.

Lemma bump_positive k counts :
  Forall (fun kv => (0 < snd kv)%nat) counts ->
  Forall (fun kv => (0 < snd kv)%nat) (bump k counts).
Proof.
  induction counts as [|[k' n] t IH]; simpl; intros H.
  - repeat constructor.
  - inversion H; subst. destruct (k' =? k); constructor; simpl in *; auto; lia.
Qed.

Lemma updateChromCount_spec v : forall counts,
  NoDup (map fst counts) ->
  Forall (fun kv => (0 < snd kv)%nat) counts ->
  NoDup (map fst (updateChromCount counts v)) /\
  Forall (fun kv => (0 < snd kv)%nat) (updateChromCount counts v) /\
  forall c, countOf c (updateChromCount counts v)
            = (countOf c counts + onChrom c v)%nat.
Proof.
  unfold updateChromCount, onChrom.
  induction v as [|e v IH]; intros counts Hnd Hpos; simpl.
  - repeat split; auto.
  - destruct (IH (bump (qryChrom e) counts)) as (H1 & H2 & H3).
    + apply bump_keys; auto.
    + now apply bump_positive.
    + repeat split; auto. intros c. rewrite H3, countOf_bump.
      destruct (qryChrom e =? c); simpl; lia.
Qed.

Lemma countOf_in k n counts :
  NoDup (map fst counts) -> In (k, n) counts -> countOf k counts = n.
Proof.
  unfold countOf. induction counts as [|[k' n'] t IH]; simpl; [tauto|].
  intros Hnd [[= -> ->]|Hin].
  - now rewrite Z.eqb_refl.
  - inversion Hnd as [|? ? Hni Hnd']; subst.
    destruct (k' =? k) eqn:Hk; auto.
    apply Z.eqb_eq in Hk. subst k'. exfalso. apply Hni.
    change k with (fst (k, n)). now apply in_map.
Qed.

Lemma countOf_le_in c counts (bound : nat) :
  (forall kv, In kv counts -> (snd kv <= bound)%nat) ->
  (countOf c counts <= bound)%nat.
Proof.
  unfold countOf. induction counts as [|[k' n'] t IH]; simpl; intros H; [lia|].
  destruct (k' =? c).
  - apply (H (k', n')); auto.
  - apply IH. intros kv Hkv. apply H; auto.
Qed.

(** The loop that keeps the largest count seen. *)
Lemma fold_max_spec (l : list (Z * nat)) : forall init,
  let best := fold_left
                (fun (best : Z * nat) (kv : Z * nat) =>
                   if (snd best <? snd kv)%nat then kv else best) l init in
  (snd init <= snd best)%nat /\
  (forall kv, In kv l -> (snd kv <= snd best)%nat) /\
  (best = init \/ In best l).
Proof.
  induction l as [|kv l IH]; intros init; cbv zeta; simpl.
  - repeat split; auto. intros kv [].
  - destruct (snd init <? snd kv)%nat eqn:Hlt.
    + apply Nat.ltb_lt in Hlt. destruct (IH kv) as (H1 & H2 & H3).
      cbv zeta in *. repeat split.
      * lia.
      * intros kv' [<-|Hin]; auto.
      * destruct H3 as [->|H3]; auto.
    + apply Nat.ltb_ge in Hlt. destruct (IH init) as (H1 & H2 & H3).
      cbv zeta in *. repeat split; auto.
      * intros kv' [<-|Hin]; auto. lia.
      * destruct H3; auto.
Qed.

Lemma onChrom_app c l l' : onChrom c (l ++ l') = (onChrom c l + onChrom c l')%nat.
Proof. unfold onChrom. now rewrite filter_app, length_app. Qed.


(** ** Chromosome names and ids *)

Lemma find_index_some name l i :
  find_index name l = Some i ->
  nth_error l i = Some name /\ (i < length l)%nat /\
  forall j, (j < i)%nat -> nth_error l j <> Some name.
Proof.
  revert i; induction l as [|x t IH]; intros i; simpl; [discriminate|].
  destruct (String.eqb x name) eqn:Hx.
  - apply String.eqb_eq in Hx. intros [= <-]. subst x.
    repeat split; simpl; auto; lia.
  - apply String.eqb_neq in Hx.
    destruct (find_index name t) as [i'|]; [|discriminate].
    intros [= <-]. destruct (IH i' eq_refl) as (H1 & H2 & H3).
    repeat split; simpl; auto; [lia|].
    intros [|j] Hj; simpl; [congruence | apply H3; lia].
Qed.

Lemma find_index_none name l : find_index name l = None <-> ~ In name l.
Proof.
  induction l as [|x t IH]; simpl; [tauto|].
  destruct (String.eqb x name) eqn:Hx.
  - apply String.eqb_eq in Hx. split; [discriminate | intros H; tauto].
  - apply String.eqb_neq in Hx.
    destruct (find_index name t) as [i'|].
    + split; [discriminate|]. intros H. exfalso.
      assert (Hn : ~ In name t) by tauto. apply IH in Hn. discriminate.
    + split; auto. intros _ [H|H]; [contradiction|].
      now apply (proj1 IH).
Qed.

Lemma find_index_nth name l i :
  NoDup l -> nth_error l i = Some name -> find_index name l = Some i.
Proof.
  revert i; induction l as [|x t IH]; intros [|i] Hnd; simpl; try discriminate.
  - intros [= ->]. now rewrite String.eqb_refl.
  - intros Hn. inversion Hnd as [|? ? Hni Hnd']; subst.
    destruct (String.eqb x name) eqn:Hx.
    + apply String.eqb_eq in Hx. subst x. exfalso. apply Hni.
      eapply nth_error_In; eauto.
    + now rewrite (IH i Hnd' Hn).
Qed.

Lemma chrom_round_trip ipp name id :
  (length (chroms_ ipp) <= Z.to_nat two16)%nat ->
  chromIdFromName ipp name = Ok id -> chromName ipp id = Ok name.
Proof.
  unfold chromIdFromName, chromName. intros Hlen.
  destruct (find_index name (chroms_ ipp)) as [i|] eqn:Hf; [|discriminate].
  intros [= <-]. destruct (find_index_some _ _ _ Hf) as (Hn & Hi & _).
  assert (Hlt : Z.of_nat i < two16) by (unfold two16 in *; lia).
  rewrite Z.mod_small by lia. rewrite Nat2Z.id. now rewrite Hn.
Qed.

(** ** The loader fills the chromosome table first *)

Lemma keeps_ret {A} (a : A) : keeps_chroms (retL a).
Proof. intros s; reflexivity. Qed.

Lemma keeps_bind {A B} (m : Loader A) (f : A -> Loader B) :
  keeps_chroms m -> (forall a, keeps_chroms (f a)) -> keeps_chroms (bindL m f).
Proof.
  intros Hm Hf s. unfold bindL. specialize (Hm s).
  destruct (m s) as [[a|e| | |] s']; simpl in *; auto.
  now rewrite Hf.
Qed.

Lemma keeps_readInt w : keeps_chroms (readInt w).
Proof. intros s. apply readInt_store. Qed.

Lemma keeps_readString : keeps_chroms readString.
Proof. intros s. apply readString_store. Qed.

Lemma keeps_readEntries n : keeps_chroms (readEntries n).
Proof. intros s. apply readEntries_store. Qed.

Lemma keeps_insertBucket sp1 sp2 es : keeps_chroms (insertBucket sp1 sp2 es).
Proof. intros s. destruct es; reflexivity. Qed.

Lemma keeps_readBuckets sp1 sp2 n : keeps_chroms (readBuckets sp1 sp2 n).
Proof.
  induction n; simpl; [apply keeps_ret|].
  apply keeps_bind; [apply keeps_readInt|intros k].
  apply keeps_bind; [apply keeps_readEntries|intros es].
  apply keeps_bind; [apply keeps_insertBucket|auto].
Qed.

Lemma keeps_readSp2 sp1 n : keeps_chroms (readSp2 sp1 n).
Proof.
  induction n; simpl; [apply keeps_ret|].
  apply keeps_bind; [apply keeps_readString|intros sp2].
  apply keeps_bind; [intros s; reflexivity|intros _].
  apply keeps_bind; [apply keeps_readInt|intros k].
  apply keeps_bind; [apply keeps_readBuckets|auto].
Qed.

Lemma keeps_readSp1 n : keeps_chroms (readSp1 n).
Proof.
  induction n; simpl; [apply keeps_ret|].
  apply keeps_bind; [apply keeps_readString|intros sp1].
  apply keeps_bind; [intros s; reflexivity|intros _].
  apply keeps_bind; [apply keeps_readInt|intros k].
  apply keeps_bind; [apply keeps_readSp2|auto].
Qed.

Lemma readChroms_length n : forall s,
  (length (chromsL (snd (readChroms n s))) <= length (chromsL s) + n)%nat.
Proof.
  induction n as [|n IH]; intros s; simpl; [lia|].
  unfold bindL at 1.
  pose proof (readString_store s) as [Hc _].
  destruct (readString s) as [[name|e| | |] s1]; simpl in *;
    try (rewrite Hc; lia).
  unfold bindL, pushChrom.
  match goal with |- context [readChroms n ?x] => specialize (IH x) end.
  simpl in IH. rewrite length_app, Hc in IH. simpl in IH.
  rewrite Hc. lia.
Qed.

Lemma le_value_bound bs : 0 <= le_value bs < 256 ^ Z.of_nat (length bs).
Proof.
  induction bs as [|b t IH]; [simpl; lia|].
  cbn [le_value length]. rewrite Nat2Z.inj_succ, Z.pow_succ_r by lia.
  assert (Hb : 0 <= Z.of_N (Byte.to_N b) < 256).
  { pose proof (Byte.to_N_bounded b). lia. }
  lia.
Qed.

Lemma readBody_chroms s :
  chromsL s = [] ->
  (length (chromsL (snd (readBody s))) < Z.to_nat two16)%nat.
Proof.
  intros Hs. unfold readBody. unfold bindL at 1.
  unfold readInt at 1.
  destruct (length (unread s) <? 2)%nat eqn:Hlen.
  { simpl. rewrite Hs. simpl. unfold two16. lia. }
  set (n := le_value (firstn 2 (unread s))).
  set (s1 := mkLoad (skipn 2 (unread s)) (chromsL s) (pwalnsL s)).
  assert (Hn : 0 <= n < two16).
  { pose proof (le_value_bound (firstn 2 (unread s))) as H.
    apply Nat.ltb_ge in Hlen. rewrite firstn_length_le in H by lia.
    exact H. }
  pose proof (readChroms_length (Z.to_nat n) s1) as Hc.
  assert (Hs1 : length (chromsL s1) = 0%nat) by (unfold s1; simpl; now rewrite Hs).
  unfold bindL at 1.
  destruct (readChroms (Z.to_nat n) s1) as [[[]|e| | |] s2]; simpl in *;
    try (unfold two16 in *; lia).
  assert (Hk : keeps_chroms (numSp1 <~ readInt 1 ;; readSp1 (Z.to_nat numSp1))).
  { apply keeps_bind; [apply keeps_readInt|]. intros k. apply keeps_readSp1. }
  rewrite (Hk s2). unfold two16 in *. lia.
Qed.

Lemma loadPwalns_chroms file ipp :
  (length (chroms_ (snd (loadPwalns file ipp))) < Z.to_nat two16)%nat.
Proof.
  destruct file as [bytes|].
  - rewrite loadPwalns_store. simpl. now apply readBody_chroms.
  - simpl. unfold two16. lia.
Qed.

(** ** Genome sizes *)

Lemma sizesLoop_ok fs dirName : forall todo acc sizes,
  sizesLoop fs dirName todo acc = (Ok tt, sizes) ->
  (forall sp, In sp todo ->
     exists g, readSizes fs dirName sp = Ok g /\ lookupS sp sizes = Some g) /\
  (forall sp, ~ In sp todo -> lookupS sp sizes = lookupS sp acc).
Proof.
  induction todo as [|sp0 todo IH]; intros acc sizes; simpl.
  - intros [= <-]. split; [intros sp [] | auto].
  - destruct (readSizes fs dirName sp0) as [g0|e| | |] eqn:Hr; try discriminate.
    intros H. destruct (IH _ _ H) as [Hin Hout]. split.
    + intros sp Hsp.
      destruct (in_dec string_dec sp todo) as [Ht|Hnt]; [now apply Hin|].
      destruct Hsp as [<-|Hsp]; [|contradiction].
      exists g0. split; auto. rewrite (Hout _ Hnt).
      apply lookupS_assignS_same.
    + intros sp Hsp. simpl in Hsp. rewrite Hout by tauto.
      apply lookupS_assignS_other. intros ->. tauto.
Qed.

(** ** Requests that need no search *)

Section Edges.
Context {L : StdLib} {SA : ScoreArith} {SL : ScoreLaws SA}.

Lemma searchBound_pos ipp r g :
  lookupS r (genomeSizes_ ipp) = Some g -> exists f, searchBound ipp = S f.
Proof.
  intros H. apply sized_species in H. unfold searchBound.
  destruct (speciesOf ipp) as [|x l]; [destruct H|].
  simpl. eauto.
Qed.

Lemma first_step ipp refSpecies qrySpecies refCoords sf f :
  searchLoop (S f) ipp refSpecies qrySpecies sf
    (initialSearch refSpecies refCoords)
  = (r <- searchStep ipp refSpecies qrySpecies sf
            (mkOrange sone refSpecies refCoords)
            (mkSearch (shortestPath (initialSearch refSpecies refCoords)) []
               None 1%nat) ;;
     match r with
     | Continue st' => searchLoop f ipp refSpecies qrySpecies sf st'
     | Break st' => Ok st'
     end).
Proof. reflexivity. Qed.

Lemma first_step_fresh ipp refSpecies qrySpecies refCoords sf :
  searchStep ipp refSpecies qrySpecies sf (mkOrange sone refSpecies refCoords)
    (mkSearch (shortestPath (initialSearch refSpecies refCoords)) [] None 1%nat)
  = if String.eqb refSpecies qrySpecies
    then Ok (Break (mkSearch (shortestPath (initialSearch refSpecies refCoords))
                      [] None 1%nat))
    else match lookupS refSpecies (pwalns_ ipp) with
         | None => Throw OutOfRange
         | Some nxts =>
             st' <- relaxAll ipp refSpecies qrySpecies sf
                      (mkOrange sone refSpecies refCoords)
                      (mkSearch
                         (shortestPath (initialSearch refSpecies refCoords))
                         [] None 1%nat) (map fst nxts) ;;
             Ok (Continue st')
         end.
Proof.
  unfold searchStep. cbn [o_species o_score shortestPath initialSearch lookupS].
  rewrite String.eqb_refl. cbn [spe_score].
  now rewrite sltb_irrefl by apply unit_one.
Qed.

End Edges.

(** ** The job queue of projectCoords *)

Section Jobs.
Context {SA : ScoreArith}.
Variable job : Coords -> outcome CoordProjection.

Lemma pop_back_snoc {A} (l : list A) x : pop_back (l ++ [x]) = Some (x, l).
Proof. unfold pop_back. rewrite rev_app_distr. simpl. now rewrite rev_involutive. Qed.

Lemma pop_back_nil {A} : pop_back (@nil A) = None.
Proof. reflexivity. Qed.

Lemma pop_back_cases {A} (l : list A) :
  (l = [] /\ pop_back l = None) \/
  (exists l' x, l = l' ++ [x] /\ pop_back l = Some (x, l')).
Proof.
  destruct l as [|a l] using rev_ind; [left; auto|].
  right. exists l, a. split; auto. apply pop_back_snoc.
Qed.

(** A worker that runs alone takes the jobs from the back, delivers the
    result of each, and stops at the first job that throws. *)
Lemma worker_all_ok (f : Coords -> CoordProjection) : forall todo h e cbs fuel,
  (forall c, In c todo -> job c = Ok (f c)) ->
  (length todo < fuel)%nat ->
  worker fuel job (mkWorker todo h e cbs)
  = Ok (mkWorker [] h e (cbs ++ map (fun c => (c, f c)) (rev todo))).
Proof.
  induction todo as [|x todo IH] using rev_ind; intros h e cbs fuel Hok Hfuel.
  - destruct fuel; [simpl in Hfuel; lia|]. simpl. now rewrite app_nil_r.
  - destruct fuel; [simpl in Hfuel; lia|].
    rewrite length_app in Hfuel; simpl in Hfuel.
    cbn [worker]. unfold workerStep. cbn [jobs].
    rewrite pop_back_snoc, (Hok x) by (apply in_or_app; simpl; auto).
    cbn [bind hadWorkerException workerException callbacks].
    rewrite IH; [|intros c Hc; apply Hok, in_or_app; auto | lia].
    rewrite rev_app_distr. simpl. now rewrite <- app_assoc.
Qed.

Lemma worker_stops (f : Coords -> CoordProjection) pre c post ex :
  forall h e cbs fuel,
  job c = Throw ex ->
  (forall x, In x post -> job x = Ok (f x)) ->
  (length (pre ++ c :: post) < fuel)%nat ->
  worker fuel job (mkWorker (pre ++ c :: post) h e cbs)
  = Ok (mkWorker pre true (Some StdException)
          (cbs ++ map (fun x => (x, f x)) (rev post))).
Proof.
  induction post as [|x post IH] using rev_ind; intros h e cbs fuel Hc Hok Hfuel.
  - destruct fuel; [simpl in Hfuel; lia|].
    cbn [worker]. unfold workerStep. cbn [jobs].
    rewrite pop_back_snoc, Hc. simpl. now rewrite app_nil_r.
  - destruct fuel; [simpl in Hfuel; lia|].
    replace (pre ++ c :: post ++ [x]) with ((pre ++ c :: post) ++ [x]) in *
      by (rewrite <- app_assoc; reflexivity).
    rewrite length_app in Hfuel; simpl in Hfuel.
    cbn [worker]. unfold workerStep. cbn [jobs].
    rewrite pop_back_snoc, (Hok x) by (apply in_or_app; simpl; auto).
    cbn [bind hadWorkerException workerException callbacks].
    rewrite IH; auto; [|intros y Hy; apply Hok, in_or_app; auto | lia].
    rewrite rev_app_distr. simpl. now rewrite <- app_assoc.
Qed.

End Jobs.

(** ** The threads of projectCoords *)


Section Threads.
Context {SA : ScoreArith}.
Variable job : Coords -> outcome CoordProjection.
Variable batch : list Coords.
Variable nCores : nat.

Hypothesis job_returns_or_throws : forall c, In c batch ->
  (exists cp, job c = Ok cp) \/ (exists e, job c = Throw e).

Lemma workerStep_cases w :
  queue_ok job batch w ->
  exists w' fin,
    workerStep job w = Ok (w', fin) /\ queue_ok job batch w' /\
    ((jobs w = [] /\ w' = w /\ fin = true) \/
     exists l x,
       jobs w = l ++ [x] /\ jobs w' = l /\
       ((exists cp, job x = Ok cp /\ fin = false /\
                    hadWorkerException w' = hadWorkerException w) \/
        (fin = true /\ hadWorkerException w' = true))).
Proof.
  intros [Hincl Hex]. unfold workerStep.
  destruct (pop_back_cases (jobs w)) as [[Hnil ->]|(l & x & Hl & ->)].
  - exists w, true. split; auto. split; [split; auto|]. left; auto.
  - assert (Hx : In x batch).
    { apply Hincl. rewrite Hl. apply in_or_app; simpl; auto. }
    assert (Hl' : incl l batch).
    { intros y Hy. apply Hincl. rewrite Hl. apply in_or_app; auto. }
    destruct (job_returns_or_throws x Hx) as [[cp Hcp]|[e He]].
    + rewrite Hcp. eexists _, false. split; [reflexivity|].
      split; [split; auto|]. right. exists l, x. split; auto. split; auto.
      left. exists cp. auto.
    + rewrite He. eexists _, true. split; [reflexivity|].
      split; [split; auto|].
      * intros _. split; [reflexivity|]. exists e, x. auto.
      * right. exists l, x. split; auto.
Qed.

Lemma worker_drains : forall fuel w,
  queue_ok job batch w -> (length (jobs w) < fuel)%nat ->
  exists w', worker fuel job w = Ok w' /\ drained job batch w w'.
Proof.
  induction fuel as [|fuel IH]; intros w Hq Hfuel; [lia|].
  cbn [worker].
  destruct (workerStep_cases w Hq) as (w1 & fin & -> & Hq1 & Hcase).
  cbn [bind].
  destruct Hcase as [(Hnil & -> & ->)|(l & x & Hl & Hl1 & Hx)].
  - exists w. split; auto. split; auto.
    intros Hf. repeat split; auto. rewrite Hnil. intros c [].
  - destruct Hx as [(cp & Hcp & -> & Hflag)|(-> & Hflag)].
    + destruct (IH w1 Hq1) as (w' & Hw' & Hq' & Hd).
      { rewrite Hl1. rewrite Hl, length_app in Hfuel. simpl in Hfuel. lia. }
      exists w'. split; auto. split; auto.
      intros Hf. destruct (Hd Hf) as (H1 & H2 & H3).
      repeat split; auto; [congruence|].
      intros c Hc. rewrite Hl in Hc. apply in_app_or in Hc.
      destruct Hc as [Hc|[<-|[]]]; [|eauto].
      apply H3. now rewrite Hl1.
    + exists w1. split; auto. split; auto. intros Hf. congruence.
Qed.

Lemma drained_trans w1 w2 w3 :
  drained job batch w1 w2 -> drained job batch w2 w3 ->
  drained job batch w1 w3.
Proof.
  intros [_ H12] [Hq3 H23]. split; auto.
  intros Hf. destruct (H23 Hf) as (Hf2 & Hj & _).
  destruct (H12 Hf2) as (Hf1 & _ & Hall). auto.
Qed.

Lemma drainThreads_drains : forall n w,
  queue_ok job batch w ->
  (1 <= n)%nat \/ (hadWorkerException w = false -> jobs w = []) ->
  exists w', drainThreads n job w = Ok w' /\ drained job batch w w'.
Proof.
  induction n as [|n IH]; intros w Hq Hn.
  - destruct Hn as [Hn|Hn]; [lia|].
    exists w. split; auto. split; auto.
    intros Hf. repeat split; auto. rewrite (Hn Hf). intros c [].
  - cbn [drainThreads].
    destruct (worker_drains (S (length (jobs w))) w Hq) as (w1 & -> & Hd1);
      [lia|].
    cbn [bind]. destruct Hd1 as [Hq1 Hd1].
    destruct (IH w1 Hq1) as (w2 & -> & Hd2).
    { right. intros Hf. now destruct (Hd1 Hf) as (_ & H & _). }
    exists w2. split; auto.
    apply (drained_trans w w1 w2); auto. split; auto.
Qed.

Lemma runThreads_drains : forall schedule finished w,
  (1 <= nCores)%nat ->
  queue_ok job batch w ->
  (hadWorkerException w = false -> finished <> [] -> jobs w = []) ->
  exists w', runThreads nCores job schedule finished w = Ok w' /\
             drained job batch w w'.
Proof.
  induction schedule as [|t rest IH]; intros finished w Hn Hq Hfin;
    cbn [runThreads].
  - apply drainThreads_drains; auto.
    destruct finished as [|t0 fs]; [left; simpl; lia|].
    right. intros Hf. apply Hfin; auto. discriminate.
  - destruct ((nCores <=? t)%nat || existsb (Nat.eqb t) finished).
    + now apply IH.
    + destruct (workerStep_cases w Hq) as (w1 & fin & -> & Hq1 & Hcase).
      cbn [bind].
      destruct Hcase as [(Hnil & -> & ->)|(l & x & Hl & Hl1 & Hx)].
      * apply IH; auto.
      * destruct Hx as [(cp & Hcp & -> & Hflag)|(-> & Hflag)].
        -- destruct (IH finished w1 Hn Hq1) as (w' & Hw' & Hq' & Hd).
           { intros Hf Hne. exfalso. rewrite Hflag in Hf.
             specialize (Hfin Hf Hne). rewrite Hfin in Hl.
             destruct l; discriminate. }
           exists w'. split; auto. split; auto.
           intros Hf. destruct (Hd Hf) as (H1 & H2 & H3).
           repeat split; auto; [congruence|].
           intros c Hc. rewrite Hl in Hc. apply in_app_or in Hc.
           destruct Hc as [Hc|[<-|[]]]; [|eauto].
           apply H3. now rewrite Hl1.
        -- destruct (IH (t :: finished) w1 Hn Hq1) as (w' & Hw' & Hq' & Hd).
           { intros Hf. congruence. }
           exists w'. split; auto. split; auto.
           intros Hf. destruct (Hd Hf) as (H1 & _). congruence.
Qed.

End Threads.

Lemma runThreads_all_ok `{SA : ScoreArith} job (f : Coords -> CoordProjection)
  nCores : forall schedule finished todo h e cbs,
  (1 <= nCores)%nat ->
  (forall c, In c todo -> job c = Ok (f c)) ->
  (finished <> [] -> todo = []) ->
  runThreads nCores job schedule finished (mkWorker todo h e cbs)
  = Ok (mkWorker [] h e (cbs ++ map (fun c => (c, f c)) (rev todo))).
Proof.
  assert (Hdrain : forall n todo h e cbs,
            (forall c, In c todo -> job c = Ok (f c)) ->
            (1 <= n)%nat \/ todo = [] ->
            drainThreads n job (mkWorker todo h e cbs)
            = Ok (mkWorker [] h e (cbs ++ map (fun c => (c, f c)) (rev todo)))).
  { induction n as [|n IH]; intros todo h e cbs Hok Hn.
    - destruct Hn as [Hn| ->]; [lia|]. simpl. now rewrite app_nil_r.
    - cbn [drainThreads jobs].
      rewrite (worker_all_ok job f) by (auto; lia). cbn [bind].
      rewrite IH; [|intros c [] | now right]. simpl. now rewrite app_nil_r. }
  induction schedule as [|t rest IH]; intros finished todo h e cbs Hn Hok Hfin;
    cbn [runThreads].
  - apply Hdrain; auto.
    destruct finished; [left; simpl; lia | right; apply Hfin; discriminate].
  - destruct ((nCores <=? t)%nat || existsb (Nat.eqb t) finished).
    + now apply IH.
    + unfold workerStep. cbn [jobs].
      destruct (pop_back_cases todo) as [[-> ->]|(l & x & -> & ->)].
      * cbn [bind]. apply IH; auto.
      * rewrite (Hok x) by (apply in_or_app; simpl; auto).
        cbn [bind hadWorkerException workerException callbacks].
        rewrite IH; auto.
        -- rewrite rev_app_distr. simpl. now rewrite <- app_assoc.
        -- intros c Hc. apply Hok, in_or_app; auto.
        -- intros Hne. specialize (Hfin Hne). destruct l; discriminate.
Qed.

(** ** A position on an alignment block *)

(** What passed the sanity checks of the wrapper starts and ends at
    different query positions. *)
Lemma longestSubsequence_strict seq res :
  longestSubsequence seq = Ok res ->
  Forall (fun e => if isQryReversed e then qryEnd e < qryStart e
                   else qryStart e < qryEnd e) res.
Proof.
  intros Hres.
  destruct (longestSubsequence_ok seq res Hres) as (Hinc & Hdec & ->).
  destruct (length (dec_of seq) <=? length (inc_of seq))%nat.
  - destruct (check_inc_chain _ _ Hinc) as [HF _].
    eapply Forall_impl; [|exact HF]. simpl. intros e [_ He].
    unfold isQryReversed.
    replace (qryEnd e <? qryStart e) with false
      by (symmetry; apply Z.ltb_ge; lia).
    exact He.
  - pose proof (check_dec_strand _ _ Hdec) as HF.
    eapply Forall_impl; [|exact HF]. simpl. intros e He.
    unfold isQryReversed.
    replace (qryEnd e <? qryStart e) with true
      by (symmetry; now apply Z.ltb_lt).
    exact He.
Qed.

Lemma getAnchors_strict `{L : StdLib} pwaln refCoords a :
  getAnchors pwaln refCoords = Ok (Some a) ->
  (if isQryReversed (upstream a)
   then qryEnd (upstream a) < qryStart (upstream a)
   else qryStart (upstream a) < qryEnd (upstream a)) /\
  ((upstream a = downstream a /\
    refStart (upstream a) <= loc refCoords < refEnd (upstream a)) \/
   (refEnd (upstream a) <= loc refCoords /\
    loc refCoords < refStart (downstream a))).
Proof.
  intros H. destruct (getAnchors_some _ _ _ H) as (bucket & sorted & res & _ & _ & Hres & Hsel).
  destruct (selectAnchors_cases _ _ _ Hsel) as (Hup & _ & Hgeo).
  split; auto.
  pose proof (longestSubsequence_strict _ _ Hres) as HF.
  rewrite Forall_forall in HF. exact (HF _ Hup).
Qed.

(** ** Reading what the format holds *)

Lemma byteOf_value z : 0 <= z < 256 -> Z.of_N (Byte.to_N (byteOf z)) = z.
Proof.
  intros Hz. unfold byteOf.
  destruct (Byte.of_N (Z.to_N z)) as [b|] eqn:Hb.
  - apply Byte.to_of_N in Hb. rewrite Hb. lia.
  - apply Byte.of_N_None_iff in Hb. lia.
Qed.

Lemma le_bytes_length w : forall v, length (le_bytes w v) = w.
Proof. induction w; intros v; simpl; auto. Qed.

Lemma le_value_le_bytes w : forall v,
  0 <= v < 256 ^ Z.of_nat w -> le_value (le_bytes w v) = v.
Proof.
  induction w as [|w IH]; intros v Hv.
  - simpl in *. lia.
  - rewrite Nat2Z.inj_succ, Z.pow_succ_r in Hv by lia.
    cbn [le_bytes le_value].
    rewrite byteOf_value by (apply Z.mod_pos_bound; lia).
    rewrite IH.
    + pose proof (Z.div_mod v 256). lia.
    + split; [apply Z.div_pos; lia|].
      apply Z.div_lt_upper_bound; lia.
Qed.

Lemma firstn_app_exact {A} (l l' : list A) n :
  length l = n -> firstn n (l ++ l') = l.
Proof.
  intros <-. rewrite firstn_app, Nat.sub_diag, firstn_all. simpl.
  apply app_nil_r.
Qed.

Lemma skipn_app_exact {A} (l l' : list A) n :
  length l = n -> skipn n (l ++ l') = l'.
Proof.
  intros <-. rewrite skipn_app, Nat.sub_diag, skipn_all. reflexivity.
Qed.

Lemma readInt_encoded w v rest c p :
  0 <= v < 256 ^ Z.of_nat w ->
  readInt w (mkLoad (le_bytes w v ++ rest) c p) = (Ok v, mkLoad rest c p).
Proof.
  intros Hv. unfold readInt. cbn [unread chromsL pwalnsL].
  replace (length (le_bytes w v ++ rest) <? w)%nat with false
    by (symmetry; apply Nat.ltb_ge; rewrite length_app, le_bytes_length; lia).
  rewrite firstn_app_exact, skipn_app_exact by apply le_bytes_length.
  now rewrite le_value_le_bytes.
Qed.

Lemma split_nul_encoded bs rest :
  Forall (fun b => b <> x00) bs ->
  split_nul (bs ++ x00 :: rest) = Some (bs, rest).
Proof.
  induction 1 as [|b bs Hb _ IH]; simpl; auto.
  destruct (Byte.eqb b x00) eqn:He.
  - apply Byte.byte_dec_bl in He. contradiction.
  - now rewrite IH.
Qed.

Lemma readString_encoded s rest c p :
  no_nul s ->
  readString (mkLoad (encodeString s ++ rest) c p) = (Ok s, mkLoad rest c p).
Proof.
  intros Hs. unfold readString, encodeString. cbn [unread chromsL pwalnsL].
  rewrite <- app_assoc. simpl.
  rewrite split_nul_encoded by exact Hs.
  now rewrite string_of_list_byte_of_string.
Qed.

Lemma encodeEntry_length e : length (encodeEntry e) = 20%nat.
Proof. reflexivity. Qed.

Lemma entry_of_bytes_encoded e :
  entry_in_range e -> entry_of_bytes (encodeEntry e) = e.
Proof.
  intros (H1 & H2 & H3 & H4 & H5 & H6).
  unfold is_u32, is_u16, two32, two16 in *.
  pose proof (le_value_le_bytes 4 (refStart e)) as E1.
  pose proof (le_value_le_bytes 4 (refEnd e)) as E2.
  pose proof (le_value_le_bytes 4 (qryStart e)) as E3.
  pose proof (le_value_le_bytes 4 (qryEnd e)) as E4.
  pose proof (le_value_le_bytes 2 (refChrom e)) as E5.
  pose proof (le_value_le_bytes 2 (qryChrom e)) as E6.
  unfold entry_of_bytes, encodeEntry.
  cbn [le_bytes app firstn skipn] in *.
  rewrite E1, E2, E3, E4, E5, E6 by (simpl; lia).
  now destruct e.
Qed.

Lemma concat_entries_length es :
  length (concat (map encodeEntry es)) = (20 * length es)%nat.
Proof.
  induction es as [|e es IH]; [reflexivity|].
  cbn [map concat]. rewrite length_app, IH, encodeEntry_length.
  cbn [length]. lia.
Qed.

Lemma entries_of_bytes_encoded es : forall rest,
  Forall entry_in_range es ->
  entries_of_bytes (length es) (concat (map encodeEntry es) ++ rest) = es.
Proof.
  induction es as [|e es IH]; intros rest Hr; [reflexivity|].
  inversion Hr; subst.
  cbn [length entries_of_bytes map concat]. rewrite <- app_assoc.
  rewrite firstn_app_exact, skipn_app_exact by apply encodeEntry_length.
  rewrite entry_of_bytes_encoded, IH; auto.
Qed.

Lemma readEntries_encoded es rest c p :
  Forall entry_in_range es ->
  readEntries (length es) (mkLoad (concat (map encodeEntry es) ++ rest) c p)
  = (Ok es, mkLoad rest c p).
Proof.
  intros Hr. unfold readEntries. cbn [unread chromsL pwalnsL].
  replace (length (concat (map encodeEntry es) ++ rest) <? 20 * length es)%nat
    with false
    by (symmetry; apply Nat.ltb_ge;
        rewrite length_app, concat_entries_length; lia).
  rewrite entries_of_bytes_encoded by exact Hr.
  now rewrite skipn_app_exact by apply concat_entries_length.
Qed.

(** *** The maps the loader builds *)

Lemma lookupS_snoc {A} k (v : A) m :
  ~ In k (map fst m) -> lookupS k (m ++ [(k, v)]) = Some v.
Proof.
  induction m as [|[k' v'] m IH]; simpl; intros Hn.
  - now rewrite String.eqb_refl.
  - destruct (String.eqb k' k) eqn:Hk.
    + apply String.eqb_eq in Hk. tauto.
    + apply IH. tauto.
Qed.

Lemma lookupS_absent {A} k (m : SpeciesMap A) :
  ~ In k (map fst m) -> lookupS k m = None.
Proof.
  induction m as [|[k' v'] m IH]; simpl; intros Hn; auto.
  destruct (String.eqb k' k) eqn:Hk.
  - apply String.eqb_eq in Hk. tauto.
  - apply IH. tauto.
Qed.

Lemma assignS_snoc {A} k (v v' : A) m :
  ~ In k (map fst m) -> assignS k v' (m ++ [(k, v)]) = m ++ [(k, v')].
Proof.
  induction m as [|[k0 v0] m IH]; simpl; intros Hn.
  - now rewrite String.eqb_refl.
  - destruct (String.eqb k0 k) eqn:Hk.
    + apply String.eqb_eq in Hk. tauto.
    + rewrite IH; tauto.
Qed.

Lemma insertZ_absent {A} k (v : A) m :
  ~ In k (map fst m) -> insertZ k v m = m ++ [(k, v)].
Proof.
  induction m as [|[k0 v0] m IH]; simpl; intros Hn; auto.
  destruct (k0 =? k) eqn:Hk.
  - apply Z.eqb_eq in Hk. tauto.
  - rewrite IH; tauto.
Qed.

Lemma touchS_absent {A} k (d : A) m :
  ~ In k (map fst m) -> touchS k d m = m ++ [(k, d)].
Proof. intros Hn. unfold touchS. now rewrite lookupS_absent. Qed.

Lemma getS_snoc {A} k (d v : A) m :
  ~ In k (map fst m) -> getS k d (m ++ [(k, v)]) = v.
Proof. intros Hn. unfold getS. now rewrite lookupS_snoc. Qed.

Lemma NoDup_app_keys {A B} (f : A -> B) (l l' : list A) :
  NoDup (map f (l ++ l')) ->
  NoDup (map f l) /\ NoDup (map f l') /\
  forall x, In x (map f l) -> ~ In x (map f l').
Proof.
  rewrite map_app. induction (map f l) as [|a m IH]; simpl; intros H.
  - repeat split; auto. constructor.
  - inversion H as [|? ? Hni Hnd]; subst.
    destruct (IH Hnd) as (H1 & H2 & H3).
    repeat split; auto.
    + constructor; auto. intros Hin. apply Hni, in_or_app. auto.
    + intros x [<-|Hx]; auto. intros Hin. apply Hni, in_or_app. auto.
Qed.

Lemma bindL_ok {A B} (m : Loader A) (f : A -> Loader B) s a s' :
  m s = (Ok a, s') -> bindL m f s = f a s'.
Proof. intros H. unfold bindL. now rewrite H. Qed.

Lemma readChroms_encoded names : forall chroms rest p,
  Forall no_nul names ->
  readChroms (length names)
    (mkLoad (concat (map encodeString names) ++ rest) chroms p)
  = (Ok tt, mkLoad rest (chroms ++ names) p).
Proof.
  induction names as [|name names IH]; intros chroms rest p Hn.
  - simpl. now rewrite app_nil_r.
  - inversion Hn; subst. cbn [length readChroms map concat].
    rewrite <- app_assoc.
    rewrite (bindL_ok _ _ _ _ _ (readString_encoded name _ chroms p H1)).
    unfold bindL at 1, pushChrom. cbn [unread chromsL pwalnsL].
    rewrite IH by auto. now rewrite <- app_assoc.
Qed.

Lemma readBuckets_encoded sp1 sp2 P1 Q1 chroms : forall bs B rest,
  ~ In sp1 (map fst P1) -> ~ In sp2 (map fst Q1) ->
  NoDup (map fst (B ++ bs)) -> Forall bucket_ok bs ->
  readBuckets sp1 sp2 (length bs)
    (mkLoad (concat (map encodeBucket bs) ++ rest) chroms
       (P1 ++ [(sp1, Q1 ++ [(sp2, B)])]))
  = (Ok tt, mkLoad rest chroms (P1 ++ [(sp1, Q1 ++ [(sp2, B ++ bs)])])).
Proof.
  induction bs as [|[k es] bs IH]; intros B rest H1 H2 Hnd Hok.
  - simpl. now rewrite app_nil_r.
  - inversion Hok as [|? ? Hb Hok']; subst.
    destruct Hb as ((e & es' & Hes & Hk) & Hlen & Hrange).
    cbn [fst snd] in *.
    cbn [length readBuckets map concat]. unfold encodeBucket at 1.
    cbn [fst snd]. rewrite <- !app_assoc.
    rewrite (bindL_ok _ _ _ _ _
               (readInt_encoded 4 (Z.of_nat (length es)) _ chroms _
                  ltac:(unfold two32 in Hlen; simpl; lia))).
    rewrite Nat2Z.id.
    rewrite (bindL_ok _ _ _ _ _ (readEntries_encoded es _ chroms _ Hrange)).
    destruct (NoDup_app_keys fst B ((k, es) :: bs) Hnd) as (_ & _ & Hdisj).
    assert (HkB : ~ In k (map fst B)).
    { intros Hin. apply (Hdisj k Hin). simpl. auto. }
    unfold bindL at 1, insertBucket. cbn [unread chromsL pwalnsL].
    rewrite Hes. rewrite <- Hes.
    rewrite (getS_snoc sp1) by exact H1.
    rewrite (getS_snoc sp2) by exact H2.
    rewrite <- Hk, (insertZ_absent k es B HkB).
    rewrite (assignS_snoc sp2) by exact H2.
    rewrite (assignS_snoc sp1) by exact H1.
    rewrite IH; auto.
    + now rewrite <- app_assoc.
    + now rewrite <- app_assoc.
Qed.

Lemma readSp2_encoded sp1 P1 chroms : forall ps Q1 rest,
  ~ In sp1 (map fst P1) ->
  NoDup (map fst (Q1 ++ ps)) -> Forall pwaln_ok ps ->
  readSp2 sp1 (length ps)
    (mkLoad (concat (map encodePwaln ps) ++ rest) chroms (P1 ++ [(sp1, Q1)]))
  = (Ok tt, mkLoad rest chroms (P1 ++ [(sp1, Q1 ++ ps)])).
Proof.
  induction ps as [|[sp2 pw] ps IH]; intros Q1 rest H1 Hnd Hok.
  - simpl. now rewrite app_nil_r.
  - inversion Hok as [|? ? Hp Hok']; subst.
    destruct Hp as (Hnul & Hlen & Hnd2 & Hbs). cbn [fst snd] in *.
    destruct (NoDup_app_keys fst Q1 ((sp2, pw) :: ps) Hnd) as (_ & _ & Hdisj).
    assert (H2 : ~ In sp2 (map fst Q1)).
    { intros Hin. apply (Hdisj sp2 Hin). simpl. auto. }
    cbn [length readSp2 map concat]. unfold encodePwaln at 1.
    cbn [fst snd]. rewrite <- !app_assoc.
    rewrite (bindL_ok _ _ _ _ _ (readString_encoded sp2 _ chroms _ Hnul)).
    unfold bindL at 1, touchSp2. cbn [unread chromsL pwalnsL].
    rewrite (getS_snoc sp1) by exact H1.
    rewrite (touchS_absent sp2) by exact H2.
    rewrite (assignS_snoc sp1) by exact H1.
    rewrite (bindL_ok _ _ _ _ _
               (readInt_encoded 4 (Z.of_nat (length pw)) _ chroms _
                  ltac:(unfold two32 in Hlen; simpl; lia))).
    rewrite Nat2Z.id.
    rewrite (bindL_ok _ _ _ _ _
               (readBuckets_encoded sp1 sp2 P1 Q1 chroms pw [] _ H1 H2
                  Hnd2 Hbs)).
    cbn [app]. rewrite IH; auto.
    + now rewrite <- app_assoc.
    + now rewrite <- app_assoc.
Qed.

Lemma readSp1_encoded chroms : forall ss P1 rest,
  NoDup (map fst (P1 ++ ss)) -> Forall species_ok ss ->
  readSp1 (length ss)
    (mkLoad (concat (map encodeSpecies ss) ++ rest) chroms P1)
  = (Ok tt, mkLoad rest chroms (P1 ++ ss)).
Proof.
  induction ss as [|[sp1 Q] ss IH]; intros P1 rest Hnd Hok.
  - simpl. now rewrite app_nil_r.
  - inversion Hok as [|? ? Hp Hok']; subst.
    destruct Hp as (Hnul & Hlen & Hnd2 & Hps). cbn [fst snd] in *.
    destruct (NoDup_app_keys fst P1 ((sp1, Q) :: ss) Hnd) as (_ & _ & Hdisj).
    assert (H1 : ~ In sp1 (map fst P1)).
    { intros Hin. apply (Hdisj sp1 Hin). simpl. auto. }
    cbn [length readSp1 map concat]. unfold encodeSpecies at 1.
    cbn [fst snd]. rewrite <- !app_assoc.
    rewrite (bindL_ok _ _ _ _ _ (readString_encoded sp1 _ chroms _ Hnul)).
    unfold bindL at 1, touchSp1. cbn [unread chromsL pwalnsL].
    rewrite (touchS_absent sp1) by exact H1.
    rewrite (bindL_ok _ _ _ _ _
               (readInt_encoded 1 (Z.of_nat (length Q)) _ chroms _
                  ltac:(simpl; lia))).
    rewrite Nat2Z.id.
    rewrite (bindL_ok _ _ _ _ _
               (readSp2_encoded sp1 P1 chroms Q [] _ H1 Hnd2 Hps)).
    cbn [app]. rewrite IH; auto.
    + now rewrite <- app_assoc.
    + now rewrite <- app_assoc.
Qed.

Lemma readBody_encoded chroms pwalns rest :
  encodable chroms pwalns ->
  readBody (mkLoad (encodeStore chroms pwalns ++ rest) [] [])
  = (Ok tt, mkLoad rest chroms pwalns).
Proof.
  intros (Hc & Hnames & Hp & Hnd & Hok).
  unfold readBody, encodeStore. rewrite <- !app_assoc.
  rewrite (bindL_ok _ _ _ _ _
             (readInt_encoded 2 (Z.of_nat (length chroms)) _ [] []
                ltac:(unfold two16 in Hc; simpl; lia))).
  rewrite Nat2Z.id.
  rewrite (bindL_ok _ _ _ _ _ (readChroms_encoded chroms [] _ [] Hnames)).
  cbn [app].
  rewrite (bindL_ok _ _ _ _ _
             (readInt_encoded 1 (Z.of_nat (length pwalns)) _ chroms []
                ltac:(simpl; lia))).
  rewrite Nat2Z.id.
  apply (readSp1_encoded chroms pwalns [] rest); auto.
Qed.

(** ** The recorded paths *)

Section Tree.
Context {L : StdLib} {SA : ScoreArith} {SL : ScoreLaws SA}.
Variable ipp : Ipp.
Variables refSpecies qrySpecies : string.
Variable scalingFactor : score.
Variable refCoords : Coords.
Hypothesis Hsized : sized_store ipp.
Hypothesis Hscaling : scaling_of ipp scalingFactor.

Local Abbreviation tinv :=
  (tree_inv ipp scalingFactor refSpecies refCoords).

Lemma relax_shape current st nxt st' :
  relax ipp refSpecies qrySpecies scalingFactor current st nxt = Ok st' ->
  (shortestPath st' = shortestPath st /\ orange st' = orange st) \/
  exists p,
    projectGenomicLocation ipp (o_species current) nxt (o_coords current)
      scalingFactor = Ok (Some p) /\
    (forall x, lookupS nxt (shortestPath st) = Some x ->
       sleb (o_score current) (spe_score x) = false /\
       sleb (smul (o_score current) (gpr_score p)) (spe_score x) = false) /\
    shortestPath st'
    = assignS nxt
        (mkSPE (smul (o_score current) (gpr_score p)) (o_species current)
           (nextCoords p) (gpr_anchors p))
        (shortestPath st) /\
    orange st'
    = mkOrange (smul (o_score current) (gpr_score p)) nxt (nextCoords p)
      :: orange st.
Proof.
  unfold relax.
  destruct (match lookupS nxt (shortestPath st) with
            | Some e => sleb (o_score current) (spe_score e)
            | None => false
            end) eqn:H1.
  { intros [= <-]. left; auto. }
  destruct (projectGenomicLocation ipp (o_species current) nxt
              (o_coords current) scalingFactor) as [[p|]| | | |] eqn:Hp;
    cbn [bind]; try discriminate.
  2: { intros [= <-]. left; auto. }
  destruct (match lookupS nxt (shortestPath st) with
            | Some e => sleb (smul (o_score current) (gpr_score p)) (spe_score e)
            | None => false
            end) eqn:H2.
  { intros [= <-]. left; auto. }
  intros [= <-]. right. exists p. cbn [shortestPath orange].
  repeat split; auto.
  - destruct (lookupS nxt (shortestPath st)); congruence.
  - destruct (lookupS nxt (shortestPath st)); congruence.
Qed.

Lemma relax_tree done current st nxt st' x :
  In (o_species current) done -> In refSpecies done ->
  lookupS (o_species current) (shortestPath st) = Some x ->
  o_score current = spe_score x -> o_coords current = spe_coords x ->
  relaxing (speciesOf ipp) done (o_score current) (shortestPath st)
    (orange st) ->
  tinv done (shortestPath st) (orange st) ->
  relax ipp refSpecies qrySpecies scalingFactor current st nxt = Ok st' ->
  tinv done (shortestPath st') (orange st') /\
  lookupS (o_species current) (shortestPath st') = Some x.
Proof.
  intros Hcur Href Hx Hscore Hcoords (Hdij & Hcu & Hfrozen) Hinv Hrel.
  destruct (relax_shape _ _ _ _ Hrel) as [[-> ->]|(p & Hp & Hnew & -> & ->)];
    [auto|].
  pose proof (project_range ipp scalingFactor Hsized Hscaling _ _ _ _ Hp)
    as Hpu.
  pose proof (product_unit _ _ Hcu Hpu) as Hnsu.
  assert (Hnot : ~ In nxt done).
  { intros Hin. destruct (Hfrozen nxt Hin) as (z & Hz & Hle).
    destruct (Hnew z Hz) as [Hf _]. unfold sle in Hle. congruence. }
  assert (Hother : forall y, In y done ->
            lookupS y (assignS nxt
                         (mkSPE (smul (o_score current) (gpr_score p))
                            (o_species current) (nextCoords p) (gpr_anchors p))
                         (shortestPath st))
            = lookupS y (shortestPath st)).
  { intros y Hy. apply lookupS_assignS_other. intros ->. contradiction. }
  destruct Hinv as [Hr Hs Hq Hh Hk].
  split; [|now rewrite Hother].
  constructor.
  - now rewrite Hother.
  - now left.
  - intros e [<-|He]; cbn [o_species o_score o_coords].
    + rewrite lookupS_assignS_same. eexists. split; [reflexivity|].
      left. cbn [spe_score spe_coords]. auto.
    + destruct (Hq e He) as (z & Hz & Hcase).
      destruct (string_dec (o_species e) nxt) as [Heq|Hne].
      * rewrite Heq in *. rewrite lookupS_assignS_same.
        eexists. split; [reflexivity|]. right. cbn [spe_score].
        destruct (Hnew z Hz) as [_ Hlt].
        pose proof (di_recorded _ _ _ _ Hdij _ _ Hz) as Hzu.
        pose proof (di_queued _ _ _ _ Hdij e He) as Heu.
        assert (Hzn : sltb (spe_score z)
                        (smul (o_score current) (gpr_score p)) = true).
        { rewrite sltb_def by auto. now rewrite Hlt. }
        destruct Hcase as [[Hs1 _]|Hs1].
        -- now rewrite Hs1.
        -- apply (sle_sltb_trans _ (spe_score z)); auto.
           now apply sltb_true.
      * rewrite lookupS_assignS_other by auto. eauto.
  - intros s e Hse Hne.
    destruct (string_dec s nxt) as [->|Hsn].
    + rewrite lookupS_assignS_same in Hse. injection Hse as <-.
      cbn [prevSpecies]. split; auto.
      exists x, (gpr_score p). cbn [prevSpecies spe_coords spe_anchors spe_score].
      rewrite Hother by auto. split; auto. split.
      * rewrite <- Hcoords, Hp. now destruct p.
      * now rewrite Hscore.
    + rewrite lookupS_assignS_other in Hse by auto.
      destruct (Hh s e Hse Hne) as [Hprev (pe & g & H1 & H2 & H3)].
      split; auto. exists pe, g. rewrite Hother by auto. auto.
  - intros d1 s d2 e Hd Hne Hse.
    rewrite Hother in Hse by (rewrite Hd; apply in_or_app; simpl; auto).
    eapply Hk; eauto.
Qed.

Lemma relaxAll_tree done current x : forall nxts st st',
  In (o_species current) done -> In refSpecies done ->
  lookupS (o_species current) (shortestPath st) = Some x ->
  o_score current = spe_score x -> o_coords current = spe_coords x ->
  relaxing (speciesOf ipp) done (o_score current) (shortestPath st)
    (orange st) ->
  incl nxts (speciesOf ipp) ->
  tinv done (shortestPath st) (orange st) ->
  relaxAll ipp refSpecies qrySpecies scalingFactor current st nxts = Ok st' ->
  tinv done (shortestPath st') (orange st').
Proof.
  induction nxts as [|nxt nxts IH];
    intros st st' Hcur Href Hx Hscore Hcoords Hrel Hincl Hinv; cbn [relaxAll].
  - now intros [= <-].
  - intros H. apply bind_ok in H. destruct H as (st1 & H1 & Hrest).
    destruct (relax_tree done current st nxt st1 x Hcur Href Hx Hscore Hcoords
                Hrel Hinv H1) as [Hinv1 Hx1].
    destruct (relax_relaxing ipp refSpecies qrySpecies scalingFactor
                (speciesOf ipp) Hsized Hscaling done current st nxt st1 Hrel
                (Hincl nxt (or_introl eq_refl)) H1) as (Hrel1 & _ & _).
    apply (IH st1 st'); auto.
    intros y Hy. apply Hincl. now right.
Qed.

Lemma tinv_pop done sp q b rest :
  Permutation q (b :: rest) -> tinv done sp q -> tinv done sp rest.
Proof.
  intros Hperm [Hr Hs Hq Hh Hk].
  assert (Hin : forall e, In e rest -> In e q).
  { intros e He. apply (Permutation_in _ (Permutation_sym Hperm)). now right. }
  constructor; auto.
  destruct Hs as [Hs|Hs]; auto.
Qed.

Lemma tinv_cons done cur sp q :
  In refSpecies (cur :: done) ->
  (cur <> refSpecies ->
   forall e, lookupS cur sp = Some e -> In (prevSpecies e) done) ->
  tinv done sp q -> tinv (cur :: done) sp q.
Proof.
  intros Href Hcur [Hr Hs Hq Hh Hk]. constructor; auto.
  - intros s e Hse Hne. destruct (Hh s e Hse Hne). split; auto. now right.
  - intros d1 s d2 e Hd Hne Hse. destruct d1 as [|c d1]; simpl in Hd.
    + injection Hd as -> ->. now apply Hcur.
    + injection Hd as -> ->. eapply Hk; eauto.
Qed.

Lemma searchStep_tree done sp q d n current rest r :
  dijkstra_inv (speciesOf ipp) done sp q ->
  tinv done sp q ->
  pq_pop q = Some (current, rest) ->
  searchStep ipp refSpecies qrySpecies scalingFactor current
    (mkSearch sp rest d n) = Ok r ->
  match r with
  | Continue st' =>
      exists done',
        dijkstra_inv (speciesOf ipp) done' (shortestPath st') (orange st') /\
        tinv done' (shortestPath st') (orange st')
  | Break st' =>
      exists done',
        dijkstra_inv (speciesOf ipp) done' (shortestPath st') (orange st') /\
        tinv done' (shortestPath st') (orange st')
  end.
Proof.
  intros Hinv Htree Hpop. unfold searchStep. cbn [shortestPath].
  pose proof (pq_pop_perm _ _ _ Hpop) as Hperm.
  pose proof (tinv_pop _ _ _ _ _ Hperm Htree) as Htree'.
  fold (staleb sp current).
  destruct (staleb sp current) eqn:Hstale.
  { intros [= <-]. cbn [orange shortestPath]. exists done. split; auto.
    eapply dijkstra_inv_pop; eauto. }
  destruct (String.eqb _ _).
  { intros [= <-]. cbn [orange shortestPath]. exists done. split; auto.
    eapply dijkstra_inv_pop; eauto. }
  destruct (lookupS (o_species current) (pwalns_ ipp)) as [nxts|] eqn:Hnx;
    [|discriminate].
  intros H. apply bind_ok in H. destruct H as (st' & Hall & H).
  injection H as <-.
  destruct (relaxing_start _ _ _ _ _ _ Hpop Hstale Hinv) as (Hnot & Hin & Hrel).
  pose proof (neighbour_species _ _ _ Hnx) as Hincl.
  assert (Hcur_in : In current q).
  { apply (Permutation_in _ (Permutation_sym Hperm)). now left. }
  destruct (ti_queue _ _ _ _ _ _ _ Htree current Hcur_in) as (x & Hx & Hcase).
  assert (Hagree : o_score current = spe_score x /\
                   o_coords current = spe_coords x).
  { destruct Hcase as [H|H]; auto.
    unfold staleb in Hstale. rewrite Hx in Hstale. congruence. }
  assert (Href : In refSpecies (o_species current :: done)).
  { destruct (ti_start _ _ _ _ _ _ _ Htree) as [H|H]; [now right|].
    left. now apply H. }
  exists (o_species current :: done).
  destruct (relaxAll_relaxing ipp refSpecies qrySpecies scalingFactor
              (speciesOf ipp) Hsized Hscaling (o_species current :: done)
              current
              (map fst nxts) (mkSearch sp rest d n) st' Hrel Hincl Hall)
    as (Hrel' & _ & _).
  split; [apply Hrel'|].
  apply (relaxAll_tree (o_species current :: done) current x (map fst nxts)
           (mkSearch sp rest d n) st'); auto; try tauto.
  - now left.
  - cbn [shortestPath orange].
    apply tinv_cons; auto.
    intros Hne e He. exact (proj1 (ti_hop _ _ _ _ _ _ _ Htree' _ _ He Hne)).
Qed.

Lemma searchLoop_tree : forall fuel st st' done,
  dijkstra_inv (speciesOf ipp) done (shortestPath st) (orange st) ->
  tinv done (shortestPath st) (orange st) ->
  searchLoop fuel ipp refSpecies qrySpecies scalingFactor st = Ok st' ->
  exists done',
    dijkstra_inv (speciesOf ipp) done' (shortestPath st') (orange st') /\
    tinv done' (shortestPath st') (orange st').
Proof.
  induction fuel as [|fuel IH]; intros st st' done Hinv Htree;
    cbn [searchLoop];
    destruct (pq_pop (orange st)) as [[current rest]|] eqn:Hpop;
    try discriminate; try (intros [= <-]; eauto).
  intros H. apply bind_ok in H. destruct H as (r & Hstep & Hr).
  pose proof (searchStep_tree _ _ _ _ _ _ _ _ Hinv Htree Hpop Hstep) as Hs.
  destruct r as [st1|st1].
  - destruct Hs as (done' & Hinv' & Htree'). eapply IH; eauto.
  - injection Hr as <-. exact Hs.
Qed.

Lemma initial_tree :
  tinv [] (shortestPath (initialSearch refSpecies refCoords))
    (orange (initialSearch refSpecies refCoords)).
Proof.
  constructor; cbn [initialSearch shortestPath orange].
  - simpl. now rewrite String.eqb_refl.
  - right. intros e [<-|[]]. reflexivity.
  - intros e [<-|[]]. cbn [o_species o_score o_coords]. simpl.
    rewrite String.eqb_refl. eexists. split; [reflexivity|]. left. auto.
  - intros s e. simpl. destruct (String.eqb refSpecies s) eqn:Hs;
      [|discriminate].
    apply String.eqb_eq in Hs. congruence.
  - intros d1 s d2 e Hd. destruct d1; discriminate.
Qed.

Lemma leadsToRef_more sp : forall n m s,
  (n <= m)%nat -> leadsToRef n sp refSpecies s = true ->
  leadsToRef m sp refSpecies s = true.
Proof.
  induction n as [|n IH]; intros m s Hle; cbn [leadsToRef].
  - destruct m; cbn [leadsToRef]; destruct (String.eqb s refSpecies); auto;
      discriminate.
  - destruct m as [|m]; [lia|]. cbn [leadsToRef].
    destruct (String.eqb s refSpecies); auto.
    destruct (lookupS s sp) as [e|]; auto. apply IH. lia.
Qed.

(** A species whose neighbours have been relaxed leads to the reference
    species in as many steps as species were relaxed before it. *)
Lemma done_leadsToRef sp q : forall n d2 d1 s,
  (length d2 < n)%nat ->
  dijkstra_inv (speciesOf ipp) (d1 ++ s :: d2) sp q ->
  tinv (d1 ++ s :: d2) sp q ->
  leadsToRef (length d2) sp refSpecies s = true.
Proof.
  induction n as [|n IH]; intros d2 d1 s Hn Hinv Htree; [lia|].
  destruct (String.eqb s refSpecies) eqn:Hs.
  { destruct (length _); cbn [leadsToRef]; now rewrite Hs. }
  apply String.eqb_neq in Hs.
  destruct (di_done _ _ _ _ Hinv s) as (x & Hx & _);
    [apply in_or_app; simpl; auto|].
  pose proof (ti_rank _ _ _ _ _ _ _ Htree d1 s _ x eq_refl Hs Hx) as Hprev.
  destruct (in_split _ _ Hprev) as (l1 & l2 & Hsplit).
  assert (Hlen : (length l2 < n)%nat).
  { rewrite Hsplit, length_app in Hn. simpl in Hn. lia. }
  rewrite Hsplit in Hinv, Htree.
  replace (d1 ++ s :: l1 ++ prevSpecies x :: l2)
    with ((d1 ++ s :: l1) ++ prevSpecies x :: l2) in Hinv, Htree
    by (rewrite <- app_assoc; reflexivity).
  pose proof (IH l2 _ _ Hlen Hinv Htree) as Hwalk.
  rewrite Hsplit. rewrite length_app. cbn [length].
  replace (length l1 + S (length l2))%nat with (S (length l1 + length l2))
    by lia.
  cbn [leadsToRef].
  replace (String.eqb s refSpecies) with false
    by (symmetry; now apply String.eqb_neq).
  rewrite Hx. apply (leadsToRef_more sp (length l2)); auto. lia.
Qed.

Lemma recorded_leadsToRef done sp q s e :
  dijkstra_inv (speciesOf ipp) done sp q ->
  tinv done sp q ->
  lookupS s sp = Some e ->
  leadsToRef (length sp) sp refSpecies s = true.
Proof.
  intros Hinv Htree Hse.
  assert (Hkeys : forall y, In y done -> In y (map fst sp)).
  { intros y Hy. destruct (di_done _ _ _ _ Hinv y Hy) as (x & Hx & _).
    eapply lookupS_in; eauto. }
  pose proof (di_done_nodup _ _ _ _ Hinv) as Hnd.
  assert (Hdone : forall y, In y done ->
            leadsToRef (length done - 1) sp refSpecies y = true).
  { intros y Hy. destruct (in_split _ _ Hy) as (d1 & d2 & Hd).
    subst done.
    apply (leadsToRef_more sp (length d2)).
    - rewrite length_app. simpl. lia.
    - apply (done_leadsToRef sp q (S (length d2)) d2 d1 y); auto. }
  destruct (in_dec string_dec s done) as [Hin|Hnot].
  - apply (leadsToRef_more sp (length done - 1)); auto.
    pose proof (NoDup_incl_length Hnd Hkeys) as Hl.
    rewrite length_map in Hl. lia.
  - assert (Hl : (length (s :: done) <= length (map fst sp))%nat).
    { apply NoDup_incl_length; [constructor; auto|].
      intros y [<-|Hy]; auto. eapply lookupS_in; eauto. }
    rewrite length_map in Hl. simpl in Hl.
    destruct (String.eqb s refSpecies) eqn:Hs.
    { destruct (length sp); cbn [leadsToRef]; now rewrite Hs. }
    apply String.eqb_neq in Hs.
    destruct (ti_hop _ _ _ _ _ _ _ Htree s e Hse Hs) as [Hprev _].
    destruct (length sp) as [|n] eqn:Hn; [lia|].
    cbn [leadsToRef].
    replace (String.eqb s refSpecies) with false
      by (symmetry; now apply String.eqb_neq).
    rewrite Hse. apply (leadsToRef_more sp (length done - 1)); auto. lia.
Qed.

End Tree.

(** ** The range of the recorded scores *)

Section Range.
Context {L : StdLib} {SA : ScoreArith} {SL : ScoreLaws SA}.
Variable ipp : Ipp.
Variables refSpecies qrySpecies : string.
Variable scalingFactor : score.
Hypothesis Hsized : sized_store ipp.
Hypothesis Hscaling : scaling_of ipp scalingFactor.

Lemma relax_range current st nxt st' :
  in_unit (o_score current) ->
  scores_in_range (shortestPath st) (orange st) ->
  relax ipp refSpecies qrySpecies scalingFactor current st nxt = Ok st' ->
  scores_in_range (shortestPath st') (orange st').
Proof.
  intros Hc [Hsp Hq] Hrel.
  destruct (relax_cases ipp refSpecies qrySpecies scalingFactor Hsized
              Hscaling _ _ _ _ Hrel)
    as (_ & [[-> ->]|(p & Hp & _ & -> & ->)]); [split; auto|].
  pose proof (product_unit _ _ Hc Hp) as Hprod.
  split.
  - intros s e. destruct (string_dec s nxt) as [->|Hne].
    + rewrite lookupS_assignS_same. intros [= <-]. exact Hprod.
    + rewrite lookupS_assignS_other by auto. apply Hsp.
  - intros e [<-|He]; auto.
Qed.

Lemma relaxAll_range current : forall nxts st st',
  in_unit (o_score current) ->
  scores_in_range (shortestPath st) (orange st) ->
  relaxAll ipp refSpecies qrySpecies scalingFactor current st nxts = Ok st' ->
  scores_in_range (shortestPath st') (orange st').
Proof.
  induction nxts as [|nxt nxts IH]; intros st st' Hc Hr; cbn [relaxAll].
  - now intros [= <-].
  - intros H. apply bind_ok in H. destruct H as (st1 & H1 & Hrest).
    apply (IH st1 st'); auto. apply (relax_range current st nxt st1); auto.
Qed.

Lemma searchLoop_range : forall fuel st st',
  scores_in_range (shortestPath st) (orange st) ->
  searchLoop fuel ipp refSpecies qrySpecies scalingFactor st = Ok st' ->
  scores_in_range (shortestPath st') (orange st').
Proof.
  induction fuel as [|fuel IH]; intros st st' Hr; cbn [searchLoop];
    destruct (pq_pop (orange st)) as [[current rest]|] eqn:Hpop;
    try discriminate; try (intros [= <-]; auto).
  pose proof (pq_pop_perm _ _ _ Hpop) as Hperm.
  assert (Hin : forall e, In e (current :: rest) -> In e (orange st)).
  { intros e He. apply (Permutation_in _ (Permutation_sym Hperm) He). }
  destruct Hr as [Hsp Hq].
  assert (Hrest : scores_in_range (shortestPath st) rest).
  { split; auto. intros e He. apply Hq, Hin. now right. }
  pose proof (Hq current (Hin _ (or_introl eq_refl))) as Hc.
  intros H. apply bind_ok in H. destruct H as (r & Hstep & Hr).
  unfold searchStep in Hstep. cbn [shortestPath] in Hstep.
  destruct (match lookupS (o_species current) (shortestPath st) with
            | Some e => sltb (o_score current) (spe_score e)
            | None => false
            end).
  { injection Hstep as <-.
    apply (IH (mkSearch (shortestPath st) rest (directRes st) (S (pops st)))
             st' Hrest Hr). }
  destruct (String.eqb _ _).
  { injection Hstep as <-. injection Hr as <-. exact Hrest. }
  destruct (lookupS (o_species current) (pwalns_ ipp)) as [nxts|];
    [|discriminate].
  apply bind_ok in Hstep. destruct Hstep as (st1 & Hall & Hstep).
  injection Hstep as <-.
  apply (IH st1 st'); auto.
  apply (relaxAll_range current (map fst nxts)
           (mkSearch (shortestPath st) rest (directRes st) (S (pops st)))
           st1 Hc Hrest Hall).
Qed.

Lemma initial_range refCoords :
  scores_in_range (shortestPath (initialSearch refSpecies refCoords))
    (orange (initialSearch refSpecies refCoords)).
Proof.
  split; cbn [initialSearch shortestPath orange].
  - intros s e. simpl. destruct (String.eqb refSpecies s); [|discriminate].
    intros [= <-]. exact unit_one.
  - intros e [<-|[]]. exact unit_one.
Qed.

End Range.

(** ** Reading a sizes file *)

Lemma digits_value_digit c acc t :
  (48 <=? Z.of_nat (nat_of_ascii c)) && (Z.of_nat (nat_of_ascii c) <=? 57)
  = true ->
  digits_value acc (String c t)
  = digits_value (10 * acc + (Z.of_nat (nat_of_ascii c) - 48)) t.
Proof. intros H. cbn [digits_value]. cbv zeta. now rewrite H. Qed.

Ltac digit_code :=
  match goal with
  | |- context [Z.of_nat (nat_of_ascii ?c)] =>
      let v := eval vm_compute in (Z.of_nat (nat_of_ascii c)) in
      change (Z.of_nat (nat_of_ascii c)) with v
  end.

Lemma digits_value_acc : forall d acc,
  digits_value (Z.pos acc) (DecimalString.NilEmpty.string_of_uint d)
  = Z.pos (Pos.of_uint_acc d acc).
Proof.
  induction d; intros acc;
    cbn [DecimalString.NilEmpty.string_of_uint Pos.of_uint_acc];
    [reflexivity|..];
    (rewrite digits_value_digit by reflexivity; rewrite <- IHd; f_equal;
     digit_code; lia).
Qed.

Lemma digits_value_uint : forall d,
  digits_value 0 (DecimalString.NilEmpty.string_of_uint d)
  = Z.of_N (Pos.of_uint d).
Proof.
  induction d; cbn [DecimalString.NilEmpty.string_of_uint Pos.of_uint];
    [reflexivity|..];
    rewrite digits_value_digit by reflexivity;
    [exact IHd | cbn [Z.of_N]; rewrite <- digits_value_acc; reflexivity ..].
Qed.

Lemma digits_value_decimal n :
  0 <= n -> digits_value 0 (decimal n) = n.
Proof.
  intros Hn. unfold decimal. rewrite digits_value_uint.
  change (Pos.of_uint (N.to_uint (Z.to_N n)))
    with (N.of_uint (N.to_uint (Z.to_N n))).
  rewrite DecimalN.Unsigned.of_to. lia.
Qed.

Lemma atoi_tab_uint d :
  atoi (String "009"%char (DecimalString.NilEmpty.string_of_uint d))
  = to_int
      (long_sat (digits_value 0 (DecimalString.NilEmpty.string_of_uint d))).
Proof. destruct d; reflexivity. Qed.

Lemma atoi_decimal n :
  0 <= n < two31 -> atoi (String "009"%char (decimal n)) = n.
Proof.
  intros Hn. unfold decimal. rewrite atoi_tab_uint.
  fold (decimal n). rewrite digits_value_decimal by lia.
  unfold to_int, long_sat, two31, two32 in *.
  rewrite Z.min_r, Z.max_r by lia. rewrite Z.mod_small by lia. lia.
Qed.

Lemma from_tab_name : forall name rest,
  plain_name name = true ->
  from_tab (name ++ String "009"%char rest)
  = Some (String "009"%char rest).
Proof.
  induction name as [|c t IH]; intros rest Hp; simpl in *.
  - reflexivity.
  - apply andb_true_iff in Hp. destruct Hp as [Hc Ht].
    apply andb_true_iff in Hc. destruct Hc as [Hc _].
    apply negb_true_iff in Hc. rewrite Hc. now apply IH.
Qed.

Lemma append_snoc : forall (cur : string) c t,
  ((cur ++ String c EmptyString) ++ t)%string = (cur ++ String c t)%string.
Proof. induction cur as [|a cur IH]; intros c t; simpl; [|rewrite IH]; auto. Qed.

Lemma append_assoc' : forall (a b c : string),
  ((a ++ b) ++ c)%string = (a ++ (b ++ c))%string.
Proof. induction a as [|x a IH]; intros b c; simpl; [|rewrite IH]; auto. Qed.

Lemma append_nil_r : forall (a : string), (a ++ EmptyString)%string = a.
Proof. induction a as [|x a IH]; simpl; [|rewrite IH]; auto. Qed.

Lemma lines_from_plain : forall name cur tail,
  plain_name name = true ->
  lines_from cur (name ++ tail) = lines_from (cur ++ name) tail.
Proof.
  induction name as [|c t IH]; intros cur tail Hp; simpl in *.
  - now rewrite append_nil_r.
  - apply andb_true_iff in Hp. destruct Hp as [Hc Ht].
    apply andb_true_iff in Hc. destruct Hc as [_ Hc].
    apply negb_true_iff in Hc. rewrite Hc, IH by exact Ht.
    now rewrite append_snoc.
Qed.

Lemma lines_from_uint : forall d cur tail,
  lines_from cur (DecimalString.NilEmpty.string_of_uint d ++ tail)
  = lines_from (cur ++ DecimalString.NilEmpty.string_of_uint d) tail.
Proof.
  induction d; intros cur tail; cbn [DecimalString.NilEmpty.string_of_uint];
    [simpl; now rewrite append_nil_r|..];
    (cbn [append lines_from];
     match goal with
     | |- context [Ascii.eqb ?c "010"%char] =>
         change (Ascii.eqb c "010"%char) with false
     end;
     cbv iota; rewrite IHd, append_snoc; reflexivity).
Qed.

Lemma lines_from_row row cur rest :
  plain_name (fst row) = true ->
  lines_from cur (sizesLine row ++ String "010"%char rest)
  = (cur ++ sizesLine row)%string :: lines_from EmptyString rest.
Proof.
  intros Hp. unfold sizesLine, decimal.
  rewrite append_assoc', lines_from_plain by exact Hp.
  cbn [append lines_from].
  change (Ascii.eqb "009"%char "010"%char) with false. cbv iota.
  rewrite lines_from_uint. cbn [lines_from].
  change (Ascii.eqb "010"%char "010"%char) with true. cbv iota.
  now rewrite !append_snoc, append_assoc'.
Qed.

Lemma lines_from_sizesFile : forall rows,
  Forall (fun row => plain_name (fst row) = true) rows ->
  lines_from EmptyString (sizesFile rows) = map sizesLine rows.
Proof.
  induction 1 as [|row rows Hp _ IH]; cbn [sizesFile map].
  - reflexivity.
  - rewrite lines_from_row by exact Hp. now rewrite IH.
Qed.

Lemma u32_idem z : u32 (u32 z) = u32 z.
Proof. unfold u32, two32. now rewrite Z.mod_mod. Qed.

Lemma sumSizes_rows fileName : forall rows acc,
  Forall (fun row => plain_name (fst row) = true /\ 0 <= snd row < two31)
    rows ->
  sumSizes fileName (u32 acc) (map sizesLine rows)
  = Ok (u32 (acc + totalSize rows)).
Proof.
  induction rows as [|row rows IH]; intros acc Hrows; cbn [map sumSizes].
  - unfold totalSize. simpl. now rewrite Z.add_0_r.
  - inversion Hrows as [|? ? [Hp Hn] Hrest]; subst.
    unfold sizesLine at 1. rewrite from_tab_name by exact Hp.
    rewrite atoi_decimal by exact Hn.
    replace (u32 (u32 acc + snd row)) with (u32 (acc + snd row))
      by (unfold u32, two32; now rewrite Zplus_mod_idemp_l).
    rewrite IH by exact Hrest. f_equal. f_equal.
    unfold totalSize. simpl. lia.
Qed.

Lemma readSizes_sizesFile fs dirName species rows :
  fs (sizesFileName dirName species) = Some (sizesFile rows) ->
  Forall (fun row => plain_name (fst row) = true /\ 0 <= snd row < two31)
    rows ->
  readSizes fs dirName species = Ok (totalSize rows mod two32).
Proof.
  intros Hfs Hrows. unfold readSizes. cbv zeta. rewrite Hfs.
  rewrite lines_from_sizesFile
    by (eapply Forall_impl; [|exact Hrows]; now intros row [H _]).
  change 0 with (u32 0) at 1. now rewrite sumSizes_rows.
Qed.

Lemma sizesLoop_returns fs dirName : forall todo acc,
  (forall sp, In sp todo -> exists g, readSizes fs dirName sp = Ok g) ->
  fst (sizesLoop fs dirName todo acc) = Ok tt.
Proof.
  induction todo as [|sp todo IH]; intros acc Hall; simpl.
  - reflexivity.
  - destruct (Hall sp (or_introl eq_refl)) as [g ->].
    apply IH. intros sp' Hin. apply Hall. now right.
Qed.

(** ** The properties *)

(** X1: the anonymous-namespace helper returns the elements of a chain of
    its input (increasing indices, every element passes the filter, each
    ends where the next starts or before), and when no filtered element
    ends before it starts no chain of the input is longer than the
    result. *)
Theorem helper_returns_longest_chain (seq : list PwalnEntry)
  (filter : PwalnEntry -> bool) (lo hi : PwalnEntry -> Z) :
  (exists idxs,
     is_chain seq filter lo hi idxs /\
     Lis.longestSubsequence_helper seq filter lo hi
     = map (fun j => nth j seq dummyEntry) idxs) /\
  ((forall e, In e seq -> filter e = true -> lo e <= hi e) ->
   forall idxs,
     is_chain seq filter lo hi idxs ->
     (length idxs
      <= length (Lis.longestSubsequence_helper seq filter lo hi))%nat).
Proof.
  split.
  - exact (helper_chain seq filter lo hi).
  - intros Hlohi idxs Hc. apply helper_longest; auto.
    intros j Hj Hf. apply Hlohi; auto. now apply nth_In.
Qed.

Lemma helper_returns_longest_chain_witness :
  (exists idxs,
     is_chain exBucket fwd_filter qryStart qryEnd idxs /\
     Lis.longestSubsequence_helper exBucket fwd_filter qryStart qryEnd
     = map (fun j => nth j exBucket dummyEntry) idxs) /\
  (forall idxs,
     is_chain exBucket fwd_filter qryStart qryEnd idxs ->
     (length idxs
      <= length (Lis.longestSubsequence_helper exBucket fwd_filter
                   qryStart qryEnd))%nat).
Proof.
  split.
  - exact (proj1 (helper_returns_longest_chain exBucket fwd_filter qryStart
                    qryEnd)).
  - apply (proj2 (helper_returns_longest_chain exBucket fwd_filter qryStart
                    qryEnd)).
    intros e He _. unfold exBucket in He. simpl in He.
    repeat (destruct He as [<-|He]; [simpl; lia|]). contradiction.
Defined.

(** X2: on query coordinates below 2^31, what the public wrapper returns is
    a collinear subsequence of its input on one strand (a chain of forward
    entries by increasing query position, or of reversed entries by
    decreasing query position), and no such chain of the input, on either
    strand, is longer. *)
Theorem wrapper_returns_longest (seq res : list PwalnEntry) :
  Forall qry_in_int seq ->
  longestSubsequence seq = Ok res ->
  (exists idxs,
     res = map (fun j => nth j seq dummyEntry) idxs /\
     (is_chain seq fwd_filter qryStart qryEnd idxs \/
      is_chain seq rev_filter (fun e => - qryStart e) (fun e => - qryEnd e)
        idxs)) /\
  (forall idxs,
     is_chain seq fwd_filter qryStart qryEnd idxs \/
     is_chain seq rev_filter (fun e => - qryStart e) (fun e => - qryEnd e)
       idxs ->
     (length idxs <= length res)%nat).
Proof.
  intros Hint Hres.
  destruct (longestSubsequence_ok seq res Hres) as (_ & _ & ->).
  rewrite (inc_of_spec seq Hint), (dec_of_spec seq Hint).
  unfold spec_forward, spec_reverse.
  set (inc := Lis.longestSubsequence_helper seq _ qryStart qryEnd).
  set (dec := Lis.longestSubsequence_helper seq isQryReversed _ _).
  assert (Hinc : forall idxs, is_chain seq fwd_filter qryStart qryEnd idxs ->
            (length idxs <= length inc)%nat).
  { intros idxs Hc. apply helper_longest; auto. apply fwd_lo_le_hi. }
  assert (Hdec : forall idxs,
            is_chain seq rev_filter (fun e => - qryStart e)
              (fun e => - qryEnd e) idxs ->
            (length idxs <= length dec)%nat).
  { intros idxs Hc. apply helper_longest; auto. apply rev_lo_le_hi. }
  destruct (length dec <=? length inc)%nat eqn:Hle.
  - apply Nat.leb_le in Hle. split.
    + destruct (helper_chain seq fwd_filter qryStart qryEnd) as (idxs & Hc & He).
      exists idxs. split; [exact He | now left].
    + intros idxs [Hc|Hc]; [now apply Hinc|].
      specialize (Hdec idxs Hc). lia.
  - apply Nat.leb_gt in Hle. split.
    + destruct (helper_chain seq rev_filter (fun e => - qryStart e)
                  (fun e => - qryEnd e)) as (idxs & Hc & He).
      exists idxs. split; [exact He | now right].
    + intros idxs [Hc|Hc]; [|now apply Hdec].
      specialize (Hinc idxs Hc). lia.
Qed.

Lemma wrapper_returns_longest_witness :
  (exists idxs,
     exBucket = map (fun j => nth j exBucket dummyEntry) idxs /\
     (is_chain exBucket fwd_filter qryStart qryEnd idxs \/
      is_chain exBucket rev_filter (fun e => - qryStart e)
        (fun e => - qryEnd e) idxs)) /\
  (forall idxs,
     is_chain exBucket fwd_filter qryStart qryEnd idxs \/
     is_chain exBucket rev_filter (fun e => - qryStart e)
       (fun e => - qryEnd e) idxs ->
     (length idxs <= length exBucket)%nat).
Proof.
  apply (wrapper_returns_longest exBucket exBucket).
  - unfold exBucket, qry_in_int, two31; repeat constructor; simpl; lia.
  - vm_compute. reflexivity.
Defined.

(** X3: the anchors [getAnchors] returns are entries of the bucket of the
    chromosome, on one query chromosome and one strand; either both are
    the same entry, which covers the position, or the upstream anchor ends
    at or before the position and the downstream anchor starts after it;
    and the bucket holds at least [minn] = 5 entries on that query
    chromosome and strand. *)
Theorem getAnchors_result {L : StdLib} {LL : StdLibLaws L}
  (pwaln : Pwaln) (refCoords : Coords) (a : Anchors) :
  getAnchors pwaln refCoords = Ok (Some a) ->
  exists bucket,
    lookupZ (chrom refCoords) pwaln = Some bucket /\
    In (upstream a) bucket /\ In (downstream a) bucket /\
    qryChrom (upstream a) = qryChrom (downstream a) /\
    isQryReversed (upstream a) = isQryReversed (downstream a) /\
    ((upstream a = downstream a /\
      refStart (upstream a) <= loc refCoords < refEnd (upstream a)) \/
     (refEnd (upstream a) <= loc refCoords /\
      loc refCoords < refStart (downstream a))) /\
    (minn <= length (onChromStrand (qryChrom (upstream a))
                       (isQryReversed (upstream a)) bucket))%nat.
Proof.
  unfold getAnchors.
  destruct (lookupZ _ _) as [bucket|] eqn:Hb; [|discriminate].
  destruct (candidates _ _) as [sorted|] eqn:Hc; [|discriminate].
  intros H. apply bind_ok in H. destruct H as (res & Hres & H).
  destruct (length res <? minn)%nat eqn:Hmin; [discriminate|].
  apply Nat.ltb_ge in Hmin. injection H as Hsel.
  exists bucket. split; [reflexivity|].
  destruct (selectAnchors_cases _ _ _ Hsel) as (Hup & Hdown & Hgeo).
  destruct (longestSubsequence_strand _ _ Hres) as (r & Hr & idxs & Hmap & Hch).
  destruct (candidates_chrom _ _ _ Hc) as (c & Hchrom).
  rewrite Forall_forall in Hr, Hchrom.
  destruct (Hr _ Hup) as [Hup_in Hup_r].
  destruct (Hr _ Hdown) as [Hdown_in Hdown_r].
  pose proof (Hchrom _ Hup_in) as Hup_c.
  pose proof (Hchrom _ Hdown_in) as Hdown_c.
  repeat split.
  - eapply candidates_in; eauto.
  - eapply candidates_in; eauto.
  - congruence.
  - congruence.
  - exact Hgeo.
  - unfold onChromStrand. rewrite Hup_c, Hup_r.
    set (Q := fun e => (qryChrom e =? c) && Bool.eqb (isQryReversed e) r).
    etransitivity; [exact Hmin|].
    etransitivity; [|apply (candidates_count _ _ _ Q Hc)].
    rewrite Hmap, length_map.
    destruct Hch as [[-> Hch]|[-> Hch]].
    + apply (chain_count fwd_filter fwd_lo fwd_hi Q sorted idxs 0%nat);
        [|exact Hch | intros; lia].
      intros e He Hf. unfold Q. rewrite (Hchrom e He), Z.eqb_refl.
      unfold fwd_filter in Hf. apply negb_true_iff in Hf. now rewrite Hf.
    + apply (chain_count rev_filter rev_lo rev_hi Q sorted idxs 0%nat);
        [|exact Hch | intros; lia].
      intros e He Hf. unfold Q. rewrite (Hchrom e He), Z.eqb_refl.
      unfold rev_filter in Hf. now rewrite Hf.
Qed.

Lemma getAnchors_result_witness :
  exists bucket,
    lookupZ 0 exPwaln = Some bucket /\
    In (upstream exAnchors) bucket /\ In (downstream exAnchors) bucket /\
    qryChrom (upstream exAnchors) = qryChrom (downstream exAnchors) /\
    isQryReversed (upstream exAnchors) = isQryReversed (downstream exAnchors) /\
    ((upstream exAnchors = downstream exAnchors /\
      refStart (upstream exAnchors) <= 1057 < refEnd (upstream exAnchors)) \/
     (refEnd (upstream exAnchors) <= 1057 /\
      1057 < refStart (downstream exAnchors))) /\
    (minn <= length (onChromStrand (qryChrom (upstream exAnchors))
                       (isQryReversed (upstream exAnchors)) bucket))%nat.
Proof.
  apply (getAnchors_result (L := simpleLib) exPwaln (mkCoords 0 1057) exAnchors).
  vm_compute. reflexivity.
Defined.

Lemma upstream_inv_nil refLoc : upstream_inv refLoc [] [].
Proof.
  split; [constructor|]. split; [intros e []|intros x []].
Qed.

(** X4: on a bucket sorted by [refStart], neither the [break] of the scan
    nor the truncations of the upstream set lose a candidate: the
    downstream candidates are the first [topn] = 20 downstream entries, the
    overlapping candidates are all overlapping entries, and every upstream
    entry of the bucket is represented among the at most 20 upstream
    candidates by the first entry with its [refEnd], unless 20 candidates
    end nearer to the position. *)
Theorem scan_loses_nothing (refLoc : Z) (bucket : list PwalnEntry) :
  sortedByRefStart bucket ->
  let st := scanAndTrim refLoc bucket in
  anchorsDownstream st = firstn topn (List.filter (isDownstream refLoc) bucket)
  /\ ovAln st = List.filter (isOverlapping refLoc) bucket
  /\ (length (anchorsUpstream st) <= topn)%nat
  /\ forall x, In x bucket -> refEnd x <= refLoc ->
       (exists f, firstUpstream refLoc (refEnd x) bucket = Some f /\
                  In f (anchorsUpstream st))
       \/ (topn <= closer (refEnd x) (anchorsUpstream st))%nat.
Proof.
  intros Hsorted. cbv zeta. unfold scanAndTrim.
  cbn [anchorsUpstream ovAln anchorsDownstream].
  destruct (scan_sorted refLoc bucket [] (mkScan [] [] []) Hsorted
              (upstream_inv_nil refLoc)) as [Hinv Hov].
  set (st0 := neighbourScan refLoc bucket (mkScan [] [] [])) in *.
  split; [|split; [|split]].
  - unfold st0. rewrite scan_downstream; [reflexivity|].
    simpl. unfold topn. lia.
  - exact Hov.
  - destruct (topn <? length (anchorsUpstream st0))%nat eqn:Hlen.
    + apply firstn_le_length.
    + now apply Nat.ltb_ge in Hlen.
  - simpl in Hinv.
    assert (Hfin : upstream_inv refLoc bucket
                     (if (topn <? length (anchorsUpstream st0))%nat
                      then firstn topn (anchorsUpstream st0)
                      else anchorsUpstream st0)).
    { destruct (_ <? _)%nat; auto. now apply upstream_inv_firstn. }
    destruct Hfin as (_ & _ & Hfirst). exact Hfirst.
Qed.

Lemma scan_loses_nothing_witness :
  let st := scanAndTrim 1057 exBucket in
  anchorsDownstream st = firstn topn (List.filter (isDownstream 1057) exBucket)
  /\ ovAln st = List.filter (isOverlapping 1057) exBucket
  /\ (length (anchorsUpstream st) <= topn)%nat
  /\ forall x, In x exBucket -> refEnd x <= 1057 ->
       (exists f, firstUpstream 1057 (refEnd x) exBucket = Some f /\
                  In f (anchorsUpstream st))
       \/ (topn <= closer (refEnd x) (anchorsUpstream st))%nat.
Proof.
  apply (scan_loses_nothing 1057 exBucket).
  split.
  - unfold exBucket. repeat constructor; simpl; lia.
  - unfold exBucket. repeat constructor; simpl; lia.
Defined.

(** X5: whatever the iteration order of the hash map, the chromosome
    [computeMajorChrom] returns is one no other query chromosome outnumbers
    among the entries of its three arguments; it is the query chromosome of
    one of the entries, and 0 when there is no entry. *)
Theorem major_chrom_most_frequent {L : StdLib} {LL : StdLibLaws L}
  (a b c0 : list PwalnEntry) :
  (forall c, (onChrom c (a ++ b ++ c0)
              <= onChrom (computeMajorChrom a b c0) (a ++ b ++ c0))%nat) /\
  (a ++ b ++ c0 <> [] ->
   exists e, In e (a ++ b ++ c0) /\ qryChrom e = computeMajorChrom a b c0) /\
  (a ++ b ++ c0 = [] -> computeMajorChrom a b c0 = 0).
Proof.
  unfold computeMajorChrom.
  set (counts := updateChromCount (updateChromCount (updateChromCount [] a) b) c0).
  assert (Hspec : NoDup (map fst counts) /\
                  Forall (fun kv => (0 < snd kv)%nat) counts /\
                  forall c, countOf c counts = onChrom c (a ++ b ++ c0)).
  { destruct (updateChromCount_spec a []) as (Ha1 & Ha2 & Ha3);
      [constructor | constructor |].
    destruct (updateChromCount_spec b _ Ha1 Ha2) as (Hb1 & Hb2 & Hb3).
    destruct (updateChromCount_spec c0 _ Hb1 Hb2) as (Hc1 & Hc2 & Hc3).
    repeat split; auto. intros c. unfold counts.
    rewrite Hc3, Hb3, Ha3, !onChrom_app. unfold countOf. simpl. lia. }
  destruct Hspec as (Hnd & Hpos & Hcount).
  pose proof (umap_order_perm counts) as Hperm.
  destruct (fold_max_spec (umap_order counts) (0, 0%nat)) as (_ & Hmax & Hbest).
  cbv zeta in *.
  set (best := fold_left _ (umap_order counts) (0, 0%nat)) in *.
  assert (Hle : forall c, (countOf c counts <= snd best)%nat).
  { intros c. apply countOf_le_in. intros kv Hkv. apply Hmax.
    apply (Permutation_in _ (Permutation_sym Hperm)). exact Hkv. }
  destruct Hbest as [Hinit|Hin].
  - (* no count exceeded 0: there is no entry *)
    rewrite Hinit in *. simpl in *.
    assert (Hnil : a ++ b ++ c0 = []).
    { destruct (a ++ b ++ c0) as [|e es] eqn:He; auto. exfalso.
      specialize (Hle (qryChrom e)). rewrite Hcount in Hle.
      unfold onChrom in Hle. simpl in Hle. rewrite Z.eqb_refl in Hle.
      simpl in Hle. lia. }
    repeat split; auto.
    + intros c. rewrite Hnil. unfold onChrom. simpl. lia.
    + intros Hne. contradiction.
  - apply (Permutation_in _ Hperm) in Hin.
    assert (Hb : countOf (fst best) counts = snd best).
    { apply countOf_in; auto. now destruct best. }
    repeat split.
    + intros c. rewrite <- !Hcount, Hb. apply Hle.
    + intros _.
      assert (Hp : (0 < onChrom (fst best) (a ++ b ++ c0))%nat).
      { rewrite <- Hcount, Hb. rewrite Forall_forall in Hpos.
        apply (Hpos best Hin). }
      unfold onChrom in Hp.
      destruct (List.filter _ (a ++ b ++ c0)) as [|e es] eqn:Hf;
        [simpl in Hp; lia|].
      assert (He : In e (List.filter (fun e => qryChrom e =? fst best)
                           (a ++ b ++ c0))) by (rewrite Hf; simpl; auto).
      apply filter_In in He. destruct He as [He1 He2].
      exists e. split; auto. now apply Z.eqb_eq.
    + intros Hnil. exfalso.
      assert (Hp : (0 < onChrom (fst best) (a ++ b ++ c0))%nat).
      { rewrite <- Hcount, Hb. rewrite Forall_forall in Hpos.
        apply (Hpos best Hin). }
      rewrite Hnil in Hp. unfold onChrom in Hp. simpl in Hp. lia.
Qed.

Lemma major_chrom_most_frequent_witness :
  (forall k, (onChrom k ([] ++ exBucket ++ [])
              <= onChrom (computeMajorChrom [] exBucket [])
                   ([] ++ exBucket ++ []))%nat) /\
  ([] ++ exBucket ++ [] <> [] ->
   exists e, In e ([] ++ exBucket ++ []) /\
             qryChrom e = computeMajorChrom [] exBucket []) /\
  ([] ++ exBucket ++ [] = [] -> computeMajorChrom [] exBucket [] = 0).
Proof.
  exact (major_chrom_most_frequent (L := simpleLib) (LL := simpleLib_laws)
           [] exBucket []).
Defined.

(** X6: on a table of at most 2^16 names [chromName] inverts
    [chromIdFromName], and on a table without repeated names
    [chromIdFromName] inverts [chromName]; [chromIdFromName] throws
    "Unknown chromosome: <name>" exactly for the names that are not in the
    table, and [chromName] throws [std::out_of_range] exactly for the ids
    from the size of the table on. *)
Theorem chrom_lookup_round_trip (ipp : Ipp) :
  (length (chroms_ ipp) <= Z.to_nat two16)%nat ->
  (forall name id,
     chromIdFromName ipp name = Ok id ->
     chromName ipp id = Ok name /\ 0 <= id < Z.of_nat (length (chroms_ ipp)))
  /\
  (NoDup (chroms_ ipp) ->
   forall id name,
     0 <= id -> chromName ipp id = Ok name ->
     chromIdFromName ipp name = Ok id) /\
  (forall name,
     ~ In name (chroms_ ipp) <->
     chromIdFromName ipp name
     = Throw (RuntimeError ("Unknown chromosome: " ++ name))) /\
  (forall id,
     0 <= id ->
     (Z.of_nat (length (chroms_ ipp)) <= id <->
      chromName ipp id = Throw OutOfRange)).
Proof.
  intros Hlen. split; [|split; [|split]].
  - intros name id H. split; [now apply chrom_round_trip|].
    unfold chromIdFromName in H.
    destruct (find_index name (chroms_ ipp)) as [i|] eqn:Hf; [|discriminate].
    injection H as <-. destruct (find_index_some _ _ _ Hf) as (_ & Hi & _).
    unfold two16 in *. rewrite Z.mod_small; lia.
  - intros Hnd id name Hid H. unfold chromName in H.
    destruct (nth_error (chroms_ ipp) (Z.to_nat id)) as [x|] eqn:Hn;
      [|discriminate].
    injection H as ->. unfold chromIdFromName.
    rewrite (find_index_nth _ _ _ Hnd Hn).
    assert (Hlt : (Z.to_nat id < length (chroms_ ipp))%nat).
    { apply nth_error_Some. congruence. }
    rewrite Z2Nat.id by lia. unfold two16 in *. rewrite Z.mod_small; auto. lia.
  - intros name. unfold chromIdFromName.
    destruct (find_index name (chroms_ ipp)) as [i|] eqn:Hf.
    + split; [|discriminate]. intros Hni. apply find_index_none in Hni.
      congruence.
    + split; auto. intros _. now apply find_index_none.
  - intros id Hid. unfold chromName.
    destruct (nth_error (chroms_ ipp) (Z.to_nat id)) as [x|] eqn:Hn.
    + split; [|discriminate]. intros Hge.
      assert (Hlt : (Z.to_nat id < length (chroms_ ipp))%nat).
      { apply nth_error_Some. congruence. }
      lia.
    + split; auto. intros _. apply nth_error_None in Hn. lia.
Qed.

Lemma chrom_lookup_round_trip_witness :
  chromName hopIpp 0 = Ok "chr1"%string /\
  chromIdFromName hopIpp "chr2"
  = Throw (RuntimeError "Unknown chromosome: chr2").
Proof.
  destruct (chrom_lookup_round_trip hopIpp) as (H1 & _ & H3 & _).
  - simpl. unfold two16. lia.
  - split.
    + apply (H1 "chr1"%string 0). reflexivity.
    + apply (proj1 (H3 "chr2"%string)). simpl. intros [H|[]]. discriminate.
Defined.

(** X7: whatever the file holds, and whether the load succeeds or throws,
    the chromosome table [loadPwalns] leaves has fewer than 2^16 names, so
    that on the loaded store the id [chromIdFromName] returns for a name is
    one that [chromName] maps back to it. *)
Theorem loaded_names_round_trip (file : option (list byte)) (ipp : Ipp)
  (name : string) (id : Z) :
  chromIdFromName (snd (loadPwalns file ipp)) name = Ok id ->
  chromName (snd (loadPwalns file ipp)) id = Ok name.
Proof.
  apply chrom_round_trip.
  pose proof (loadPwalns_chroms file ipp). lia.
Qed.

Lemma loaded_names_round_trip_witness :
  chromName (snd (loadPwalns (Some unknownChromFile) exIpp)) 0 = Ok "c"%string.
Proof.
  apply (loaded_names_round_trip (Some unknownChromFile) exIpp "c" 0).
  vm_compute. reflexivity.
Defined.

(** X8: a [loadGenomeSizes] that returns leaves the chromosome table, the
    pwaln map and the half-life distance as they were; the genome sizes it
    leaves are those read from the files of the reference species of the
    pwaln map, and no other species has one, whatever sizes the store held
    before. *)
Theorem genome_sizes_loaded (fs : string -> option string) (dirName : string)
  (ipp : Ipp) :
  fst (loadGenomeSizes fs dirName ipp) = Ok tt ->
  let st := snd (loadGenomeSizes fs dirName ipp) in
  chroms_ st = chroms_ ipp /\ pwalns_ st = pwalns_ ipp /\
  halfLifeDistance_ st = halfLifeDistance_ ipp /\
  (forall sp, In sp (map fst (pwalns_ ipp)) ->
     exists g, readSizes fs dirName sp = Ok g /\
               lookupS sp (genomeSizes_ st) = Some g) /\
  (forall sp, ~ In sp (map fst (pwalns_ ipp)) ->
     lookupS sp (genomeSizes_ st) = None).
Proof.
  unfold loadGenomeSizes.
  destruct (sizesLoop fs dirName (map fst (pwalns_ ipp)) [])
    as [r sizes] eqn:Hloop.
  simpl. intros ->.
  destruct (sizesLoop_ok _ _ _ _ _ Hloop) as [Hin Hout].
  repeat split; auto.
Qed.

Lemma genome_sizes_loaded_witness :
  lookupS "A" (genomeSizes_ (snd (loadGenomeSizes sizesOfA "dir" exIpp)))
  = Some 1500 /\
  lookupS "B" (genomeSizes_ (snd (loadGenomeSizes sizesOfA "dir" exIpp)))
  = None.
Proof.
  destruct (genome_sizes_loaded sizesOfA "dir" exIpp) as (_ & _ & _ & H1 & H2).
  - vm_compute. reflexivity.
  - split.
    + vm_compute. reflexivity.
    + apply H2. simpl. intros [H|[]]. discriminate.
Defined.

(** X9: the requests [projectCoord] settles without a projection.  A
    reference species without genome size makes [genomeSizes_.at] throw
    [std::out_of_range]; with a genome size, a request whose query species
    is the reference species returns the start entry alone (score 1, no
    predecessor, the coordinates asked for) and no direct result, whether
    or not the species has alignments; and a reference species that differs
    from the query species and has no pwaln map makes [pwalns_.at] throw. *)
Theorem projectCoord_without_search {L : StdLib} {SA : ScoreArith}
  {SL : ScoreLaws SA} (ipp : Ipp) (refSpecies qrySpecies : string)
  (refCoords : Coords) :
  (lookupS refSpecies (genomeSizes_ ipp) = None ->
   projectCoord ipp refSpecies qrySpecies refCoords = Throw OutOfRange) /\
  (lookupS refSpecies (genomeSizes_ ipp) <> None ->
   projectCoord ipp refSpecies refSpecies refCoords
   = Ok (mkCP None
           [(refSpecies,
             mkSPE sone EmptyString refCoords
               (mkAnchors dummyEntry dummyEntry))])) /\
  (lookupS refSpecies (genomeSizes_ ipp) <> None ->
   refSpecies <> qrySpecies ->
   lookupS refSpecies (pwalns_ ipp) = None ->
   projectCoord ipp refSpecies qrySpecies refCoords = Throw OutOfRange).
Proof.
  unfold projectCoord, projectCoordRun. split; [|split].
  - intros ->. reflexivity.
  - destruct (lookupS refSpecies (genomeSizes_ ipp)) as [g|] eqn:Hg;
      [intros _ | congruence].
    destruct (searchBound_pos ipp refSpecies g Hg) as [f ->].
    rewrite first_step, first_step_fresh, String.eqb_refl. reflexivity.
  - destruct (lookupS refSpecies (genomeSizes_ ipp)) as [g|] eqn:Hg;
      [intros _ | congruence].
    intros Hne Hp.
    destruct (searchBound_pos ipp refSpecies g Hg) as [f ->].
    rewrite first_step, first_step_fresh, Hp.
    apply String.eqb_neq in Hne. rewrite Hne. reflexivity.
Qed.

Lemma projectCoord_without_search_witness :
  projectCoord exIpp "A" "A" (mkCoords 0 1057)
  = Ok (mkCP None
          [("A"%string,
            mkSPE 1%Q EmptyString (mkCoords 0 1057)
              (mkAnchors dummyEntry dummyEntry))]).
Proof.
  apply (proj1 (proj2 (projectCoord_without_search (L := simpleLib)
                         (SA := dyadicScores) exIpp "A" "A" (mkCoords 0 1057)))).
  simpl. discriminate.
Defined.

(** X10: with [nCores <= 1] the coordinates are projected on the calling
    thread from the last one to the first.  When every projection returns,
    the callback has been called once for each coordinate, in reverse
    order of [refCoords]; when one throws, the callback has been called for
    the coordinates behind it only, the coordinates in front of it are left
    unprocessed, and the call returns, holding the [std::exception] copy of
    what was thrown. *)
Theorem inline_runs_jobs_from_the_back {L : StdLib} {SA : ScoreArith}
  (ipp : Ipp) (refSpecies qrySpecies : string) (refCoords : list Coords)
  (nCores : nat) (schedule : list nat) (f : Coords -> CoordProjection) :
  (nCores <= 1)%nat ->
  ((forall c, In c refCoords ->
      projectCoord ipp refSpecies qrySpecies c = Ok (f c)) ->
   projectCoords ipp refSpecies qrySpecies refCoords nCores schedule
   = Ok (mkWorker [] false None
           (map (fun c => (c, f c)) (rev refCoords)))) /\
  (forall pre c post e,
     refCoords = pre ++ c :: post ->
     projectCoord ipp refSpecies qrySpecies c = Throw e ->
     (forall x, In x post ->
        projectCoord ipp refSpecies qrySpecies x = Ok (f x)) ->
     projectCoords ipp refSpecies qrySpecies refCoords nCores schedule
     = Ok (mkWorker pre true (Some StdException)
             (map (fun x => (x, f x)) (rev post)))).
Proof.
  intros Hn. unfold projectCoords, projectCoordsWith.
  replace (nCores <=? 1)%nat with true by (symmetry; now apply Nat.leb_le).
  split.
  - intros Hok.
    rewrite (worker_all_ok _ f) by (auto; lia). reflexivity.
  - intros pre c post e -> Hc Hok.
    rewrite (worker_stops _ f pre c post e) by (auto; lia). reflexivity.
Qed.

Lemma inline_runs_jobs_from_the_back_witness :
  projectCoords exIpp "A" "A" [mkCoords 0 7; mkCoords 0 1057] 1 []
  = Ok (mkWorker [] false None
          [(mkCoords 0 1057,
            mkCP None
              [("A"%string,
                mkSPE 1%Q EmptyString (mkCoords 0 1057)
                  (mkAnchors dummyEntry dummyEntry))]);
           (mkCoords 0 7,
            mkCP None
              [("A"%string,
                mkSPE 1%Q EmptyString (mkCoords 0 7)
                  (mkAnchors dummyEntry dummyEntry))])]) /\
  projectCoords exIpp "Z" "B" [mkCoords 0 7; mkCoords 0 1057] 1 []
  = Ok (mkWorker [mkCoords 0 7] true (Some StdException) []).
Proof.
  split.
  - apply (proj1 (inline_runs_jobs_from_the_back (L := simpleLib)
                    (SA := dyadicScores) exIpp "A" "A"
                    [mkCoords 0 7; mkCoords 0 1057] 1 []
                    (fun c => mkCP None
                       [("A"%string,
                         mkSPE sone EmptyString c
                           (mkAnchors dummyEntry dummyEntry))])
                    (le_n 1))).
    intros c [<-|[<-|[]]]; vm_compute; reflexivity.
  - apply (proj2 (inline_runs_jobs_from_the_back (L := simpleLib)
                    (SA := dyadicScores) exIpp "Z" "B"
                    [mkCoords 0 7; mkCoords 0 1057] 1 []
                    (fun c => mkCP None []) (le_n 1))
             [mkCoords 0 7] (mkCoords 0 1057) [] OutOfRange).
    + reflexivity.
    + reflexivity.
    + intros x [].
Defined.

(** X11: with [nCores >= 2], whatever the interleaving of the threads:
    when every projection returns, [projectCoords] returns with no job
    left and the callback called once for each coordinate; and when the
    projections return or throw and one of them throws, [projectCoords]
    throws a plain [std::exception]: the copy it kept of what a projection
    threw, without the dynamic type and the message of the original. *)
Theorem threads_deliver_or_rethrow {L : StdLib} {SA : ScoreArith}
  (ipp : Ipp) (refSpecies qrySpecies : string) (refCoords : list Coords)
  (nCores : nat) (schedule : list nat) :
  (2 <= nCores)%nat ->
  (forall f : Coords -> CoordProjection,
     (forall c, In c refCoords ->
        projectCoord ipp refSpecies qrySpecies c = Ok (f c)) ->
     exists w,
       projectCoords ipp refSpecies qrySpecies refCoords nCores schedule
       = Ok w /\
       jobs w = [] /\ hadWorkerException w = false /\
       Permutation (callbacks w) (map (fun c => (c, f c)) refCoords)) /\
  ((forall c, In c refCoords ->
      (exists cp, projectCoord ipp refSpecies qrySpecies c = Ok cp) \/
      (exists e, projectCoord ipp refSpecies qrySpecies c = Throw e)) ->
   (exists c e, In c refCoords /\
                projectCoord ipp refSpecies qrySpecies c = Throw e) ->
   projectCoords ipp refSpecies qrySpecies refCoords nCores schedule
   = Throw StdException).
Proof.
  intros Hn. unfold projectCoords, projectCoordsWith.
  replace (nCores <=? 1)%nat with false by (symmetry; apply Nat.leb_gt; lia).
  split.
  - intros f Hok.
    rewrite (runThreads_all_ok _ f nCores schedule [] refCoords false None []);
      [| lia | exact Hok | congruence].
    cbn [bind].
    eexists. split; [reflexivity|]. cbn. repeat split.
    apply Permutation_map, Permutation_sym, Permutation_rev.
  - intros Hcases (c0 & e0 & Hc0 & He0).
    set (job := projectCoord ipp refSpecies qrySpecies) in *.
    destruct (runThreads_drains job refCoords nCores Hcases schedule []
                (mkWorker refCoords false None []))
      as (w & -> & [_ Hex] & Hd).
    + lia.
    + split; [apply incl_refl | discriminate].
    + intros _ H. congruence.
    + cbn [bind]. destruct (hadWorkerException w) eqn:Hf.
      * destruct (Hex eq_refl) as (-> & _). reflexivity.
      * exfalso. destruct (Hd eq_refl) as (_ & _ & Hall).
        destruct (Hall c0 Hc0) as [cp Hcp]. congruence.
Qed.

Lemma threads_deliver_or_rethrow_witness :
  projectCoord exIpp "Z" "B" (mkCoords 0 7) = Throw OutOfRange /\
  projectCoords exIpp "Z" "B" [mkCoords 0 7; mkCoords 0 1057] 3 [2; 0; 2]%nat
  = Throw StdException.
Proof.
  split; [reflexivity|].
  apply (proj2 (threads_deliver_or_rethrow (L := simpleLib)
                  (SA := dyadicScores) exIpp "Z" "B"
                  [mkCoords 0 7; mkCoords 0 1057] 3 [2; 0; 2]%nat
                  (le_S _ _ (le_n 2)))).
  - intros c _. right. exists OutOfRange. reflexivity.
  - exists (mkCoords 0 7), OutOfRange. split; [simpl; auto | reflexivity].
Defined.

(** X12: a position on an alignment block.  When [getAnchors] gives one
    entry as both anchors and the entry does not end before it starts on
    the reference, [projectGenomicLocation] returns: none of its assertions
    fails and the genome size of the reference species is not looked up.
    The score is 1, the chromosome is the query chromosome of the entry,
    and the position is interpolated between the ends of the entry on the
    reference and its ends on the query in increasing order. *)
Theorem projection_on_block {L : StdLib} {SA : ScoreArith} (ipp : Ipp)
  (refSpecies qrySpecies : string) (refCoords : Coords)
  (scalingFactor : score) (bySpecies : SpeciesMap Pwaln) (pwaln : Pwaln)
  (o : PwalnEntry) :
  lookupS refSpecies (pwalns_ ipp) = Some bySpecies ->
  lookupS qrySpecies bySpecies = Some pwaln ->
  getAnchors pwaln refCoords = Ok (Some (mkAnchors o o)) ->
  refStart o <= refEnd o ->
  projectGenomicLocation ipp refSpecies qrySpecies refCoords scalingFactor
  = Ok (Some (mkGPR sone
                (mkCoords (qryChrom o)
                   (interpolate (loc refCoords) (refStart o) (refEnd o)
                      (Z.min (qryStart o) (qryEnd o))
                      (Z.max (qryStart o) (qryEnd o))))
                (mkAnchors o o))).
Proof.
  intros H1 H2 Ha Hwf. unfold projectGenomicLocation.
  rewrite H1, H2, Ha. cbn [bind].
  destruct (getAnchors_strict _ _ _ Ha) as [Hstrict Hgeo].
  cbn [upstream downstream] in Hstrict, Hgeo.
  assert (Hloc : refStart o <= loc refCoords < refEnd o).
  { destruct Hgeo as [[_ H]|H]; [exact H | lia]. }
  unfold projectWithAnchors, qryUpStartOf, qryUpEndOf.
  cbn [upstream downstream]. rewrite entry_eqb_refl.
  destruct (isQryReversed o) eqn:Hr; cbn [negb].
  - replace (qryEnd o <? qryStart o) with true
      by (symmetry; now apply Z.ltb_lt).
    cbn [assert bind].
    replace ((refStart o <=? loc refCoords) && (loc refCoords <? refEnd o))
      with true
      by (symmetry; apply andb_true_iff; split;
          [apply Z.leb_le | apply Z.ltb_lt]; lia).
    cbn [assert bind].
    rewrite Z.min_r, Z.max_l by lia. reflexivity.
  - replace (qryStart o <? qryEnd o) with true
      by (symmetry; now apply Z.ltb_lt).
    cbn [assert bind].
    replace ((refStart o <=? loc refCoords) && (loc refCoords <? refEnd o))
      with true
      by (symmetry; apply andb_true_iff; split;
          [apply Z.leb_le | apply Z.ltb_lt]; lia).
    cbn [assert bind].
    rewrite Z.min_l, Z.max_r by lia. reflexivity.
Qed.

Lemma projection_on_block_witness :
  projectGenomicLocation exIpp "A" "B" (mkCoords 0 900)
    (getScalingFactor exIpp 100000)
  = Ok (Some (mkGPR 1%Q (mkCoords 0 75)
                (mkAnchors (fwdEntry 800 1000 50 100)
                           (fwdEntry 800 1000 50 100)))).
Proof.
  apply (projection_on_block (L := simpleLib) (SA := dyadicScores) exIpp
           "A" "B" (mkCoords 0 900) (getScalingFactor exIpp 100000)
           [("B"%string, exPwaln)] exPwaln (fwdEntry 800 1000 50 100)).
  - reflexivity.
  - reflexivity.
  - vm_compute. reflexivity.
  - simpl. lia.
Defined.

(** X13: [loadPwalns] reads back what the file format holds.  For a
    chromosome table and a pwaln map within the ranges of the format (names
    without NUL, counts and fields within their widths, distinct species and
    chromosomes, every bucket non-empty and keyed by the reference
    chromosome of its first entry), loading the file laid out as the
    comment of [loadPwalns] describes returns and leaves exactly that table
    and that map, the genome sizes and the half-life distance untouched. *)
Theorem loadPwalns_reads_back (chroms : list string)
  (pwalns : SpeciesMap (SpeciesMap Pwaln)) (ipp : Ipp) :
  encodable chroms pwalns ->
  loadPwalns (Some (encodeStore chroms pwalns)) ipp
  = (Ok tt, mkIpp chroms pwalns (genomeSizes_ ipp) (halfLifeDistance_ ipp)).
Proof.
  intros Henc. unfold loadPwalns.
  pose proof (readBody_encoded chroms pwalns [] Henc) as Hbody.
  rewrite app_nil_r in Hbody.
  rewrite (bindL_ok _ _ _ _ _ Hbody). reflexivity.
Qed.

Lemma loadPwalns_reads_back_witness :
  loadPwalns
    (Some (encodeStore ["chr1"%string; "chrX"%string]
             [("A"%string,
               [("B"%string, [(0, exBucket); (1, [mkEntry 5 9 70 60 1 0])])]);
              ("B"%string, [])]))
    exIpp
  = (Ok tt,
     mkIpp ["chr1"%string; "chrX"%string]
       [("A"%string,
         [("B"%string, [(0, exBucket); (1, [mkEntry 5 9 70 60 1 0])])]);
        ("B"%string, [])]
       (genomeSizes_ exIpp) (halfLifeDistance_ exIpp)).
Proof.
  apply (loadPwalns_reads_back ["chr1"%string; "chrX"%string]
           [("A"%string,
             [("B"%string, [(0, exBucket); (1, [mkEntry 5 9 70 60 1 0])])]);
            ("B"%string, [])] exIpp).
  assert (Hnul : forall s, List.forallb (fun b => negb (Byte.eqb b x00))
                             (list_byte_of_string s) = true -> no_nul s).
  { intros s H. unfold no_nul. rewrite forallb_forall in H.
    apply Forall_forall. intros b Hb Hx. specialize (H b Hb). subst b.
    discriminate. }
  assert (Hnd2 : forall (a b : Z), a <> b -> NoDup [a; b]).
  { intros a b Hab. repeat constructor; simpl; intuition. }
  assert (Hs2 : forall (a b : string), a <> b -> NoDup [a; b]).
  { intros a b Hab. repeat constructor; simpl; intuition. }
  assert (Hrange : forall rs re qs qe rc qc,
            0 <= rs < 1000000 -> 0 <= re < 1000000 -> 0 <= qs < 1000000 ->
            0 <= qe < 1000000 -> 0 <= rc < 10 -> 0 <= qc < 10 ->
            entry_in_range (mkEntry rs re qs qe rc qc)).
  { intros. unfold entry_in_range, is_u32, is_u16, two32, two16. simpl. lia. }
  unfold encodable, two16. simpl length.
  split; [lia|].
  split; [constructor; [apply Hnul; reflexivity|];
          constructor; [apply Hnul; reflexivity | constructor]|].
  split; [lia|]. split; [cbn [map fst]; apply Hs2; discriminate|].
  constructor; [|constructor; [|constructor]].
  - unfold species_ok. cbn [fst snd]. simpl length.
    split; [apply Hnul; reflexivity|]. split; [lia|].
    split; [constructor; [simpl; tauto | constructor]|].
    constructor; [|constructor].
    unfold pwaln_ok, two32. cbn [fst snd]. simpl length.
    split; [apply Hnul; reflexivity|]. split; [lia|].
    split; [cbn [map fst]; apply Hnd2; discriminate|].
    constructor; [|constructor; [|constructor]].
    + unfold bucket_ok, exBucket, fwdEntry, two32. cbn [fst snd]. simpl length.
      split; [eexists _, _; split; reflexivity|]. split; [lia|].
      apply Forall_forall. intros e He. simpl in He.
      repeat (destruct He as [<-|He]; [apply Hrange; lia|]). contradiction.
    + unfold bucket_ok, two32. cbn [fst snd]. simpl length.
      split; [eexists _, _; split; reflexivity|]. split; [lia|].
      apply Forall_forall. intros e He. simpl in He.
      repeat (destruct He as [<-|He]; [apply Hrange; lia|]). contradiction.
  - unfold species_ok. cbn [fst snd]. simpl length.
    split; [apply Hnul; reflexivity|]. split; [lia|].
    split; constructor.
Defined.

(** X14: the paths [projectCoord] returns on a store whose half-life
    distance and genome sizes are positive.  The reference species keeps
    the entry the search started from (score 1, no predecessor, the
    coordinates asked for).  The entry of every other recorded species is
    one hop away from the recorded entry of its predecessor: its
    coordinates and anchors are what [projectGenomicLocation] gives for the
    predecessor's recorded coordinates, and its score is the predecessor's
    score times the score of that projection.  Following the predecessors
    from a recorded species leads to the reference species. *)
Theorem recorded_paths_lead_back {L : StdLib} {SA : ScoreArith}
  {SL : ScoreLaws SA} (ipp : Ipp) (refSpecies qrySpecies : string)
  (refCoords : Coords) (cp : CoordProjection) :
  sized_store ipp ->
  projectCoord ipp refSpecies qrySpecies refCoords = Ok cp ->
  exists genomeSize,
    lookupS refSpecies (genomeSizes_ ipp) = Some genomeSize /\
    path_tree ipp (getScalingFactor ipp genomeSize) refSpecies refCoords
      (multiShortestPath cp) /\
    forall s e,
      lookupS s (multiShortestPath cp) = Some e ->
      leadsToRef (length (multiShortestPath cp)) (multiShortestPath cp)
        refSpecies s = true.
Proof.
  unfold projectCoord, projectCoordRun. intros Hsized H.
  apply bind_ok in H. destruct H as (st & Hrun & H). injection H as <-.
  cbn [multiShortestPath].
  destruct (lookupS refSpecies (genomeSizes_ ipp)) as [g|] eqn:Hg;
    [|discriminate].
  exists g. split; [reflexivity|].
  assert (Hscaling : scaling_of ipp (getScalingFactor ipp g))
    by (exists refSpecies, g; auto).
  destruct (searchLoop_tree ipp refSpecies qrySpecies
              (getScalingFactor ipp g) refCoords Hsized Hscaling _ _ _ []
              (initial_inv ipp refSpecies refCoords g Hg)
              (initial_tree ipp refSpecies (getScalingFactor ipp g) refCoords)
              Hrun) as (done & Hinv & Htree).
  split.
  - split; [exact (ti_ref _ _ _ _ _ _ _ Htree)|].
    intros s e Hse Hne.
    exact (proj2 (ti_hop _ _ _ _ _ _ _ Htree s e Hse Hne)).
  - intros s e Hse.
    eapply recorded_leadsToRef; eauto.
Qed.

Lemma recorded_paths_lead_back_witness :
  exists genomeSize,
    lookupS "A" (genomeSizes_ hopIpp) = Some genomeSize /\
    path_tree hopIpp (getScalingFactor hopIpp genomeSize) "A"
      (mkCoords 0 1250) (multiShortestPath hopProjection) /\
    forall s e,
      lookupS s (multiShortestPath hopProjection) = Some e ->
      leadsToRef (length (multiShortestPath hopProjection))
        (multiShortestPath hopProjection) "A" s = true.
Proof.
  apply (recorded_paths_lead_back (L := simpleLib) (SA := dyadicScores)
           hopIpp "A" "C" (mkCoords 0 1250) hopProjection).
  - exact sized_store_hopIpp.
  - vm_compute. reflexivity.
Defined.

(** X15: on a store whose half-life distance and genome sizes are
    positive, every score [projectCoord] records lies between 0 and 1, and
    the score of a species other than the reference species is at most the
    recorded score of its predecessor: scores do not increase along a
    recorded path. *)
Theorem recorded_scores_decrease {L : StdLib} {SA : ScoreArith}
  {SL : ScoreLaws SA} (ipp : Ipp) (refSpecies qrySpecies : string)
  (refCoords : Coords) (cp : CoordProjection) (s : string)
  (e : ShortestPathEntry) :
  sized_store ipp ->
  projectCoord ipp refSpecies qrySpecies refCoords = Ok cp ->
  lookupS s (multiShortestPath cp) = Some e ->
  sle szero (spe_score e) /\ sle (spe_score e) sone /\
  (s <> refSpecies ->
   exists pe,
     lookupS (prevSpecies e) (multiShortestPath cp) = Some pe /\
     sle (spe_score e) (spe_score pe)).
Proof.
  unfold projectCoord, projectCoordRun. intros Hsized H Hse.
  apply bind_ok in H. destruct H as (st & Hrun & H). injection H as <-.
  cbn [multiShortestPath] in *.
  destruct (lookupS refSpecies (genomeSizes_ ipp)) as [g|] eqn:Hg;
    [|discriminate].
  assert (Hscaling : scaling_of ipp (getScalingFactor ipp g))
    by (exists refSpecies, g; auto).
  destruct (searchLoop_range ipp refSpecies qrySpecies
              (getScalingFactor ipp g) Hsized Hscaling _ _ _
              (initial_range refSpecies refCoords) Hrun) as [Hrange _].
  destruct (searchLoop_tree ipp refSpecies qrySpecies
              (getScalingFactor ipp g) refCoords Hsized Hscaling _ _ _ []
              (initial_inv ipp refSpecies refCoords g Hg)
              (initial_tree ipp refSpecies (getScalingFactor ipp g) refCoords)
              Hrun) as (done & _ & Htree).
  destruct (Hrange s e Hse) as [H0 H1]. split; auto. split; auto.
  intros Hne.
  destruct (ti_hop _ _ _ _ _ _ _ Htree s e Hse Hne)
    as [_ (pe & sc & Hpe & Hproj & Hscore)].
  exists pe. split; auto.
  pose proof (project_range ipp (getScalingFactor ipp g) Hsized Hscaling
                _ _ _ _ Hproj) as Hgu.
  cbn [gpr_score] in Hgu.
  rewrite Hscore. apply smul_le; auto.
  exact (Hrange _ _ Hpe).
Qed.

Lemma recorded_scores_decrease_witness :
  sle 0%Q 1%Q /\ sle 1%Q 1%Q /\
  ("C"%string <> "A"%string ->
   exists pe,
     lookupS "B" (multiShortestPath hopProjection) = Some pe /\
     sle 1%Q (spe_score pe)).
Proof.
  apply (recorded_scores_decrease (L := simpleLib) (SA := dyadicScores)
           hopIpp "A" "C" (mkCoords 0 1250) hopProjection "C" hopEntryC).
  - exact sized_store_hopIpp.
  - vm_compute. reflexivity.
  - reflexivity.
Defined.

(** X16: [getAnchors] needs an entry on either side of the position.  When
    no entry of the bucket starts after the position, or none ends at or
    before it, the result is none, also for a position that lies on an
    alignment block. *)
Theorem getAnchors_needs_both_sides {L : StdLib} (pwaln : Pwaln)
  (refCoords : Coords) (bucket : list PwalnEntry) :
  lookupZ (chrom refCoords) pwaln = Some bucket ->
  Forall (fun e => refStart e <= loc refCoords) bucket \/
  Forall (fun e => loc refCoords < refEnd e) bucket ->
  getAnchors pwaln refCoords = Ok None.
Proof.
  intros Hb Hside. unfold getAnchors. rewrite Hb.
  replace (candidates (loc refCoords) bucket) with (@None (list PwalnEntry));
    [reflexivity|].
  symmetry. unfold candidates. cbv zeta.
  set (st := scanAndTrim (loc refCoords) bucket).
  set (c := computeMajorChrom _ _ _).
  replace ((length (removeEntriesWithNonMajorQryChromosome
                      (anchorsUpstream st) c) =? 0)%nat
           || (length (removeEntriesWithNonMajorQryChromosome
                         (anchorsDownstream st) c) =? 0)%nat)
    with true; [reflexivity|].
  symmetry. apply orb_true_iff.
  destruct Hside as [Hnone|Hnone]; rewrite Forall_forall in Hnone.
  - right.
    assert (Hd : anchorsDownstream st = []).
    { unfold st, scanAndTrim. cbn [anchorsDownstream].
      rewrite scan_downstream by (simpl; unfold topn; lia). simpl.
      replace (List.filter (isDownstream (loc refCoords)) bucket)
        with (@nil PwalnEntry); [now rewrite ?firstn_nil|].
      symmetry. clear -Hnone. induction bucket as [|e t IH]; auto.
      simpl. unfold isDownstream at 1.
      replace (loc refCoords <? refStart e) with false
        by (symmetry; apply Z.ltb_ge; apply Hnone; simpl; auto).
      rewrite andb_false_r. apply IH. intros x Hx. apply Hnone. now right. }
    now rewrite Hd.
  - left.
    assert (Hu : anchorsUpstream st = []).
    { destruct (scanAndTrim_inv (loc refCoords) bucket)
        as (scanned & rest & Heq & (_ & Hsub & _) & _).
      fold st in Hsub.
      destruct (anchorsUpstream st) as [|e l]; auto. exfalso.
      destruct (Hsub e (or_introl eq_refl)) as [Hin Hle].
      assert (He : In e bucket) by (rewrite Heq; apply in_or_app; auto).
      specialize (Hnone e He). lia. }
    now rewrite Hu.
Qed.

Lemma getAnchors_needs_both_sides_witness :
  getAnchors exPwaln (mkCoords 0 1550) = Ok None.
Proof.
  apply (getAnchors_needs_both_sides (L := simpleLib) exPwaln
           (mkCoords 0 1550) exBucket).
  - reflexivity.
  - left. unfold exBucket. repeat constructor; simpl; lia.
Defined.

(** X17: [loadGenomeSizes] on well-formed sizes files.  When every species
    of the pwaln map has a file of lines "name, tabulator, size in decimal
    digits", with names free of tabulators and line feeds and sizes below
    2^31, the load returns and the genome size of each species is the sum
    of the sizes of its file, reduced modulo 2^32. *)
Theorem genome_sizes_sum_columns (fs : string -> option string)
  (dirName : string) (ipp : Ipp) (rows : string -> list (string * Z)) :
  (forall sp, In sp (map fst (pwalns_ ipp)) ->
     fs (sizesFileName dirName sp) = Some (sizesFile (rows sp)) /\
     Forall (fun row => plain_name (fst row) = true /\ 0 <= snd row < two31)
       (rows sp)) ->
  fst (loadGenomeSizes fs dirName ipp) = Ok tt /\
  forall sp, In sp (map fst (pwalns_ ipp)) ->
    lookupS sp (genomeSizes_ (snd (loadGenomeSizes fs dirName ipp)))
    = Some (totalSize (rows sp) mod two32).
Proof.
  intros Hfiles.
  assert (Hread : forall sp, In sp (map fst (pwalns_ ipp)) ->
            readSizes fs dirName sp = Ok (totalSize (rows sp) mod two32)).
  { intros sp Hin. destruct (Hfiles sp Hin) as [Hfs Hrows].
    now apply readSizes_sizesFile. }
  pose proof (sizesLoop_returns fs dirName (map fst (pwalns_ ipp)) []) as Hret.
  unfold loadGenomeSizes.
  destruct (sizesLoop fs dirName (map fst (pwalns_ ipp)) [])
    as [r sizes] eqn:Hloop.
  simpl in *.
  assert (Hr : r = Ok tt).
  { apply Hret. intros sp Hin. eexists. now apply Hread. }
  subst r. split; [reflexivity|].
  intros sp Hin.
  destruct (sizesLoop_ok _ _ _ _ _ Hloop) as [Hin' _].
  destruct (Hin' sp Hin) as (g & Hg & Hl).
  rewrite Hread in Hg by exact Hin. congruence.
Qed.

Lemma genome_sizes_sum_columns_witness :
  fst (loadGenomeSizes sizesOfA "dir" exIpp) = Ok tt /\
  forall sp, In sp (map fst (pwalns_ exIpp)) ->
    lookupS sp (genomeSizes_ (snd (loadGenomeSizes sizesOfA "dir" exIpp)))
    = Some (totalSize [("chr1"%string, 1000); ("chr2"%string, 500)]
            mod two32).
Proof.
  apply (genome_sizes_sum_columns sizesOfA "dir" exIpp
           (fun _ => [("chr1"%string, 1000); ("chr2"%string, 500)])).
  intros sp [<-|[]]. split.
  - reflexivity.
  - repeat constructor; simpl; unfold two31; lia.
Defined.
